(** * libfive: the expression tape and the simplex-cell tree

    A shallow embedding of [libfive/src/eval/tape.cpp] (tape construction,
    push / pop specialisation stack, register allocation, scoped handles)
    and of [libfive/src/render/brep/simplex/simplex_tree.cpp] (interval
    pruning, leaf vertex signs, bottom-up collapse, index assignment),
    followed by the properties proved about them.

    Conventions.  C++ [assert]s, [std::map::at] / [std::vector::at]
    exceptions and out-of-range [operator[]] accesses are modelled as errors
    of the [result] monad, so that a successful run of the model is a run of
    the program in which every assertion held.  Floating-point values and
    the numeric collaborators are kept abstract (section variables, and a
    class for the evaluators of the simplex tree). *)

From stdpp Require Import base option list gmap sorting.

Set Warnings "-clear-no-such-hyp,-register-all".

(** ** Errors *)

Inductive error : Type :=
| AssertFailed   (* an [assert] of the source does not hold *)
| OutOfRange     (* [.at()] throws, or an index is outside its vector *)
| NullPointer    (* a null or dangling pointer is dereferenced *)
| Diverged.      (* a loop of the source does not terminate *)

Inductive result (A : Type) : Type :=
| Ok (x : A)
| Err (e : error).
Arguments Ok {A} x.
Arguments Err {A} e.

#[global] Instance result_ret : MRet result := @Ok.
#[global] Instance result_bind : MBind result :=
  λ A B f m, match m with Ok x => f x | Err e => Err e end.
#[global] Instance result_fmap : FMap result :=
  λ A B f m, match m with Ok x => Ok (f x) | Err e => Err e end.

Definition assert_ (b : bool) : result unit :=
  if b then Ok () else Err AssertFailed.

(** [v[i]] and [v.at(i)] on a vector. *)
Definition at_ {A} (v : list A) (i : nat) : result A :=
  match v !! i with Some x => Ok x | None => Err OutOfRange end.

(** [v[i] = x] on a vector. *)
Definition vset {A} (i : nat) (x : A) (v : list A) : result (list A) :=
  if decide (i < length v) then Ok (<[i:=x]> v) else Err OutOfRange.

(** A [for] loop over a container, threading the loop state. *)
Fixpoint foldlM {A B} (f : B → A → result B) (l : list A) (s : B) : result B :=
  match l with
  | [] => Ok s
  | x :: l => s' ← f s x; foldlM f l s'
  end.

(** [std::map::insert] / [std::unordered_map::insert]: no effect when the key
    is already present. *)
Definition emplace `{Countable K} {V} (k : K) (v : V) (m : gmap K V) : gmap K V :=
  match m !! k with Some _ => m | None => <[k:=v]> m end.

(** ** Opcodes *)

Module Opcode.

(** Modelled from the spec: the opcode enumeration ([opcode.hpp] is not among
    the sources); the constructors are the primitive operations the data
    model lists. *)
Inductive Opcode : Type :=
| VAR_X | VAR_Y | VAR_Z | VAR_FREE | CONSTANT | ORACLE
| ADD | SUB | MUL | DIV | MIN | MAX
| NEG | ABS | SQRT | SIN | COS.

#[global] Instance Opcode_eq_dec : EqDecision Opcode.
Proof. solve_decision. Defined.

End Opcode.

(** ** The tape *)

Module Tape.
Import Opcode.

(** [Clause::Id] and [Tree::Id]: 0 is the sentinel / [nullptr]. *)
Abbreviation Id := nat (only parsing).
Abbreviation TreeId := nat (only parsing).

(** Modelled from the spec: the declarations of [tape.hpp] and [clause.hpp],
    which are not among the sources: [Clause] with the four fields the
    source reads, the answers [Keep] of a classifier, and the [Type] of a
    subtape. *)
Record Clause : Type := mkClause { op : Opcode; id : Id; a : Id; b : Id }.

#[global] Instance Clause_eq_dec : EqDecision Clause.
Proof. solve_decision. Defined.

Inductive Keep : Type := KEEP_BOTH | KEEP_A | KEEP_B | KEEP_ALWAYS.

#[global] Instance Keep_eq_dec : EqDecision Keep.
Proof. solve_decision. Defined.

Inductive Type_ : Type := BASE | INTERVAL | SPECIALIZED.

#[global] Instance Type_eq_dec : EqDecision Type_.
Proof. solve_decision. Defined.

(** The classifier handed to [push]:
    [std::function<Keep(Opcode, Clause::Id, Clause::Id, Clause::Id)>]. *)
Abbreviation Classifier := (Opcode → nat → nat → nat → Keep) (only parsing).

Definition hasDummyChildren (o : Opcode) : bool :=
  bool_decide (o = CONSTANT) || bool_decide (o = VAR_FREE) || bool_decide (o = ORACLE).

(** Modelled from the spec: the disposal a [Handle] owes ([Handle::Type],
    declared in [tape.hpp]). *)
Module HandleType.
Inductive t : Type := NONE | BASE | PUSH.
End HandleType.

(** Modelled from the spec: the fields of [Tape::Handle] (declared in
    [tape.hpp]), as the destructor and the move operations use them: the
    tape it belongs to ([None] is [nullptr]), its disposal, and the cursor
    to restore for a [BASE] handle. *)
Record Handle : Type := mkHandle {
  h_tape : option nat;
  h_type : HandleType.t;
  h_prev : nat
}.

Section TapeModel.
(** [F] stands for the floating-point numbers (constants, region bounds),
    [O] for the oracle objects; [fle] is [<=] on floats and [fzero] the value
    of a default-constructed interval bound. *)
Context {F O : Type} (fle : F → F → bool) (fzero : F).

(** Modelled from the spec: points, regions and intervals, by the
    components the source reads ([Eigen], [region.hpp] and [interval.hpp]
    are not among the sources). *)
Record Vec3 : Type := mkVec3 { vx : F; vy : F; vz : F }.
Record Region3 : Type := mkRegion3 { lower : Vec3; upper : Vec3 }.
Record Interval : Type := mkInterval { i_lower : F; i_upper : F }.

(** Modelled from the spec: one node of the flattened expression, as
    [Tree::ordered()] yields it ([tree.hpp] is not among the sources), with
    the fields the constructor reads. *)
Record Tree_ : Type := mkTree {
  t_id : TreeId;
  t_op : Opcode;
  t_rank : nat;
  t_value : F;
  t_oracle : option O;
  t_lhs : TreeId;
  t_rhs : TreeId
}.

(** Modelled from the spec: the [Subtape] record ([tape.hpp] is not among the
    sources): the clause sequence [t], the region box, the type, the
    register-slot map [m] and the [dummy] counter, which the spec calls a
    counter and which is kept here as a natural number. *)
Record Subtape : Type := mkSubtape {
  t : list Clause;
  X : Interval; Y : Interval; Z : Interval;
  type : Type_;
  m : list nat;
  dummy : nat
}.

(** [Subtape()]. *)
Definition Subtape_new : Subtape :=
  {| t := []; X := mkInterval fzero fzero; Y := mkInterval fzero fzero;
     Z := mkInterval fzero fzero; type := BASE; m := []; dummy := 0 |}.

Definition set_t (cl : list Clause) (s : Subtape) : Subtape :=
  {| t := cl; X := X s; Y := Y s; Z := Z s; type := type s; m := m s; dummy := dummy s |}.
Definition set_dummy (d : nat) (s : Subtape) : Subtape :=
  {| t := t s; X := X s; Y := Y s; Z := Z s; type := type s; m := m s; dummy := d |}.
Definition set_m (v : list nat) (s : Subtape) : Subtape :=
  {| t := t s; X := X s; Y := Y s; Z := Z s; type := type s; m := v; dummy := dummy s |}.

(** Modelled from the spec: the fields of [Tape] (declared in [tape.hpp]),
    as the source uses them: [tapes] is the stack of subtapes and [tape]
    the cursor (an iterator into [tapes], kept as its position). *)
Record Tape : Type := mkTape {
  constants : list F;
  vars : list TreeId;
  oracles : list O;
  tapes : list Subtape;
  tape : nat;
  num_clauses : nat;
  disabled : list bool;
  remap : list Id
}.

Definition set_tapes (ts : list Subtape) (T : Tape) : Tape :=
  {| constants := constants T; vars := vars T; oracles := oracles T;
     tapes := ts; tape := tape T; num_clauses := num_clauses T;
     disabled := disabled T; remap := remap T |}.
Definition set_cursor (c : nat) (T : Tape) : Tape :=
  {| constants := constants T; vars := vars T; oracles := oracles T;
     tapes := tapes T; tape := c; num_clauses := num_clauses T;
     disabled := disabled T; remap := remap T |}.
Definition set_scratch (d : list bool) (r : list Id) (T : Tape) : Tape :=
  {| constants := constants T; vars := vars T; oracles := oracles T;
     tapes := tapes T; tape := tape T; num_clauses := num_clauses T;
     disabled := d; remap := r |}.

(** [*tape]: the subtape under the cursor. *)
Definition current (T : Tape) : result Subtape := at_ (tapes T) (tape T).


(** *** Construction: [Tape::Tape(const Tree root)] *)

Definition ctor_state : Type :=
  list Clause * gmap nat nat * list F * list nat * list O.

(** [ids.at(p)]. *)
Definition ids_at (ids : gmap nat nat) (p : TreeId) : result Id :=
  match ids !! p with Some i => Ok i | None => Err OutOfRange end.

(** One iteration of the loop over [flat]; [tape_] is the provisional list,
    filled by [push_front]. *)
Definition ctor_step (st : ctor_state) (n : Tree_) : result ctor_state :=
  let '(tape_, ids, cs, vs, os) := st in
  let i := size ids in
  let ids := emplace (t_id n) i ids in
  if decide (0 < t_rank n) then
    la ← ids_at ids (t_lhs n);
    lb ← ids_at ids (t_rhs n);
    Ok (mkClause (t_op n) i la lb :: tape_, ids, cs, vs, os)
  else if decide (t_op n = CONSTANT) then
    Ok (mkClause (t_op n) i (length cs) 0 :: tape_, ids, cs ++ [t_value n], vs, os)
  else if decide (t_op n = VAR_FREE) then
    Ok (mkClause (t_op n) i (length vs) 0 :: tape_, ids, cs, vs ++ [t_id n], os)
  else if decide (t_op n = ORACLE) then
    match t_oracle n with
    | None => Err AssertFailed
    | Some o => Ok (mkClause ORACLE i (length os) 0 :: tape_, ids, cs, vs, os ++ [o])
    end
  else
    _ ← assert_ (bool_decide (t_op n = VAR_X) || bool_decide (t_op n = VAR_Y)
                 || bool_decide (t_op n = VAR_Z));
    Ok (mkClause (t_op n) i 0 0 :: tape_, ids, cs, vs, os).

(** *** Register allocation: [Tape::assignSlots] *)

Inductive RegOp : Type := DROP | LOAD.

#[global] Instance RegOp_eq_dec : EqDecision RegOp.
Proof. solve_decision. Defined.

(** [enum RegOp { DROP, LOAD }]: [DROP < LOAD]. *)
Definition RegOp_lt (o1 o2 : RegOp) : bool :=
  match o1, o2 with DROP, LOAD => true | _, _ => false end.

(** [operator<] of [std::pair<unsigned, RegOp>]. *)
Definition key_lt (k1 k2 : nat * RegOp) : bool :=
  bool_decide (k1.1 < k2.1) || (bool_decide (k1.1 = k2.1) && RegOp_lt k1.2 k2.2).

Definition Event : Type := (nat * RegOp) * nat.

(** [std::multimap::insert]: after every element whose key is not greater. *)
Fixpoint mm_insert (e : Event) (l : list Event) : list Event :=
  match l with
  | [] => [e]
  | x :: l' => if key_lt e.1 x.1 then e :: x :: l' else x :: mm_insert e l'
  end.

(** [std::set<unsigned>::insert], the set kept as its increasing sequence. *)
Fixpoint set_insert (x : nat) (l : list nat) : list nat :=
  match l with
  | [] => [x]
  | y :: l' =>
      if decide (x < y) then x :: y :: l'
      else if decide (x = y) then y :: l'
      else y :: set_insert x l'
  end.

(** [itr->second.second = i + 1] after [ranges.find(ptr)]. *)
Definition touch (ptr : Id) (e : nat) (ranges : gmap nat (nat * nat))
  : result (gmap nat (nat * nat)) :=
  match ranges !! ptr with
  | None => Err AssertFailed
  | Some (f, _) => Ok (<[ptr := (f, e)]> ranges)
  end.

(** One iteration of the reverse walk that records the active ranges. *)
Definition ranges_step (st : gmap nat (nat * nat) * nat) (c : Clause)
  : result (gmap nat (nat * nat) * nat) :=
  let '(ranges, i) := st in
  _ ← assert_ (bool_decide (id c ≠ 0));
  let ranges := emplace (id c) (i, i + 1) ranges in
  ranges ← (if hasDummyChildren (op c) then Ok ranges
            else ranges ← touch (a c) (i + 1) ranges; touch (b c) (i + 1) ranges);
  Ok (ranges, S i).

(** The ranges of a clause sequence: [ranges] after the first loop. *)
Definition live_ranges (cl : list Clause) : result (gmap nat (nat * nat)) :=
  fst <$> foldlM ranges_step (reverse cl) ({[0 := (0, 0)]}, 0).

(** The iteration order of [std::unordered_map] is unspecified; it is the
    section variable [hash_order], applied to the entries of the map. *)
Context (hash_order : list (nat * (nat * nat)) → list (nat * (nat * nat))).

Definition reg_ops_of (entries : list (nat * (nat * nat))) : list Event :=
  foldl (λ acc r, mm_insert ((r.2.2, DROP), r.1) (mm_insert ((r.2.1, LOAD), r.1) acc))
        [] entries.

Record RegState : Type := mkRegState {
  active : gmap nat nat;
  assigned : gmap nat nat;
  inactive : list nat
}.

(** One iteration of the walk over the LOAD / DROP tape. *)
Definition reg_step (st : RegState) (r : Event) : result RegState :=
  if decide (r.2 = 0) then Ok st
  else match r.1.2 with
  | DROP =>
      match active st !! r.2 with
      | None => Err AssertFailed
      | Some s => Ok {| active := delete r.2 (active st);
                        assigned := assigned st;
                        inactive := set_insert s (inactive st) |}
      end
  | LOAD =>
      let '(chosen, rest) :=
        match inactive st with
        | x :: rest => (x, rest)
        | [] => (size (active st), [])
        end in
      Ok {| active := emplace r.2 chosen (active st);
            assigned := emplace r.2 chosen (assigned st);
            inactive := rest |}
  end.

(** [tape->m.at(a.first) = a.second] for every entry of [assigned]. *)
Definition store_slot (mv : list nat) (e : nat * nat) : result (list nat) :=
  if decide (e.1 < length mv) then Ok (<[e.1 := e.2]> mv) else Err OutOfRange.

(** The slot of every clause id, as the walk assigns them. *)
Definition slots_of (cl : list Clause) : result (gmap nat nat) :=
  ranges ← live_ranges cl;
  st ← foldlM reg_step (reg_ops_of (hash_order (map_to_list ranges)))
              (mkRegState ∅ ∅ []);
  Ok (assigned st).

Definition assignSlots (T : Tape) : result Tape :=
  cur ← current T;
  asg ← slots_of (t cur);
  mv ← foldlM store_slot (map_to_list asg) (resize (num_clauses T) 0 (m cur));
  Ok (set_tapes (<[tape T := set_m mv cur]> (tapes T)) T).

Definition Tape_ctor (flat : list Tree_) : result Tape :=
  '(tape_, ids, cs, vs, os) ← foldlM ctor_step flat ([], {[0 := 0]}, [], [], []);
  let T := {| constants := cs; vars := vs; oracles := os;
              tapes := [set_t tape_ Subtape_new]; tape := 0;
              num_clauses := size ids; disabled := []; remap := [] |} in
  T ← assignSlots T;
  Ok (set_scratch (resize (num_clauses T) false (disabled T))
                  (resize (num_clauses T) 0 (remap T)) T).

(** *** [Tape::pop] *)

Definition pop (T : Tape) : result Tape :=
  _ ← assert_ (bool_decide (tape T ≠ 0));
  cur ← current T;
  if decide (1 < dummy cur)
  then Ok (set_tapes (<[tape T := set_dummy (dummy cur - 1) cur]> (tapes T)) T)
  else Ok (set_cursor (tape T - 1) T).

(** *** [Tape::utilization] *)

(** The conversion of a size to [double] and the division of two doubles. *)
Context (F_of_size : nat → F) (fdiv : F → F → F).

(** [tape->t.size() / double(tapes.front().t.size())]. *)
Definition utilization (T : Tape) : result F :=
  cur ← current T;
  front ← at_ (tapes T) 0;
  Ok (fdiv (F_of_size (length (t cur))) (F_of_size (length (t front)))).

(** *** [Tape::rwalk] and [Tape::walk] *)

(** The callback of a walk, with what it captures: it is called with the
    four fields of a clause and may change its own state [S] and the flag
    [abort], which the walk reads before every call. *)
Definition Visitor (S : Type) : Type := Opcode → Id → Id → Id → S * bool → S * bool.

(** [for (itr = begin; itr != end && !abort; ++itr) fn(...)] over a clause
    sequence; the second component of the state is [abort]. *)
Fixpoint walk_loop {S} (fn : Visitor S) (cl : list Clause) (st : S * bool) : S * bool :=
  match cl with
  | [] => st
  | c :: cl => if st.2 then st else walk_loop fn cl (fn (op c) (id c) (a c) (b c) st)
  end.

(** [rwalk]: the loop runs over the reversed sequence, then the assertion,
    then the id of the first clause is returned. *)
Definition rwalk {S} (fn : Visitor S) (st : S * bool) (T : Tape)
  : result (Id * (S * bool)) :=
  cur ← current T;
  let st := walk_loop fn (reverse (t cur)) st in
  _ ← assert_ (bool_decide (0 < length (t cur)));
  match t cur with
  | c :: _ => Ok (id c, st)
  | [] => Err AssertFailed
  end.

Definition walk {S} (fn : Visitor S) (st : S * bool) (T : Tape) : result (S * bool) :=
  cur ← current T;
  Ok (walk_loop fn (t cur) st).

(** *** [Tape::push] *)

Definition walk_state : Type := list bool * list nat * bool.

(** One iteration of the classifier walk (the first loop of [push]). *)
Definition push_step (fn : Classifier) (st : walk_state) (c : Clause)
  : result walk_state :=
  let '(dis, rem, has_choices) := st in
  d ← at_ dis (id c);
  if (d : bool) then Ok st
  else
    '(dis, rem, has_choices) ←
      match fn (op c) (id c) (a c) (b c) with
      | KEEP_A => dis ← vset (a c) false dis;
                  rem ← vset (id c) (a c) rem;
                  Ok (dis, rem, has_choices)
      | KEEP_B => dis ← vset (b c) false dis;
                  rem ← vset (id c) (b c) rem;
                  Ok (dis, rem, has_choices)
      | KEEP_BOTH => Ok (dis, rem, true)
      | KEEP_ALWAYS => Ok (dis, rem, has_choices)
      end;
    r ← at_ rem (id c);
    if decide (r ≠ 0) then
      dis ← vset (id c) true dis; Ok (dis, rem, has_choices)
    else if negb (hasDummyChildren (op c)) then
      dis ← vset (a c) false dis;
      dis ← vset (b c) false dis;
      Ok (dis, rem, has_choices)
    else Ok (dis, rem, has_choices).

(** [for (r = x; remap[r]; r = remap[r]);] with a bound on the number of
    iterations.  A chain that visits more entries than [remap] has is in a
    cycle, so with [fuel] above [length rem] the model reports [Diverged]
    exactly when the loop of the source does not terminate. *)
Fixpoint follow (rem : list nat) (fuel : nat) (r : Id) : result Id :=
  match fuel with
  | 0 => Err Diverged
  | S fuel =>
      nxt ← at_ rem r;
      if decide (nxt = 0) then Ok r else follow rem fuel nxt
  end.

(** The second loop of [push]: the clauses that stay enabled, operands
    rewritten through [remap]; each is appended by [push_back]. *)
Fixpoint emit (dis : list bool) (rem : list nat) (cl : list Clause)
  : result (list Clause) :=
  match cl with
  | [] => Ok []
  | c :: cl =>
      d ← at_ dis (id c);
      if (d : bool) then emit dis rem cl
      else
        c' ← (if decide (op c = ORACLE) then Ok (mkClause (op c) (id c) (a c) (b c))
              else ra ← follow rem (S (length rem)) (a c);
                   rb ← follow rem (S (length rem)) (b c);
                   Ok (mkClause (op c) (id c) ra rb));
        rest ← emit dis rem cl;
        Ok (c' :: rest)
  end.

(** The classifier walk from the reset scratch arrays. *)
Definition classify (fn : Classifier) (T : Tape) (cl : list Clause)
  : result walk_state :=
  let dis := replicate (length (disabled T)) true in
  let rem := replicate (length (remap T)) 0 in
  root ← (match cl with [] => Err AssertFailed | c :: _ => Ok c end);
  dis ← vset (id root) false dis;
  foldlM (push_step fn) cl (dis, rem, false).

(** Modelled from the spec: the constructors of [Handle] from a tape and
    from a tape and a cursor
    ([tape.hpp] is not among the sources): the first owes a pop, the second
    the restoration of the cursor it is given. *)
Definition Handle_push (this : nat) : Handle :=
  mkHandle (Some this) HandleType.PUSH 0.
Definition Handle_base (this : nat) (prev : nat) : Handle :=
  mkHandle (Some this) HandleType.BASE prev.

(** [push]; [this] is the address of the tape.  The assertion on the
    capacity of the reused vector concerns allocation only and is not
    modelled. *)
Definition push (this : nat) (fn : Classifier) (ty : Type_) (r : Region3)
    (T : Tape) : result (Tape * Handle) :=
  cur ← current T;
  if decide (dummy cur ≠ 0) then
    Ok (set_tapes (<[tape T := set_dummy (S (dummy cur)) cur]> (tapes T)) T,
        Handle_push this)
  else
    '(dis, rem, has_choices) ← classify fn T (t cur);
    let prev_tape := cur in
    let c' := S (tape T) in
    let ts := if decide (c' = length (tapes T))
              then tapes T ++ [Subtape_new]
              else alter (set_t []) c' (tapes T) in
    new ← at_ ts c';
    _ ← assert_ (bool_decide (c' ≠ 0));
    cl ← emit dis rem (t prev_tape);
    _ ← assert_ (bool_decide (length cl ≤ length (t prev_tape)));
    let new := {| t := cl;
                  X := mkInterval (vx (lower r)) (vx (upper r));
                  Y := mkInterval (vy (lower r)) (vy (upper r));
                  Z := mkInterval (vz (lower r)) (vz (upper r));
                  type := ty; m := m new;
                  dummy := if (has_choices : bool) then 0 else 1 |} in
    Ok (set_scratch dis rem (set_cursor c' (set_tapes (<[c' := new]> ts) T)),
        Handle_push this).

(** *** [Tape::getBase] *)

Definition in_box (p : Vec3) (s : Subtape) : bool :=
  fle (i_lower (X s)) (vx p) && fle (vx p) (i_upper (X s)) &&
  fle (i_lower (Y s)) (vy p) && fle (vy p) (i_upper (Y s)) &&
  fle (i_lower (Z s)) (vz p) && fle (vz p) (i_upper (Z s)).

(** The [while (tape != tapes.begin())] loop, by recursion on the cursor. *)
Fixpoint getBase_walk (p : Vec3) (ts : list Subtape) (c : nat) : result nat :=
  match c with
  | 0 => Ok 0
  | S c' =>
      s ← at_ ts c;
      if bool_decide (type s = INTERVAL) && in_box p s then Ok c
      else getBase_walk p ts c'
  end.

Definition getBase (this : nat) (p : Vec3) (T : Tape) : result (Tape * Handle) :=
  let prev_tape := tape T in
  c ← getBase_walk p (tapes T) (tape T);
  Ok (set_cursor c T, Handle_base this prev_tape).

(** *** [Tape::Handle] *)

(** [~Handle()], run on the tape the handle points to. *)
Definition Handle_dtor (h : Handle) (T : Tape) : result Tape :=
  match h_type h with
  | HandleType.NONE => Ok T
  | HandleType.BASE =>
      _ ← assert_ (bool_decide (is_Some (h_tape h)));
      Ok (set_cursor (h_prev h) T)
  | HandleType.PUSH =>
      _ ← assert_ (bool_decide (is_Some (h_tape h)));
      pop T
  end.

(** [Handle(Handle&& other)]: the handle constructed and [other] afterwards. *)
Definition Handle_move (other : Handle) : Handle * Handle :=
  (mkHandle (h_tape other) (h_type other) (h_prev other),
   mkHandle (h_tape other) HandleType.NONE (h_prev other)).

(** [operator=(Handle&& other)]: [*this] and [other] afterwards. *)
Definition Handle_move_assign (this other : Handle) : Handle * Handle :=
  (mkHandle (h_tape other) (h_type other) (h_prev other),
   mkHandle (h_tape other) HandleType.NONE (h_prev other)).

End TapeModel.
End Tape.

(** ** The simplex tree *)

Module Simplex.

(** Modelled from the spec: [Interval::State] ([interval.hpp] is not among
    the sources). *)
Module Interval.
Inductive State : Type := EMPTY | FILLED | AMBIGUOUS | UNKNOWN.
#[global] Instance State_eq_dec : EqDecision State.
Proof. solve_decision. Defined.
End Interval.
Import Interval.

(** The collaborators of the tree, by what they return.  [Q] is the QEF
    accumulator with its zero and its sum, [V] the vertex positions, [D] the
    residual errors with their [<] and [std::max], [Fl] the floats an
    evaluator returns, [Rg] the regions, [H] the tape handles, [I] the
    intervals, [Nb] the neighbour tables ([SimplexNeighbors<N>]).

    The evaluators ([XTreeEvaluator]): [interval.evalAndPush] gives the
    interval, the pushed tape and the value [isSafe()] has afterwards;
    [Interval::state] classifies an interval; [sample_corner r tape i q] is
    the QEF of corner [i] after the position, normal(s) and value found
    there are inserted into [q]; [array_value] is
    [array.values(1, tape)[0]] at a vertex, [fl_eq0] and [fl_lt0] are
    [out == 0] and [out < 0]; [feature_isInside] is [feature.isInside];
    [solve_subspace s qefs r] sums the QEFs contained in subspace [s],
    solves the bounded QEF and unpacks the vertex, giving it with its error.

    [NeighborIndex] and [CornerIndex] ([neighbors.hpp] is not among the
    sources): the bitmasks [fixed<N>()], [floating()], [pos()] of a subspace
    index, [fromPosAndFloating], [isCorner()], and the subspace of a corner,
    [CornerIndex(i).neighbor()].

    [SimplexNeighbors<N>]: the empty table, [check(i)] (the subspace a
    neighbour already owns for subspace [i]) and the subspaces in which
    [getIndex(i)] looks for an index, in its order.

    [fresh_vert l] and [fresh_refcount l]: what the storage at address [l]
    holds where the constructor of a subspace writes nothing. *)
Class Collaborators (Q V D Fl Rg H I Nb : Type) : Type := {
  qzero : Q;
  qadd : Q → Q → Q;
  vzero : V;
  dzero : D;
  dlt : D → D → bool;
  dmax : D → D → D;
  region_level : Rg → nat;
  interval_evalAndPush : Rg → H → I * H * bool;
  Interval_state : I → State;
  sample_corner : Rg → H → nat → Q → Q;
  array_value : V → Rg → H → Fl;
  fl_eq0 : Fl → bool;
  fl_lt0 : Fl → bool;
  feature_isInside : V → Rg → H → bool;
  solve_subspace : nat → list Q → Rg → V * D;
  ni_fixed : nat → nat;
  ni_floating : nat → nat;
  ni_pos : nat → nat;
  ni_fromPosAndFloating : nat → nat → nat;
  ni_isCorner : nat → bool;
  corner_neighbor : nat → nat;
  nb_empty : Nb;
  nb_check : Nb → nat → option nat;
  nb_candidates : Nb → nat → list nat;
  fresh_vert : nat → V;
  fresh_refcount : nat → Z
}.

Section SimplexModel.
(** [Dim] is the dimension [N] of the tree. *)
Context (Dim : nat).
Context {Q V D Fl Rg H I Nb : Type} `{!Collaborators Q V D Fl Rg H I Nb}.

(** Modelled from the spec: the fields of [SimplexLeafSubspace<N>]
    (declared in [simplex_tree.hpp], which is not among the sources), as the
    constructor and [reset] set them. *)
Record Subspace : Type := mkSubspace {
  qef : Q;
  vert : V;
  inside : bool;
  index : N;
  refcount : Z
}.

(** [reset()]: every field is cleared. *)
Definition Subspace_new : Subspace :=
  {| qef := qzero; vert := vzero; inside := false; index := 0%N; refcount := 0%Z |}.

(** [SimplexLeafSubspace()], constructed at address [l]: the constructor
    sets [inside] and [index], the QEF is all zeros by its own constructor,
    and [vert] and [refcount] are not written. *)
Definition Subspace_ctor (l : nat) : Subspace :=
  {| qef := qzero; vert := fresh_vert l; inside := false; index := 0%N;
     refcount := fresh_refcount l |}.

Definition set_qef (q : Q) (s : Subspace) : Subspace :=
  {| qef := q; vert := vert s; inside := inside s; index := index s; refcount := refcount s |}.
Definition set_vert (v : V) (s : Subspace) : Subspace :=
  {| qef := qef s; vert := v; inside := inside s; index := index s; refcount := refcount s |}.
Definition set_inside (i : bool) (s : Subspace) : Subspace :=
  {| qef := qef s; vert := vert s; inside := i; index := index s; refcount := refcount s |}.
Definition set_index (i : N) (s : Subspace) : Subspace :=
  {| qef := qef s; vert := vert s; inside := inside s; index := i; refcount := refcount s |}.
Definition set_refcount (r : Z) (s : Subspace) : Subspace :=
  {| qef := qef s; vert := vert s; inside := inside s; index := index s; refcount := r |}.

(** Modelled from the spec: the fields of [SimplexLeaf<N>] (declared in
    [simplex_tree.hpp]) that [reset] sets and the tree uses: [sub] holds the
    3^N pointers to the subspaces ([None] is [nullptr]). *)
Record Leaf : Type := mkLeaf {
  level : nat;
  tape : option H;
  sub : list (option nat)
}.

(** [SimplexLeaf()] and [reset()]. *)
Definition Leaf_new : Leaf :=
  {| level := 0; tape := None; sub := replicate (3 ^ Dim) None |}.

(** Modelled from the spec: the fields of [SimplexTree<N>] and of its base
    [XTree] (declared in [simplex_tree.hpp] and [xtree.hpp]) that the source
    uses: [children] are the 2^N atomic child pointers; a cell owns its
    leaf and its children, so both are kept in place.  [parent] tells
    whether the back-pointer is set. *)
Inductive SimplexTree : Type := mkCell {
  type : State;
  leaf : option Leaf;
  children : list (option SimplexTree);
  parent : bool;
  parent_index : nat;
  pending : Z
}.

Definition set_type (ty : State) (c : SimplexTree) : SimplexTree :=
  {| type := ty; leaf := leaf c; children := children c; parent := parent c;
     parent_index := parent_index c; pending := pending c |}.
Definition set_leaf (l : option Leaf) (c : SimplexTree) : SimplexTree :=
  {| type := type c; leaf := l; children := children c; parent := parent c;
     parent_index := parent_index c; pending := pending c |}.
Definition set_children (cs : list (option SimplexTree)) (c : SimplexTree) : SimplexTree :=
  {| type := type c; leaf := leaf c; children := cs; parent := parent c;
     parent_index := parent_index c; pending := pending c |}.
Definition set_pending (p : Z) (c : SimplexTree) : SimplexTree :=
  {| type := type c; leaf := leaf c; children := children c; parent := parent c;
     parent_index := parent_index c; pending := p |}.

(** The memory the cells share: the subspaces by address, and the object
    pools.  Modelled from the spec: the object pools ([object_pool.hpp] is
    not among the sources): [get] hands out a released object after its
    [reset], or a newly constructed one when none is left; [put] keeps the
    object for reuse. *)
Record Mem : Type := mkMem {
  heap : gmap nat Subspace;
  next_loc : nat;
  free_subs : list nat;
  free_leaves : list Leaf;
  free_trees : list SimplexTree
}.

(** Computations on the shared memory that may fail. *)
Definition M (A : Type) : Type := Mem → result (A * Mem).

#[global] Instance M_ret : MRet M := λ A x m, Ok (x, m).
#[global] Instance M_bind : MBind M :=
  λ A B f c m, match c m with Ok (x, m') => f x m' | Err e => Err e end.

Definition fail {A} (e : error) : M A := λ _, Err e.
Definition massert (b : bool) : M unit :=
  if b then mret () else fail AssertFailed.

Fixpoint foldlS {A B} (f : B → A → M B) (l : list A) (s : B) : M B :=
  match l with
  | [] => mret s
  | x :: l => s' ← f s x; foldlS f l s'
  end.

(** [*p] and [*p = s] for a pointer to a subspace. *)
Definition deref (p : option nat) : M Subspace :=
  λ m, match p with
       | None => Err NullPointer
       | Some l => match heap m !! l with
                   | Some s => Ok (s, m)
                   | None => Err NullPointer
                   end
       end.
Definition update (p : option nat) (f : Subspace → Subspace) : M unit :=
  λ m, match p with
       | None => Err NullPointer
       | Some l =>
           match heap m !! l with
           | Some s => Ok ((), {| heap := <[l := f s]> (heap m); next_loc := next_loc m;
                                  free_subs := free_subs m; free_leaves := free_leaves m;
                                  free_trees := free_trees m |})
           | None => Err NullPointer
           end
       end.

Definition pool_get_sub : M nat :=
  λ m, match free_subs m with
       | l :: rest =>
           Ok (l, {| heap := <[l := Subspace_new]> (heap m); next_loc := next_loc m;
                     free_subs := rest; free_leaves := free_leaves m;
                     free_trees := free_trees m |})
       | [] =>
           Ok (next_loc m,
               {| heap := <[next_loc m := Subspace_ctor (next_loc m)]> (heap m);
                  next_loc := S (next_loc m);
                  free_subs := []; free_leaves := free_leaves m;
                  free_trees := free_trees m |})
       end.
Definition pool_put_sub (l : nat) : M unit :=
  λ m, Ok ((), {| heap := heap m; next_loc := next_loc m;
                  free_subs := l :: free_subs m; free_leaves := free_leaves m;
                  free_trees := free_trees m |}).
Definition pool_get_leaf : M Leaf :=
  λ m, Ok (Leaf_new, {| heap := heap m; next_loc := next_loc m;
                        free_subs := free_subs m; free_leaves := tail (free_leaves m);
                        free_trees := free_trees m |}).
Definition pool_put_leaf (lf : Leaf) : M unit :=
  λ m, Ok ((), {| heap := heap m; next_loc := next_loc m;
                  free_subs := free_subs m; free_leaves := lf :: free_leaves m;
                  free_trees := free_trees m |}).
Definition pool_put_tree (c : SimplexTree) : M unit :=
  λ m, Ok ((), {| heap := heap m; next_loc := next_loc m;
                  free_subs := free_subs m; free_leaves := free_leaves m;
                  free_trees := c :: free_trees m |}).

(** [SimplexLeaf<N>::releaseTo]. *)
Definition release_sub (p : option nat) : M unit :=
  s ← deref p;
  _ ← update p (set_refcount (refcount s - 1));
  if decide (refcount s - 1 = 0)%Z
  then match p with Some l => pool_put_sub l | None => fail NullPointer end
  else mret ().

Definition Leaf_releaseTo (lf : Leaf) : M unit :=
  _ ← foldlS (λ _ p, release_sub p) (sub lf) ();
  pool_put_leaf {| level := level lf; tape := tape lf;
                   sub := replicate (length (sub lf)) None |}.

(** [SimplexTree<N>::releaseTo]. *)
Definition releaseTo (c : SimplexTree) : M unit :=
  _ ← match leaf c with
      | Some lf => Leaf_releaseTo lf
      | None => mret ()
      end;
  pool_put_tree (set_leaf None c).

(** Modelled from the spec: [isBranch], [releaseChildren] and [done] of
    [XTree] ([xtree.cpp] is not among the sources).  A cell is a branch when
    it has children; releasing the children returns each of them to the
    pools and clears its slot. *)
Definition isBranch (c : SimplexTree) : bool :=
  match children c with
  | Some _ :: _ => true
  | _ => false
  end.

Definition releaseChildren (c : SimplexTree) : M SimplexTree :=
  _ ← foldlS (λ _ ch, match ch with Some t => releaseTo t | None => mret () end)
             (children c) ();
  mret (set_children (replicate (length (children c)) None) c).

(** What a call on a cell leaves behind: the cell, and whether it called
    [done()] (which publishes the cell to its parent). *)
Record Outcome (A : Type) : Type := mkOutcome {
  value : A;
  cell : SimplexTree;
  done : bool
}.
Arguments mkOutcome {A} value cell done.
Arguments value {A} o.
Arguments cell {A} o.
Arguments done {A} o.

(** [leaf->sub[i]] of a leaf. *)
Definition sub_at (lf : Leaf) (i : nat) : M (option nat) :=
  match sub lf !! i with Some p => mret p | None => fail OutOfRange end.

(** The [Unroller]: positions the vertex of every subspace that is not
    solved yet, from index 3^N - 1 down to 0 ([idx] lists the indices in
    that order), and returns the largest error. *)
Definition solve_one (lf : Leaf) (already_solved : list bool) (region : Rg)
    (s : nat) : M D :=
  match already_solved !! s with
  | None => fail OutOfRange
  | Some true => mret dzero
  | Some false =>
      qefs ← foldlS (λ qs p, sp ← deref p; mret (qs ++ [qef sp])) (sub lf) [];
      let sol := solve_subspace s qefs region in
      p ← sub_at lf s;
      _ ← update p (set_vert sol.1);
      mret sol.2
  end.

Fixpoint unroll (lf : Leaf) (already_solved : list bool) (region : Rg)
    (idx : list nat) : M D :=
  match idx with
  | [] => mret dzero
  | s :: idx =>
      e ← solve_one lf already_solved region s;
      r ← unroll lf already_solved region idx;
      mret (dmax e r)
  end.

Definition Unroller (lf : Leaf) (already_solved : list bool) (region : Rg) : M D :=
  unroll lf already_solved region (reverse (seq 0 (3 ^ Dim))).

(** *** [SimplexTree<N>::findLeafVertices] *)

(** One iteration of the loop that borrows a subspace from a neighbour or
    takes one from the pool. *)
Definition borrow_step (neighbors : Nb) (st : list (option nat) * list bool)
    (i : nat) : M (list (option nat) * list bool) :=
  _ ← massert (bool_decide (i < length st.1));
  r ← match nb_check neighbors i with
      | Some l => mret (Some l, <[i := true]> st.2)
      | None => l ← pool_get_sub; mret (Some l, st.2)
      end;
  _ ← update r.1 (λ s, set_refcount (refcount s + 1) s);
  mret (<[i := r.1]> st.1, r.2).

(** One corner: its position, normal(s) and value go into the QEF of the
    corner's subspace, unless that subspace was borrowed. *)
Definition corner_step (lf : Leaf) (already_solved : list bool) (htape : H)
    (region : Rg) (_ : unit) (i : nat) : M unit :=
  match already_solved !! corner_neighbor i with
  | None => fail OutOfRange
  | Some true => mret ()
  | Some false =>
      p ← sub_at lf (corner_neighbor i);
      sp ← deref p;
      update p (set_qef (sample_corner region htape i (qef sp)))
  end.

(** [SimplexTree<N>::saveVertexSigns]. *)
Definition sign_step (lf : Leaf) (already_solved : list bool) (htape : H)
    (region : Rg) (_ : unit) (i : nat) : M unit :=
  match already_solved !! i with
  | None => fail OutOfRange
  | Some true => mret ()
  | Some false =>
      p ← sub_at lf i;
      sp ← deref p;
      let out := array_value (vert sp) region htape in
      let inside := if fl_eq0 out then feature_isInside (vert sp) region htape
                    else fl_lt0 out in
      update p (set_inside inside)
  end.

Definition saveVertexSigns (c : SimplexTree) (htape : H) (region : Rg)
    (already_solved : list bool) : M unit :=
  match leaf c with
  | None => fail AssertFailed
  | Some lf =>
      _ ← massert (bool_decide (type c = AMBIGUOUS));
      foldlS (sign_step lf already_solved htape region) (seq 0 (3 ^ Dim)) ()
  end.

Definition findLeafVertices (c : SimplexTree) (htape : H) (region : Rg)
    (neighbors : Nb) : M SimplexTree :=
  match leaf c with
  | None => fail AssertFailed
  | Some lf =>
      st ← foldlS (borrow_step neighbors) (seq 0 (3 ^ Dim))
                  (sub lf, replicate (3 ^ Dim) false);
      let lf := {| level := level lf; tape := tape lf; sub := st.1 |} in
      let already_solved := st.2 in
      let c := set_leaf (Some lf) c in
      _ ← foldlS (corner_step lf already_solved htape region) (seq 0 (2 ^ Dim)) ();
      _ ← Unroller lf already_solved region;
      _ ← (if decide (type c = AMBIGUOUS)
           then saveVertexSigns c htape region already_solved
           else _ ← massert (bool_decide (type c = FILLED ∨ type c = EMPTY));
                foldlS (λ _ p, update p (set_inside (bool_decide (type c = FILLED))))
                       (sub lf) ());
      mret c
  end.

(** [SimplexTree<N>::checkVertexSigns]. *)
Definition checkVertexSigns (c : SimplexTree) : M SimplexTree :=
  match leaf c with
  | None => fail NullPointer
  | Some lf =>
      '(all_inside, all_outside) ←
        foldlS (λ (acc : bool * bool) p,
                  sp ← deref p;
                  mret (acc.1 && inside sp, acc.2 && negb (inside sp)))
               (sub lf) (true, true);
      if (all_inside : bool) then
        _ ← massert (negb all_outside); mret (set_type FILLED c)
      else if (all_outside : bool) then
        _ ← massert (negb all_inside); mret (set_type EMPTY c)
      else mret (set_type AMBIGUOUS c)
  end.

(** *** [SimplexTree<N>::evalInterval] *)

Definition evalInterval (c : SimplexTree) (htape : H) (region : Rg) : M (Outcome H) :=
  let o := interval_evalAndPush region htape in
  let c := set_type (Interval_state o.1.1) c in
  let r := if (o.2 : bool) then (c, o.1.2) else (set_type AMBIGUOUS c, htape) in
  let c := r.1 in
  if decide (type c = FILLED ∨ type c = EMPTY) then
    lf ← pool_get_leaf;
    let lf := {| level := region_level region; tape := tape lf; sub := sub lf |} in
    c ← findLeafVertices (set_leaf (Some lf) c) htape region nb_empty;
    mret (mkOutcome r.2 c true)
  else mret (mkOutcome r.2 c false).

(** *** [SimplexTree<N>::evalLeaf] *)

Definition evalLeaf (c : SimplexTree) (htape : H) (region : Rg) (neighbors : Nb)
  : M (Outcome unit) :=
  lf ← pool_get_leaf;
  let lf := {| level := region_level region; tape := Some htape; sub := sub lf |} in
  _ ← massert (bool_decide (region_level region = 0));
  let c := set_type AMBIGUOUS (set_leaf (Some lf) c) in
  c ← findLeafVertices c htape region neighbors;
  c ← checkVertexSigns c;
  mret (mkOutcome () c true).

(** *** One cell of the build *)

(** What the build does next with a cell: subdivide it into [n] children
    that are built with the tape [tape], or nothing more. *)
Inductive Next : Type :=
  | Subdivide (n : nat) (tape : H)
  | Finished.

(** Modelled from the spec: the step of [build] on one cell (section 4.6
    of the spec; the worker that drives the recursion is in
    [worker_pool.cpp], which is not among the sources).  A region above
    level 0 goes through [evalInterval]; a cell that is ambiguous after it
    is subdivided into 2^N children, which are built with the tape
    [evalInterval] returned, and a cell that is not is finished.  A region
    at level 0 goes through [evalLeaf]. *)
Definition build_cell (c : SimplexTree) (htape : H) (region : Rg) (neighbors : Nb)
  : M (Outcome Next) :=
  if decide (0 < region_level region) then
    o ← evalInterval c htape region;
    if decide (type (cell o) = AMBIGUOUS)
    then mret (mkOutcome (Subdivide (2 ^ Dim) (value o)) (cell o) (done o))
    else mret (mkOutcome Finished (cell o) (done o))
  else
    o ← evalLeaf c htape region neighbors;
    mret (mkOutcome Finished (cell o) (done o)).

(** *** [SimplexTree<N>::collectChildren] *)

(** [std::any_of(cs.begin(), cs.end(), isBranch)]. *)
Fixpoint any_branch (cs : list (option SimplexTree)) : M bool :=
  match cs with
  | [] => mret false
  | None :: _ => fail NullPointer
  | Some t :: cs => if isBranch t then mret true else any_branch cs
  end.

(** Whether child [child] contributes its subspace [j]: every fixed axis is
    high, or the child is low on it. *)
Definition contributes (child j : nat) : bool :=
  foldl (λ (valid : bool) d,
           if Nat.testbit (ni_fixed j) d
           then valid && (Nat.testbit (ni_pos j) d || negb (Nat.testbit child d))
           else valid)
        true (seq 0 Dim).

(** The subspace of the parent into which subspace [j] of child [child] is
    summed.  The source keeps the two masks in 8 bits, enough for [Dim]
    below 8. *)
Definition target_of (child j : nat) : nat :=
  let r := foldl (λ (acc : nat * nat) d,
                    if Nat.testbit (ni_floating j) d
                       || negb (bool_decide (Nat.land (ni_pos j) (Nat.shiftl 1 d)
                                             = Nat.land child (Nat.shiftl 1 d)))
                    then (Nat.lor acc.1 (Nat.shiftl 1 d), acc.2)
                    else (acc.1, Nat.lor acc.2 (Nat.land (ni_pos j) (Nat.shiftl 1 d))))
                 (0, 0) (seq 0 Dim) in
  ni_fromPosAndFloating r.2 r.1.

Definition sum_step (lf : Leaf) (cs : list (option SimplexTree)) (_ : unit)
    (ij : nat * nat) : M unit :=
  match cs !! ij.1 with
  | Some (Some ch) =>
      match leaf ch with
      | None => fail AssertFailed
      | Some clf =>
          cp ← sub_at clf ij.2;
          _ ← massert (bool_decide (is_Some cp));
          if contributes ij.1 ij.2 then
            tp ← sub_at lf (target_of ij.1 ij.2);
            src ← deref cp;
            tgt ← deref tp;
            update tp (set_qef (qadd (qef tgt) (qef src)))
          else mret ()
      end
  | _ => fail NullPointer
  end.

Definition collectChildren (c : SimplexTree) (htape : H) (region : Rg)
    (max_err : D) : M (Outcome bool) :=
  let old := pending c in
  let c := set_pending (old - 1)%Z c in
  if decide (old ≠ 0%Z) then mret (mkOutcome false c false)
  else
    let cs := children c in
    br ← any_branch cs;
    if (br : bool) then mret (mkOutcome true c true)
    else
      _ ← massert (bool_decide (leaf c = None));
      lf ← pool_get_leaf;
      let lf := {| level := region_level region; tape := Some htape; sub := sub lf |} in
      let c := set_leaf (Some lf) c in
      let all_empty := forallb (λ o, match o with
                                     | Some ch => bool_decide (type ch = EMPTY)
                                     | None => false end) cs in
      let all_full := forallb (λ o, match o with
                                    | Some ch => bool_decide (type ch = FILLED)
                                    | None => false end) cs in
      let c := set_type (if all_empty then EMPTY
                         else if all_full then FILLED else AMBIGUOUS) c in
      if decide (type c = EMPTY ∨ type c = FILLED) then
        c ← releaseChildren c;
        _ ← massert (negb (isBranch c));
        c ← findLeafVertices c htape region nb_empty;
        mret (mkOutcome true c true)
      else
        subs ← foldlS (λ acc (_ : option nat), l ← pool_get_sub; mret (acc ++ [Some l]))
                      (sub lf) [];
        let lf := {| level := level lf; tape := tape lf; sub := subs |} in
        let c := set_leaf (Some lf) c in
        _ ← foldlS (sum_step lf cs) (i ← seq 0 (2 ^ Dim); j ← seq 0 (3 ^ Dim); [(i, j)]) ();
        err ← Unroller lf (replicate (3 ^ Dim) false) region;
        if dlt err max_err then
          _ ← saveVertexSigns c htape region (replicate (3 ^ Dim) false);
          c ← checkVertexSigns c;
          c ← releaseChildren c;
          _ ← massert (negb (isBranch c));
          mret (mkOutcome true c true)
        else
          _ ← Leaf_releaseTo lf;
          mret (mkOutcome true (set_leaf None c) true).

(** *** [SimplexTree<N>::leafLevel] *)

(** [UINT32_MAX]. *)
Definition UINT32_MAX : N := (2 ^ 32 - 1)%N.

(** The level is a [uint32_t], kept as a binary number. *)
Definition leafLevel (c : SimplexTree) : result N :=
  _ ← assert_ (negb (isBranch c));
  match type c with
  | FILLED | EMPTY | AMBIGUOUS =>
      match leaf c with
      | None => Err AssertFailed
      | Some lf => Ok (N.of_nat (level lf))
      end
  | UNKNOWN => Ok UINT32_MAX
  end.

(** *** [SimplexTree<N>::assignIndices] *)

(** [SimplexNeighbors<N>::push(i, children)]: the table for child [i] of a
    cell with these children. *)
Context (nb_push : Nb → nat → list (option SimplexTree) → Nb).

(** Modelled from the spec: [SimplexNeighbors<N>::getIndex]
    ([simplex_neighbors.hpp] is not among the sources): the index a
    neighbour already assigned to the subspace, 0 when none did. *)
Definition getIndex (neighbors : Nb) (i : nat) : M N :=
  foldlS (λ (found : N) l,
            if decide (found ≠ 0%N) then mret found
            else s ← deref (Some l); mret (index s))
         (nb_candidates neighbors i) 0%N.

(** The walk up the tree for a corner: [targets] lists [parent] and
    [parent_index] of the cell and of its ancestors, [stack] the neighbour
    tables below the top of [neighbor_stack], nearest first.  Returns the
    index found, 0 when the walk ends without one. *)
Fixpoint walk_up (i : nat) (targets : list (bool * nat)) (stack : list Nb) : M N :=
  match targets with
  | [] => mret 0%N
  | tg :: targets =>
      if tg.1 && bool_decide (tg.2 = ni_pos i) then
        match stack with
        | [] => fail OutOfRange
        | neighbors :: stack =>
            n ← getIndex neighbors i;
            if decide (n ≠ 0%N) then mret n else walk_up i targets stack
        end
      else mret 0%N
  end.

(** [index++] on a [uint64_t]. *)
Definition next_index (index : N) : N := ((index + 1) mod 2 ^ 64)%N.

(** One iteration of the loop over the subspaces of a leaf; the state is
    the counter ([index] in the source, [counter] here). *)
Definition assign_slot (lf : Leaf) (targets : list (bool * nat)) (stack : list Nb)
    (counter : N) (i : nat) : M N :=
  match stack with
  | [] => fail OutOfRange
  | neighbors :: below =>
      p ← sub_at lf i;
      n ← getIndex neighbors i;
      if decide (n ≠ 0%N) then _ ← update p (set_index n); mret counter
      else
        found ← (if ni_isCorner i then
                   n ← walk_up i targets below;
                   _ ← (if decide (n ≠ 0%N) then update p (set_index n) else mret ());
                   s ← deref p;
                   mret (bool_decide (index s ≠ 0%N))
                 else mret false);
        if (found : bool) then mret counter
        else _ ← update p (set_index counter); mret (next_index counter)
  end.

Fixpoint assignIndices_rec (t : SimplexTree) (targets : list (bool * nat))
    (stack : list Nb) (counter : N) {struct t} : M N :=
  if isBranch t then
    _ ← massert (bool_decide (leaf t = None));
    (fix go (cs : list (option SimplexTree)) (i : nat) (counter : N) {struct cs} : M N :=
       match cs with
       | [] => mret counter
       | ch :: cs =>
           match stack, ch with
           | [], _ => fail OutOfRange
           | _, None => fail NullPointer
           | top :: _, Some ch =>
               counter ← assignIndices_rec ch
                           ((parent ch, parent_index ch) :: targets)
                           (nb_push top i (children t) :: stack) counter;
               go cs (S i) counter
           end
       end) (children t) 0 counter
  else
    match leaf t with
    | None => fail AssertFailed
    | Some lf => foldlS (assign_slot lf targets stack) (seq 0 (3 ^ Dim)) counter
    end.

Definition assignIndices (t : SimplexTree) : M N :=
  assignIndices_rec t [(parent t, parent_index t)] [nb_empty] 1%N.

End SimplexModel.

Arguments mkOutcome {H A} value cell done.
Arguments value {H A} o.
Arguments cell {H A} o.
Arguments done {H A} o.
Arguments Subdivide {H} n tape.
Arguments Finished {H}.

End Simplex.

(** * The tape: invariants and theorems *)

Module TapeProofs.
Import Opcode Tape.

Lemma bind_Ok {A B} (m : result A) (k : A → result B) (y : B) :
  m ≫= k = Ok y ↔ ∃ x, m = Ok x ∧ k x = Ok y.
Proof. destruct m as [x|e]; simpl; [naive_solver|]. split; [done|]. by intros (x & ? & _). Qed.

Lemma assert_Ok (bb : bool) u : assert_ bb = Ok u ↔ bb = true.
Proof. destruct bb, u; simpl; naive_solver. Qed.

Lemma at_Ok {A} (v : list A) i x : at_ v i = Ok x ↔ v !! i = Some x.
Proof. unfold at_. destruct (v !! i); naive_solver. Qed.

Lemma vset_Ok {A} i (x : A) v v' :
  vset i x v = Ok v' ↔ i < length v ∧ v' = <[i:=x]> v.
Proof. unfold vset. case_decide; naive_solver. Qed.

Lemma vset_lt {A} i (x : A) v : i < length v → vset i x v = Ok (<[i:=x]> v).
Proof. intros. unfold vset. by case_decide. Qed.

Lemma at_lookup {A} (v : list A) i x : v !! i = Some x → at_ v i = Ok x.
Proof. by intros; apply at_Ok. Qed.

(** Inversion of a successful run of the [result] monad. *)
Ltac inv_result :=
  repeat match goal with
  | H : Ok _ = Ok _ |- _ => injection H as H; try subst
  | H : Err _ = Ok _ |- _ => discriminate H
  | H : _ ≫= _ = Ok _ |- _ => apply bind_Ok in H as (? & ? & H)
  | H : assert_ _ = Ok _ |- _ => apply assert_Ok in H
  | H : at_ _ _ = Ok _ |- _ => apply at_Ok in H
  | H : vset _ _ _ = Ok _ |- _ => apply vset_Ok in H as [? H]
  end.

(** With [n] clause ids in all: the id of a clause is in range and not the
    sentinel, and its operands are below it. *)
Definition clause_ok (n : nat) (c : Clause) : Prop :=
  0 < id c < n ∧ a c < id c ∧ b c < id c.
(** The order of a clause sequence: ids go down. *)
Definition id_gt (c1 c2 : Clause) : Prop := id c2 < id c1.
(** A well-formed clause sequence. *)
Definition sub_ok (n : nat) (cl : list Clause) : Prop :=
  Forall (clause_ok n) cl ∧ StronglySorted id_gt cl.
(** The answer of a classifier for a clause. *)
Definition keep_of (fn : Opcode → nat → nat → nat → Keep) (c : Clause) : Keep :=
  fn (op c) (id c) (a c) (b c).
(** Clause id [x] was marked active at some point of the walk: it is
    enabled, or it was remapped (which disables it again). *)
Definition reached (D : list bool) (R : list nat) (x : nat) : Prop :=
  D !! x = Some false ∨ ∃ r, R !! x = Some r ∧ r ≠ 0.

Section Walk.
Context (fn : Opcode → nat → nat → nat → Keep) (n : nat).
Implicit Types (cl pre suf : list Clause) (c : Clause) (D : list bool) (R : list nat).

(** What one iteration of the classifier walk does to the scratch arrays. *)
Inductive step_spec c D R (hc : bool) : list bool → list nat → bool → Prop :=
| step_skip : D !! id c = Some true → step_spec c D R hc D R hc
| step_remap r :
    D !! id c = Some false → r ≠ 0 →
    (keep_of fn c = KEEP_A ∧ r = a c ∨ keep_of fn c = KEEP_B ∧ r = b c) →
    step_spec c D R hc (<[id c := true]> (<[r := false]> D)) (<[id c := r]> R) hc
| step_keep D' :
    D !! id c = Some false →
    length D' = length D →
    (∀ x, D' !! x = D !! x ∨ D' !! x = Some false ∧ x < id c) →
    (hasDummyChildren (op c) = false → D' !! a c = Some false ∧ D' !! b c = Some false) →
    step_spec c D R hc D' R (hc || bool_decide (keep_of fn c = KEEP_BOTH)).

Lemma step_keep' c D R hc D' hc' :
  D !! id c = Some false →
  length D' = length D →
  (∀ x, D' !! x = D !! x ∨ D' !! x = Some false ∧ x < id c) →
  (hasDummyChildren (op c) = false → D' !! a c = Some false ∧ D' !! b c = Some false) →
  hc' = hc || bool_decide (keep_of fn c = KEEP_BOTH) →
  step_spec c D R hc D' R hc'.
Proof. intros; subst; by constructor. Qed.

Lemma push_step_spec c D R hc :
  length D = n → length R = n → clause_ok n c → R !! id c = Some 0 →
  ∃ D' R' hc', push_step fn (D, R, hc) c = Ok (D', R', hc') ∧ step_spec c D R hc D' R' hc'.
Proof.
  intros HD HR (Hid & Ha & Hb) HR0.
  assert (is_Some (D !! id c)) as [d Hd] by (apply lookup_lt_is_Some_2; lia).
  unfold push_step. rewrite (at_lookup _ _ _ Hd). simpl.
  destruct d; [eexists _, _, _; split; [done|by constructor]|].
  fold (keep_of fn c).
  assert (∀ (D1 : list bool) (hc1 : bool), length D1 = n →
    ∃ D' : list bool, (if negb (hasDummyChildren (op c))
           then vset (a c) false D1 ≫= λ dis, vset (b c) false dis ≫= λ dis0, Ok (dis0, R, hc1)
           else Ok (D1, R, hc1)) = Ok (D', R, hc1) ∧ length D' = n ∧
          (∀ x, D' !! x = D1 !! x ∨ D' !! x = Some false ∧ x < id c) ∧
          (hasDummyChildren (op c) = false → D' !! a c = Some false ∧ D' !! b c = Some false))
    as Htail.
  { intros D1 hc1 HD1. destruct (hasDummyChildren (op c)); simpl.
    - eexists; split; [done|]. split; [done|]. split; [by left|done].
    - rewrite vset_lt by lia. simpl.
      rewrite vset_lt by (rewrite length_insert; lia). simpl.
      eexists; split; [done|]. split; [by rewrite !length_insert|]. split.
      + intros x. rewrite !list_lookup_insert, !length_insert.
        repeat case_decide; auto; right; split; auto; lia.
      + intros _. rewrite !list_lookup_insert, !length_insert.
        repeat case_decide; try done; naive_solver lia. }
  destruct (keep_of fn c) eqn:Hk; simpl.
  - (* KEEP_BOTH *)
    rewrite (at_lookup _ _ _ HR0). simpl.
    destruct (Htail D true HD) as (D' & -> & ? & ? & ?).
    eexists _, _, _; split; [done|].
    apply step_keep'; try done; [congruence|rewrite Hk; by destruct hc].
  - (* KEEP_A *)
    rewrite vset_lt by lia. simpl. rewrite vset_lt by lia. simpl.
    rewrite (at_lookup _ _ (a c)) by (apply list_lookup_insert_eq; lia). simpl.
    destruct (decide (a c = 0)) as [Ha0|Ha0].
    + case_decide; [done|].
      rewrite (list_insert_id R) by (by rewrite Ha0).
      destruct (Htail (<[a c:=false]> D) hc) as (D' & -> & ? & HD' & ?);
        [by rewrite length_insert|].
      eexists _, _, _; split; [done|].
      apply step_keep'; try done; [congruence| |].
      * intros x. destruct (HD' x) as [->|?]; [|by right].
        rewrite list_lookup_insert. case_decide; auto. right. split; auto. lia.
      * rewrite Hk; by destruct hc.
    + case_decide; [|done].
      rewrite vset_lt by (rewrite length_insert; lia). simpl.
      eexists _, _, _; split; [done|]. apply step_remap; auto.
  - (* KEEP_B *)
    rewrite vset_lt by lia. simpl. rewrite vset_lt by lia. simpl.
    rewrite (at_lookup _ _ (b c)) by (apply list_lookup_insert_eq; lia). simpl.
    destruct (decide (b c = 0)) as [Ha0|Ha0].
    + case_decide; [done|].
      rewrite (list_insert_id R) by (by rewrite Ha0).
      destruct (Htail (<[b c:=false]> D) hc) as (D' & -> & ? & HD' & ?);
        [by rewrite length_insert|].
      eexists _, _, _; split; [done|].
      apply step_keep'; try done; [congruence| |].
      * intros x. destruct (HD' x) as [->|?]; [|by right].
        rewrite list_lookup_insert. case_decide; auto. right. split; auto. lia.
      * rewrite Hk; by destruct hc.
    + case_decide; [|done].
      rewrite vset_lt by (rewrite length_insert; lia). simpl.
      eexists _, _, _; split; [done|]. apply step_remap; auto.
  - (* KEEP_ALWAYS *)
    rewrite (at_lookup _ _ _ HR0). simpl.
    destruct (Htail D hc HD) as (D' & -> & ? & ? & ?).
    eexists _, _, _; split; [done|].
    apply step_keep'; try done; [congruence|rewrite Hk; by destruct hc].
Qed.

(** The invariant of the classifier walk after the clauses [pre]: an entry
    of [remap] other than 0 belongs to a clause of [pre] that chose one
    operand, and is that operand; the operands of an enabled clause of
    [pre] were reached; and [has_choices] tells whether a clause of [pre]
    answered [KEEP_BOTH]. *)
Definition walk_inv (pre : list Clause) (st : walk_state) : Prop :=
  length st.1.1 = n ∧ length st.1.2 = n ∧
  (∀ k r, st.1.2 !! k = Some r → r ≠ 0 →
     ∃ c, c ∈ pre ∧ id c = k ∧
          (keep_of fn c = KEEP_A ∧ r = a c ∨ keep_of fn c = KEEP_B ∧ r = b c) ∧
          st.1.1 !! k = Some true ∧ reached st.1.1 st.1.2 r) ∧
  (∀ c, c ∈ pre → st.1.1 !! id c = Some false →
     hasDummyChildren (op c) = false →
     reached st.1.1 st.1.2 (a c) ∧ reached st.1.1 st.1.2 (b c)) ∧
  (st.2 = true → ∃ c, c ∈ pre ∧ st.1.1 !! id c = Some false) ∧
  ((∀ c, c ∈ pre → keep_of fn c ≠ KEEP_BOTH) → st.2 = false).

Lemma step_spec_reached c D R hc D' R' hc' x :
  step_spec c D R hc D' R' hc' →
  length D = n → length R = n → clause_ok n c → R !! id c = Some 0 →
  reached D R x → reached D' R' x.
Proof.
  intros Hs HD HR (Hid & Ha & Hb) HR0 Hx.
  destruct Hs as [?|r ? ? Hr|D' ? ? HD' ?]; [done| |].
  - assert (r < id c) by (destruct Hr as [[_ ->]|[_ ->]]; done).
    destruct Hx as [Hx|(r0 & Hx & ?)].
    + destruct (decide (x = id c)) as [->|].
      * right. exists r. split; [|done]. apply list_lookup_insert_eq. lia.
      * left. rewrite list_lookup_insert_ne by done.
        rewrite list_lookup_insert. case_decide; [done|done].
    + right. exists r0. split; [|done].
      rewrite list_lookup_insert_ne; [done|]. intros <-. congruence.
  - destruct Hx as [Hx|?]; [|by right]. left.
    destruct (HD' x) as [->|[? _]]; done.
Qed.

Lemma walk_inv_step pre c suf st :
  sub_ok n (pre ++ c :: suf) → walk_inv pre st →
  ∃ st', push_step fn st c = Ok st' ∧ walk_inv (pre ++ [c]) st'.
Proof.
  intros [Hok Hsorted] Hinv. destruct st as [[D R] hc].
  destruct Hinv as (HD & HR & I1 & I2 & I3 & I4); simpl in *.
  assert (clause_ok n c) as Hc.
  { rewrite Forall_forall in Hok. apply Hok. set_solver. }
  assert (∀ c', c' ∈ pre → id c < id c') as Hgt.
  { intros c' Hc'. eapply (StronglySorted_app_1_elem_of id_gt) in Hsorted;
      [exact Hsorted|done|set_solver]. }
  assert (R !! id c = Some 0) as HR0.
  { destruct (lookup_lt_is_Some_2 R (id c)) as [r Hr]; [destruct Hc; lia|].
    destruct (decide (r = 0)) as [->|Hne]; [done|].
    destruct (I1 _ _ Hr Hne) as (c' & Hc' & Heq & _).
    apply Hgt in Hc'. lia. }
  destruct (push_step_spec c D R hc HD HR Hc HR0) as (D' & R' & hc' & Hstep & Hs).
  exists (D', R', hc'). split; [done|].
  pose proof (λ x, step_spec_reached _ _ _ _ _ _ _ x Hs HD HR Hc HR0) as Hmono.
  destruct Hc as (Hid & Ha & Hb).
  destruct Hs as [Hsk|r Hact Hr0 Hr|D' Hact HlenD HD' Hops]; simpl.
  - (* skipped *)
    unfold walk_inv; simpl; split_and!; try done.
    + intros k r Hk Hr. destruct (I1 _ _ Hk Hr) as (c' & ? & ?).
      exists c'. split; [set_solver|done].
    + intros cq [Hcq| ->%list_elem_of_singleton]%elem_of_app; [by apply I2|congruence].
    + intros Hhc. destruct (I3 Hhc) as (c' & ? & ?). exists c'. split; [set_solver|done].
    + intros Hall. apply I4. intros cq ?. apply Hall. set_solver.
  - (* remapped *)
    assert (r < id c) as Hrlt by (destruct Hr as [[_ ->]|[_ ->]]; done).
    assert (∀ c', c' ∈ pre →
              <[id c:=true]> (<[r:=false]> D) !! id c' = D !! id c') as Hframe.
    { intros c' Hc'%Hgt. rewrite !list_lookup_insert_ne by lia. done. }
    unfold walk_inv; simpl; split_and!; rewrite ?length_insert; try done.
    + intros k r' Hk Hr'. destruct (decide (k = id c)) as [->|Hne].
      * rewrite list_lookup_insert_eq in Hk by lia. simplify_eq.
        exists c. split; [set_solver|]. split; [done|]. split; [done|]. split.
        -- apply list_lookup_insert_eq. rewrite length_insert. lia.
        -- left. rewrite list_lookup_insert_ne by lia.
           apply list_lookup_insert_eq. lia.
      * rewrite list_lookup_insert_ne in Hk by done.
        destruct (I1 _ _ Hk Hr') as (c' & Hc' & <- & ? & ? & ?).
        exists c'. split; [set_solver|]. split; [done|]. split; [done|].
        split; [by rewrite Hframe|by apply Hmono].
    + intros cq [Hcq| ->%list_elem_of_singleton]%elem_of_app.
      * rewrite Hframe by done. intros ? ?. destruct (I2 cq) as [? ?]; try done.
        split; by apply Hmono.
      * rewrite list_lookup_insert_eq by (rewrite length_insert; lia). done.
    + intros Hhc. destruct (I3 Hhc) as (c' & ? & ?). exists c'.
      split; [set_solver|]. by rewrite Hframe.
    + intros Hall. apply I4. intros cq ?. apply Hall. set_solver.
  - (* kept *)
    assert (∀ c', c' ∈ pre → D' !! id c' = D !! id c') as Hframe.
    { intros c' Hc'%Hgt. destruct (HD' (id c')) as [?|[_ ?]]; [done|lia]. }
    assert (D' !! id c = Some false) as Hkept.
    { destruct (HD' (id c)) as [->|[? _]]; done. }
    unfold walk_inv; simpl; split_and!; try done; try congruence.
    + intros k r' Hk Hr'.
      destruct (I1 _ _ Hk Hr') as (c' & Hc' & <- & ? & ? & ?).
      exists c'. split; [set_solver|]. split; [done|]. split; [done|].
      split; [by rewrite Hframe|by apply Hmono].
    + intros cq [Hcq| ->%list_elem_of_singleton]%elem_of_app.
      * rewrite Hframe by done. intros ? ?. destruct (I2 cq) as [? ?]; try done.
        split; by apply Hmono.
      * intros _ Hdc. destruct (Hops Hdc). split; by left.
    + intros _. exists c. split; [set_solver|done].
    + intros Hall. rewrite I4; simpl.
      * apply bool_decide_eq_false_2. apply Hall. set_solver.
      * intros cq ?. apply Hall. set_solver.
Qed.

Lemma walk_inv_fold suf : ∀ pre st,
  sub_ok n (pre ++ suf) → walk_inv pre st →
  ∃ st', foldlM (push_step fn) suf st = Ok st' ∧ walk_inv (pre ++ suf) st'.
Proof.
  induction suf as [|c suf IH]; intros pre st Hok Hinv; simpl.
  - exists st. by rewrite app_nil_r.
  - destruct (walk_inv_step pre c suf st Hok Hinv) as (st1 & -> & Hinv1). simpl.
    rewrite (assoc_L _ pre [c] suf : pre ++ c :: suf = (pre ++ [c]) ++ suf) in Hok |- *.
    by apply IH.
Qed.

End Walk.

(** [remap] sends an id to 0 or to a smaller id. *)
Definition decreasing (R : list nat) : Prop :=
  ∀ k r, R !! k = Some r → r ≠ 0 → r < k.

Lemma follow_ok R : decreasing R → ∀ fuel x,
  x < fuel → x < length R →
  ∃ y, follow R fuel x = Ok y ∧ y ≤ x ∧ R !! y = Some 0.
Proof.
  intros Hdec. induction fuel as [|fuel IH]; intros x Hf Hx; [lia|]. simpl.
  destruct (lookup_lt_is_Some_2 R x Hx) as [nxt Hn].
  rewrite (at_lookup _ _ _ Hn). simpl. case_decide as H0.
  - subst. by exists x.
  - pose proof (Hdec _ _ Hn H0).
    destruct (IH nxt) as (y & -> & ? & ?); [lia..|]. exists y. split; [done|]. split; [lia|done].
Qed.

Lemma follow_S R fuel x :
  follow R (S fuel) x = nxt ← at_ R x; if decide (nxt = 0) then Ok x else follow R fuel nxt.
Proof. done. Qed.

Lemma follow_0 R x : follow R 0 x = Err Diverged.
Proof. done. Qed.

#[global] Opaque follow.

Lemma walk_inv_decreasing fn n cl st :
  Forall (clause_ok n) cl → walk_inv fn n cl st → decreasing st.1.2.
Proof.
  intros Hok (_ & _ & I1 & _) k r Hk Hr.
  destruct (I1 _ _ Hk Hr) as (c & Hc & <- & Hr' & _).
  rewrite Forall_forall in Hok. destruct (Hok _ Hc) as (_ & ? & ?).
  destruct Hr' as [[_ ->]|[_ ->]]; done.
Qed.

(** The clause [c'] that the second loop of [push] emits for [c]. *)
Definition rewritten (R : list nat) (c c' : Clause) : Prop :=
  op c' = op c ∧ id c' = id c ∧
  if decide (op c = ORACLE) then a c' = a c ∧ b c' = b c
  else follow R (S (length R)) (a c) = Ok (a c') ∧
       follow R (S (length R)) (b c) = Ok (b c').

(** The clause sequence the second loop of [push] builds. *)
Inductive emitted (D : list bool) (R : list nat) : list Clause → list Clause → Prop :=
| emitted_nil : emitted D R [] []
| emitted_skip c cl cl' :
    D !! id c = Some true → emitted D R cl cl' → emitted D R (c :: cl) cl'
| emitted_keep c c' cl cl' :
    D !! id c = Some false → rewritten R c c' → emitted D R cl cl' →
    emitted D R (c :: cl) (c' :: cl').

Lemma emit_emitted D R cl : ∀ cl', emit D R cl = Ok cl' → emitted D R cl cl'.
Proof.
  induction cl as [|c cl IH]; intros cl' H; simpl in H.
  - inv_result. constructor.
  - inv_result. destruct x; [by constructor; auto|].
    inv_result. apply emitted_keep; auto.
    unfold rewritten. case_decide; inv_result; simpl; auto.
Qed.

Lemma emit_total n D R cl :
  length D = n → length R = n → decreasing R → Forall (clause_ok n) cl →
  ∃ cl', emit D R cl = Ok cl'.
Proof.
  intros HD HR Hdec. induction 1 as [|c cl (Hid & Ha & Hb) _ [cl' IH]]; simpl; [by eexists|].
  destruct (lookup_lt_is_Some_2 D (id c)) as [d Hd]; [lia|].
  rewrite (at_lookup _ _ _ Hd). simpl. destruct d; [by eexists|].
  rewrite IH. case_decide; simpl; [by eexists|].
  destruct (follow_ok R Hdec (S (length R)) (a c)) as (ra & -> & _); [lia..|].
  destruct (follow_ok R Hdec (S (length R)) (b c)) as (rb & -> & _); [lia..|].
  simpl. by eexists.
Qed.

Lemma emitted_elem D R cl cl' c' :
  emitted D R cl cl' → c' ∈ cl' →
  ∃ c, c ∈ cl ∧ D !! id c = Some false ∧ rewritten R c c'.
Proof.
  induction 1 as [|c cl cl' ? ? IH|c c1 cl cl' ? ? ? IH]; intros Hin.
  - by apply elem_of_nil in Hin.
  - destruct (IH Hin) as (c2 & ? & ?). exists c2. split; [by right|done].
  - apply elem_of_cons in Hin as [->|Hin].
    + exists c. split; [by left|done].
    + destruct (IH Hin) as (c2 & ? & ?). exists c2. split; [by right|done].
Qed.

Lemma emitted_kept D R cl cl' c :
  emitted D R cl cl' → c ∈ cl → D !! id c = Some false →
  ∃ c', c' ∈ cl' ∧ rewritten R c c'.
Proof.
  induction 1 as [|c0 cl cl' ? ? IH|c0 c1 cl cl' ? ? ? IH]; intros Hin Hd.
  - by apply elem_of_nil in Hin.
  - apply elem_of_cons in Hin as [->|Hin]; [congruence|]. by apply IH.
  - apply elem_of_cons in Hin as [->|Hin].
    + exists c1. split; [by left|done].
    + destruct IH as (c2 & ? & ?); [done..|]. exists c2. split; [by right|done].
Qed.

Lemma emitted_length D R cl cl' : emitted D R cl cl' → length cl' ≤ length cl.
Proof. induction 1; simpl; lia. Qed.

Lemma emitted_sorted D R cl cl' :
  emitted D R cl cl' → StronglySorted id_gt cl → StronglySorted id_gt cl'.
Proof.
  induction 1 as [|c cl cl' ? ? IH|c c1 cl cl' ? Hrw Hem IH]; intros Hs.
  - constructor.
  - apply StronglySorted_inv in Hs as [? _]. auto.
  - apply StronglySorted_inv in Hs as [? Hall]. constructor; [auto|].
    apply Forall_forall. intros c2 Hc2.
    destruct (emitted_elem _ _ _ _ _ Hem Hc2) as (c3 & Hc3 & _ & _ & Hid & _).
    rewrite Forall_forall in Hall. specialize (Hall _ Hc3).
    destruct Hrw as (_ & Hid1 & _). unfold id_gt in *. lia.
Qed.

Lemma rewritten_ok n R c c' :
  length R = n → decreasing R → clause_ok n c → rewritten R c c' → clause_ok n c'.
Proof.
  intros HR Hdec (Hid & Ha & Hb) (_ & Hid' & Hrw). unfold clause_ok. rewrite Hid'.
  case_decide; [destruct Hrw as [-> ->]; done|].
  destruct Hrw as [H1 H2].
  destruct (follow_ok R Hdec (S (length R)) (a c)) as (ra & Hra & ? & _); [lia..|].
  destruct (follow_ok R Hdec (S (length R)) (b c)) as (rb & Hrb & ? & _); [lia..|].
  rewrite H1 in Hra. rewrite H2 in Hrb. simplify_eq. lia.
Qed.

Lemma emitted_ok n D R cl cl' :
  length R = n → decreasing R → emitted D R cl cl' →
  Forall (clause_ok n) cl → Forall (clause_ok n) cl'.
Proof.
  intros HR Hdec Hem Hok. apply Forall_forall. intros c' Hc'.
  destruct (emitted_elem _ _ _ _ _ Hem Hc') as (c & Hc & _ & Hrw).
  rewrite Forall_forall in Hok. eapply rewritten_ok; eauto.
Qed.

Section TapeInv.
Context {F O : Type} (fzero : F).
Implicit Types (T : @Tape F O) (s cur : @Subtape F).

(** A well-formed subtape: only a dummy may be empty. *)
Definition tape_ok (n : nat) s : Prop :=
  sub_ok n (t s) ∧ (dummy s = 0 → t s ≠ []).

(** The invariant of a tape: the cursor is on the stack, the scratch arrays
    have one entry per clause id, the base is not a dummy, and every
    subtape is well formed. *)
Definition Inv T : Prop :=
  tape T < length (tapes T) ∧
  length (disabled T) = num_clauses T ∧
  length (remap T) = num_clauses T ∧
  (∃ s0, tapes T !! 0 = Some s0 ∧ dummy s0 = 0) ∧
  Forall (tape_ok (num_clauses T)) (tapes T).

Lemma classify_ok fn n T cl :
  length (disabled T) = n → length (remap T) = n → cl ≠ [] → sub_ok n cl →
  ∃ st, classify fn T cl = Ok st ∧ walk_inv fn n cl st.
Proof.
  intros HD HR Hne Hok. unfold classify.
  destruct cl as [|c cl]; [done|]. cbn [mbind result_bind].
  assert (clause_ok n c) as (Hid & _).
  { destruct Hok as [Hok _]. by apply Forall_cons in Hok as [? _]. }
  rewrite vset_lt by (rewrite length_replicate; lia). cbn [mbind result_bind].
  apply (walk_inv_fold fn n (c :: cl) []); [done|].
  unfold walk_inv; simpl. rewrite length_insert, !length_replicate.
  split_and!; try done.
  - intros k r [-> _]%lookup_replicate. done.
  - intros ? ?%elem_of_nil. done.
Qed.

(** The stack after a materialising push installed [new] above the cursor. *)
Definition pushed_tapes T (new : @Subtape F) : list (@Subtape F) :=
  <[S (tape T) := new]>
    (if decide (S (tape T) = length (tapes T))
     then tapes T ++ [Subtape_new fzero]
     else alter (set_t []) (S (tape T)) (tapes T)).

Lemma pushed_tapes_length T new :
  tape T < length (tapes T) →
  length (pushed_tapes T new) = length (tapes T) `max` S (S (tape T)).
Proof.
  intros Hc. unfold pushed_tapes. rewrite length_insert. case_decide.
  - rewrite length_app. simpl. lia.
  - rewrite length_alter. lia.
Qed.

Lemma pushed_tapes_new T new :
  tape T < length (tapes T) → pushed_tapes T new !! S (tape T) = Some new.
Proof.
  intros Hc. unfold pushed_tapes. apply list_lookup_insert_eq. case_decide.
  - rewrite length_app. simpl. lia.
  - rewrite length_alter. lia.
Qed.

Lemma pushed_tapes_old T new i :
  i ≠ S (tape T) → i < length (tapes T) → pushed_tapes T new !! i = tapes T !! i.
Proof.
  intros Hne Hi. unfold pushed_tapes. rewrite list_lookup_insert_ne by done. case_decide.
  - by rewrite lookup_app_l.
  - by rewrite list_lookup_alter_ne.
Qed.

Lemma pushed_tapes_Forall (P : @Subtape F → Prop) T new :
  tape T < length (tapes T) →
  Forall P (tapes T) → P new → Forall P (pushed_tapes T new).
Proof.
  intros Hc Hall Hnew. apply Forall_lookup. intros i s Hi.
  destruct (decide (i = S (tape T))) as [->|Hne].
  - rewrite pushed_tapes_new in Hi by done. by simplify_eq.
  - assert (i < length (pushed_tapes T new)) as Hlt by (by eapply lookup_lt_Some).
    rewrite pushed_tapes_length in Hlt by done.
    rewrite pushed_tapes_old in Hi by lia.
    by eapply Forall_lookup_1.
Qed.

Lemma push_dummy (this : nat) fn ty (r : @Region3 F) T cur :
  current T = Ok cur → dummy cur ≠ 0 →
  push fzero this fn ty r T =
    Ok (set_tapes (<[tape T := set_dummy (S (dummy cur)) cur]> (tapes T)) T,
        Handle_push this).
Proof. intros Hcur Hd. unfold push. rewrite Hcur. simpl. by case_decide. Qed.

Lemma push_fresh (this : nat) fn ty (r : @Region3 F) T cur :
  Inv T → current T = Ok cur → dummy cur = 0 →
  ∃ D R hc new,
    classify fn T (t cur) = Ok (D, R, hc) ∧
    walk_inv fn (num_clauses T) (t cur) (D, R, hc) ∧
    emit D R (t cur) = Ok (t new) ∧
    dummy new = (if hc then 0 else 1) ∧ type new = ty ∧
    push fzero this fn ty r T =
      Ok (set_scratch D R (set_cursor (S (tape T)) (set_tapes (pushed_tapes T new) T)),
          Handle_push this).
Proof.
  intros (Hc & HD & HR & _ & Hall) Hcur Hd.
  pose proof Hcur as Hcur'. apply at_Ok in Hcur'.
  destruct (Forall_lookup_1 _ _ _ _ Hall Hcur') as [Hok Hne].
  destruct (classify_ok fn _ T (t cur) HD HR (Hne Hd) Hok) as ([[D R] hc] & Hcl & Hinv).
  pose proof (walk_inv_decreasing _ _ _ _ (proj1 Hok) Hinv) as Hdec.
  destruct Hinv as (HD' & HR' & Hrest). simpl in *.
  destruct (emit_total _ D R (t cur) HD' HR' Hdec (proj1 Hok)) as [cl' Hemit].
  pose proof (emitted_length _ _ _ _ (emit_emitted _ _ _ _ Hemit)) as Hlen.
  unfold push. rewrite Hcur. simpl. case_decide; [done|].
  rewrite Hcl. simpl.
  set (ts := if decide (S (tape T) = length (tapes T)) then _ else _).
  assert (is_Some (ts !! S (tape T))) as [new0 Hnew0].
  { apply lookup_lt_is_Some_2. unfold ts. case_decide.
    - rewrite length_app. simpl. lia.
    - rewrite length_alter. lia. }
  rewrite (at_lookup _ _ _ Hnew0). simpl.
  rewrite Hemit. simpl. rewrite bool_decide_eq_true_2 by done. simpl.
  eexists D, R, hc, _. split; [done|]. split; [done|].
  split; [|split; [|split]]; [| | |reflexivity]; simpl; done.
Qed.

Lemma push_fresh_Inv fn T cur D R hc new :
  Inv T → current T = Ok cur → dummy cur = 0 →
  walk_inv fn (num_clauses T) (t cur) (D, R, hc) →
  emit D R (t cur) = Ok (t new) →
  dummy new = (if hc then 0 else 1) →
  Inv (set_scratch D R (set_cursor (S (tape T)) (set_tapes (pushed_tapes T new) T))).
Proof.
  intros (Hc & HD & HR & (s0 & Hs0 & Hd0) & Hall) Hcur Hd Hinv Hemit Hdn.
  apply at_Ok in Hcur.
  destruct (Forall_lookup_1 _ _ _ _ Hall Hcur) as [[Hok Hsort] Hne].
  pose proof (walk_inv_decreasing _ _ _ _ Hok Hinv) as Hdec.
  apply emit_emitted in Hemit.
  destruct Hinv as (HD' & HR' & _ & _ & I3 & _). simpl in *.
  unfold Inv; simpl. split_and!; try done.
  - rewrite pushed_tapes_length by done. lia.
  - exists s0. split; [|done]. rewrite pushed_tapes_old; [done|lia|lia].
  - apply pushed_tapes_Forall; [done|done|]. split; [split|].
    + by eapply emitted_ok.
    + by eapply emitted_sorted.
    + rewrite Hdn. destruct hc; [|done]. intros _.
      destruct I3 as (c & Hcin & Hcd); [done|].
      destruct (emitted_kept _ _ _ _ _ Hemit Hcin Hcd) as (c' & Hc' & _).
      intros Hnil. rewrite Hnil in Hc'. by apply elem_of_nil in Hc'.
Qed.

Lemma push_dummy_Inv T cur :
  Inv T → current T = Ok cur → dummy cur ≠ 0 →
  Inv (set_tapes (<[tape T := set_dummy (S (dummy cur)) cur]> (tapes T)) T).
Proof.
  intros (Hc & HD & HR & (s0 & Hs0 & Hd0) & Hall) Hcur Hd. apply at_Ok in Hcur.
  unfold Inv; simpl. rewrite length_insert. split_and!; try done.
  - exists s0. split; [|done]. rewrite list_lookup_insert_ne; [done|].
    intros Heq. rewrite Heq in Hcur. congruence.
  - apply Forall_insert; [done|].
    destruct (Forall_lookup_1 _ _ _ _ Hall Hcur) as [Hok Hne].
    split; [done|]. simpl. done.
Qed.

Lemma pop_Inv T T' : Inv T → pop T = Ok T' → Inv T'.
Proof.
  intros (Hc & HD & HR & (s0 & Hs0 & Hd0) & Hall) Hpop. unfold pop in Hpop.
  inv_result. rename x0 into cur. unfold current in *. inv_result.
  apply bool_decide_eq_true in H.
  case_decide; inv_result; unfold Inv; simpl; rewrite ?length_insert.
  - split_and!; try done.
    + exists s0. split; [|done]. by rewrite list_lookup_insert_ne.
    + apply Forall_insert; [done|].
      destruct (Forall_lookup_1 _ _ _ _ Hall H0) as [Hok Hne].
      split; [done|]. simpl. lia.
  - split_and!; try done; [lia|]. by exists s0.
Qed.

End TapeInv.

(** Every operand of a clause without dummy children is a clause of the
    sequence. *)
Definition operands_present (cl : list Clause) : Prop :=
  ∀ c x, c ∈ cl → hasDummyChildren (op c) = false →
         x = a c ∨ x = b c → x ≠ 0 → ∃ c', c' ∈ cl ∧ id c' = x.

Section Ctor.
Context {F O : Type} (fzero : F).
Context (hash_order : list (nat * (nat * nat)) → list (nat * (nat * nat))).
Implicit Types (nd : @Tree_ F O) (flat : list (@Tree_ F O)).

(** The contract of [Tree::ordered()]: node identities are distinct and not
    null, the operands of a node of positive rank are null or nodes that come
    earlier, and a node of rank 0 is a variable, a constant, or an oracle with
    its oracle object. *)
Definition node_ok (seen : list nat) nd : Prop :=
  t_id nd ≠ 0 ∧ (t_id nd ∉ seen) ∧
  (0 < t_rank nd →
   (t_lhs nd = 0 ∨ t_lhs nd ∈ seen) ∧ (t_rhs nd = 0 ∨ t_rhs nd ∈ seen)) ∧
  (t_rank nd = 0 →
   t_op nd ∈ [CONSTANT; VAR_FREE; VAR_X; VAR_Y; VAR_Z]
   ∨ t_op nd = ORACLE ∧ is_Some (t_oracle nd)).

#[global] Instance node_ok_dec seen nd : Decision (node_ok seen nd).
Proof. unfold node_ok. apply _. Defined.

(** [flat] is in the order of [Tree::ordered()], after the nodes [seen]. *)
Fixpoint ordered_from (seen : list nat) flat : Prop :=
  match flat with
  | [] => True
  | nd :: flat => node_ok seen nd ∧ ordered_from (t_id nd :: seen) flat
  end.

#[global] Instance ordered_from_dec flat : ∀ seen, Decision (ordered_from seen flat).
Proof. induction flat; intros seen; simpl; apply _. Defined.

(** The flattened tree handed to the constructor. *)
Definition ordered_ok flat : Prop := flat ≠ [] ∧ ordered_from [] flat.

#[global] Instance ordered_ok_dec flat : Decision (ordered_ok flat).
Proof. unfold ordered_ok. destruct flat; apply _. Defined.

(** The invariant of the constructor's loop after the nodes [seen]. *)
Definition ctor_inv (seen : list nat) (st : @ctor_state F O) : Prop :=
  let '(tape_, ids, cs, vs, os) := st in
  (∀ p, is_Some (ids !! p) ↔ p = 0 ∨ p ∈ seen) ∧
  size ids = S (length tape_) ∧
  length seen = length tape_ ∧
  (∀ p v, ids !! p = Some v → v < size ids ∧ (v ≠ 0 → ∃ c, c ∈ tape_ ∧ id c = v)) ∧
  sub_ok (size ids) tape_ ∧
  length cs ≤ length tape_ ∧ length vs ≤ length tape_ ∧ length os ≤ length tape_ ∧
  operands_present tape_.

Lemma clause_ok_mono n1 n2 c : n1 ≤ n2 → clause_ok n1 c → clause_ok n2 c.
Proof. unfold clause_ok. lia. Qed.

Lemma ctor_step_inv seen st nd :
  ctor_inv seen st → node_ok seen nd →
  ∃ st', ctor_step st nd = Ok st' ∧ ctor_inv (t_id nd :: seen) st'.
Proof.
  destruct st as [[[[tape_ ids] cs] vs] os].
  intros (Hdom & Hsize & Hseen & Hval & [Hok Hsorted] & Hcs & Hvs & Hos & Hpres) (Hid0 & Hfresh & Hn1 & Hn0).
  assert (ids !! t_id nd = None) as Hnone.
  { destruct (ids !! t_id nd) eqn:E; [|done].
    destruct (proj1 (Hdom (t_id nd))); [by eexists|done|done]. }
  assert (emplace (t_id nd) (size ids) ids = <[t_id nd := size ids]> ids) as Hemp
    by (unfold emplace; by rewrite Hnone).
  (* the parts of the invariant that do not depend on the clause emitted *)
  assert (∀ c cs' vs' os',
            id c = size ids → a c < size ids → b c < size ids →
            (hasDummyChildren (op c) = false →
             ∀ x, x = a c ∨ x = b c → x ≠ 0 → ∃ c', c' ∈ tape_ ∧ id c' = x) →
            length cs' ≤ S (length tape_) → length vs' ≤ S (length tape_) →
            length os' ≤ S (length tape_) →
            ctor_inv (t_id nd :: seen)
              (c :: tape_, <[t_id nd := size ids]> ids, cs', vs', os')) as Hgen.
  { intros c cs' vs' os' Hcid Hca Hcb Hcp ? ? ?.
    unfold ctor_inv. rewrite map_size_insert_None by done. simpl. split_and!; try done.
    - intros p. rewrite lookup_insert_is_Some, Hdom, elem_of_cons.
      destruct (decide (t_id nd = p)); naive_solver.
    - lia.
    - lia.
    - intros p v. rewrite lookup_insert_Some. intros [[<- <-]|[_ Hp]].
      + split; [lia|]. intros _. exists c. split; [by left|done].
      + destruct (Hval _ _ Hp) as [? Hc]. split; [lia|].
        intros Hv. destruct (Hc Hv) as (c' & ? & ?). exists c'. split; [by right|done].
    - split.
      + constructor; [unfold clause_ok; lia|].
        eapply Forall_impl; [exact Hok|]. intros c'. apply clause_ok_mono. lia.
      + constructor; [done|]. rewrite Forall_forall in Hok |- *.
        intros c' Hc'. destruct (Hok _ Hc') as [? _]. unfold id_gt. lia.
    - intros c1 x [->|Hc1]%elem_of_cons Hd Hx Hx0.
      + destruct (Hcp Hd x Hx Hx0) as (c' & ? & ?). exists c'. split; [by right|done].
      + destruct (Hpres c1 x Hc1 Hd Hx Hx0) as (c' & ? & ?).
        exists c'. split; [by right|done]. }
  unfold ctor_step. rewrite Hemp. case_decide as Hrank.
  - (* an operation: operands looked up in [ids] *)
    destruct (Hn1 Hrank) as [Hl Hr].
    assert (∀ p, p = 0 ∨ p ∈ seen →
       ∃ v, ids_at (<[t_id nd:=size ids]> ids) p = Ok v ∧ v < size ids ∧
            (v ≠ 0 → ∃ c', c' ∈ tape_ ∧ id c' = v)) as Hlook.
    { intros p Hp. destruct (proj2 (Hdom p) Hp) as [v Hv].
      exists v. unfold ids_at. rewrite lookup_insert_ne; [|intros <-; congruence].
      rewrite Hv. split; [done|]. by apply Hval in Hv. }
    destruct (Hlook _ Hl) as (la & -> & ? & ?).
    destruct (Hlook _ Hr) as (lb & -> & ? & ?). simpl.
    eexists. split; [done|]. apply Hgen; simpl; try done; try lia.
    intros _ x [->| ->]; auto.
  - assert (∀ o k, k ≤ length tape_ → o = t_op nd → hasDummyChildren o = true ∨ k = 0 →
        ∀ cs' vs' os', length cs' ≤ S (length tape_) → length vs' ≤ S (length tape_) →
            length os' ≤ S (length tape_) →
            ctor_inv (t_id nd :: seen)
              (mkClause o (size ids) k 0 :: tape_, <[t_id nd := size ids]> ids, cs', vs', os'))
      as Hleaf.
    { intros o k Hk -> Hd cs' vs' os' ? ? ?. apply Hgen; simpl; try done; try lia.
      intros Hnd x [->| ->]; [|done]. destruct Hd as [Hd| ->]; [congruence|done]. }
    assert (t_op nd ∈ [CONSTANT; VAR_FREE; VAR_X; VAR_Y; VAR_Z]
            ∨ t_op nd = ORACLE ∧ is_Some (t_oracle nd)) as Hn by (apply Hn0; lia).
    case_decide as Hc; [|case_decide as Hv; [|case_decide as Ho]].
    + eexists. split; [done|]. apply Hleaf; rewrite ?length_app; simpl; try done; try lia.
      left. by rewrite Hc.
    + eexists. split; [done|]. apply Hleaf; rewrite ?length_app; simpl; try done; try lia.
      left. by rewrite Hv.
    + destruct Hn as [Hn|[_ [o Hor]]].
      { rewrite Ho in Hn. set_solver. }
      rewrite Hor. eexists. split; [done|].
      apply (Hleaf ORACLE); rewrite ?length_app; simpl; try done; try lia. by left.
    + destruct Hn as [Hn|[? _]]; [|done].
      assert (t_op nd = VAR_X ∨ t_op nd = VAR_Y ∨ t_op nd = VAR_Z) as Hvar by set_solver.
      replace (assert_ _) with (Ok ()).
      2:{ symmetry. apply assert_Ok. destruct Hvar as [->|[->| ->]]; done. }
      simpl. eexists. split; [done|].
      apply Hleaf; simpl; try done; try lia; by right.
Qed.

Lemma ctor_fold_inv flat : ∀ seen st,
  ctor_inv seen st → ordered_from seen flat →
  ∃ seen' st', foldlM ctor_step flat st = Ok st' ∧ ctor_inv seen' st' ∧
               length seen' = length seen + length flat.
Proof.
  induction flat as [|nd flat IH]; intros seen st Hinv Hord; simpl.
  - exists seen, st. split; [done|]. split; [done|lia].
  - destruct Hord as [Hn Hord].
    destruct (ctor_step_inv seen st nd Hinv Hn) as (st1 & -> & Hinv1). simpl.
    destruct (IH _ _ Hinv1 Hord) as (seen' & st' & ? & ? & Hlen).
    exists seen', st'. split; [done|]. split; [done|]. simpl in Hlen. lia.
Qed.

Lemma ctor_inv_init : ctor_inv [] (([], {[0 := 0]}, [], [], []) : @ctor_state F O).
Proof.
  unfold ctor_inv. split_and!; simpl; try done.
  - intros p. rewrite lookup_singleton_is_Some. set_solver.
  - intros p v [<- <-]%lookup_singleton_Some. rewrite map_size_singleton. split; [lia|done].
  - split; constructor.
  - intros c x ?%elem_of_nil. done.
Qed.


Lemma Tape_ctor_spec flat T :
  Tape_ctor fzero hash_order flat = Ok T →
  ∃ tape_ ids cs vs os asg mv,
    foldlM ctor_step flat ([], {[0 := 0]}, [], [], []) = Ok (tape_, ids, cs, vs, os) ∧
    slots_of hash_order tape_ = Ok asg ∧
    foldlM store_slot (map_to_list asg) (replicate (size ids) 0) = Ok mv ∧
    T = {| constants := cs; vars := vs; oracles := os;
           tapes := [set_m mv (set_t tape_ (Subtape_new fzero))]; tape := 0;
           num_clauses := size ids;
           disabled := replicate (size ids) false;
           remap := replicate (size ids) 0 |}.
Proof.
  unfold Tape_ctor. intros H. inv_result.
  destruct x as [[[[tape_ ids] cs] vs] os]. inv_result.
  match goal with H : assignSlots _ _ = Ok _ |- _ =>
    unfold assignSlots, current in H; simpl in H; inv_result end. simpl in *.
  eexists _, _, _, _, _, _, _. split; [done|]. split; [done|].
  match goal with H : foldlM store_slot _ _ = Ok _ |- _ => rewrite resize_nil in H end.
  split; [done|].
  unfold set_scratch, set_tapes; simpl. by rewrite !resize_nil.
Qed.

Lemma Tape_ctor_Inv flat T :
  ordered_ok flat → Tape_ctor fzero hash_order flat = Ok T →
  Inv T ∧ tape T = 0 ∧ length (tapes T) = 1 ∧
  Forall (λ s, operands_present (t s)) (tapes T).
Proof.
  intros [Hne Hord] (tape_ & ids & cs & vs & os & asg & mv & Hfold & _ & _ & ->)%Tape_ctor_spec.
  destruct (ctor_fold_inv flat [] _ ctor_inv_init Hord) as (seen & st & Hfold' & Hinv & Hlen).
  rewrite Hfold in Hfold'. simplify_eq.
  destruct Hinv as (_ & _ & Hseen & _ & Hok & _ & _ & _ & Hpres).
  split; [|by repeat constructor].
  unfold Inv; simpl. rewrite !length_replicate. split_and!; try done; [lia|by eexists|].
  constructor; [|constructor]. split; [done|]. simpl. intros _ ->.
  destruct flat; [done|]. simpl in *. lia.
Qed.

End Ctor.

Section Run.
Context {F O : Type} (fzero : F).
Context (hash_order : list (nat * (nat * nat)) → list (nat * (nat * nat))).
Implicit Types (T : @Tape F O) (s cur : @Subtape F).

(** A client of the tape: a sequence of pushes and pops. *)
Inductive Cmd : Type :=
| CPush (fn : Opcode → nat → nat → nat → Keep) (ty : Type_) (r : @Region3 F)
| CPop.

(** One push (its handle dropped from the state) or one pop. *)
Definition run_cmd (this : nat) T (c : Cmd) : result (@Tape F O) :=
  match c with
  | CPush fn ty r => fst <$> push fzero this fn ty r T
  | CPop => pop T
  end.

(** A sequence of pushes and pops, from left to right. *)
Definition run (this : nat) (cmds : list Cmd) T : result (@Tape F O) :=
  foldlM (run_cmd this) cmds T.

(** The deepest nesting a sequence reaches, starting at depth [d]. *)
Fixpoint max_depth (d : nat) (cmds : list Cmd) : nat :=
  match cmds with
  | [] => d
  | CPush _ _ _ :: cmds => d `max` max_depth (S d) cmds
  | CPop :: cmds => d `max` max_depth (pred d) cmds
  end.

(** No pop without a push before it. *)
Fixpoint well_nested (d : nat) (cmds : list Cmd) : Prop :=
  match cmds with
  | [] => True
  | CPush _ _ _ :: cmds => well_nested (S d) cmds
  | CPop :: cmds => 0 < d ∧ well_nested (pred d) cmds
  end.

(** The tapes a client can see: built by the constructor from a flattened
    tree, then driven by pushes and pops. *)
Definition reachable T : Prop :=
  ∃ flat T0 this cmds,
    ordered_ok flat ∧ Tape_ctor fzero hash_order flat = Ok T0 ∧ run this cmds T0 = Ok T.

Lemma set_dummy_id s : set_dummy (dummy s) s = s.
Proof. by destruct s. Qed.

Lemma set_dummy_set_dummy d1 d2 s : set_dummy d1 (set_dummy d2 s) = set_dummy d1 s.
Proof. by destruct s. Qed.

Lemma set_tapes_id T : set_tapes (tapes T) T = T.
Proof. by destruct T. Qed.

Lemma Inv_current T : Inv T → ∃ cur, current T = Ok cur ∧ tapes T !! tape T = Some cur.
Proof.
  intros (Hc & _). destruct (lookup_lt_is_Some_2 _ _ Hc) as [cur Hcur].
  exists cur. split; [by apply at_Ok|done].
Qed.

Lemma Inv_base_dummy T cur :
  Inv T → tapes T !! tape T = Some cur → dummy cur ≠ 0 → tape T ≠ 0.
Proof. intros (_ & _ & _ & (s0 & Hs0 & Hd0) & _) Hcur Hd Heq. rewrite Heq in Hcur. congruence. Qed.

Lemma push_Inv (this : nat) fn ty (r : @Region3 F) T :
  Inv T → ∃ T1 h, push fzero this fn ty r T = Ok (T1, h) ∧ Inv T1.
Proof.
  intros HI. destruct (Inv_current T HI) as (cur & Hcur & Hlk).
  destruct (decide (dummy cur = 0)) as [Hd|Hd].
  - destruct (push_fresh fzero this fn ty r T cur HI Hcur Hd)
      as (D & R & hc & new & _ & Hw & Hem & Hdn & _ & ->).
    eexists _, _. split; [done|]. by eapply push_fresh_Inv.
  - rewrite (push_dummy fzero this fn ty r T cur Hcur Hd).
    eexists _, _. split; [done|]. by apply push_dummy_Inv.
Qed.

Lemma pop_after_push (this : nat) fn ty (r : @Region3 F) T :
  Inv T →
  ∃ T1 h T2, push fzero this fn ty r T = Ok (T1, h) ∧ tape T1 ≠ 0 ∧
             pop T1 = Ok T2 ∧ tape T2 = tape T ∧
             (∀ i, i ≤ tape T → tapes T2 !! i = tapes T !! i).
Proof.
  intros HI. destruct (Inv_current T HI) as (cur & Hcur & Hlk).
  pose proof HI as (Hc & _).
  destruct (decide (dummy cur = 0)) as [Hd|Hd].
  - destruct (push_fresh fzero this fn ty r T cur HI Hcur Hd)
      as (D & R & hc & new & _ & Hw & Hem & Hdn & _ & ->).
    eexists _, _, _. split; [done|]. simpl. split; [done|].
    unfold pop, current. simpl. rewrite (at_lookup _ _ new) by (by apply pushed_tapes_new).
    simpl. rewrite decide_False by (rewrite Hdn; destruct hc; lia).
    split; [done|]. simpl. split; [lia|].
    intros i Hi. apply pushed_tapes_old; lia.
  - rewrite (push_dummy fzero this fn ty r T cur Hcur Hd).
    pose proof (Inv_base_dummy T cur HI Hlk Hd) as Hne.
    eexists _, _, _. split; [done|]. simpl. split; [done|].
    unfold pop, current. simpl. rewrite bool_decide_eq_true_2 by done. simpl.
    rewrite (at_lookup _ _ (set_dummy (S (dummy cur)) cur))
      by (by apply list_lookup_insert_eq).
    simpl. rewrite decide_True by lia.
    split; [done|]. simpl. split; [done|]. intros i _.
    rewrite list_insert_insert_eq, set_dummy_set_dummy.
    replace (dummy cur - 0) with (dummy cur) by lia.
    by rewrite set_dummy_id, list_insert_id.
Qed.

Lemma run_cmd_Inv this T c T' : Inv T → run_cmd this T c = Ok T' → Inv T'.
Proof.
  intros HI. destruct c as [fn ty r|]; simpl.
  - destruct (push_Inv this fn ty r T HI) as (T1 & h & -> & ?). simpl. by intros [= <-].
  - by apply pop_Inv.
Qed.

Lemma run_Inv this cmds : ∀ T T', Inv T → run this cmds T = Ok T' → Inv T'.
Proof.
  induction cmds as [|c cmds IH]; intros T T' HI Hrun; unfold run in *; simpl in Hrun.
  - by inv_result.
  - inv_result. eauto using run_cmd_Inv.
Qed.

Lemma reachable_Inv T : reachable T → Inv T.
Proof.
  intros (flat & T0 & this & cmds & Hord & Hctor & Hrun).
  eapply run_Inv; [|done]. by eapply Tape_ctor_Inv.
Qed.

(** The number of pushes that are still open. *)
Definition level T : nat :=
  match tapes T !! tape T with
  | Some cur => tape T + pred (dummy cur)
  | None => 0
  end.

(** The invariant of a run at nesting depth [d]: only the subtape under
    the cursor may be a dummy. *)
Definition run_inv T (d : nat) : Prop :=
  Inv T ∧ level T = d ∧ ∀ i s, i < tape T → tapes T !! i = Some s → dummy s = 0.

Lemma run_cmd_level this T c T' d :
  run_inv T d → run_cmd this T c = Ok T' →
  run_inv T' (match c with CPush _ _ _ => S d | CPop => pred d end) ∧
  length (tapes T) ≤ length (tapes T') ∧
  length (tapes T') ≤
    length (tapes T) `max` S (match c with CPush _ _ _ => S d | CPop => pred d end).
Proof.
  intros (HI & Hlev & Hbelow) Hrun.
  pose proof (run_cmd_Inv _ _ _ _ HI Hrun) as HI'.
  destruct (Inv_current T HI) as (cur & Hcur & Hlk).
  pose proof HI as (Hc & _ & _ & (s0 & Hs0 & Hd0) & _).
  unfold level in Hlev. rewrite Hlk in Hlev.
  destruct c as [fn ty r|]; simpl in Hrun.
  - destruct (decide (dummy cur = 0)) as [Hd|Hd].
    + destruct (push_fresh fzero this fn ty r T cur HI Hcur Hd)
        as (D & R & hc & new & _ & Hw & Hem & Hdn & _ & Hp).
      rewrite Hp in Hrun. simpl in Hrun. simplify_eq.
      unfold run_inv, level; simpl.
      rewrite pushed_tapes_new, pushed_tapes_length by done.
      split_and!; try done; try lia.
      * rewrite Hdn, Hd. destruct hc; simpl; lia.
      * intros i s Hi. rewrite pushed_tapes_old by lia.
        destruct (decide (i = tape T)) as [->|]; [congruence|].
        apply Hbelow. lia.
    + rewrite (push_dummy fzero this fn ty r T cur Hcur Hd) in Hrun.
      simpl in Hrun. simplify_eq.
      unfold run_inv, level; simpl. rewrite length_insert.
      rewrite list_lookup_insert_eq by done. simpl.
      split_and!; try done; try lia.
      intros i s Hi. rewrite list_lookup_insert_ne by lia. by apply Hbelow.
  - unfold pop in Hrun. rewrite Hcur in Hrun. inv_result.
    match goal with H : bool_decide _ = true |- _ => apply bool_decide_eq_true in H end.
    case_decide; inv_result; unfold run_inv, level; simpl.
    + rewrite length_insert, list_lookup_insert_eq by done. simpl.
      split_and!; try done; try lia.
      intros i s Hi. rewrite list_lookup_insert_ne by lia. by apply Hbelow.
    + destruct (lookup_lt_is_Some_2 (tapes T) (tape T - 1)) as [p Hp]; [lia|].
      assert (dummy p = 0) as Hp0 by (eapply Hbelow; [|exact Hp]; lia).
      rewrite Hp, Hp0. simpl.
      split_and!; try done; try lia.
      intros i s Hi. apply Hbelow. lia.
Qed.

Lemma max_depth_ge cmds : ∀ d, d ≤ max_depth d cmds.
Proof. induction cmds as [|[]]; intros d; simpl; lia. Qed.

Lemma run_level this cmds : ∀ T T' d,
  run_inv T d → run this cmds T = Ok T' →
  length (tapes T) ≤ length (tapes T') ∧
  length (tapes T') ≤ length (tapes T) `max` S (max_depth d cmds).
Proof.
  induction cmds as [|c cmds IH]; intros T T' d Hinv Hrun; unfold run in *; simpl in Hrun.
  - inv_result. simpl. lia.
  - inv_result. rename x into T1.
    match goal with H : run_cmd _ _ _ = Ok _ |- _ =>
      destruct (run_cmd_level _ _ _ _ _ Hinv H) as (Hinv1 & ? & ?) end.
    destruct (IH _ _ _ Hinv1 Hrun) as [? ?].
    destruct c; simpl in *.
    + pose proof (max_depth_ge cmds (S d)). lia.
    + pose proof (max_depth_ge cmds (pred d)). lia.
Qed.

Lemma run_total this cmds : ∀ T d,
  run_inv T d → well_nested d cmds → ∃ T', run this cmds T = Ok T'.
Proof.
  induction cmds as [|c cmds IH]; intros T d Hinv Hwn; unfold run in *; simpl.
  - by eexists.
  - assert (∃ T1, run_cmd this T c = Ok T1) as [T1 H1].
    { destruct Hinv as (HI & Hlev & Hbelow). destruct c as [fn ty r|]; simpl.
      - destruct (push_Inv this fn ty r T HI) as (T1 & h & -> & _). by eexists.
      - destruct Hwn as [Hd _].
        destruct (Inv_current T HI) as (cur & Hcur & Hlk).
        pose proof HI as (_ & _ & _ & (s0 & Hs0 & Hd0) & _).
        unfold pop. rewrite Hcur. rewrite bool_decide_eq_true_2.
        + simpl. case_decide; by eexists.
        + intros Heq. unfold level in Hlev. rewrite Hlk in Hlev.
          rewrite Heq in Hlk. simplify_eq. lia. }
    rewrite H1. simpl.
    destruct (run_cmd_level _ _ _ _ _ Hinv H1) as (Hinv1 & _).
    eapply IH; [exact Hinv1|]. destruct c; simpl in *; tauto.
Qed.

Lemma pop_length T T' : pop T = Ok T' → length (tapes T') = length (tapes T).
Proof.
  unfold pop. intros Hp. inv_result. case_decide; inv_result; simpl; [|done].
  by rewrite length_insert.
Qed.

Lemma run_cmd_total this T c rest d :
  run_inv T d → well_nested d (c :: rest) → ∃ T1, run_cmd this T c = Ok T1.
Proof.
  intros Hinv Hwn. destruct (run_total this [c] T d Hinv) as [T1 H1].
  { destruct c; simpl in *; tauto. }
  unfold run in H1. simpl in H1. inv_result. by eexists.
Qed.

(** Every step of a run: the tape before it, the tape after it, and the
    stack of subtapes, which a push never shortens and a pop leaves at its
    length. *)
Lemma run_steps this pre : ∀ cmds T d c suf,
  run_inv T d → well_nested d cmds → cmds = pre ++ c :: suf →
  ∃ Tp Tn, run this pre T = Ok Tp ∧ run_cmd this Tp c = Ok Tn ∧
           length (tapes Tp) ≤ length (tapes Tn) ∧
           (c = CPop → length (tapes Tn) = length (tapes Tp)).
Proof.
  induction pre as [|c0 pre IH]; intros cmds T d c suf Hinv Hwn ->; simpl in Hwn.
  - destruct (run_cmd_total this T c suf d Hinv Hwn) as [Tn Hn].
    exists T, Tn. split; [done|]. split; [done|].
    destruct (run_cmd_level _ _ _ _ _ Hinv Hn) as (_ & Hle & _). split; [done|].
    intros ->. simpl in Hn. by apply pop_length.
  - destruct (run_cmd_total this T c0 (pre ++ c :: suf) d Hinv Hwn) as [T1 H1].
    destruct (run_cmd_level _ _ _ _ _ Hinv H1) as (Hinv1 & _).
    destruct (IH (pre ++ c :: suf) T1 _ c suf Hinv1) as (Tp & Tn & Hp & Hn & Hle);
      [destruct c0; simpl in *; tauto|done|].
    exists Tp, Tn. split; [|done]. unfold run in *. simpl. by rewrite H1.
Qed.

Lemma ctor_run_inv flat T :
  ordered_ok flat → Tape_ctor fzero hash_order flat = Ok T → run_inv T 0.
Proof.
  intros Hord Hctor.
  destruct (Tape_ctor_Inv fzero hash_order flat T Hord Hctor) as (HI & Hc & Hlen & _).
  pose proof HI as (_ & _ & _ & (s0 & Hs0 & Hd0) & _).
  split; [done|]. split.
  - unfold level. rewrite Hc, Hs0, Hd0. done.
  - intros i s Hi. lia.
Qed.

Lemma reachable_run_inv T : reachable T → ∃ d, run_inv T d.
Proof.
  intros (flat & T0 & this & cmds & Hord & Hctor & Hrun).
  pose proof (ctor_run_inv flat T0 Hord Hctor) as Hri.
  clear Hctor. revert T0 Hri Hrun. generalize 0.
  induction cmds as [|c cmds IH]; intros d T0 Hri Hrun; unfold run in *; simpl in Hrun.
  - inv_result. by exists d.
  - inv_result.
    match goal with H : run_cmd _ _ _ = Ok _ |- _ =>
      destruct (run_cmd_level _ _ _ _ _ Hri H) as (Hri' & _) end.
    by eapply IH.
Qed.

End Run.

(** The contract the source states for classifiers: an oracle, variable or
    constant clause is answered by [KEEP_BOTH] or [KEEP_ALWAYS]. *)
Definition respects_leaves (fn : Opcode → nat → nat → nat → Keep) : Prop :=
  ∀ o i x y, hasDummyChildren o = true →
             fn o i x y = KEEP_BOTH ∨ fn o i x y = KEEP_ALWAYS.

Section Chain.
Context (fn : Opcode → nat → nat → nat → Keep) (n : nat).

Lemma walk_inv_remap0 cl st :
  0 < n → Forall (clause_ok n) cl → walk_inv fn n cl st → st.1.2 !! 0 = Some 0.
Proof.
  intros Hn Hok (_ & HR & I1 & _).
  destruct (lookup_lt_is_Some_2 st.1.2 0) as [r Hr]; [lia|].
  destruct (decide (r = 0)) as [->|Hne]; [done|].
  destruct (I1 _ _ Hr Hne) as (c & Hc & Hid & _).
  rewrite Forall_forall in Hok. destruct (Hok _ Hc) as [? _]. lia.
Qed.

Lemma follow_chain cl D R hc :
  respects_leaves fn → operands_present cl → walk_inv fn n cl (D, R, hc) →
  ∀ fuel x y,
    reached D R x → x ≠ 0 → (∃ c, c ∈ cl ∧ id c = x) →
    follow R fuel x = Ok y →
    y ≠ 0 ∧ D !! y = Some false ∧ ∃ c, c ∈ cl ∧ id c = y.
Proof.
  intros Hsane Hpres (HD & HR & I1 & I2 & _). simpl in *.
  induction fuel as [|fuel IH]; intros x y Hx Hx0 Hin Hf.
  - by rewrite follow_0 in Hf.
  - rewrite follow_S in Hf. inv_result. rename x0 into nxt.
    case_decide as Hn0; inv_result.
    + split; [done|]. split; [|done].
      destruct Hx as [?|(r & Hr & ?)]; [done|congruence].
    + match goal with H : R !! x = Some nxt |- _ =>
        destruct (I1 _ _ H Hn0) as (c & Hc & Hid & Hk & _ & Hreach) end.
      apply (IH nxt y); try done.
      assert (hasDummyChildren (op c) = false) as Hnd.
      { destruct (hasDummyChildren (op c)) eqn:E; [|done].
        destruct (Hsane (op c) (id c) (a c) (b c) E) as [Hs|Hs];
          unfold keep_of in Hk; rewrite Hs in Hk; naive_solver. }
      apply (Hpres c nxt Hc Hnd); [|done]. naive_solver.
Qed.

Lemma emitted_operands_present cl cl' D R hc :
  0 < n → respects_leaves fn → Forall (clause_ok n) cl → operands_present cl →
  walk_inv fn n cl (D, R, hc) → emitted D R cl cl' → operands_present cl'.
Proof.
  intros Hn Hsane Hok Hpres Hinv Hem c' x Hc' Hnd Hx Hx0.
  destruct (emitted_elem _ _ _ _ _ Hem Hc') as (c & Hc & Hd & Hop & Hid & Hrw).
  rewrite Hop in Hnd.
  rewrite decide_False in Hrw by (intros E; by rewrite E in Hnd).
  destruct Hrw as [Hra Hrb].
  pose proof (walk_inv_remap0 _ _ Hn Hok Hinv) as HR0. simpl in HR0.
  pose proof Hinv as (_ & HR & _ & I2 & _). simpl in *.
  destruct (I2 c Hc Hd Hnd) as [Hreach_a Hreach_b].
  assert (∀ z, reached D R z → (z = a c ∨ z = b c) →
               follow R (S (length R)) z = Ok x →
               ∃ c'', c'' ∈ cl' ∧ id c'' = x) as Hgo.
  { intros z Hz Hzc Hf.
    assert (z ≠ 0) as Hz0.
    { intros ->. rewrite follow_S, (at_lookup _ _ _ HR0) in Hf. simpl in Hf.
      by simplify_eq. }
    destruct (follow_chain cl D R hc Hsane Hpres Hinv (S (length R)) z x Hz Hz0) as (_ & Hdx & c1 & Hc1 & Hid1);
      [by apply (Hpres c z)|done|].
    rewrite <- Hid1 in Hdx.
    destruct (emitted_kept _ _ _ _ _ Hem Hc1 Hdx) as (c'' & ? & _ & Hid'' & _).
    exists c''. split; [done|congruence]. }
  destruct Hx as [->| ->]; [apply (Hgo (a c))|apply (Hgo (b c))]; auto.
Qed.

End Chain.

Section SaneRun.
Context {F O : Type} (fzero : F).
Context (hash_order : list (nat * (nat * nat)) → list (nat * (nat * nat))).
Implicit Types (T : @Tape F O) (s cur : @Subtape F).

(** A push whose classifier keeps to the contract. *)
Definition cmd_sane (c : @Cmd F) : Prop :=
  match c with CPush fn _ _ => respects_leaves fn | CPop => True end.

(** The tapes reached through classifiers that keep to their contract. *)
Definition reachable_sane T : Prop :=
  ∃ flat T0 this cmds,
    ordered_ok flat ∧ Tape_ctor fzero hash_order flat = Ok T0 ∧
    Forall cmd_sane cmds ∧ run fzero this cmds T0 = Ok T.

(** Every subtape holds the operands of its clauses. *)
Definition InvP T : Prop := Forall (λ s, operands_present (t s)) (tapes T).

Lemma Inv_num_clauses_pos T : Inv T → 0 < num_clauses T.
Proof.
  intros (_ & _ & _ & (s0 & Hs0 & Hd0) & Hall).
  destruct (Forall_lookup_1 _ _ _ _ Hall Hs0) as [[Hok _] Hne].
  destruct (t s0) as [|c ?]; [by destruct Hne|].
  apply Forall_cons in Hok as [(? & _) _]. lia.
Qed.

Lemma run_cmd_InvP this T c T' :
  Inv T → InvP T → cmd_sane c → run_cmd fzero this T c = Ok T' → InvP T'.
Proof.
  intros HI HP Hsane Hrun.
  destruct (Inv_current T HI) as (cur & Hcur & Hlk).
  pose proof HI as (Hc & _ & _ & _ & Hall).
  destruct c as [fn ty r|]; simpl in Hrun.
  - destruct (decide (dummy cur = 0)) as [Hd|Hd].
    + destruct (push_fresh fzero this fn ty r T cur HI Hcur Hd)
        as (D & R & hc & new & _ & Hw & Hem & Hdn & _ & Hp).
      rewrite Hp in Hrun. simpl in Hrun. simplify_eq.
      unfold InvP; simpl. apply pushed_tapes_Forall; [done|done|].
      destruct (Forall_lookup_1 _ _ _ _ Hall Hlk) as [[Hok _] _].
      apply (emitted_operands_present fn (num_clauses T) (t cur) (t new) D R hc);
        [by apply Inv_num_clauses_pos|done|done| |done|by apply emit_emitted].
      by eapply Forall_lookup_1 in HP.
    + rewrite (push_dummy fzero this fn ty r T cur Hcur Hd) in Hrun.
      simpl in Hrun. simplify_eq. unfold InvP; simpl.
      apply Forall_insert; [done|]. simpl. by eapply Forall_lookup_1 in HP.
  - unfold pop in Hrun. rewrite Hcur in Hrun. inv_result.
    case_decide; inv_result; unfold InvP; simpl; [|done].
    apply Forall_insert; [done|]. simpl. by eapply Forall_lookup_1 in HP.
Qed.

Lemma run_InvP this cmds : ∀ T T',
  Inv T → InvP T → Forall cmd_sane cmds → run fzero this cmds T = Ok T' → InvP T'.
Proof.
  induction cmds as [|c cmds IH]; intros T T' HI HP Hs Hrun; unfold run in *; simpl in Hrun.
  - by inv_result.
  - inv_result. apply Forall_cons in Hs as [Hc Hs].
    eapply IH; [| |done|done]; eauto using run_cmd_Inv, run_cmd_InvP.
Qed.

Lemma operands_later n cl i c x :
  sub_ok n cl → operands_present cl →
  cl !! i = Some c → hasDummyChildren (op c) = false →
  x = a c ∨ x = b c → x ≠ 0 →
  ∃ j c', i < j ∧ cl !! j = Some c' ∧ id c' = x.
Proof.
  intros [Hok Hsorted] Hpres Hi Hnd Hx Hx0.
  destruct (Hpres c x) as (c' & Hc' & Hid); [by eapply list_elem_of_lookup_2|done..|].
  apply list_elem_of_lookup_1 in Hc' as [j Hj].
  exists j, c'. split; [|done].
  destruct (Forall_lookup_1 _ _ _ _ Hok Hi) as (_ & Ha & Hb).
  assert (id c' < id c) as Hlt by (destruct Hx as [->| ->]; lia).
  destruct (decide (i < j)) as [|Hge]; [done|].
  destruct (decide (i = j)) as [->|]; [simplify_eq; lia|].
  assert (j < i) as Hji by lia.
  pose proof (take_drop_middle _ _ _ Hi) as Hsplit.
  rewrite <- Hsplit in Hsorted.
  apply (StronglySorted_app_1_elem_of id_gt _ _ c' c) in Hsorted; [unfold id_gt in *; lia| |by left].
  apply list_elem_of_lookup. exists j. rewrite lookup_take_lt by done. done.
Qed.

End SaneRun.

(** The key of an event as a number: [DROP] before [LOAD] at one position. *)
Definition key_code (k : nat * RegOp) : nat :=
  2 * k.1 + match k.2 with DROP => 0 | LOAD => 1 end.

(** The order of the multimap. *)
Definition event_le (e1 e2 : Event) : Prop := key_code e1.1 ≤ key_code e2.1.

(** The events of one entry of [ranges]. *)
Definition events_of (r : nat * (nat * nat)) : list Event :=
  [((r.2.1, LOAD), r.1); ((r.2.2, DROP), r.1)].

(** The clause ids loaded by a sequence of events. *)
Definition loads (evs : list Event) : list nat :=
  omap (λ e : Event, match e.1.2 with LOAD => Some e.2 | DROP => None end) evs.

(** Two ranges [(first, last + 1)] have a position in common. *)
Definition overlap (r1 r2 : nat * nat) : Prop := r1.1 < r2.2 ∧ r2.1 < r1.2.

Lemma key_lt_code k1 k2 : key_lt k1 k2 = true ↔ key_code k1 < key_code k2.
Proof.
  destruct k1 as [p1 o1], k2 as [p2 o2]. unfold key_lt, key_code. simpl.
  rewrite orb_true_iff, andb_true_iff, !bool_decide_eq_true.
  destruct o1, o2; simpl; lia.
Qed.

Lemma mm_insert_perm e l : mm_insert e l ≡ₚ e :: l.
Proof.
  induction l as [|x l IH]; simpl; [done|].
  destruct (key_lt e.1 x.1); [done|]. rewrite IH. apply perm_swap.
Qed.

Lemma mm_insert_sorted e l :
  StronglySorted event_le l → StronglySorted event_le (mm_insert e l).
Proof.
  induction 1 as [|x l Hs IH Hall]; simpl; [repeat constructor|].
  destruct (key_lt e.1 x.1) eqn:E.
  - apply key_lt_code in E. constructor; [by constructor|].
    constructor; [unfold event_le; lia|].
    eapply Forall_impl; [exact Hall|]. unfold event_le. intros; lia.
  - assert (¬ key_code e.1 < key_code x.1) as Hge.
    { intros Hlt%key_lt_code. congruence. }
    constructor; [done|]. rewrite mm_insert_perm. constructor; [unfold event_le; lia|done].
Qed.

Lemma reg_ops_of_spec entries :
  StronglySorted event_le (reg_ops_of entries) ∧
  reg_ops_of entries ≡ₚ entries ≫= events_of.
Proof.
  unfold reg_ops_of.
  assert (∀ acc, StronglySorted event_le acc →
    StronglySorted event_le
      (foldl (λ acc r, mm_insert ((r.2.2, DROP), r.1) (mm_insert ((r.2.1, LOAD), r.1) acc))
             acc entries) ∧
    foldl (λ acc r, mm_insert ((r.2.2, DROP), r.1) (mm_insert ((r.2.1, LOAD), r.1) acc))
          acc entries ≡ₚ (entries ≫= events_of) ++ acc) as Hgen.
  { induction entries as [|r entries IH]; intros acc Hacc; simpl; [done|].
    destruct (IH (mm_insert ((r.2.2, DROP), r.1) (mm_insert ((r.2.1, LOAD), r.1) acc)))
      as [Hs Hp]; [by do 2 apply mm_insert_sorted|].
    split; [done|]. rewrite Hp, !mm_insert_perm.
    rewrite <- !Permutation_middle. simpl.
    rewrite (perm_swap _ _ ((entries ≫= events_of) ++ acc)). done. }
  destruct (Hgen []) as [? Hp]; [constructor|]. by rewrite app_nil_r in Hp.
Qed.

Lemma loads_bind entries : loads (entries ≫= events_of) = entries.*1.
Proof. induction entries as [|r entries IH]; simpl; [done|]. unfold loads in *. simpl. by f_equal. Qed.

Lemma set_insert_elem x y l : y ∈ set_insert x l ↔ y = x ∨ y ∈ l.
Proof.
  induction l as [|z l IH]; simpl; [set_solver|].
  repeat case_decide; subst; rewrite ?elem_of_cons, ?IH; naive_solver.
Qed.

Lemma set_insert_sorted x l :
  StronglySorted lt l → StronglySorted lt (set_insert x l).
Proof.
  induction 1 as [|z l Hs IH Hall]; simpl; [repeat constructor|].
  repeat case_decide; subst.
  - constructor; [by constructor|]. constructor; [done|].
    eapply Forall_impl; [exact Hall|]. intros; simpl in *; lia.
  - by constructor.
  - constructor; [done|]. apply Forall_forall. intros y [->|Hy]%set_insert_elem; [lia|].
    rewrite Forall_forall in Hall. by apply Hall.
Qed.

Lemma set_insert_length x l : x ∉ l → length (set_insert x l) = S (length l).
Proof.
  induction l as [|z l IH]; simpl; [done|]. intros Hx.
  repeat case_decide; subst; simpl; [done|set_solver|]. rewrite IH; [done|set_solver].
Qed.

Lemma sorted_lt_head x l y : StronglySorted lt (x :: l) → y ∈ x :: l → x ≤ y.
Proof.
  intros [Hs Hall]%StronglySorted_inv [->|Hy]%elem_of_cons; [done|].
  rewrite Forall_forall in Hall. specialize (Hall _ Hy). lia.
Qed.

Lemma sorted_lt_NoDup l : StronglySorted lt l → NoDup l.
Proof.
  induction 1 as [|x l Hs IH Hall]; constructor; [|done].
  intros Hx. rewrite Forall_forall in Hall. specialize (Hall _ Hx). lia.
Qed.

Section RegWalk.
Context (R : nat → nat * nat).

(** An event stands at the position its range gives it. *)
Definition event_ok (e : Event) : Prop :=
  e.2 ≠ 0 → e.1.1 = match e.1.2 with LOAD => (R e.2).1 | DROP => (R e.2).2 end.

(** The invariant of the walk over the LOAD / DROP tape, with the events
    [rest] still to come: an active clause holds its assigned slot; a
    clause no longer active has a range that ended; active clauses hold
    distinct slots, none of them free; the slots in use and the free slots
    lie below [size active + length inactive]; and two clauses
    that were given the same slot have ranges with no position in common. *)
Record reg_inv (st : RegState) (rest : list Event) : Prop := mk_reg_inv {
  ri_sub : ∀ k s, active st !! k = Some s → assigned st !! k = Some s;
  ri_done : ∀ k e, is_Some (assigned st !! k) → active st !! k = None →
                   e ∈ rest → (R k).2 ≤ e.1.1;
  ri_inj : ∀ k1 k2 s, active st !! k1 = Some s → active st !! k2 = Some s → k1 = k2;
  ri_free : ∀ k s, active st !! k = Some s → s ∉ inactive st;
  ri_bound_a : ∀ k s, active st !! k = Some s →
                      s < size (active st) + length (inactive st);
  ri_bound_i : ∀ s, s ∈ inactive st → s < size (active st) + length (inactive st);
  ri_sorted : StronglySorted lt (inactive st);
  ri_disj : ∀ k1 k2 s, k1 ≠ k2 → assigned st !! k1 = Some s →
                       assigned st !! k2 = Some s → ¬ overlap (R k1) (R k2);
  ri_fresh : ∀ k, k ∈ loads rest → k ≠ 0 → assigned st !! k = None
}.

Lemma event_le_pos e1 e2 : event_le e1 e2 → e1.1.1 ≤ e2.1.1.
Proof.
  destruct e1 as [[p1 o1] k1], e2 as [[p2 o2] k2]. unfold event_le, key_code. simpl.
  destruct o1, o2; lia.
Qed.

Lemma emplace_None `{Countable K} {V} (k : K) (v : V) (m : gmap K V) :
  m !! k = None → emplace k v m = <[k:=v]> m.
Proof. intros E. unfold emplace. by rewrite E. Qed.

(** The slot a [LOAD] takes, and what it leaves of the free set. *)
Definition choose (st : RegState) : nat * list nat :=
  match inactive st with
  | x :: rest => (x, rest)
  | [] => (size (active st), [])
  end.

Lemma choose_spec st rest :
  reg_inv st rest →
  (∀ k s, active st !! k = Some s → s ≠ (choose st).1) ∧
  ((choose st).1 ∉ (choose st).2) ∧
  (∀ s, s ∈ (choose st).2 → s ∈ inactive st) ∧
  StronglySorted lt (choose st).2 ∧
  (choose st).1 < S (size (active st)) + length (choose st).2 ∧
  size (active st) + length (inactive st) ≤ S (size (active st)) + length (choose st).2.
Proof.
  intros Hinv. unfold choose. destruct (inactive st) as [|x l] eqn:E; simpl.
  - split_and!; try done; try lia; [|set_solver|constructor].
    intros k s Hk. pose proof (ri_bound_a _ _ Hinv k s Hk) as Hb. rewrite E in Hb. simpl in Hb. lia.
  - pose proof (ri_sorted _ _ Hinv) as Hs. rewrite E in Hs.
    pose proof (sorted_lt_NoDup _ Hs) as [Hx _]%NoDup_cons.
    apply StronglySorted_inv in Hs as [Hs _].
    split_and!; try done; try lia; [|set_solver|].
    + intros k s Hk ->. apply (ri_free _ _ Hinv k x Hk). rewrite E. by left.
    + pose proof (ri_bound_i _ _ Hinv x) as Hb. rewrite E in Hb. simpl in Hb.
      specialize (Hb ltac:(by left)). lia.
Qed.

Lemma reg_step_LOAD st p k :
  k ≠ 0 →
  reg_step st ((p, LOAD), k) =
    Ok {| active := emplace k (choose st).1 (active st);
          assigned := emplace k (choose st).1 (assigned st);
          inactive := (choose st).2 |}.
Proof.
  intros Hk. unfold reg_step, choose. simpl. rewrite decide_False by done.
  by destruct (inactive st).
Qed.

Lemma reg_inv_step st e rest st' :
  reg_inv st (e :: rest) →
  StronglySorted event_le (e :: rest) → event_ok e → NoDup (loads (e :: rest)) →
  reg_step st e = Ok st' → reg_inv st' rest.
Proof.
  intros Hinv [Hsort Hhead]%StronglySorted_inv Hev Hnd Hstep.
  destruct e as [[p o] k]. unfold event_ok in Hev. simpl in Hev.
  destruct (decide (k = 0)) as [->|Hk0].
  { unfold reg_step in Hstep. simpl in Hstep. simplify_eq.
    destruct Hinv. constructor; try done.
    - intros k e ? ? ?. eapply ri_done0; [done..|by right].
    - intros k Hk. apply ri_fresh0. unfold loads in *. simpl.
      destruct o; [done|by right]. }
  specialize (Hev Hk0). destruct o.
  - (* DROP: the slot goes back to the free set *)
    unfold reg_step in Hstep. simpl in Hstep. rewrite decide_False in Hstep by done.
    destruct (active st !! k) as [s|] eqn:Hact; [|done]. simplify_eq.
    destruct Hinv. constructor; simpl.
    + intros k' s' [_ ?]%lookup_delete_Some. auto.
    + intros k' e' Has [->|Hna]%lookup_delete_None He'.
      * rewrite Forall_forall in Hhead. apply Hhead, event_le_pos in He'. simpl in He'. lia.
      * eapply ri_done0; [done..|by right].
    + intros k1 k2 s' [_ ?]%lookup_delete_Some [_ ?]%lookup_delete_Some. eauto.
    + intros k' s' [Hne Hk']%lookup_delete_Some [->|Hin]%set_insert_elem.
      * by apply Hne, (ri_inj0 k k' s).
      * by eapply ri_free0.
    + intros k' s' [Hne Hk']%lookup_delete_Some.
      rewrite map_size_delete_Some by done.
      rewrite set_insert_length by (by eapply ri_free0).
      pose proof (ri_bound_a0 _ _ Hk'). lia.
    + intros s' Hs'. rewrite map_size_delete_Some by done.
      rewrite set_insert_length by (by eapply ri_free0).
      apply set_insert_elem in Hs' as [->|Hs'].
      * pose proof (ri_bound_a0 _ _ Hact). lia.
      * pose proof (ri_bound_i0 _ Hs'). lia.
    + by apply set_insert_sorted.
    + done.
    + intros k' Hk'. apply ri_fresh0. done.
  - (* LOAD *)
    rewrite reg_step_LOAD in Hstep by done. simplify_eq.
    destruct (choose_spec st _ Hinv) as (Hch1 & Hch2 & Hch3 & Hch4 & Hch5 & Hch6).
    destruct Hinv.
    assert (assigned st !! k = None) as Hnew.
    { apply ri_fresh0; [|done]. unfold loads. simpl. by left. }
    assert (active st !! k = None) as Hnact.
    { destruct (active st !! k) eqn:E; [|done]. apply ri_sub0 in E. congruence. }
    rewrite !emplace_None by done.
    constructor; simpl.
    + intros k' s'. rewrite !lookup_insert_Some. naive_solver.
    + intros k' e' Has Hna He'. rewrite lookup_insert_None in Hna. destruct Hna as [Hna ?].
      rewrite lookup_insert_ne in Has by done.
      eapply ri_done0; [done..|by right].
    + intros k1 k2 s'. rewrite !lookup_insert_Some.
      intros [[<- <-]|[? H1]] [[<- Hs]|[? H2]]; try done.
      * by apply Hch1 in H2.
      * by apply Hch1 in H1.
      * eauto.
    + intros k' s'. rewrite lookup_insert_Some. intros [[<- <-]|[? Hk']]; [done|].
      intros Hin%Hch3. by eapply ri_free0.
    + intros k' s'. rewrite map_size_insert_None by done.
      rewrite lookup_insert_Some. intros [[<- <-]|[? Hk']]; [lia|].
      pose proof (ri_bound_a0 _ _ Hk'). lia.
    + intros s' Hs'. rewrite map_size_insert_None by done.
      pose proof (ri_bound_i0 _ (Hch3 _ Hs')). lia.
    + done.
    + assert (∀ k2, k2 ≠ k → assigned st !! k2 = Some (choose st).1 →
                    (R k2).2 ≤ (R k).1) as Hold.
      { intros k2 Hne Hk2.
        assert (active st !! k2 = None) as Hna2.
        { destruct (active st !! k2) as [s2|] eqn:E; [|done].
          pose proof (ri_sub0 _ _ E). simplify_eq. by apply Hch1 in E. }
        apply (ri_done0 k2 (((R k).1, LOAD), k)); [by eexists|done|by left]. }
      intros k1 k2 s' Hne. rewrite !lookup_insert_Some.
      intros [[<- <-]|[? H1]] [[<- Hs]|[? H2]]; try done.
      * apply Hold in H2; [|done]. unfold overlap. lia.
      * simplify_eq. apply Hold in H1; [|done]. unfold overlap. lia.
      * eauto.
    + intros k' Hk' Hk0'. rewrite lookup_insert_ne.
      * apply ri_fresh0; [|done]. unfold loads. simpl. by right.
      * intros <-. unfold loads in Hnd. simpl in Hnd. by apply NoDup_cons in Hnd as [? _].
Qed.

Lemma reg_inv_fold pre : ∀ rest st st',
  reg_inv st (pre ++ rest) → StronglySorted event_le (pre ++ rest) →
  Forall event_ok (pre ++ rest) → NoDup (loads (pre ++ rest)) →
  foldlM reg_step pre st = Ok st' → reg_inv st' rest.
Proof.
  induction pre as [|e pre IH]; intros rest st st' Hinv Hs Hok Hnd Hf; simpl in *.
  - by inv_result.
  - inv_result. apply Forall_cons in Hok as [He Hok].
    eapply IH; [by eapply reg_inv_step| | | |done]; try done.
    + by apply StronglySorted_inv in Hs as [? _].
    + unfold loads in *. simpl in Hnd. destruct (e.1.2); [done|].
      by apply NoDup_cons in Hnd as [_ ?].
Qed.

Lemma reg_inv_init rest : reg_inv (mkRegState ∅ ∅ []) rest.
Proof.
  constructor; simpl; try done; try (intros; simplify_map_eq; done).
  - intros s ?%elem_of_nil. done.
  - constructor.
Qed.

End RegWalk.

Lemma reg_step_assigned_mono st e st' k :
  reg_step st e = Ok st' → is_Some (assigned st !! k) → is_Some (assigned st' !! k).
Proof.
  destruct e as [[p o] k']. unfold reg_step. simpl. case_decide; [by intros [= <-]|].
  destruct o.
  - destruct (active st !! k'); [|done]. by intros [= <-].
  - destruct (inactive st); intros [= <-]; simpl; unfold emplace;
      destruct (assigned st !! k') eqn:E; try done;
      rewrite lookup_insert_is_Some; destruct (decide (k' = k)); auto.
Qed.

Lemma reg_fold_assigned rest : ∀ st st' k,
  foldlM reg_step rest st = Ok st' →
  k ≠ 0 → k ∈ loads rest ∨ is_Some (assigned st !! k) → is_Some (assigned st' !! k).
Proof.
  induction rest as [|e rest IH]; intros st st' k Hf Hk0 Hk; simpl in Hf.
  - inv_result. destruct Hk as [Hk|]; [|done]. by apply elem_of_nil in Hk.
  - inv_result. rename x into st1. eapply IH; [done|done|].
    destruct Hk as [Hk|Hk]; [|right; by eapply reg_step_assigned_mono].
    unfold loads in Hk. simpl in Hk. destruct e as [[p o] k']. simpl in *.
    destruct o; [by left|]. apply elem_of_cons in Hk as [->|Hk]; [|by left].
    right. rewrite reg_step_LOAD in H by done. simplify_eq. simpl.
    unfold emplace. destruct (assigned st !! k') eqn:E; [by rewrite E|].
    rewrite lookup_insert_eq. by eexists.
Qed.

Lemma foldlM_app {A B} (f : B → A → result B) l1 l2 s s' :
  foldlM f (l1 ++ l2) s = Ok s' ↔ ∃ s1, foldlM f l1 s = Ok s1 ∧ foldlM f l2 s1 = Ok s'.
Proof.
  revert s. induction l1 as [|x l1 IH]; intros s; simpl.
  - split; [by eexists|]. by intros (s1 & [= <-] & ?).
  - rewrite bind_Ok. split.
    + intros (s2 & Hx & (s1 & ? & ?)%IH). exists s1. by rewrite Hx.
    + intros (s1 & (s2 & Hx & ?)%bind_Ok & ?). exists s2. split; [done|].
      apply IH. by exists s1.
Qed.

Section Slots.
Context (hash_order : list (nat * (nat * nat)) → list (nat * (nat * nat))).
Hypothesis hash_order_perm : ∀ l, hash_order l ≡ₚ l.

(** The range of a clause id, as [ranges] records it. *)
Definition range_of (ranges : gmap nat (nat * nat)) (k : nat) : nat * nat :=
  default (0, 0) (ranges !! k).

Lemma reg_ops_facts (ranges : gmap nat (nat * nat)) :
  let evs := reg_ops_of (hash_order (map_to_list ranges)) in
  StronglySorted event_le evs ∧ Forall (event_ok (range_of ranges)) evs ∧
  NoDup (loads evs) ∧ ∀ k, k ∈ loads evs ↔ is_Some (ranges !! k).
Proof.
  intros evs.
  destruct (reg_ops_of_spec (hash_order (map_to_list ranges))) as [Hs Hp].
  fold evs in Hs, Hp.
  assert (loads evs ≡ₚ (map_to_list ranges).*1) as Hl.
  { unfold loads. rewrite Hp. fold (loads (hash_order (map_to_list ranges) ≫= events_of)).
    by rewrite loads_bind, hash_order_perm. }
  split_and!; [done| | |].
  - apply Forall_forall. intros e He. rewrite Hp in He.
    apply list_elem_of_bind in He as (r & He & Hr).
    rewrite hash_order_perm in Hr. destruct r as [k [f s]].
    apply elem_of_map_to_list in Hr.
    unfold event_ok, range_of, events_of in *. simpl in He.
    apply elem_of_cons in He as [->|[->|[]%elem_of_nil]%elem_of_cons];
      simpl; rewrite Hr; done.
  - rewrite Hl. apply NoDup_fst_map_to_list.
  - intros k. rewrite Hl. rewrite list_elem_of_fmap. split.
    + intros ([k' r] & -> & Hr%elem_of_map_to_list). by eexists.
    + intros [r Hr]. exists (k, r). split; [done|]. by apply elem_of_map_to_list.
Qed.

Lemma slots_of_disjoint cl ranges asg :
  live_ranges cl = Ok ranges → slots_of hash_order cl = Ok asg →
  ∀ k1 k2 r1 r2, k1 ≠ 0 → k2 ≠ 0 → k1 ≠ k2 →
    ranges !! k1 = Some r1 → ranges !! k2 = Some r2 → overlap r1 r2 →
    ∃ s1 s2, asg !! k1 = Some s1 ∧ asg !! k2 = Some s2 ∧ s1 ≠ s2.
Proof.
  intros Hr Hslots k1 k2 r1 r2 H1 H2 Hne Hk1 Hk2 Hov.
  unfold slots_of in Hslots. rewrite Hr in Hslots. simpl in Hslots.
  inv_result. rename x into st.
  destruct (reg_ops_facts ranges) as (Hs & Hok & Hnd & Hl).
  match goal with H : foldlM _ _ _ = Ok _ |- _ => rename H into Hf end.
  pose proof (reg_inv_fold (range_of ranges)
                (reg_ops_of (hash_order (map_to_list ranges))) [] _ st
                (reg_inv_init _ _)) as Hinv.
  rewrite app_nil_r in Hinv. specialize (Hinv Hs Hok Hnd Hf).
  destruct (reg_fold_assigned _ _ _ k1 Hf H1) as [s1 Hs1];
    [left; apply Hl; by eexists|].
  destruct (reg_fold_assigned _ _ _ k2 Hf H2) as [s2 Hs2];
    [left; apply Hl; by eexists|].
  exists s1, s2. split; [done|]. split; [done|]. intros <-.
  apply (ri_disj _ _ _ Hinv k1 k2 s1 Hne Hs1 Hs2).
  unfold range_of. by rewrite Hk1, Hk2.
Qed.

(** What a [DROP] and a [LOAD] do, at any point of the walk. *)
Lemma reg_walk_step (ranges : gmap nat (nat * nat)) pre e post st st1 :
  reg_ops_of (hash_order (map_to_list ranges)) = pre ++ e :: post →
  foldlM reg_step pre (mkRegState ∅ ∅ []) = Ok st →
  reg_step st e = Ok st1 → e.2 ≠ 0 →
  match e.1.2 with
  | DROP =>
      ∃ s, active st !! e.2 = Some s ∧
           active st1 = delete e.2 (active st) ∧ assigned st1 = assigned st ∧
           inactive st1 = set_insert s (inactive st) ∧ s ∈ inactive st1
  | LOAD =>
      ∃ chosen,
        active st1 = <[e.2 := chosen]> (active st) ∧
        assigned st1 = <[e.2 := chosen]> (assigned st) ∧
        (∀ k s, active st !! k = Some s → s ≠ chosen) ∧
        match inactive st with
        | [] => chosen = size (active st) ∧ inactive st1 = [] ∧
                ∀ k s, active st !! k = Some s → s < chosen
        | x :: free =>
            chosen = x ∧ inactive st1 = free ∧ ∀ y, y ∈ inactive st → chosen ≤ y
        end
  end.
Proof.
  intros Hevs Hf Hstep Hk0.
  destruct (reg_ops_facts ranges) as (Hs & Hok & Hnd & Hl). rewrite Hevs in Hs, Hok, Hnd.
  pose proof (reg_inv_fold (range_of ranges) pre (e :: post) _ st
                (reg_inv_init _ _) Hs Hok Hnd Hf) as Hinv.
  destruct e as [[p o] k]. simpl in *. destruct o.
  - unfold reg_step in Hstep. simpl in Hstep. rewrite decide_False in Hstep by done.
    destruct (active st !! k) as [s|] eqn:Hact; [|done]. simplify_eq. simpl.
    exists s. split_and!; try done. apply set_insert_elem. by left.
  - rewrite reg_step_LOAD in Hstep by done. simplify_eq. simpl.
    destruct (choose_spec _ st _ Hinv) as (Hch1 & _).
    assert (assigned st !! k = None) as Hnew.
    { apply (ri_fresh _ _ _ Hinv); [|done]. unfold loads. simpl. by left. }
    assert (active st !! k = None) as Hnact.
    { destruct (active st !! k) eqn:E; [|done]. apply (ri_sub _ _ _ Hinv) in E. congruence. }
    exists (choose st).1. rewrite !emplace_None by done. split_and!; try done.
    unfold choose in *. pose proof (ri_sorted _ _ _ Hinv) as Hsort.
    destruct (inactive st) as [|x free] eqn:E; simpl in *.
    + split_and!; try done. intros k' s' Hk'.
      pose proof (ri_bound_a _ _ _ Hinv k' s' Hk') as Hb. rewrite E in Hb. simpl in Hb. lia.
    + split_and!; try done. intros y Hy. by eapply sorted_lt_head.
Qed.

End Slots.

(** Clause [c] reads the value of clause id [k]. *)
Definition uses (c : Clause) (k : nat) : Prop :=
  hasDummyChildren (op c) = false ∧ (a c = k ∨ b c = k).

#[global] Instance uses_dec c k : Decision (uses c k).
Proof. unfold uses. apply _. Defined.

Lemma touch_Ok p e (r r' : gmap nat (nat * nat)) :
  touch p e r = Ok r' ↔ ∃ f s, r !! p = Some (f, s) ∧ r' = <[p := (f, e)]> r.
Proof.
  unfold touch. destruct (r !! p) as [[f s]|]; [|naive_solver].
  split; [intros [= <-]; eauto|]. by intros (? & ? & [= <- <-] & ->).
Qed.

Lemma ranges_step_spec r i c r' i' :
  ranges_step (r, i) c = Ok (r', i') → r !! id c = None →
  i' = S i ∧ id c ≠ 0 ∧
  ∀ k, r' !! k =
       (λ fs : nat * nat, (fs.1, if decide (uses c k) then i + 1 else fs.2))
         <$> (<[id c := (i, i + 1)]> r !! k).
Proof.
  intros Hstep Hnone. unfold ranges_step in Hstep. inv_result.
  match goal with H : bool_decide _ = true |- _ => apply bool_decide_eq_true in H end.
  split; [done|]. split; [done|].
  rewrite emplace_None in * by done.
  assert (∀ k (o : option (nat * nat)) f0,
            (uses c k → o = Some (f0, i + 1)) →
            (¬ uses c k → o = <[id c:=(i, i + 1)]> r !! k) →
            (uses c k → ∃ s, <[id c:=(i, i + 1)]> r !! k = Some (f0, s)) →
            o = (λ fs : nat * nat, (fs.1, if decide (uses c k) then i + 1 else fs.2))
                  <$> (<[id c := (i, i + 1)]> r !! k)) as Hgen.
  { intros k o f0 H1 H2 H3. destruct (decide (uses c k)) as [Hu|Hu].
    - destruct (H3 Hu) as [s ->]. simpl. auto.
    - rewrite (H2 Hu). by destruct (<[id c:=(i, i + 1)]> r !! k) as [[]|]. }
  destruct (hasDummyChildren (op c)) eqn:Hd; inv_result.
  - intros k. apply (Hgen k _ 0); [| |]; unfold uses; rewrite Hd; naive_solver.
  - match goal with H : touch (a c) _ _ = Ok _ |- _ =>
      apply touch_Ok in H as (fa & sa & Ha & ->) end.
    match goal with H : touch (b c) _ _ = Ok _ |- _ =>
      apply touch_Ok in H as (fb & sb & Hb & ->) end.
    intros k. destruct (decide (b c = k)) as [<-|Hnb].
    + rewrite lookup_insert_eq. destruct (decide (a c = b c)) as [Heq|Hne].
      * rewrite <- Heq in *. rewrite lookup_insert_eq in Hb. simplify_eq.
        apply (Hgen _ _ fb); [done| |by eauto]. intros []. by split; [|left].
      * rewrite lookup_insert_ne in Hb by done.
        apply (Hgen _ _ fb); [done| |by eauto]. intros []. by split; [|right].
    + rewrite lookup_insert_ne by done. destruct (decide (a c = k)) as [<-|Hna].
      * rewrite lookup_insert_eq.
        apply (Hgen _ _ fa); [done| |by eauto]. intros []. by split; [|left].
      * rewrite lookup_insert_ne by done.
        apply (Hgen _ _ 0); [|done|]; intros [_ [?|?]]; done.
Qed.

(** What [ranges] holds after the clauses [P] were walked: a clause at
    position [j] has a range that starts at [j] and ends after the last
    position at which a clause reads it. *)
Definition ranges_inv (P : list Clause) (st : gmap nat (nat * nat) * nat) : Prop :=
  st.2 = length P ∧
  (∀ j c, P !! j = Some c →
     id c ≠ 0 ∧ ∃ s, st.1 !! id c = Some (j, s) ∧ j < s ∧ s ≤ st.2 ∧
       ∀ j' c', P !! j' = Some c' → uses c' (id c) → j' < s) ∧
  (∀ k, is_Some (st.1 !! k) → k = 0 ∨ ∃ c, c ∈ P ∧ id c = k).

Lemma ranges_inv_step P c st st' :
  ranges_inv P st → id c ∉ id <$> P →
  ranges_step st c = Ok st' → ranges_inv (P ++ [c]) st'.
Proof.
  destruct st as [r i], st' as [r' i']. intros (Hi & Hcl & Hdom) Hfresh Hstep.
  simpl in *. subst i.
  assert (id c ≠ 0) as Hid0.
  { unfold ranges_step in Hstep. inv_result.
    match goal with H : bool_decide _ = true |- _ => by apply bool_decide_eq_true in H end. }
  assert (r !! id c = None) as Hnone.
  { destruct (r !! id c) eqn:E; [|done].
    destruct (Hdom (id c)) as [?|(c0 & Hc0 & Heq)]; [by eexists|done|].
    destruct Hfresh. rewrite <- Heq. by apply list_elem_of_fmap_2. }
  destruct (ranges_step_spec _ _ _ _ _ Hstep Hnone) as (-> & _ & Hlk).
  unfold ranges_inv; simpl. rewrite length_app. simpl. split_and!; [lia| |].
  - intros j c0 Hj. apply lookup_app_Some in Hj as [Hj|[Hge Hj]].
    + (* an earlier clause *)
      destruct (Hcl _ _ Hj) as (Hc0 & s & Hs & Hjs & Hsi & Huse).
      split; [done|].
      assert (id c0 ≠ id c) as Hne.
      { intros Heq. apply Hfresh. rewrite <- Heq.
        apply list_elem_of_fmap_2. by eapply list_elem_of_lookup_2. }
      rewrite Hlk, lookup_insert_ne, Hs by done. simpl.
      eexists. split; [done|]. destruct (decide (uses c (id c0))) as [Hu|Hu].
      * split; [lia|]. split; [lia|]. intros j' c' Hj' _.
        apply lookup_lt_Some in Hj'. rewrite length_app in Hj'. simpl in Hj'. lia.
      * split; [done|]. split; [lia|]. intros j' c' Hj' Hu'.
        apply lookup_app_Some in Hj' as [Hj'|[_ Hj']]; [by eapply Huse|].
        apply list_lookup_singleton_Some in Hj' as [_ <-]. done.
    + (* the clause just walked *)
      apply list_lookup_singleton_Some in Hj as [Hj0 <-].
      assert (j = length P) as -> by lia.
      split; [done|]. rewrite Hlk, lookup_insert_eq. simpl.
      eexists. split; [done|].
      destruct (decide (uses c (id c))) as [_|_].
      all: split; [lia|]; split; [lia|]; intros j' c' Hj' _;
        apply lookup_lt_Some in Hj'; rewrite length_app in Hj'; simpl in Hj'; lia.
  - intros k. rewrite Hlk, fmap_is_Some, lookup_insert_is_Some.
    intros [<-|[_ Hk]].
    + right. exists c. split; [|done]. apply elem_of_app. right. by left.
    + destruct (Hdom _ Hk) as [?|(c0 & ? & ?)]; [by left|].
      right. exists c0. split; [|done]. apply elem_of_app. by left.
Qed.

Lemma ranges_inv_fold suf : ∀ P st st',
  ranges_inv P st → NoDup (id <$> (P ++ suf)) →
  foldlM ranges_step suf st = Ok st' → ranges_inv (P ++ suf) st'.
Proof.
  induction suf as [|c suf IH]; intros P st st' Hinv Hnd Hf; simpl in Hf.
  - inv_result. by rewrite app_nil_r.
  - inv_result. rewrite (assoc_L _ P [c] suf : P ++ c :: suf = (P ++ [c]) ++ suf) in Hnd |- *.
    eapply IH; [|done|done]. eapply ranges_inv_step; [done| |done].
    rewrite !fmap_app in Hnd. apply NoDup_app in Hnd as [Hnd _].
    apply NoDup_app in Hnd as (_ & Hnd & _). intros Hin.
    apply (Hnd _ Hin). simpl. by left.
Qed.

Lemma live_ranges_spec cl ranges :
  NoDup (id <$> cl) → live_ranges cl = Ok ranges →
  ∀ j c, reverse cl !! j = Some c →
    id c ≠ 0 ∧ ∃ s, ranges !! id c = Some (j, s) ∧ j < s ∧
      ∀ j' c', reverse cl !! j' = Some c' → uses c' (id c) → j' < s.
Proof.
  intros Hnd Hr. unfold live_ranges in Hr.
  destruct (foldlM ranges_step (reverse cl) ({[0 := (0, 0)]}, 0)) as [[r i]|] eqn:Hf;
    [|done]. simpl in Hr. simplify_eq.
  assert (ranges_inv [] ({[0 := (0, 0)]}, 0)) as Hinit.
  { unfold ranges_inv. simpl. split_and!; [done|by intros ? ? ?|].
    intros k [? [<- _]%lookup_singleton_Some]. by left. }
  pose proof (ranges_inv_fold (reverse cl) [] _ (ranges, i) Hinit) as Hinv. simpl in Hinv.
  specialize (Hinv ltac:(by rewrite reverse_Permutation) Hf).
  destruct Hinv as (_ & Hcl & _). simpl in *.
  intros j c Hj. destruct (Hcl _ _ Hj) as (? & s & ? & ? & _ & ?). eauto 10.
Qed.

Lemma store_slots l : ∀ m0 mv,
  NoDup l.*1 → foldlM store_slot l m0 = Ok mv →
  length mv = length m0 ∧
  (∀ k s, (k, s) ∈ l → mv !! k = Some s) ∧
  (∀ k, k ∉ l.*1 → mv !! k = m0 !! k).
Proof.
  induction l as [|[k s] l IH]; intros m0 mv Hnd Hf; simpl in *.
  - inv_result. split_and!; [done| |done]. by intros ? ? ?%elem_of_nil.
  - inv_result. apply NoDup_cons in Hnd as [Hk Hnd].
    match goal with H : store_slot _ _ = Ok _ |- _ =>
      unfold store_slot in H; simpl in H; case_decide; [|done]; inv_result end.
    destruct (IH _ _ Hnd Hf) as (Hlen & Hin & Hout).
    rewrite length_insert in Hlen. split_and!; [done| |].
    + intros k' s' [[= -> ->]|Hin']%elem_of_cons; [|by apply Hin].
      rewrite Hout by done. by apply list_lookup_insert_eq.
    + intros k' Hk'. apply not_elem_of_cons in Hk' as [Hne Hk'].
      rewrite Hout by done. by apply list_lookup_insert_ne.
Qed.

Lemma live_ranges_dom cl ranges c :
  live_ranges cl = Ok ranges → c ∈ cl → id c ≠ 0.
Proof.
  unfold live_ranges. intros Hr Hc.
  destruct (foldlM ranges_step (reverse cl) _) as [st|] eqn:Hf; [|done].
  clear Hr. apply elem_of_reverse in Hc. revert Hf Hc.
  generalize (reverse cl) ({[0 := (0, 0)]} : gmap nat (nat * nat), 0). clear cl.
  intros l. induction l as [|c0 l IH]; intros st0 Hf Hc; [by apply elem_of_nil in Hc|].
  simpl in Hf. inv_result. apply elem_of_cons in Hc as [->|Hc]; [|by eapply IH].
  match goal with H : ranges_step _ _ = Ok _ |- _ =>
    unfold ranges_step in H; destruct st0; inv_result end.
  match goal with H : bool_decide _ = true |- _ => by apply bool_decide_eq_true in H end.
Qed.

Lemma sorted_ids_NoDup cl : StronglySorted id_gt cl → NoDup (id <$> cl).
Proof.
  induction 1 as [|c cl Hs IH Hall]; simpl; constructor; [|done].
  intros (c' & Heq & Hc')%list_elem_of_fmap.
  rewrite Forall_forall in Hall. specialize (Hall _ Hc'). unfold id_gt in Hall. lia.
Qed.

(** The clause ids dropped by a sequence of events. *)
Definition drops (evs : list Event) : list nat :=
  omap (λ e : Event, match e.1.2 with DROP => Some e.2 | LOAD => None end) evs.

Lemma drops_bind entries : drops (entries ≫= events_of) = entries.*1.
Proof. induction entries as [|r entries IH]; simpl; [done|]. unfold drops in *. simpl. by f_equal. Qed.

(** *** The first loop of [assignSlots] runs through *)

Lemma touch_total p e (r : gmap nat (nat * nat)) :
  is_Some (r !! p) → ∃ r', touch p e r = Ok r' ∧ ∀ k, is_Some (r !! k) → is_Some (r' !! k).
Proof.
  intros [[f s] Hp]. unfold touch. rewrite Hp. eexists. split; [done|].
  intros k Hk. rewrite lookup_insert_is_Some. destruct (decide (p = k)); auto.
Qed.

Lemma ranges_step_total r i c :
  id c ≠ 0 →
  (hasDummyChildren (op c) = false → is_Some (r !! a c) ∧ is_Some (r !! b c)) →
  ∃ r', ranges_step (r, i) c = Ok (r', S i) ∧ ∀ k, is_Some (r !! k) → is_Some (r' !! k).
Proof.
  intros Hid Hops. unfold ranges_step. rewrite bool_decide_eq_true_2 by done. simpl.
  assert (∀ k, is_Some (r !! k) → is_Some (emplace (id c) (i, i + 1) r !! k)) as Hem.
  { intros k Hk. unfold emplace. destruct (r !! id c); [done|].
    rewrite lookup_insert_is_Some. destruct (decide (id c = k)); auto. }
  destruct (hasDummyChildren (op c)); simpl.
  - eexists. split; [done|]. done.
  - destruct Hops as [Ha Hb]; [done|].
    destruct (touch_total (a c) (i + 1) _ (Hem _ Ha)) as (r1 & -> & H1). simpl.
    destruct (touch_total (b c) (i + 1) r1 (H1 _ (Hem _ Hb))) as (r2 & -> & H2). simpl.
    eexists. split; [done|]. auto.
Qed.

Lemma foldlM_cons {A B} (f : B → A → result B) x l s :
  foldlM f (x :: l) s = f s x ≫= foldlM f l.
Proof. done. Qed.

Lemma ranges_fold_total suf : ∀ P st,
  ranges_inv P st → is_Some (st.1 !! 0) → NoDup (id <$> P ++ suf) →
  (∀ c, c ∈ suf → id c ≠ 0) →
  (∀ pre c post x, suf = pre ++ c :: post → hasDummyChildren (op c) = false →
     x = a c ∨ x = b c → x = 0 ∨ ∃ c', c' ∈ P ++ pre ∧ id c' = x) →
  ∃ st', foldlM ranges_step suf st = Ok st'.
Proof.
  induction suf as [|c suf IH]; intros P [r i] Hinv H0 Hnd Hid Hops.
  - by eexists.
  - pose proof Hinv as (Hi & Hcl & Hdom). simpl in Hi, Hcl, Hdom, H0.
    destruct (ranges_step_total r i c) as (r' & Hstep & Hmono).
    { apply Hid. by left. }
    { intros Hd. split.
      - destruct (Hops [] c suf (a c) eq_refl Hd) as [->|(c' & Hc' & <-)]; [by left|done|].
        rewrite app_nil_r in Hc'. apply list_elem_of_lookup_1 in Hc' as [j Hj].
        destruct (Hcl _ _ Hj) as (_ & s & -> & _). by eexists.
      - destruct (Hops [] c suf (b c) eq_refl Hd) as [->|(c' & Hc' & <-)]; [by right|done|].
        rewrite app_nil_r in Hc'. apply list_elem_of_lookup_1 in Hc' as [j Hj].
        destruct (Hcl _ _ Hj) as (_ & s & -> & _). by eexists. }
    rewrite foldlM_cons, Hstep. simpl.
    rewrite (assoc_L _ P [c] suf : P ++ c :: suf = (P ++ [c]) ++ suf) in Hnd.
    apply (IH (P ++ [c])); simpl; [|by apply Hmono|done| |].
    + eapply (ranges_inv_step P c (r, i)); [done| |done].
      rewrite !fmap_app in Hnd. apply NoDup_app in Hnd as [Hnd _].
      apply NoDup_app in Hnd as (_ & Hnd & _). intros Hin.
      apply (Hnd _ Hin). simpl. by left.
    + intros c' Hc'. apply Hid. by right.
    + intros pre c' post x Heq Hd Hx.
      destruct (Hops (c :: pre) c' post x) as [?|(c'' & Hc'' & ?)]; [by rewrite Heq|done..|by left|].
      right. exists c''. split; [|done]. rewrite <- (assoc_L _). done.
Qed.

Lemma live_ranges_total n cl :
  sub_ok n cl → operands_present cl → ∃ ranges, live_ranges cl = Ok ranges.
Proof.
  intros [Hok Hsorted] Hpres. unfold live_ranges.
  destruct (ranges_fold_total (reverse cl) [] ({[0 := (0, 0)]}, 0)) as [st ->];
    simpl; [| | | | |by eexists].
  - unfold ranges_inv. simpl. split_and!; [done|by intros ? ? ?|].
    intros k [? [<- _]%lookup_singleton_Some]. by left.
  - by rewrite lookup_singleton_eq.
  - rewrite reverse_Permutation. by apply sorted_ids_NoDup.
  - intros c Hc. rewrite elem_of_reverse in Hc. rewrite Forall_forall in Hok.
    destruct (Hok _ Hc) as (? & _). lia.
  - intros pre c post x Heq Hd Hx.
    destruct (decide (x = 0)) as [->|Hx0]; [by left|]. right.
    assert (cl = reverse post ++ c :: reverse pre) as Hcl.
    { rewrite <- (reverse_involutive cl), Heq, reverse_app, reverse_cons.
      by rewrite <- (assoc_L _). }
    assert (c ∈ cl) as Hc by (rewrite Hcl; set_solver).
    destruct (Hpres c x Hc Hd Hx Hx0) as (c' & Hc' & Hid').
    rewrite Forall_forall in Hok. destruct (Hok _ Hc) as (_ & Ha & Hb).
    assert (id c' < id c) as Hlt by (destruct Hx as [->| ->]; lia).
    exists c'. split; [|done]. rewrite Hcl in Hc', Hsorted.
    apply elem_of_app in Hc' as [Hc'|Hc'].
    + apply (StronglySorted_app_1_elem_of id_gt _ _ c' c) in Hsorted;
        [|done|by left]. unfold id_gt in Hsorted. lia.
    + apply elem_of_cons in Hc' as [->|Hc']; [lia|]. by rewrite elem_of_reverse in Hc'.
Qed.

Lemma live_ranges_keys cl ranges k :
  NoDup (id <$> cl) → live_ranges cl = Ok ranges → is_Some (ranges !! k) →
  k = 0 ∨ ∃ c, c ∈ cl ∧ id c = k.
Proof.
  intros Hnd Hr Hk. unfold live_ranges in Hr.
  destruct (foldlM ranges_step (reverse cl) ({[0 := (0, 0)]}, 0)) as [[r i]|] eqn:Hf;
    [|done]. simpl in Hr. simplify_eq.
  assert (ranges_inv [] ({[0 := (0, 0)]}, 0)) as Hinit.
  { unfold ranges_inv. simpl. split_and!; [done|by intros ? ? ?|].
    intros k' [? [<- _]%lookup_singleton_Some]. by left. }
  pose proof (ranges_inv_fold (reverse cl) [] _ (ranges, i) Hinit) as Hinv. simpl in Hinv.
  specialize (Hinv ltac:(by rewrite reverse_Permutation) Hf).
  destruct Hinv as (_ & _ & Hdom). simpl in *.
  destruct (Hdom k Hk) as [?|(c & Hc & ?)]; [by left|].
  rewrite elem_of_reverse in Hc. right; eauto.
Qed.

(** *** The walk over the LOAD / DROP tape runs through *)

Section RegTotal.
Context (R : nat → nat * nat).

(** A clause whose [DROP] is still to come, and whose [LOAD] is not, is
    active. *)
Definition act_inv (st : RegState) (rest : list Event) : Prop :=
  ∀ k, k ≠ 0 → k ∈ drops rest → k ∉ loads rest → is_Some (active st !! k).

Lemma reg_step_total st e rest :
  act_inv st (e :: rest) →
  StronglySorted event_le (e :: rest) → Forall (event_ok R) (e :: rest) →
  NoDup (drops (e :: rest)) →
  (∀ k, k ≠ 0 → k ∈ drops (e :: rest) → (R k).1 < (R k).2) →
  ∃ st', reg_step st e = Ok st' ∧ act_inv st' rest.
Proof.
  intros Hinv [Hsort Hhead]%StronglySorted_inv [Hev Hok]%Forall_cons Hnd Hne.
  destruct e as [[p o] k]. unfold event_ok in Hev. simpl in Hev.
  destruct (decide (k = 0)) as [->|Hk0].
  { exists st. split; [by unfold reg_step|].
    intros k Hk Hd Hl. apply Hinv; [done| |].
    - unfold drops in *. simpl. destruct o; [by right|done].
    - unfold loads in *. simpl. destruct o; [done|]. by apply not_elem_of_cons. }
  specialize (Hev Hk0). destruct o.
  - (* DROP *)
    assert (k ∉ loads rest) as Hnl.
    { intros Hin. unfold loads in Hin. apply list_elem_of_omap in Hin as (e' & He' & Heq).
      destruct e' as [[p' o'] k']. simpl in Heq. destruct o'; [done|]. simplify_eq.
      rewrite Forall_forall in Hhead, Hok.
      pose proof (Hhead _ He') as Hle. pose proof (Hok _ He' Hk0) as Hp'.
      unfold event_le, key_code in Hle. simpl in *.
      assert ((R k).1 < (R k).2); [|lia].
      apply Hne; [done|]. unfold drops. simpl. by left. }
    destruct (Hinv k Hk0) as [s Hs]; [unfold drops; simpl; by left|done|].
    unfold reg_step. simpl. rewrite decide_False by done. rewrite Hs.
    eexists. split; [done|]. intros k' Hk' Hd Hl. simpl.
    unfold drops in Hnd. simpl in Hnd. apply NoDup_cons in Hnd as [Hnk _].
    assert (k' ≠ k) by (intros ->; done).
    rewrite lookup_delete_ne by done. apply Hinv; [done| |done].
    unfold drops. simpl. by right.
  - (* LOAD *)
    rewrite reg_step_LOAD by done. eexists. split; [done|].
    intros k' Hk' Hd Hl. simpl. unfold emplace.
    destruct (decide (k' = k)) as [->|Hne'].
    + destruct (active st !! k) eqn:E; [by rewrite E|]. by rewrite lookup_insert_eq.
    + assert (is_Some (active st !! k')) as Hact.
      { apply Hinv; [done|done|]. unfold loads. simpl. by apply not_elem_of_cons. }
      destruct (active st !! k); [done|]. by rewrite lookup_insert_ne.
Qed.

Lemma reg_fold_total evs : ∀ st,
  act_inv st evs →
  StronglySorted event_le evs → Forall (event_ok R) evs → NoDup (drops evs) →
  (∀ k, k ≠ 0 → k ∈ drops evs → (R k).1 < (R k).2) →
  ∃ st', foldlM reg_step evs st = Ok st'.
Proof.
  induction evs as [|e evs IH]; intros st Hinv Hs Hok Hnd Hne.
  - by eexists.
  - destruct (reg_step_total st e evs Hinv Hs Hok Hnd Hne) as (st1 & Hstep & Hinv1).
    rewrite foldlM_cons, Hstep. simpl. apply IH; [done| | | |].
    + by apply StronglySorted_inv in Hs as [? _].
    + by apply Forall_cons in Hok as [_ ?].
    + unfold drops in *. simpl in Hnd. destruct (e.1.2); [|done].
      by apply NoDup_cons in Hnd as [_ ?].
    + intros k Hk Hd. apply Hne; [done|]. unfold drops in *. simpl.
      destruct (e.1.2); [by right|done].
Qed.

End RegTotal.

Lemma reg_fold_assigned_keys evs : ∀ st st' k,
  foldlM reg_step evs st = Ok st' → is_Some (assigned st' !! k) →
  is_Some (assigned st !! k) ∨ k ∈ loads evs ∧ k ≠ 0.
Proof.
  induction evs as [|e evs IH]; intros st st' k Hf Hk; simpl in Hf.
  - inv_result. by left.
  - inv_result. rename x into st1.
    match goal with H : reg_step _ _ = Ok _ |- _ => rename H into Hstep end.
    destruct (IH _ _ _ Hf Hk) as [Hk1|[Hk1 Hk0]].
    + destruct e as [[p o] k']. unfold reg_step in Hstep. simpl in Hstep.
      case_decide as Hk'0; [simplify_eq; by left|]. destruct o.
      * destruct (active st !! k'); [|done]. simplify_eq. by left.
      * assert (assigned st1 = emplace k' (assigned st1 !!! k') (assigned st) ∨
                ∃ s, assigned st1 = emplace k' s (assigned st)) as [Heq|[s Heq]].
        { right. destruct (inactive st); simplify_eq; by eexists. }
        -- rewrite Heq in Hk1. unfold emplace in Hk1.
           destruct (assigned st !! k') eqn:E; [by left|].
           apply lookup_insert_is_Some in Hk1 as [<-|[_ ?]]; [|by left].
           right. split; [|done]. unfold loads. simpl. by left.
        -- rewrite Heq in Hk1. unfold emplace in Hk1.
           destruct (assigned st !! k') eqn:E; [by left|].
           apply lookup_insert_is_Some in Hk1 as [<-|[_ ?]]; [|by left].
           right. split; [|done]. unfold loads. simpl. by left.
    + right. split; [|done]. unfold loads in *. simpl. destruct (e.1.2); [done|by right].
Qed.

Lemma store_total l : ∀ m0,
  (∀ e, e ∈ l → e.1 < length m0) → ∃ mv, foldlM store_slot l m0 = Ok mv.
Proof.
  induction l as [|e l IH]; intros m0 Hl; [by eexists|].
  rewrite foldlM_cons.
  assert (store_slot m0 e = Ok (<[e.1 := e.2]> m0)) as ->.
  { unfold store_slot. rewrite decide_True; [done|]. apply Hl. by left. }
  simpl.
  apply IH. intros e' He'. rewrite length_insert. apply Hl. by right.
Qed.

Section Total.
Context {F O : Type} (fzero : F).
Context (hash_order : list (nat * (nat * nat)) → list (nat * (nat * nat))).
Hypothesis hash_order_perm : ∀ l, hash_order l ≡ₚ l.

Lemma slots_of_total n cl :
  sub_ok n cl → operands_present cl →
  ∃ asg, slots_of hash_order cl = Ok asg ∧ ∀ k, is_Some (asg !! k) → k < n.
Proof.
  intros Hsub Hpres. pose proof Hsub as [Hok Hsorted].
  destruct (live_ranges_total n cl Hsub Hpres) as [ranges Hr].
  pose proof (sorted_ids_NoDup _ Hsorted) as Hnd.
  unfold slots_of. rewrite Hr. simpl.
  destruct (reg_ops_facts hash_order hash_order_perm ranges) as (Hs & Hev & Hndl & Hl).
  set (evs := reg_ops_of (hash_order (map_to_list ranges))) in *.
  assert (drops evs ≡ₚ (map_to_list ranges).*1) as Hd.
  { destruct (reg_ops_of_spec (hash_order (map_to_list ranges))) as [_ Hp].
    fold evs in Hp. unfold drops. rewrite Hp.
    fold (drops (hash_order (map_to_list ranges) ≫= events_of)).
    by rewrite drops_bind, hash_order_perm. }
  assert (∀ k, k ∈ drops evs ↔ k ∈ loads evs) as Hdl.
  { intros k. rewrite Hd, Hl, list_elem_of_fmap. split.
    - intros ([k' r] & -> & Hin%elem_of_map_to_list). by eexists.
    - intros [r Hin]. exists (k, r). split; [done|]. by apply elem_of_map_to_list. }
  destruct (reg_fold_total (range_of ranges) evs (mkRegState ∅ ∅ [])) as [st Hst];
    try done.
  - intros k _ Hk Hnk. by apply Hdl in Hk.
  - rewrite Hd. apply NoDup_fst_map_to_list.
  - intros k Hk0 Hk. apply Hdl, Hl in Hk.
    destruct (live_ranges_keys _ _ _ Hnd Hr Hk) as [?|(c & Hc & <-)]; [done|].
    rewrite <- elem_of_reverse in Hc. apply list_elem_of_lookup_1 in Hc as [j Hj].
    destruct (live_ranges_spec _ _ Hnd Hr j c Hj) as (_ & s & Hrk & Hlt & _).
    unfold range_of. by rewrite Hrk.
  - rewrite Hst. simpl. eexists. split; [done|]. intros k Hk.
    destruct (reg_fold_assigned_keys _ _ _ k Hst Hk) as [[? Hemp]|[Hin Hk0]]; [done|].
    apply Hl in Hin.
    destruct (live_ranges_keys _ _ _ Hnd Hr Hin) as [->|(c & Hc & <-)]; [done|].
    rewrite Forall_forall in Hok. destruct (Hok _ Hc). lia.
Qed.

Lemma assignSlots_total (T : @Tape F O) cur :
  current T = Ok cur → sub_ok (num_clauses T) (t cur) → operands_present (t cur) →
  ∃ T', assignSlots hash_order T = Ok T'.
Proof.
  intros Hcur Hsub Hpres. unfold assignSlots. rewrite Hcur. simpl.
  destruct (slots_of_total _ _ Hsub Hpres) as (asg & -> & Hlt). simpl.
  destruct (store_total (map_to_list asg) (resize (num_clauses T) 0 (m cur))) as [mv ->].
  - intros [k s] Hin%elem_of_map_to_list. simpl. rewrite length_resize.
    apply Hlt. by eexists.
  - simpl. by eexists.
Qed.

Lemma Tape_ctor_total (flat : list (@Tree_ F O)) :
  ordered_ok flat → ∃ T, Tape_ctor fzero hash_order flat = Ok T.
Proof.
  intros [Hne Hord].
  destruct (ctor_fold_inv flat [] _ ctor_inv_init Hord) as (seen & st & Hfold & Hinv & Hlen).
  destruct st as [[[[tape_ ids] cs] vs] os].
  unfold Tape_ctor. rewrite Hfold. simpl.
  destruct Hinv as (_ & _ & _ & _ & Hok & _ & _ & _ & Hpres).
  match goal with |- ∃ T, assignSlots _ ?T0 ≫= _ = _ =>
    destruct (assignSlots_total T0 (set_t tape_ (Subtape_new fzero))) as [T1 ->] end;
    [done|done|done|].
  simpl. by eexists.
Qed.

End Total.

Section Asked.
Context {F O : Type}.
Implicit Types (T : @Tape F O) (cl pre : list Clause) (c : Clause).

(** The classifier walk of [push] over the clauses [pre], from the scratch
    arrays as [push] resets them on the sequence [cl]. *)
Definition walk_from (fn : Classifier) T cl pre : result walk_state :=
  let dis := replicate (length (disabled T)) true in
  let rem := replicate (length (remap T)) 0 in
  root ← (match cl with [] => Err AssertFailed | c :: _ => Ok c end);
  dis ← vset (id root) false dis;
  foldlM (push_step fn) pre (dis, rem, false).

Lemma classify_walk_from fn T cl : classify fn T cl = walk_from fn T cl cl.
Proof. done. Qed.

(** [push] calls the classifier on clause [i] of [cl]: the clause is
    enabled when the walk arrives at it. *)
Definition asked (fn : Classifier) T cl (i : nat) : bool :=
  match cl !! i, walk_from fn T cl (take i cl) with
  | Some c, Ok (D, _, _) => bool_decide (D !! id c = Some false)
  | _, _ => false
  end.

(** One iteration sets [has_choices] exactly when the clause is enabled
    and the classifier answers [KEEP_BOTH] for it. *)
Lemma push_step_hc fn (D : list bool) (R : list nat) (hc : bool) c D' R' hc' :
  push_step fn (D, R, hc) c = Ok (D', R', hc') →
  hc' = hc || (bool_decide (D !! id c = Some false)
               && bool_decide (keep_of fn c = KEEP_BOTH)).
Proof.
  unfold push_step, keep_of. intros Hs.
  apply bind_Ok in Hs as (d & Hd%at_Ok & Hs). rewrite Hd.
  destruct d.
  - injection Hs as _ _ Heq. rewrite bool_decide_eq_false_2 by done.
    rewrite <- Heq. by destruct hc.
  - rewrite bool_decide_eq_true_2 by done. simpl.
    apply bind_Ok in Hs as ([[D1 R1] hc1] & Hk & Hs).
    assert (hc1 = hc || bool_decide (fn (op c) (id c) (a c) (b c) = KEEP_BOTH)) as ->.
    { destruct (fn (op c) (id c) (a c) (b c)); inv_result;
        rewrite ?bool_decide_eq_true_2, ?bool_decide_eq_false_2 by done;
        first [by destruct hc | by destruct hc1]. }
    apply bind_Ok in Hs as (r & _ & Hs).
    case_decide; [by inv_result|]. destruct (negb _); by inv_result.
Qed.

(** [has_choices] after the walk: some enabled clause answered
    [KEEP_BOTH]. *)
Lemma walk_has_choices fn cl : ∀ st st',
  foldlM (push_step fn) cl st = Ok st' →
  st'.2 = true ↔
  st.2 = true ∨
  ∃ i c D R hc, cl !! i = Some c ∧
                foldlM (push_step fn) (take i cl) st = Ok (D, R, hc) ∧
                D !! id c = Some false ∧ keep_of fn c = KEEP_BOTH.
Proof.
  induction cl as [|c0 cl IH]; intros st st' Hf; simpl in Hf.
  - inv_result. split; [by left|]. intros [?|(i & c & ? & ? & ? & Hi & _)]; done.
  - apply bind_Ok in Hf as (st1 & H1 & Hf).
    destruct st as [[D0 R0] hc0], st1 as [[D1 R1] hc1].
    pose proof (push_step_hc _ _ _ _ _ _ _ _ H1) as Hhc.
    rewrite (IH _ _ Hf). simpl. split.
    + intros [Hhc1|(i & c & D & R & hc & Hi & Hpre & HD & Hk)].
      * rewrite Hhc1 in Hhc. symmetry in Hhc.
        apply orb_true_iff in Hhc as [?|[?%bool_decide_eq_true ?%bool_decide_eq_true]%andb_true_iff];
          [by left|].
        right. exists 0, c0, D0, R0, hc0. done.
      * right. exists (S i), c, D, R, hc. split; [done|]. split; [|done].
        cbn [take foldlM]. by rewrite H1.
    + intros [->|(i & c & D & R & hc & Hi & Hpre & HD & Hk)]; [by left|].
      destruct i as [|i]; cbn [take foldlM] in Hpre; simpl in Hi.
      * injection Hpre as <- <- <-. injection Hi as <-. left. rewrite Hhc.
        rewrite !bool_decide_eq_true_2 by done. by rewrite orb_true_r.
      * rewrite H1 in Hpre. cbn [mbind result_bind] in Hpre.
        right. by exists i, c, D, R, hc.
Qed.

(** [has_choices] after the classifier walk of [push]: some clause the
    classifier was asked about answered [KEEP_BOTH]. *)
Lemma classify_has_choices fn T cl D R (hc : bool) :
  classify fn T cl = Ok (D, R, hc) →
  hc = true ↔ ∃ i c, cl !! i = Some c ∧ asked fn T cl i = true ∧ keep_of fn c = KEEP_BOTH.
Proof.
  rewrite classify_walk_from. unfold walk_from. cbn zeta. intros Hc.
  apply bind_Ok in Hc as (root & Hroot & Hc).
  apply bind_Ok in Hc as (D0 & HD0 & Hc).
  assert (∀ pre, walk_from fn T cl pre
                 = foldlM (push_step fn) pre (D0, replicate (length (remap T)) 0, false))
    as Hfrom.
  { intros pre. unfold walk_from. cbn zeta. rewrite Hroot. cbn [mbind result_bind].
    by rewrite HD0. }
  pose proof (walk_has_choices fn cl _ _ Hc) as Hiff. simpl in Hiff. rewrite Hiff.
  split.
  - intros [?|(i & c & D1 & R1 & hc1 & Hi & Hpre & HD & Hk)]; [done|].
    exists i, c. split; [done|]. split; [|done].
    unfold asked. rewrite Hi, Hfrom, Hpre. by rewrite bool_decide_eq_true_2.
  - intros (i & c & Hi & Hask & Hk). right. unfold asked in Hask.
    rewrite Hi, Hfrom in Hask.
    destruct (foldlM _ (take i cl) _) as [[[D1 R1] hc1]|] eqn:Hpre; [|done].
    apply bool_decide_eq_true in Hask. by exists i, c, D1, R1, hc1.
Qed.

End Asked.

(** Concrete inputs: the tree [min(x, -x)], nodes at addresses 10, 11, 12. *)
Definition ex_flat : list (@Tree_ nat unit) :=
  [ mkTree 10 VAR_X 0 0 None 0 0;
    mkTree 11 NEG 1 0 None 10 0;
    mkTree 12 MIN 2 0 None 10 11 ].

(** The tree [-(-x)]. *)
Definition ex_flat_neg : list (@Tree_ nat unit) :=
  [ mkTree 10 VAR_X 0 0 None 0 0;
    mkTree 11 NEG 1 0 None 10 0;
    mkTree 12 NEG 2 0 None 11 0 ].

(** An iteration order for the map of ranges: the order of the keys. *)
Definition ex_order (l : list (nat * (nat * nat))) : list (nat * (nat * nat)) := l.

(** The unit cube. *)
Definition ex_region : @Region3 nat := mkRegion3 (mkVec3 0 0 0) (mkVec3 1 1 1).

(** The classifier of the interval evaluator on [0.5, 1]^3: the right
    operand of [MIN] wins. *)
Definition keep_b : Opcode → nat → nat → nat → Keep :=
  λ o _ _ _, if decide (o = MIN) then KEEP_B else KEEP_ALWAYS.

(** The classifier that makes no choice. *)
Definition keep_always : Opcode → nat → nat → nat → Keep :=
  λ _ _ _ _, KEEP_ALWAYS.

Section PushPop.
Context {F O : Type} (fzero : F).
Context (hash_order : list (nat * (nat * nat)) → list (nat * (nat * nat))).
Implicit Types (T : @Tape F O) (s cur : @Subtape F).

(** C1: the constructor builds a tape from every flattened tree in the
    order of [Tree::ordered()], and from that tape every sequence of pushes
    and pops that never pops more often than it pushed runs through; on the
    tape [T] it reaches, a push with any classifier succeeds and leaves the
    cursor off the base, and the pop that follows restores the cursor and
    leaves every subtape up to it as it was.  The stack never shrinks: no
    step of the sequence shortens it, and a pop leaves it at its length; it
    holds at most one subtape more than the deepest nesting the sequence
    reached. *)
Theorem push_pop_restores_cursor flat (this : nat) cmds fn ty (r : @Region3 F) :
  (∀ l, hash_order l ≡ₚ l) → ordered_ok flat → well_nested 0 cmds →
  ∃ T0 T,
    Tape_ctor fzero hash_order flat = Ok T0 ∧ run fzero this cmds T0 = Ok T ∧
    (∃ T1 h T2, push fzero this fn ty r T = Ok (T1, h) ∧ tape T1 ≠ 0 ∧
                pop T1 = Ok T2 ∧ tape T2 = tape T ∧
                ∀ i, i ≤ tape T → tapes T2 !! i = tapes T !! i) ∧
    length (tapes T0) ≤ length (tapes T) ∧
    length (tapes T) ≤ S (max_depth 0 cmds) ∧
    (∀ pre c suf, cmds = pre ++ c :: suf →
       ∃ Tp Tn, run fzero this pre T0 = Ok Tp ∧ run_cmd fzero this Tp c = Ok Tn ∧
                length (tapes Tp) ≤ length (tapes Tn) ∧
                (c = CPop → length (tapes Tn) = length (tapes Tp))) ∧
    (∀ T1 h T2, push fzero this fn ty r T = Ok (T1, h) → pop T1 = Ok T2 →
       length (tapes T) ≤ length (tapes T1) ∧ length (tapes T2) = length (tapes T1)).
Proof.
  intros Hperm Hord Hwn.
  destruct (Tape_ctor_total fzero hash_order Hperm flat Hord) as [T0 Hctor].
  destruct (Tape_ctor_Inv fzero hash_order flat T0 Hord Hctor) as (HI0 & _ & Hlen & _).
  pose proof (ctor_run_inv fzero hash_order flat T0 Hord Hctor) as Hri.
  destruct (run_total fzero this cmds T0 0 Hri Hwn) as [T Hrun].
  exists T0, T. split; [done|]. split; [done|].
  pose proof (run_Inv fzero this cmds T0 T HI0 Hrun) as HI.
  split; [by apply pop_after_push|].
  destruct (run_level fzero this cmds T0 T 0 Hri Hrun) as [H1 H2].
  split; [done|]. split; [pose proof (max_depth_ge cmds 0); lia|]. split.
  - intros pre c suf Heq. by apply (run_steps fzero this pre cmds T0 0 c suf Hri Hwn).
  - intros T1 h T2 Hpush Hpop. split; [|by apply pop_length].
    destruct (reachable_run_inv fzero hash_order T) as [d Hd].
    { by exists flat, T0, this, cmds. }
    assert (run_cmd fzero this T (CPush fn ty r) = Ok T1) as Hc
      by (simpl; by rewrite Hpush).
    by destruct (run_cmd_level _ _ _ _ _ _ Hd Hc) as (_ & ? & _).
Qed.

Lemma set_tapes_set_tapes (l1 l2 : list (@Subtape F)) T :
  set_tapes l2 (set_tapes l1 T) = set_tapes l2 T.
Proof. by destruct T. Qed.

(** A sequence of pushes, each with its classifier, type and region. *)
Definition pushes_of (ps : list ((Opcode → nat → nat → nat → Keep) * Type_ * @Region3 F))
  : list (@Cmd F) :=
  (λ p, CPush p.1.1 p.1.2 p.2) <$> ps.

(** The tape with the counter of the subtape under the cursor at [k]. *)
Definition with_counter (k : nat) T cur : @Tape F O :=
  set_tapes (<[tape T := set_dummy k cur]> (tapes T)) T.

Lemma with_counter_id T cur :
  current T = Ok cur → with_counter (dummy cur) T cur = T.
Proof.
  intros Hcur%at_Ok. unfold with_counter.
  by rewrite set_dummy_id, list_insert_id, set_tapes_id.
Qed.

Lemma with_counter_current k T cur :
  current T = Ok cur → current (with_counter k T cur) = Ok (set_dummy k cur).
Proof.
  intros Hcur%at_Ok. unfold current, with_counter. simpl. apply at_lookup.
  apply list_lookup_insert_eq. by eapply lookup_lt_Some.
Qed.

Lemma with_counter_twice k1 k2 T cur :
  with_counter k2 (with_counter k1 T cur) (set_dummy k1 cur) = with_counter k2 T cur.
Proof.
  unfold with_counter. simpl.
  by rewrite list_insert_insert_eq, set_dummy_set_dummy, set_tapes_set_tapes.
Qed.

(** Pushes on a dummy tape only count. *)
Lemma dummy_pushes (this : nat) ps : ∀ T cur,
  current T = Ok cur → dummy cur ≠ 0 →
  run fzero this (pushes_of ps) T = Ok (with_counter (dummy cur + length ps) T cur).
Proof.
  induction ps as [|[[fn ty] r] ps IH]; intros T cur Hcur Hd.
  - unfold run. simpl. by rewrite Nat.add_0_r, with_counter_id.
  - unfold run. cbn [pushes_of fmap list_fmap foldlM run_cmd fst snd].
    rewrite (push_dummy fzero this fn ty r T cur Hcur Hd). cbn [fmap result_fmap fst mbind result_bind].
    fold (with_counter (S (dummy cur)) T cur).
    pose proof (IH (with_counter (S (dummy cur)) T cur) (set_dummy (S (dummy cur)) cur)
                  (with_counter_current _ _ _ Hcur) ltac:(simpl; lia)) as Hrest.
    unfold run, pushes_of in Hrest. rewrite Hrest. rewrite with_counter_twice.
    simpl. do 2 f_equal. lia.
Qed.

(** Pops on a dummy tape whose counter is above their number only count
    down. *)
Lemma dummy_pops (this : nat) k : ∀ T cur,
  current T = Ok cur → tape T ≠ 0 → k < dummy cur →
  run fzero this (replicate k CPop) T = Ok (with_counter (dummy cur - k) T cur).
Proof.
  induction k as [|k IH]; intros T cur Hcur Hne Hk.
  - unfold run. simpl. by rewrite Nat.sub_0_r, with_counter_id.
  - unfold run. cbn [replicate foldlM run_cmd].
    assert (pop T = Ok (with_counter (dummy cur - 1) T cur)) as ->.
    { unfold pop. rewrite bool_decide_eq_true_2 by done. cbn [assert_ mbind result_bind].
      rewrite Hcur. cbn [mbind result_bind]. by rewrite decide_True by lia. }
    cbn [mbind result_bind].
    pose proof (IH (with_counter (dummy cur - 1) T cur) (set_dummy (dummy cur - 1) cur)
                  (with_counter_current _ _ _ Hcur) Hne ltac:(simpl; lia)) as Hrest.
    unfold run in Hrest. rewrite Hrest. rewrite with_counter_twice.
    simpl. do 2 f_equal. lia.
Qed.

(** C3, amended: a push on a tape that is not a dummy still materialises
    the new clause sequence above the cursor, and sets its counter to 1
    exactly when the classifier answers [KEEP_BOTH] for none of the clauses
    it is asked about (those enabled when the walk reaches them), to 0
    otherwise.  On the dummy tape this gives, any pushes, whatever their
    classifiers, only add their number to the counter: cursor, subtapes and
    scratch arrays stay; as many pops only take it back to 1, and the pop
    that finds the counter at 1 moves the cursor back.  On every tape, a
    push on a dummy subtape only increments its counter, and a pop
    decrements a counter above 1 and moves the cursor back otherwise. *)
Theorem push_without_choices_is_dummy T cur (this : nat) fn ty (r : @Region3 F) :
  reachable fzero hash_order T → current T = Ok cur → dummy cur = 0 →
  ∃ T1 new,
    push fzero this fn ty r T = Ok (T1, Handle_push this) ∧
    tape T1 = S (tape T) ∧ current T1 = Ok new ∧
    emit (disabled T1) (remap T1) (t cur) = Ok (t new) ∧
    length (tapes T1) = length (tapes T) `max` S (S (tape T)) ∧
    (dummy new = 1 ↔
     ∀ i c, t cur !! i = Some c → asked fn T (t cur) i = true → keep_of fn c ≠ KEEP_BOTH) ∧
    (dummy new = 0 ↔
     ∃ i c, t cur !! i = Some c ∧ asked fn T (t cur) i = true ∧ keep_of fn c = KEEP_BOTH) ∧
    (dummy new = 1 →
     ∀ ps,
       run fzero this (pushes_of ps) T1 = Ok (with_counter (1 + length ps) T1 new) ∧
       run fzero this (pushes_of ps ++ replicate (length ps) CPop) T1 = Ok T1 ∧
       pop T1 = Ok (set_cursor (tape T) T1)) ∧
    (∀ T' cur' fn' ty' (r' : @Region3 F),
       current T' = Ok cur' → dummy cur' ≠ 0 →
       push fzero this fn' ty' r' T' = Ok (with_counter (S (dummy cur')) T' cur',
                                           Handle_push this)) ∧
    (∀ T' cur',
       current T' = Ok cur' → tape T' ≠ 0 →
       pop T' = Ok (if decide (1 < dummy cur')
                    then with_counter (dummy cur' - 1) T' cur'
                    else set_cursor (tape T' - 1) T')).
Proof.
  intros HI%reachable_Inv Hcur Hd.
  destruct (push_fresh fzero this fn ty r T cur HI Hcur Hd)
    as (D & R & hc & new & Hcl & Hw & Hem & Hdn & _ & Hpush).
  pose proof (classify_has_choices fn T (t cur) D R hc Hcl) as Hhc.
  pose proof HI as (Hc & _).
  set (T1 := set_scratch D R (set_cursor (S (tape T)) (set_tapes (pushed_tapes fzero T new) T))).
  assert (current T1 = Ok new) as Hcur1.
  { unfold current, T1. simpl. apply at_lookup. by apply pushed_tapes_new. }
  exists T1, new. split; [exact Hpush|]. split; [done|]. split; [done|].
  split; [done|]. split; [by apply pushed_tapes_length|].
  assert (dummy new = 1 ↔ hc = false) as H1 by (rewrite Hdn; destruct hc; split; done).
  assert (dummy new = 0 ↔ hc = true) as H0 by (rewrite Hdn; destruct hc; split; done).
  split_and!.
  - rewrite H1. split.
    + intros -> i c Hi Hask Hk. destruct Hhc as [_ Hhc].
      assert (false = true); [|done]. apply Hhc. by exists i, c.
    + intros Hall. destruct hc; [|done]. destruct Hhc as [Hhc _].
      destruct (Hhc eq_refl) as (i & c & Hi & Hask & Hk). by destruct (Hall i c Hi Hask).
  - by rewrite H0.
  - intros Hone ps.
    pose proof (dummy_pushes this ps T1 new Hcur1 ltac:(lia)) as Hps.
    rewrite Hone in Hps. split; [exact Hps|]. split.
    + unfold run. apply foldlM_app. eexists. split; [exact Hps|].
      pose proof (dummy_pops this (length ps) (with_counter (1 + length ps) T1 new)
                    (set_dummy (1 + length ps) new)
                    (with_counter_current _ _ _ Hcur1) ltac:(done) ltac:(simpl; lia))
        as Hpops.
      unfold run in Hpops. rewrite Hpops, with_counter_twice. f_equal.
      replace (dummy (set_dummy (1 + length ps) new) - length ps) with (dummy new)
        by (simpl; lia).
      by apply with_counter_id.
    + unfold pop. rewrite bool_decide_eq_true_2 by done. cbn [assert_ mbind result_bind].
      rewrite Hcur1. cbn [mbind result_bind]. rewrite decide_False by lia.
      do 2 f_equal. simpl. lia.
  - intros T' cur' fn' ty' r' Hcur' Hd'. by apply push_dummy.
  - intros T' cur' Hcur' Hne. unfold pop. rewrite bool_decide_eq_true_2 by done.
    cbn [assert_ mbind result_bind]. rewrite Hcur'. cbn [mbind result_bind].
    by case_decide.
Qed.

(** C10: on every reachable tape that is not a dummy, the classifier walk
    of [push] succeeds for any classifier; every operand of a clause is
    below the clause's id; [remap] sends a clause id to 0 or to one of the
    operands of its clause, hence to a smaller id; and the loop that follows
    [remap] terminates from every operand, at an id that is not remapped. *)
Theorem remap_chain_terminates T cur fn :
  reachable fzero hash_order T → current T = Ok cur → dummy cur = 0 →
  ∃ D R hc,
    classify fn T (t cur) = Ok (D, R, hc) ∧
    (∀ c, c ∈ t cur → a c < id c ∧ b c < id c) ∧
    (∀ c, c ∈ t cur →
          R !! id c = Some 0 ∨ R !! id c = Some (a c) ∨ R !! id c = Some (b c)) ∧
    (∀ k r, R !! k = Some r → r ≠ 0 → r < k) ∧
    (∀ c, c ∈ t cur →
          ∃ ra rb, follow R (S (length R)) (a c) = Ok ra ∧
                   follow R (S (length R)) (b c) = Ok rb ∧
                   ra ≤ a c ∧ rb ≤ b c ∧ R !! ra = Some 0 ∧ R !! rb = Some 0).
Proof.
  intros HI%reachable_Inv Hcur Hd.
  pose proof HI as (Hc & HD & HR & _ & Hall).
  pose proof Hcur as Hlk. apply at_Ok in Hlk.
  destruct (Forall_lookup_1 _ _ _ _ Hall Hlk) as [[Hok Hsorted] Hne].
  destruct (classify_ok fn _ T (t cur) HD HR (Hne Hd) (conj Hok Hsorted))
    as ([[D R] hc] & Hcl & Hinv).
  pose proof (walk_inv_decreasing _ _ _ _ Hok Hinv) as Hdec. simpl in Hdec.
  exists D, R, hc. split; [done|].
  rewrite Forall_forall in Hok.
  destruct Hinv as (_ & HR' & I1 & _). simpl in *.
  split_and!; [| |done|].
  - intros c Hc'. destruct (Hok _ Hc') as (_ & ? & ?). done.
  - intros c Hc'. destruct (Hok _ Hc') as (Hid & _).
    destruct (lookup_lt_is_Some_2 R (id c)) as [r Hr]; [lia|].
    destruct (decide (r = 0)) as [->|Hr0]; [by left|]. right.
    destruct (I1 _ _ Hr Hr0) as (c' & Hc'' & Hid' & Hk & _).
    assert (c' = c) as ->.
    { apply list_elem_of_lookup_1 in Hc' as [i Hi].
      apply list_elem_of_lookup_1 in Hc'' as [j Hj].
      pose proof (sorted_ids_NoDup _ Hsorted) as Hnd.
      assert (i = j) as ->; [|congruence].
      eapply (NoDup_lookup _ _ _ (id c) Hnd); rewrite list_lookup_fmap.
      - by rewrite Hi.
      - rewrite Hj. simpl. by rewrite Hid'. }
    rewrite Hr. destruct Hk as [[_ ->]|[_ ->]]; auto.
  - intros c Hc'. destruct (Hok _ Hc') as (Hid & Ha & Hb).
    destruct (follow_ok R Hdec (S (length R)) (a c)) as (ra & ? & ? & ?); [lia..|].
    destruct (follow_ok R Hdec (S (length R)) (b c)) as (rb & ? & ? & ?); [lia..|].
    by exists ra, rb.
Qed.

(** C2, amended: in the base tape and in every subtape produced by a push
    whose classifier keeps to its contract, each operand clause id of a
    clause without dummy children appears later than the clause in the
    forward walk (so earlier in the reverse walk, which evaluates). *)
Theorem operands_follow_their_clause T s i c x :
  reachable_sane fzero hash_order T → s ∈ tapes T →
  t s !! i = Some c → hasDummyChildren (op c) = false →
  x = a c ∨ x = b c → x ≠ 0 →
  ∃ j c', i < j ∧ t s !! j = Some c' ∧ id c' = x.
Proof.
  intros (flat & T0 & this & cmds & Hord & Hctor & Hsane & Hrun) Hs.
  destruct (Tape_ctor_Inv fzero hash_order flat T0 Hord Hctor) as (HI0 & _ & _ & HP0).
  pose proof (run_Inv fzero this cmds T0 T HI0 Hrun) as HI.
  pose proof (run_InvP fzero this cmds T0 T HI0 HP0 Hsane Hrun) as HP.
  destruct HI as (_ & _ & _ & _ & Hall).
  rewrite Forall_forall in Hall. destruct (Hall _ Hs) as [Hok _].
  unfold InvP in HP. rewrite Forall_forall in HP.
  apply (operands_later (num_clauses T)); auto.
Qed.

End PushPop.

(** A placeholder for the error case of the computations below. *)
Definition empty_tape : @Tape nat unit := mkTape [] [] [] [] 0 0 [] [].

(** The tape of [min(x, -x)], as the constructor builds it. *)
Definition ex_tape : @Tape nat unit :=
  Eval vm_compute in
    match Tape_ctor 0 ex_order ex_flat with Ok T => T | Err _ => empty_tape end.

(** Two nested pushes, then one pop. *)
Definition ex_cmds : list (@Cmd nat) :=
  [CPush keep_b INTERVAL ex_region; CPush keep_b INTERVAL ex_region; CPop].

(** The same tape after two nested pushes and one pop. *)
Definition ex_tape_pushed : @Tape nat unit :=
  Eval vm_compute in
    match run 0 7 ex_cmds ex_tape with Ok T => T | Err _ => empty_tape end.

Lemma push_pop_restores_cursor_witness :
  ∃ T0 T,
    Tape_ctor 0 ex_order ex_flat = Ok T0 ∧ run 0 7 ex_cmds T0 = Ok T ∧
    (∃ T1 h T2, push 0 7 keep_always SPECIALIZED ex_region T = Ok (T1, h) ∧
                tape T1 ≠ 0 ∧ pop T1 = Ok T2 ∧ tape T2 = tape T ∧
                ∀ i, i ≤ tape T → tapes T2 !! i = tapes T !! i) ∧
    length (tapes T0) ≤ length (tapes T) ∧
    length (tapes T) ≤ S (max_depth 0 ex_cmds) ∧
    (∀ pre c suf, ex_cmds = pre ++ c :: suf →
       ∃ Tp Tn, run 0 7 pre T0 = Ok Tp ∧ run_cmd 0 7 Tp c = Ok Tn ∧
                length (tapes Tp) ≤ length (tapes Tn) ∧
                (c = CPop → length (tapes Tn) = length (tapes Tp))) ∧
    (∀ T1 h T2, push 0 7 keep_always SPECIALIZED ex_region T = Ok (T1, h) →
       pop T1 = Ok T2 →
       length (tapes T) ≤ length (tapes T1) ∧ length (tapes T2) = length (tapes T1)).
Proof.
  apply (push_pop_restores_cursor 0 ex_order ex_flat 7 ex_cmds).
  - intros l. reflexivity.
  - apply (bool_decide_unpack _). vm_compute. exact I.
  - simpl. lia.
Defined.

Lemma ex_tape_reachable : reachable 0 ex_order ex_tape.
Proof.
  exists ex_flat, ex_tape, 7, []. split_and!.
  - apply (bool_decide_unpack _). vm_compute. exact I.
  - vm_compute. reflexivity.
  - reflexivity.
Qed.

(** C3 as stated fails: on the tape of [min(x, -x)] the classifier that
    keeps the right operand of [MIN] answers [KEEP_BOTH] for no clause; the
    push sets the counter of the new tape to 1 and materialises a new clause
    sequence all the same. *)
Lemma dummy_push_materialises :
  ∃ cur T1 h new,
    current ex_tape = Ok cur ∧
    (∀ c, c ∈ t cur → keep_of keep_b c ≠ KEEP_BOTH) ∧
    push 0 7 keep_b INTERVAL ex_region ex_tape = Ok (T1, h) ∧
    current T1 = Ok new ∧ dummy new = 1 ∧
    t new = [mkClause NEG 2 1 0; mkClause VAR_X 1 0 0] ∧
    t <$> tapes T1 ≠ t <$> tapes ex_tape.
Proof.
  eexists _, _, _, _. split; [vm_compute; reflexivity|]. split.
  { intros c Hc. unfold keep_of, keep_b. by case_decide. }
  split; [vm_compute; reflexivity|]. split; [vm_compute; reflexivity|].
  split; [reflexivity|]. split; [reflexivity|]. vm_compute. discriminate.
Qed.

(** The base subtape of [ex_tape]. *)
Definition ex_base : @Subtape nat :=
  Eval vm_compute in
    match current ex_tape with Ok s => s | Err _ => Subtape_new 0 end.

(** The tree [min(min(x, y), z)], nodes at addresses 10 to 14. *)
Definition ex_flat_min3 : list (@Tree_ nat unit) :=
  [ mkTree 10 VAR_X 0 0 None 0 0;
    mkTree 11 VAR_Y 0 0 None 0 0;
    mkTree 12 VAR_Z 0 0 None 0 0;
    mkTree 13 MIN 1 0 None 10 11;
    mkTree 14 MIN 2 0 None 13 12 ].

(** Its tape, as the constructor builds it. *)
Definition ex_tape_min3 : @Tape nat unit :=
  Eval vm_compute in
    match Tape_ctor 0 ex_order ex_flat_min3 with Ok T => T | Err _ => empty_tape end.

Definition ex_base_min3 : @Subtape nat :=
  Eval vm_compute in
    match current ex_tape_min3 with Ok s => s | Err _ => Subtape_new 0 end.

(** A classifier that keeps the right operand of the outer [MIN] (clause 5)
    and both operands of the inner one (clause 4). *)
Definition keep_outer_b : Opcode → nat → nat → nat → Keep :=
  λ o i _ _, if decide (o = MIN)
             then (if decide (i = 5) then KEEP_B else KEEP_BOTH)
             else KEEP_ALWAYS.

Lemma ex_tape_min3_reachable : reachable 0 ex_order ex_tape_min3.
Proof.
  exists ex_flat_min3, ex_tape_min3, 7, []. split_and!.
  - apply (bool_decide_unpack _). vm_compute. exact I.
  - vm_compute. reflexivity.
  - reflexivity.
Qed.

(** The classifier is never asked about the inner [MIN], the only clause
    for which it answers [KEEP_BOTH]. *)
Lemma ex_min3_no_choice i c :
  t ex_base_min3 !! i = Some c → asked keep_outer_b ex_tape_min3 (t ex_base_min3) i = true →
  keep_of keep_outer_b c ≠ KEEP_BOTH.
Proof.
  intros Hi Hask.
  destruct i as [|[|[|[|[|i]]]]]; vm_compute in Hi; try discriminate Hi;
    injection Hi as <-; vm_compute in Hask; try discriminate Hask;
    vm_compute; discriminate.
Qed.

Lemma push_without_choices_is_dummy_witness :
  ∃ T1 new,
    push 0 7 keep_outer_b INTERVAL ex_region ex_tape_min3 = Ok (T1, Handle_push 7) ∧
    tape T1 = 1 ∧ current T1 = Ok new ∧
    keep_of keep_outer_b (mkClause MIN 4 1 2) = KEEP_BOTH ∧
    asked keep_outer_b ex_tape_min3 (t ex_base_min3) 1 = false ∧
    dummy new = 1 ∧
    (∀ ps,
       run 0 7 (pushes_of ps) T1 = Ok (with_counter (1 + length ps) T1 new) ∧
       run 0 7 (pushes_of ps ++ replicate (length ps) CPop) T1 = Ok T1 ∧
       pop T1 = Ok (set_cursor (tape ex_tape_min3) T1)).
Proof.
  destruct (push_without_choices_is_dummy 0 ex_order ex_tape_min3 ex_base_min3 7
              keep_outer_b INTERVAL ex_region ex_tape_min3_reachable eq_refl eq_refl)
    as (T1 & new & Hpush & Htape & Hcur & _ & _ & Hone & _ & Hchain & _).
  assert (dummy new = 1) as Hd by (apply Hone; exact ex_min3_no_choice).
  exists T1, new. split; [exact Hpush|]. split; [exact Htape|]. split; [exact Hcur|].
  split; [reflexivity|]. split; [reflexivity|]. split; [exact Hd|]. exact (Hchain Hd).
Defined.

Lemma remap_chain_terminates_witness :
  ∃ D R hc,
    classify keep_b ex_tape (t ex_base) = Ok (D, R, hc) ∧
    (∀ c, c ∈ t ex_base → a c < id c ∧ b c < id c) ∧
    (∀ c, c ∈ t ex_base →
          R !! id c = Some 0 ∨ R !! id c = Some (a c) ∨ R !! id c = Some (b c)) ∧
    (∀ k r, R !! k = Some r → r ≠ 0 → r < k) ∧
    (∀ c, c ∈ t ex_base →
          ∃ ra rb, follow R (S (length R)) (a c) = Ok ra ∧
                   follow R (S (length R)) (b c) = Ok rb ∧
                   ra ≤ a c ∧ rb ≤ b c ∧ R !! ra = Some 0 ∧ R !! rb = Some 0).
Proof.
  apply (remap_chain_terminates 0 ex_order ex_tape ex_base keep_b).
  - exact ex_tape_reachable.
  - vm_compute. reflexivity.
  - reflexivity.
Defined.

Lemma keep_b_respects_leaves : respects_leaves keep_b.
Proof. intros o i x y Ho. right. unfold keep_b. case_decide; [by subst|done]. Qed.

Lemma ex_tape_pushed_sane : reachable_sane 0 ex_order ex_tape_pushed.
Proof.
  exists ex_flat, ex_tape, 7, ex_cmds. split_and!.
  - apply (bool_decide_unpack _). vm_compute. exact I.
  - vm_compute. reflexivity.
  - unfold ex_cmds. repeat apply Forall_cons_2; try apply Forall_nil_2; simpl;
      auto using keep_b_respects_leaves.
  - vm_compute. reflexivity.
Qed.

(** The subtape that the first push of [ex_cmds] leaves on the stack. *)
Definition ex_sub : @Subtape nat :=
  Eval vm_compute in
    match tapes ex_tape_pushed !! 1 with Some s => s | None => Subtape_new 0 end.

Lemma operands_follow_their_clause_witness :
  ∃ j c', 0 < j ∧ t ex_sub !! j = Some c' ∧ id c' = 1.
Proof.
  apply (operands_follow_their_clause 0 ex_order ex_tape_pushed ex_sub 0
           (mkClause NEG 2 1 0) 1).
  - exact ex_tape_pushed_sane.
  - vm_compute. apply list_elem_of_lookup. by exists 1.
  - reflexivity.
  - reflexivity.
  - by left.
  - done.
Defined.

(** The order C2 words: each operand of a clause without dummy children
    stands before the clause. *)
Definition operands_precede (cl : list Clause) : Prop :=
  ∀ i c x, cl !! i = Some c → hasDummyChildren (op c) = false →
           x = a c ∨ x = b c → x ≠ 0 →
           ∃ j c', j < i ∧ cl !! j = Some c' ∧ id c' = x.

(** C2 as stated fails: the base tape of [min(x, -x)] starts with the clause
    of [MIN], whose operands stand after it. *)
Lemma base_tape_operands_do_not_precede :
  reachable_sane 0 ex_order ex_tape ∧ ex_base ∈ tapes ex_tape ∧
  t ex_base = [mkClause MIN 3 1 2; mkClause NEG 2 1 0; mkClause VAR_X 1 0 0] ∧
  ¬ operands_precede (t ex_base).
Proof.
  split_and!.
  - exists ex_flat, ex_tape, 7, []. split_and!; [|vm_compute; reflexivity|done..].
    apply (bool_decide_unpack _). vm_compute. exact I.
  - vm_compute. by left.
  - reflexivity.
  - intros Hp. destruct (Hp 0 (mkClause MIN 3 1 2) 1) as (j & _ & Hj & _); try done.
    + by left.
    + lia.
Qed.

(** What one event of the LOAD / DROP tape does to the allocator state. *)
Definition event_effect (st : RegState) (e : Event) (st1 : RegState) : Prop :=
  match e.1.2 with
  | DROP =>
      ∃ s, active st !! e.2 = Some s ∧
           active st1 = delete e.2 (active st) ∧ assigned st1 = assigned st ∧
           inactive st1 = set_insert s (inactive st) ∧ s ∈ inactive st1
  | LOAD =>
      ∃ chosen,
        active st1 = <[e.2 := chosen]> (active st) ∧
        assigned st1 = <[e.2 := chosen]> (assigned st) ∧
        (∀ k s, active st !! k = Some s → s ≠ chosen) ∧
        match inactive st with
        | [] => chosen = size (active st) ∧ inactive st1 = [] ∧
                ∀ k s, active st !! k = Some s → s < chosen
        | x :: free =>
            chosen = x ∧ inactive st1 = free ∧ ∀ y, y ∈ inactive st → chosen ≤ y
        end
  end.

Section SlotAssignment.
Context {F O : Type}.
Context (hash_order : list (nat * (nat * nat)) → list (nat * (nat * nat))).
Implicit Types (T : @Tape F O) (cur : @Subtape F).

(** C5: on a tape whose current subtape is well formed and holds the
    operands of its clauses, [assignSlots] returns.  The range of the clause
    at position [j] of the reverse walk starts at [j] and ends after the
    last position that reads the clause; two clauses whose ranges, read as
    the half-open intervals (first, last + 1) that [ranges] stores, have a
    position in common are given different slots in [m]; and every event of
    the LOAD / DROP tape is processed as follows: a DROP puts the slot of its
    clause into the free set, a LOAD takes the least free slot, or the slot
    of number [size active], above every slot in use, when the free set is
    empty. *)
Theorem assignSlots_no_shared_slot T cur :
  (∀ l, hash_order l ≡ₚ l) →
  current T = Ok cur → sub_ok (num_clauses T) (t cur) → operands_present (t cur) →
  ∃ T' ranges new,
    assignSlots hash_order T = Ok T' ∧
    live_ranges (t cur) = Ok ranges ∧
    tapes T' !! tape T = Some new ∧ t new = t cur ∧
    (∀ j c, reverse (t cur) !! j = Some c →
       ∃ e, ranges !! id c = Some (j, e) ∧ j < e ∧
            ∀ j' c', reverse (t cur) !! j' = Some c' → uses c' (id c) → j' < e) ∧
    (∀ c1 c2 r1 r2, c1 ∈ t cur → c2 ∈ t cur → id c1 ≠ id c2 →
       ranges !! id c1 = Some r1 → ranges !! id c2 = Some r2 → overlap r1 r2 →
       ∃ s1 s2, m new !! id c1 = Some s1 ∧ m new !! id c2 = Some s2 ∧ s1 ≠ s2) ∧
    (∀ pre e post,
       reg_ops_of (hash_order (map_to_list ranges)) = pre ++ e :: post → e.2 ≠ 0 →
       ∃ st st1, foldlM reg_step pre (mkRegState ∅ ∅ []) = Ok st ∧
                 reg_step st e = Ok st1 ∧ event_effect st e st1).
Proof.
  intros Hperm Hcur Hsub Hpres.
  destruct (assignSlots_total hash_order Hperm T cur Hcur Hsub Hpres) as [T' Has].
  pose proof (sorted_ids_NoDup _ (proj2 Hsub)) as Hnd.
  exists T'. pose proof Has as Has'. unfold assignSlots in Has. rewrite Hcur in Has.
  simpl in Has. inv_result. rename x into asg, x0 into mv.
  match goal with H : slots_of _ _ = Ok _ |- _ => rename H into Hslots end.
  match goal with H : foldlM store_slot _ _ = Ok _ |- _ => rename H into Hstore end.
  pose proof Hslots as Hs2. unfold slots_of in Hs2.
  destruct (live_ranges (t cur)) as [ranges|] eqn:Hr; [|done]. simpl in Hs2.
  inv_result. rename x into stf.
  match goal with H : foldlM reg_step _ _ = Ok _ |- _ => rename H into Hwalk end.
  apply at_Ok in Hcur.
  destruct (store_slots _ _ _ (NoDup_fst_map_to_list _) Hstore) as (_ & Hin & _).
  exists ranges, (set_m mv cur). split; [done|]. split; [done|]. split_and!.
  - simpl. rewrite list_lookup_insert_eq; [done|]. by eapply lookup_lt_Some.
  - done.
  - intros j c Hj. destruct (live_ranges_spec _ _ Hnd Hr j c Hj) as (_ & e & ? & ? & ?).
    eauto.
  - intros c1 c2 r1 r2 Hc1 Hc2 Hne H1 H2 Hov.
    destruct (slots_of_disjoint hash_order Hperm _ _ _ Hr Hslots (id c1) (id c2) r1 r2)
      as (s1 & s2 & Hs1 & Hs2' & Hne'); try done.
    + by eapply live_ranges_dom.
    + by eapply live_ranges_dom.
    + exists s1, s2. simpl. split_and!; [| |done]; apply Hin; by apply elem_of_map_to_list.
  - intros pre e post Hevs He. rewrite Hevs in Hwalk.
    apply foldlM_app in Hwalk as (st & Hpre & Hpost). simpl in Hpost.
    apply bind_Ok in Hpost as (st1 & Hstep & _).
    exists st, st1. split; [done|]. split; [done|].
    apply (reg_walk_step hash_order Hperm ranges pre e post st st1); done.
Qed.

End SlotAssignment.

(** The tape of [-(-x)] before its slots are assigned. *)
Definition ex_unassigned : @Tape nat unit :=
  {| constants := []; vars := []; oracles := [];
     tapes := [set_t [mkClause NEG 3 2 0; mkClause NEG 2 1 0; mkClause VAR_X 1 0 0]
                     (Subtape_new 0)];
     tape := 0; num_clauses := 4; disabled := []; remap := [] |}.

(** Its only subtape. *)
Definition ex_unassigned_base : @Subtape nat :=
  Eval vm_compute in
    match current ex_unassigned with Ok s => s | Err _ => Subtape_new 0 end.

(** The same tape after [assignSlots]. *)
Definition ex_assigned : @Tape nat unit :=
  Eval vm_compute in
    match assignSlots ex_order ex_unassigned with Ok T => T | Err _ => empty_tape end.

Lemma assignSlots_no_shared_slot_witness :
  ∃ T' ranges new,
    assignSlots ex_order ex_unassigned = Ok T' ∧
    live_ranges (t ex_unassigned_base) = Ok ranges ∧
    tapes T' !! tape ex_unassigned = Some new ∧ t new = t ex_unassigned_base ∧
    (∀ j c, reverse (t ex_unassigned_base) !! j = Some c →
       ∃ e, ranges !! id c = Some (j, e) ∧ j < e ∧
            ∀ j' c', reverse (t ex_unassigned_base) !! j' = Some c' →
                     uses c' (id c) → j' < e) ∧
    (∀ c1 c2 r1 r2, c1 ∈ t ex_unassigned_base → c2 ∈ t ex_unassigned_base →
       id c1 ≠ id c2 →
       ranges !! id c1 = Some r1 → ranges !! id c2 = Some r2 → overlap r1 r2 →
       ∃ s1 s2, m new !! id c1 = Some s1 ∧ m new !! id c2 = Some s2 ∧ s1 ≠ s2) ∧
    (∀ pre e post,
       reg_ops_of (ex_order (map_to_list ranges)) = pre ++ e :: post → e.2 ≠ 0 →
       ∃ st st1, foldlM reg_step pre (mkRegState ∅ ∅ []) = Ok st ∧
                 reg_step st e = Ok st1 ∧ event_effect st e st1).
Proof.
  apply (assignSlots_no_shared_slot (F:=nat) (O:=unit) ex_order ex_unassigned
           ex_unassigned_base).
  - intros l. reflexivity.
  - vm_compute. reflexivity.
  - split.
    + repeat constructor; simpl; lia.
    + repeat constructor; unfold id_gt; simpl; lia.
  - intros c x Hc Hd Hx Hx0. simpl in Hc.
    repeat (apply elem_of_cons in Hc as [->|Hc]); [| | |by apply elem_of_nil in Hc];
      simpl in Hx; destruct Hx as [->| ->]; try done.
    + exists (mkClause NEG 2 1 0). split; [|done]. set_solver.
    + exists (mkClause VAR_X 1 0 0). split; [|done]. set_solver.
Defined.

(** Ranges that only touch may share a slot: in [-(-x)] the range of [x]
    ends at position 2, where the range of the outer negation starts, and
    both clauses are given slot 0. *)
Lemma touching_ranges_share_slot :
  ∃ ranges new,
    live_ranges (t ex_unassigned_base) = Ok ranges ∧
    tapes ex_assigned !! 0 = Some new ∧
    ranges !! 1 = Some (0, 2) ∧ ranges !! 3 = Some (2, 3) ∧
    ¬ overlap (0, 2) (2, 3) ∧
    m new !! 1 = Some 0 ∧ m new !! 3 = Some 0.
Proof.
  eexists _, _. split; [vm_compute; reflexivity|]. split; [reflexivity|].
  split; [vm_compute; reflexivity|]. split; [vm_compute; reflexivity|].
  split; [unfold overlap; simpl; lia|]. split; reflexivity.
Qed.

Section Handles.
Context {F O : Type} (fzero : F).
Context (hash_order : list (nat * (nat * nat)) → list (nat * (nat * nat))).
Implicit Types (T : @Tape F O) (h d s : Handle).

Lemma push_handle (this : nat) fn ty (r : @Region3 F) T T1 h :
  push fzero this fn ty r T = Ok (T1, h) → h = Handle_push this.
Proof.
  unfold push. intros H. inv_result. case_decide; inv_result; [done|].
  destruct x0 as [[D R] hc]. inv_result. done.
Qed.

(** The handle that ends up owning the disposal of [h], and what is left
    of [h], after a move construction or a move assignment over [d0]. *)
Definition moved (d0 h d s : Handle) : Prop :=
  Handle_move h = (d, s) ∨ Handle_move_assign d0 h = (d, s).

(** C4: the destructor of a handle does nothing for [NONE], restores the
    saved cursor for [BASE] and is one call of [pop] for [PUSH]; a move
    construction and a move assignment give the destination the tape, the
    type and the saved cursor of the source and leave the source with type
    [NONE], so that the destructor of the destination does what the
    destructor of the source would have done and the destructor of the
    source does nothing.  On every reachable tape, after a push whose
    handle is moved, destroying the destination is the one pop that
    restores the cursor, and destroying the source, before or after,
    changes nothing. *)
Theorem handle_disposes_once T (this : nat) fn ty (r : @Region3 F) (h d0 : Handle) :
  reachable fzero hash_order T →
  (h_type h = HandleType.NONE → Handle_dtor h T = Ok T) ∧
  (h_type h = HandleType.BASE → is_Some (h_tape h) →
   Handle_dtor h T = Ok (set_cursor (h_prev h) T)) ∧
  (h_type h = HandleType.PUSH → is_Some (h_tape h) → Handle_dtor h T = pop T) ∧
  (∀ d s, moved d0 h d s →
     h_tape d = h_tape h ∧ h_type d = h_type h ∧ h_prev d = h_prev h ∧
     h_type s = HandleType.NONE ∧
     Handle_dtor d T = Handle_dtor h T ∧ ∀ T', Handle_dtor s T' = Ok T') ∧
  ∃ T1 hp T2,
    push fzero this fn ty r T = Ok (T1, hp) ∧ h_type hp = HandleType.PUSH ∧
    pop T1 = Ok T2 ∧ tape T2 = tape T ∧
    ∀ d s, moved d0 hp d s →
      h_type d = HandleType.PUSH ∧ h_type s = HandleType.NONE ∧
      Handle_dtor d T1 = Ok T2 ∧ Handle_dtor s T2 = Ok T2 ∧
      Handle_dtor s T1 = Ok T1.
Proof.
  intros HI%reachable_Inv. split_and!.
  - intros Ht. unfold Handle_dtor. by rewrite Ht.
  - intros Ht Hs. unfold Handle_dtor. rewrite Ht.
    by rewrite bool_decide_eq_true_2.
  - intros Ht Hs. unfold Handle_dtor. rewrite Ht.
    by rewrite bool_decide_eq_true_2.
  - intros d s [[= <- <-]|[= <- <-]]; by destruct h.
  - destruct (pop_after_push fzero this fn ty r T HI) as (T1 & hp & T2 & Hp & _ & Hpop & Hc & _).
    pose proof (push_handle _ _ _ _ _ _ _ Hp) as ->.
    exists T1, (Handle_push this), T2. split_and!; try done.
    intros d s [[= <- <-]|[= <- <-]]; by split_and!.
Qed.

End Handles.

Lemma handle_disposes_once_witness :
  (h_type (Handle_base 7 0) = HandleType.NONE →
   Handle_dtor (Handle_base 7 0) ex_tape_pushed = Ok ex_tape_pushed) ∧
  (h_type (Handle_base 7 0) = HandleType.BASE → is_Some (h_tape (Handle_base 7 0)) →
   Handle_dtor (Handle_base 7 0) ex_tape_pushed =
     Ok (set_cursor (h_prev (Handle_base 7 0)) ex_tape_pushed)) ∧
  (h_type (Handle_base 7 0) = HandleType.PUSH → is_Some (h_tape (Handle_base 7 0)) →
   Handle_dtor (Handle_base 7 0) ex_tape_pushed = pop ex_tape_pushed) ∧
  (∀ d s, moved (Handle_push 7) (Handle_base 7 0) d s →
     h_tape d = h_tape (Handle_base 7 0) ∧ h_type d = h_type (Handle_base 7 0) ∧
     h_prev d = h_prev (Handle_base 7 0) ∧
     h_type s = HandleType.NONE ∧
     Handle_dtor d ex_tape_pushed = Handle_dtor (Handle_base 7 0) ex_tape_pushed ∧
     ∀ T', Handle_dtor (F:=nat) (O:=unit) s T' = Ok T') ∧
  ∃ T1 hp T2,
    push 0 7 keep_always SPECIALIZED ex_region ex_tape_pushed = Ok (T1, hp) ∧
    h_type hp = HandleType.PUSH ∧
    pop T1 = Ok T2 ∧ tape T2 = tape ex_tape_pushed ∧
    ∀ d s, moved (Handle_push 7) hp d s →
      h_type d = HandleType.PUSH ∧ h_type s = HandleType.NONE ∧
      Handle_dtor d T1 = Ok T2 ∧ Handle_dtor s T2 = Ok T2 ∧
      Handle_dtor s T1 = Ok T1.
Proof.
  apply (handle_disposes_once 0 ex_order ex_tape_pushed 7 keep_always SPECIALIZED ex_region
           (Handle_base 7 0) (Handle_push 7)).
  exists ex_flat, ex_tape, 7, ex_cmds. split_and!.
  - apply (bool_decide_unpack _). vm_compute. exact I.
  - vm_compute. reflexivity.
  - vm_compute. reflexivity.
Defined.

Section CtorEncoding.
Context {F O : Type} (fzero : F).
Context (hash_order : list (nat * (nat * nat)) → list (nat * (nat * nat))).
Implicit Types (nd : @Tree_ F O) (flat pre : list (@Tree_ F O)).

(** The clause id the constructor gives a node identity: 0 for [nullptr],
    and one more than the position of the node in the flattened tree. *)
Definition clause_of flat (p : TreeId) : Id :=
  if decide (p = 0) then 0
  else match list_find (λ nd, t_id nd = p) flat with
       | Some (i, _) => S i
       | None => 0
       end.

(** What the clause [c] records of the node [nd]: the clause ids of the
    operands of an operation; for a constant, a free variable and an oracle
    the position of its value, identity or oracle object in the tables of
    the tape; nothing for a coordinate. *)
Definition encodes (cs : list F) (vs : list TreeId) (os : list O) flat nd (c : Clause)
  : Prop :=
  op c = t_op nd ∧
  if decide (0 < t_rank nd) then
    a c = clause_of flat (t_lhs nd) ∧ b c = clause_of flat (t_rhs nd)
  else if decide (t_op nd = CONSTANT) then cs !! a c = Some (t_value nd) ∧ b c = 0
  else if decide (t_op nd = VAR_FREE) then vs !! a c = Some (t_id nd) ∧ b c = 0
  else if decide (t_op nd = ORACLE) then
    (∃ o, t_oracle nd = Some o ∧ os !! a c = Some o) ∧ b c = 0
  else a c = 0 ∧ b c = 0.

(** The operands of a node are null or among the nodes [pre]. *)
Definition operands_in pre nd : Prop :=
  0 < t_rank nd →
  (t_lhs nd = 0 ∨ t_lhs nd ∈ t_id <$> pre) ∧ (t_rhs nd = 0 ∨ t_rhs nd ∈ t_id <$> pre).

Lemma clause_of_app pre suf p :
  p = 0 ∨ p ∈ t_id <$> pre → clause_of (pre ++ suf) p = clause_of pre p.
Proof.
  intros Hp. unfold clause_of. case_decide; [done|].
  destruct Hp as [?|Hp]; [done|].
  apply list_elem_of_fmap in Hp as (nd & -> & Hnd).
  destruct (list_find_elem_of (λ nd', t_id nd' = t_id nd) pre nd Hnd eq_refl) as [[i x] Hi].
  by rewrite (list_find_app_l _ _ suf _ _ Hi), Hi.
Qed.

Lemma clause_of_new pre nd :
  t_id nd ≠ 0 → t_id nd ∉ t_id <$> pre → clause_of (pre ++ [nd]) (t_id nd) = S (length pre).
Proof.
  intros H0 Hnew. unfold clause_of. case_decide; [done|].
  rewrite list_find_app_r.
  - simpl. rewrite decide_True by done. done.
  - apply list_find_None, Forall_forall. intros x Hx Heq. apply Hnew.
    apply list_elem_of_fmap. by exists x.
Qed.

Lemma operands_in_app pre suf nd : operands_in pre nd → operands_in (pre ++ suf) nd.
Proof.
  intros Hin Hr. destruct (Hin Hr) as [Hl Hr']. rewrite fmap_app.
  split; [destruct Hl as [?|?]|destruct Hr' as [?|?]];
    first [by left|right; apply elem_of_app; by left].
Qed.

Lemma encodes_app cs vs os pre nd c cs' vs' os' suf :
  encodes cs vs os pre nd c → operands_in pre nd →
  encodes (cs ++ cs') (vs ++ vs') (os ++ os') (pre ++ suf) nd c.
Proof.
  unfold encodes. intros [Hop He] Hin. split; [done|].
  repeat case_decide.
  - destruct (Hin ltac:(done)) as [Hl Hr]. by rewrite !clause_of_app.
  - destruct He as [He ?]. split; [|done]. by apply lookup_app_l_Some.
  - destruct He as [He ?]. split; [|done]. by apply lookup_app_l_Some.
  - destruct He as [(o & ? & He) ?]. split; [|done]. exists o. split; [done|].
    by apply lookup_app_l_Some.
  - done.
Qed.

(** The invariant of the constructor's loop after the nodes [pre]: the
    provisional list holds their clauses, last node first, numbered from 1
    in the order of the nodes, and [ids] maps every node to its clause. *)
Definition enc_inv pre (st : @ctor_state F O) : Prop :=
  let '(tape_, ids, cs, vs, os) := st in
  length tape_ = length pre ∧ size ids = S (length pre) ∧
  (∀ p, is_Some (ids !! p) → p = 0 ∨ p ∈ t_id <$> pre) ∧
  (∀ p, p = 0 ∨ p ∈ t_id <$> pre → ids !! p = Some (clause_of pre p)) ∧
  (∀ k nd, pre !! k = Some nd →
     operands_in pre nd ∧
     ∃ c, reverse tape_ !! k = Some c ∧ id c = S k ∧ encodes cs vs os pre nd c).

Lemma enc_inv_init : enc_inv [] (([], {[0 := 0]}, [], [], []) : @ctor_state F O).
Proof.
  unfold enc_inv. split_and!; try done.
  - intros p [v [<- _]%lookup_singleton_Some]. by left.
  - intros p [->|Hp]; [done|]. simpl in Hp. by apply elem_of_nil in Hp.
Qed.

Lemma ctor_step_enc pre st nd st' :
  enc_inv pre st →
  t_id nd ≠ 0 → t_id nd ∉ t_id <$> pre → operands_in pre nd →
  ctor_step st nd = Ok st' → enc_inv (pre ++ [nd]) st'.
Proof.
  destruct st as [[[[tape_ ids] cs] vs] os].
  intros (Hlen & Hsize & Hdom & Hids & Hpre) Hid0 Hfresh Hin Hstep.
  assert (ids !! t_id nd = None) as Hnone.
  { destruct (ids !! t_id nd) eqn:E; [|done].
    destruct (Hdom (t_id nd)); [by eexists|done..]. }
  unfold ctor_step in Hstep. rewrite (emplace_None _ _ _ Hnone) in Hstep.
  (* what does not depend on the clause emitted *)
  assert (∀ c cs1 vs1 os1,
            (∃ cs', cs1 = cs ++ cs') → (∃ vs', vs1 = vs ++ vs') → (∃ os', os1 = os ++ os') →
            id c = size ids → encodes cs1 vs1 os1 (pre ++ [nd]) nd c →
            enc_inv (pre ++ [nd]) (c :: tape_, <[t_id nd := size ids]> ids, cs1, vs1, os1))
    as Hgen.
  { intros c ? ? ? [cs' ->] [vs' ->] [os' ->] Hcid Henc. unfold enc_inv.
    rewrite map_size_insert_None by done. rewrite length_app. simpl.
    split_and!; [lia|lia| | |].
    - intros p. rewrite lookup_insert_is_Some, fmap_app, elem_of_app. simpl.
      intros [<-|[_ Hp]]; [right; right; by left|].
      destruct (Hdom _ Hp); auto.
    - intros p Hp. rewrite fmap_app, elem_of_app in Hp. simpl in Hp.
      destruct (decide (p = t_id nd)) as [->|Hne].
      + rewrite lookup_insert_eq, clause_of_new by done. by rewrite Hsize.
      + rewrite lookup_insert_ne by done. rewrite clause_of_app, Hids; [done|..];
          destruct Hp as [?|[?|?%list_elem_of_singleton]]; auto; done.
    - intros k nd' Hk. apply lookup_app_Some in Hk as [Hk|[Hge Hk]].
      + destruct (Hpre _ _ Hk) as (Hin' & c' & Hc' & Hid' & Henc').
        split; [by apply operands_in_app|].
        exists c'. rewrite reverse_cons. split; [by apply lookup_app_l_Some|].
        split; [done|]. by apply encodes_app.
      + apply list_lookup_singleton_Some in Hk as [Hk <-].
        split; [by apply operands_in_app|].
        exists c. rewrite reverse_cons. split.
        * rewrite lookup_app_r; rewrite length_reverse; [|lia].
          replace (k - length tape_) with 0 by lia. done.
        * split; [lia|done]. }
  assert (∃ cs', cs = cs ++ cs') as Hcs0 by (exists []; by rewrite app_nil_r).
  assert (∃ vs', vs = vs ++ vs') as Hvs0 by (exists []; by rewrite app_nil_r).
  assert (∃ os', os = os ++ os') as Hos0 by (exists []; by rewrite app_nil_r).
  case_decide as Hrank.
  - inv_result. rename x into la, x0 into lb.
    destruct (Hin Hrank) as [Hl Hr].
    assert (∀ p v, p = 0 ∨ p ∈ t_id <$> pre →
              ids_at (<[t_id nd:=size ids]> ids) p = Ok v → v = clause_of (pre ++ [nd]) p)
      as Hlook.
    { intros p v Hp Hat. unfold ids_at in Hat.
      rewrite lookup_insert_ne in Hat.
      - rewrite (Hids _ Hp) in Hat. rewrite clause_of_app by done. by simplify_eq.
      - intros <-. destruct Hp; done. }
    apply Hgen; [done..|]. unfold encodes. simpl. split; [done|].
    rewrite decide_True by done. split; by apply Hlook.
  - case_decide as Hc; [|case_decide as Hv; [|case_decide as Ho]].
    + inv_result. apply Hgen; [by eexists|done..|].
      unfold encodes. simpl. split; [done|].
      rewrite decide_False, decide_True by done. split; [|done].
      by rewrite lookup_app_r, Nat.sub_diag.
    + inv_result. apply Hgen; [done|by eexists|done..|].
      unfold encodes. simpl. split; [done|].
      rewrite decide_False, decide_False, decide_True by done. split; [|done].
      by rewrite lookup_app_r, Nat.sub_diag.
    + destruct (t_oracle nd) as [o|] eqn:Hor; [|done]. inv_result.
      apply Hgen; [done|done|by eexists|done|].
      unfold encodes. simpl. split; [done|].
      rewrite decide_False, decide_False, decide_False, decide_True by done.
      split; [|done]. exists o. split; [done|].
      by rewrite lookup_app_r, Nat.sub_diag.
    + inv_result. apply Hgen; [done..|]. unfold encodes. simpl. split; [done|].
      by rewrite !decide_False by done.
Qed.

Lemma ordered_from_app seen pre suf :
  ordered_from seen (pre ++ suf) ↔
  ordered_from seen pre ∧ ordered_from (reverse (t_id <$> pre) ++ seen) suf.
Proof.
  revert seen. induction pre as [|nd pre IH]; intros seen; simpl; [tauto|].
  rewrite IH, reverse_cons, <- (assoc_L (++)). simpl. tauto.
Qed.

Lemma ctor_fold_enc suf : ∀ pre st st',
  enc_inv pre st → ordered_from (reverse (t_id <$> pre)) suf →
  foldlM ctor_step suf st = Ok st' → enc_inv (pre ++ suf) st'.
Proof.
  induction suf as [|nd suf IH]; intros pre st st' Hinv Hord Hf; simpl in *.
  - inv_result. by rewrite app_nil_r.
  - inv_result. rename x into st1. destruct Hord as [(H0 & Hnew & Hn1 & _) Hord].
    rewrite (assoc_L _ pre [nd] suf : pre ++ nd :: suf = (pre ++ [nd]) ++ suf).
    apply (IH _ st1); [|by rewrite fmap_app, reverse_app|done].
    eapply ctor_step_enc; [done|done| | |done].
    + by rewrite elem_of_reverse in Hnew.
    + intros Hr. destruct (Hn1 Hr) as [Hl Hr']. rewrite !elem_of_reverse in Hl, Hr'. done.
Qed.

End CtorEncoding.

Lemma foldlM_app_eq {A B} (f : B → A → result B) l1 l2 s :
  foldlM f (l1 ++ l2) s = foldlM f l1 s ≫= foldlM f l2.
Proof.
  revert s. induction l1 as [|x l1 IH]; intros s; simpl; [done|].
  destruct (f s x) as [s1|e]; simpl; [apply IH|done].
Qed.

Lemma ids_of_positions (cl : list Clause) n :
  length cl = n →
  (∀ k, k < n → ∃ c, reverse cl !! k = Some c ∧ id c = S k) →
  id <$> cl = reverse (seq 1 n).
Proof.
  intros Hlen Hk. apply (inj reverse). rewrite reverse_involutive, <- fmap_reverse.
  apply list_eq. intros i. rewrite list_lookup_fmap.
  destruct (decide (i < n)) as [Hi|Hi].
  - destruct (Hk i Hi) as (c & -> & Hc). simpl. rewrite lookup_seq_lt by done.
    by rewrite Hc.
  - rewrite lookup_seq_ge by lia. rewrite lookup_ge_None_2; [done|].
    rewrite length_reverse. lia.
Qed.

Section CtorTheorems.
Context {F O : Type} (fzero : F).
Context (hash_order : list (nat * (nat * nat)) → list (nat * (nat * nat))).
Implicit Types (nd : @Tree_ F O) (flat pre : list (@Tree_ F O)).

(** What the constructor leaves when it returns, on a tree in order. *)
Lemma Tape_ctor_enc flat T :
  ordered_ok flat → Tape_ctor fzero hash_order flat = Ok T →
  ∃ s0, tapes T = [s0] ∧ tape T = 0 ∧ type s0 = BASE ∧ dummy s0 = 0 ∧
    num_clauses T = S (length flat) ∧ length (t s0) = length flat ∧
    length (m s0) = num_clauses T ∧
    length (disabled T) = num_clauses T ∧ length (remap T) = num_clauses T ∧
    ∀ k nd, flat !! k = Some nd →
      ∃ c, reverse (t s0) !! k = Some c ∧ id c = S k ∧
           encodes (constants T) (vars T) (oracles T) flat nd c.
Proof.
  intros [Hne Hord] Hctor.
  destruct (Tape_ctor_spec _ _ _ _ Hctor)
    as (tape_ & ids & cs & vs & os & asg & mv & Hfold & Hslots & Hstore & ->).
  pose proof (ctor_fold_enc flat [] _ _ enc_inv_init Hord Hfold) as Hinv. simpl in Hinv.
  destruct Hinv as (Hlen & Hsize & _ & _ & Hpre).
  destruct (store_slots _ _ _ (NoDup_fst_map_to_list _) Hstore) as (Hmv & _).
  rewrite length_replicate in Hmv.
  eexists. split; [done|]. simpl. rewrite !length_replicate.
  split_and!; try done.
  intros k nd Hk. destruct (Hpre k nd Hk) as (_ & c & ? & ? & ?). by exists c.
Qed.

(** X1: from a flattened tree of n nodes in the order of
    [Tree::ordered()] the constructor builds a tape of one subtape, the
    base, under the cursor; the base holds one clause per node, the root
    first, with the ids n, n-1, ..., 1 and the opcodes of the nodes;
    [num_clauses] is n + 1 (id 0 is the sentinel), and the slot vector [m]
    and the scratch arrays [disabled] and [remap] have that many entries. *)
Theorem Tape_ctor_shape flat :
  (∀ l, hash_order l ≡ₚ l) → ordered_ok flat →
  ∃ T s0,
    Tape_ctor fzero hash_order flat = Ok T ∧
    tapes T = [s0] ∧ tape T = 0 ∧ type s0 = BASE ∧ dummy s0 = 0 ∧
    num_clauses T = S (length flat) ∧
    id <$> t s0 = reverse (seq 1 (length flat)) ∧
    op <$> t s0 = reverse (t_op <$> flat) ∧
    length (m s0) = S (length flat) ∧
    length (disabled T) = S (length flat) ∧ length (remap T) = S (length flat).
Proof.
  intros Hperm Hord.
  destruct (Tape_ctor_total fzero hash_order Hperm flat Hord) as [T Hctor].
  destruct (Tape_ctor_enc flat T Hord Hctor)
    as (s0 & Hts & Hc & Hty & Hd & Hn & Hlen & Hm & HD & HR & Henc).
  exists T, s0. split_and!; try done; try congruence.
  - apply ids_of_positions; [done|]. intros k Hk.
    destruct (lookup_lt_is_Some_2 flat k Hk) as [nd Hnd].
    destruct (Henc k nd Hnd) as (c & ? & ? & _). by exists c.
  - apply (inj reverse). rewrite reverse_involutive, <- fmap_reverse.
    apply list_eq. intros i. rewrite !list_lookup_fmap.
    destruct (flat !! i) as [nd|] eqn:Hi; simpl.
    + destruct (Henc i nd Hi) as (c & -> & _ & Hop & _). simpl. by rewrite Hop.
    + rewrite lookup_ge_None_2; [done|]. rewrite length_reverse, Hlen.
      by apply lookup_ge_None_1.
Qed.

(** X2: the clause of the node at position k has the id
    k + 1 and stands at position n - 1 - k of the base; the operands of an
    operation are the clause ids of its operand nodes (0 for [nullptr]); the
    first operand of a constant, of a free variable and of an oracle is the
    position at which [constants], [vars] and [oracles] hold the value, the
    identity and the oracle object of the node; a coordinate has the
    operands 0. *)
Theorem Tape_ctor_encodes flat :
  (∀ l, hash_order l ≡ₚ l) → ordered_ok flat →
  ∃ T s0,
    Tape_ctor fzero hash_order flat = Ok T ∧ current T = Ok s0 ∧
    ∀ k nd, flat !! k = Some nd →
      ∃ c, t s0 !! (length flat - S k) = Some c ∧ id c = S k ∧
           encodes (constants T) (vars T) (oracles T) flat nd c.
Proof.
  intros Hperm Hord.
  destruct (Tape_ctor_total fzero hash_order Hperm flat Hord) as [T Hctor].
  destruct (Tape_ctor_enc flat T Hord Hctor)
    as (s0 & Hts & Hc & Hty & Hd & Hn & Hlen & Hm & HD & HR & Henc).
  exists T, s0. split; [done|]. split.
  { unfold current. by rewrite Hts, Hc. }
  intros k nd Hk. destruct (Henc k nd Hk) as (c & Hrev & Hid & He).
  exists c. split; [|done].
  rewrite reverse_lookup in Hrev; [by rewrite <- Hlen|].
  rewrite Hlen. by eapply lookup_lt_Some.
Qed.

(** A node identity that no node up to [nd] carries. *)
Definition dangling pre nd (p : TreeId) : Prop :=
  p ≠ 0 ∧ p ≠ t_id nd ∧ p ∉ t_id <$> pre.

(** X3: after nodes in order, the constructor throws
    [std::out_of_range] at an operation one of whose operands is neither
    null nor the node itself nor an earlier node, and fails its assertion at
    a node of rank 0 that is an oracle without its oracle object or that is
    no constant, variable or oracle; the nodes that follow are not looked
    at. *)
Theorem Tape_ctor_rejects pre nd suf :
  ordered_from [] pre →
  (0 < t_rank nd → dangling pre nd (t_lhs nd) ∨ dangling pre nd (t_rhs nd) →
   Tape_ctor fzero hash_order (pre ++ nd :: suf) = Err OutOfRange) ∧
  (t_rank nd = 0 → t_op nd = ORACLE → t_oracle nd = None →
   Tape_ctor fzero hash_order (pre ++ nd :: suf) = Err AssertFailed) ∧
  (t_rank nd = 0 → t_op nd ∉ [CONSTANT; VAR_FREE; ORACLE; VAR_X; VAR_Y; VAR_Z] →
   Tape_ctor fzero hash_order (pre ++ nd :: suf) = Err AssertFailed).
Proof.
  intros Hord.
  destruct (ctor_fold_inv pre [] _ ctor_inv_init Hord) as (seen & st & Hfold & _ & _).
  pose proof (ctor_fold_enc pre [] _ _ enc_inv_init Hord Hfold) as Hinv. simpl in Hinv.
  destruct st as [[[[tape_ ids] cs] vs] os].
  destruct Hinv as (_ & _ & Hdom & _ & _).
  assert (∀ e, ctor_step (tape_, ids, cs, vs, os) nd = Err e →
               Tape_ctor fzero hash_order (pre ++ nd :: suf) = Err e) as Herr.
  { intros e He. unfold Tape_ctor. rewrite foldlM_app_eq, Hfold.
    cbn [mbind result_bind]. by rewrite foldlM_cons, He. }
  split_and!.
  - intros Hrank Hdang. apply Herr. unfold ctor_step. rewrite decide_True by done.
    assert (∀ p, dangling pre nd p →
                 ids_at (emplace (t_id nd) (size ids) ids) p = Err OutOfRange) as Hat.
    { intros p (Hp0 & Hpn & Hpre). unfold ids_at, emplace.
      assert (ids !! p = None) as Hnone.
      { destruct (ids !! p) eqn:E; [|done]. destruct (Hdom p); [by eexists|done..]. }
      destruct (ids !! t_id nd); [by rewrite Hnone|].
      by rewrite lookup_insert_ne, Hnone. }
    destruct (ids_at _ (t_lhs nd)) as [la|e] eqn:Hl; simpl.
    + destruct Hdang as [Hd|Hd]; [by rewrite (Hat _ Hd) in Hl|]. by rewrite (Hat _ Hd).
    + destruct Hdang as [Hd|Hd]; [rewrite (Hat _ Hd) in Hl; by simplify_eq|].
      unfold ids_at in Hl. by destruct (_ !! t_lhs nd); simplify_eq.
  - intros Hrank Hop Hor. apply Herr. unfold ctor_step.
    rewrite decide_False by lia. rewrite Hop, Hor. done.
  - intros Hrank Hop. apply Herr. unfold ctor_step.
    rewrite decide_False by lia.
    rewrite !decide_False by (intros Heq; apply Hop; rewrite Heq; set_solver).
    replace (assert_ _) with (@Err unit AssertFailed); [done|].
    unfold assert_. rewrite !bool_decide_eq_false_2; [done|..];
      intros Heq; apply Hop; rewrite Heq; set_solver.
Qed.

End CtorTheorems.

(** The tree [(x + 2) * v] with an oracle beside it: a coordinate, a
    constant, a free variable, an oracle and three operations. *)
Definition ex_flat_tables : list (@Tree_ nat unit) :=
  [ mkTree 10 VAR_X 0 0 None 0 0;
    mkTree 11 CONSTANT 0 2 None 0 0;
    mkTree 12 VAR_FREE 0 0 None 0 0;
    mkTree 13 ORACLE 0 0 (Some ()) 0 0;
    mkTree 14 ADD 1 0 None 10 11;
    mkTree 15 MUL 2 0 None 14 12;
    mkTree 16 MIN 3 0 None 15 13 ].

Lemma Tape_ctor_shape_witness :
  ∃ T s0,
    Tape_ctor 0 ex_order ex_flat_tables = Ok T ∧
    tapes T = [s0] ∧ tape T = 0 ∧ type s0 = BASE ∧ dummy s0 = 0 ∧
    num_clauses T = S (length ex_flat_tables) ∧
    id <$> t s0 = reverse (seq 1 (length ex_flat_tables)) ∧
    op <$> t s0 = reverse (t_op <$> ex_flat_tables) ∧
    length (m s0) = S (length ex_flat_tables) ∧
    length (disabled T) = S (length ex_flat_tables) ∧
    length (remap T) = S (length ex_flat_tables).
Proof.
  apply (Tape_ctor_shape 0 ex_order ex_flat_tables).
  - intros l. reflexivity.
  - apply (bool_decide_unpack _). vm_compute. exact I.
Defined.

Lemma Tape_ctor_encodes_witness :
  ∃ T s0,
    Tape_ctor 0 ex_order ex_flat_tables = Ok T ∧ current T = Ok s0 ∧
    ∀ k nd, ex_flat_tables !! k = Some nd →
      ∃ c, t s0 !! (length ex_flat_tables - S k) = Some c ∧ id c = S k ∧
           encodes (constants T) (vars T) (oracles T) ex_flat_tables nd c.
Proof.
  apply (Tape_ctor_encodes 0 ex_order ex_flat_tables).
  - intros l. reflexivity.
  - apply (bool_decide_unpack _). vm_compute. exact I.
Defined.

Lemma Tape_ctor_rejects_witness :
  Tape_ctor 0 ex_order ([mkTree 10 VAR_X 0 0 None 0 0] ++
                        mkTree 11 NEG 1 0 (None : option unit) 99 0 :: []) = Err OutOfRange.
Proof.
  apply (proj1 (Tape_ctor_rejects 0 ex_order [mkTree 10 VAR_X 0 0 None 0 0]
                  (mkTree 11 NEG 1 0 None 99 0) [] ltac:(apply (bool_decide_unpack _); vm_compute; exact I))).
  - simpl. lia.
  - left. unfold dangling. simpl. split; [lia|]. split; [lia|].
    apply (bool_decide_unpack _). vm_compute. exact I.
Defined.

(** The clause picks one of its operands, which then stands for it. *)
Definition chooses (fn : Opcode → nat → nat → nat → Keep) (c : Clause) : Prop :=
  keep_of fn c = KEEP_A ∧ a c ≠ 0 ∨ keep_of fn c = KEEP_B ∧ b c ≠ 0.

#[global] Instance chooses_dec fn c : Decision (chooses fn c).
Proof. unfold chooses. apply _. Defined.

Section WalkMore.
Context (fn : Opcode → nat → nat → nat → Keep) (n : nat).
Implicit Types (cl pre suf : list Clause) (c : Clause) (D : list bool) (R : list nat).

Lemma walk_inv_fresh pre c suf D R hc :
  sub_ok n (pre ++ c :: suf) → walk_inv fn n pre (D, R, hc) →
  clause_ok n c ∧ R !! id c = Some 0 ∧ ∀ c', c' ∈ pre → id c < id c'.
Proof.
  intros [Hok Hsorted] (HD & HR & I1 & _); simpl in *.
  assert (clause_ok n c) as Hc.
  { rewrite Forall_forall in Hok. apply Hok. set_solver. }
  assert (∀ c', c' ∈ pre → id c < id c') as Hgt.
  { intros c' Hc'. eapply (StronglySorted_app_1_elem_of id_gt) in Hsorted;
      [exact Hsorted|done|set_solver]. }
  split; [done|]. split; [|done].
  destruct (lookup_lt_is_Some_2 R (id c)) as [r Hr]; [destruct Hc; lia|].
  destruct (decide (r = 0)) as [->|Hne]; [done|].
  destruct (I1 _ _ Hr Hne) as (c' & Hc' & Heq & _).
  apply Hgt in Hc'. lia.
Qed.

Lemma step_spec_frame c D R hc D' R' hc' x :
  step_spec fn c D R hc D' R' hc' → clause_ok n c → id c < x → D' !! x = D !! x.
Proof.
  intros Hs (Hid & Ha & Hb) Hx.
  destruct Hs as [?|r ? ? Hr|D' ? ? HD' ?]; [done| |].
  - assert (r < id c) by (destruct Hr as [[_ ->]|[_ ->]]; done).
    by rewrite !list_lookup_insert_ne by lia.
  - destruct (HD' x) as [?|[_ ?]]; [done|lia].
Qed.

Lemma step_spec_chooses c D R hc D' R' hc' :
  step_spec fn c D R hc D' R' hc' → length D = n → clause_ok n c →
  push_step fn (D, R, hc) c = Ok (D', R', hc') → R !! id c = Some 0 → length R = n →
  chooses fn c → D' !! id c = Some true.
Proof.
  intros Hs HD (Hid & Ha & Hb) Hstep HR0 HR Hch.
  destruct Hs as [?|r ? ? Hr|D1 Hact HlenD HD' Hops]; [done| |].
  - apply list_lookup_insert_eq. rewrite length_insert. lia.
  - exfalso. unfold push_step in Hstep. rewrite (at_lookup _ _ _ Hact) in Hstep.
    simpl in Hstep. fold (keep_of fn c) in Hstep.
    destruct Hch as [[Hk Hne]|[Hk Hne]]; rewrite Hk in Hstep; simpl in Hstep.
    + rewrite !vset_lt in Hstep by lia. simpl in Hstep.
      rewrite (at_lookup _ _ (a c)) in Hstep by (apply list_lookup_insert_eq; lia).
      simpl in Hstep. rewrite decide_True in Hstep by done.
      rewrite vset_lt in Hstep by (rewrite length_insert; lia). simpl in Hstep.
      injection Hstep as _ HR1 _. apply (f_equal (λ l : list nat, l !! id c)) in HR1.
      rewrite list_lookup_insert_eq in HR1 by lia. rewrite HR0 in HR1. by simplify_eq.
    + rewrite !vset_lt in Hstep by lia. simpl in Hstep.
      rewrite (at_lookup _ _ (b c)) in Hstep by (apply list_lookup_insert_eq; lia).
      simpl in Hstep. rewrite decide_True in Hstep by done.
      rewrite vset_lt in Hstep by (rewrite length_insert; lia). simpl in Hstep.
      injection Hstep as _ HR1 _. apply (f_equal (λ l : list nat, l !! id c)) in HR1.
      rewrite list_lookup_insert_eq in HR1 by lia. rewrite HR0 in HR1. by simplify_eq.
Qed.

(** What the classifier walk keeps besides [walk_inv]: an id once reached
    stays reached, and no clause that picked an operand stays enabled. *)
Definition walk_more (x : nat) pre (st : walk_state) : Prop :=
  reached st.1.1 st.1.2 x ∧
  ∀ c, c ∈ pre → chooses fn c → st.1.1 !! id c = Some true.

Lemma walk_more_step x pre c suf st st' :
  sub_ok n (pre ++ c :: suf) → walk_inv fn n pre st → walk_more x pre st →
  push_step fn st c = Ok st' → walk_more x (pre ++ [c]) st'.
Proof.
  intros Hok Hinv [Hreach Hgone] Hstep. destruct st as [[D R] hc].
  destruct (walk_inv_fresh _ _ _ _ _ _ Hok Hinv) as (Hc & HR0 & Hgt).
  pose proof Hinv as (HD & HR & _). simpl in HD, HR, Hreach, Hgone.
  destruct (push_step_spec fn n c D R hc HD HR Hc HR0) as (D' & R' & hc' & Hstep' & Hs).
  rewrite Hstep in Hstep'. destruct st' as [[D1 R1] hc1].
  injection Hstep' as -> -> ->. split; simpl.
  - by apply (step_spec_reached fn n c D R hc D' R' hc' x Hs HD HR Hc HR0).
  - intros c' [Hc'| ->%list_elem_of_singleton]%elem_of_app Hch.
    + rewrite (step_spec_frame _ _ _ _ _ _ _ _ Hs Hc (Hgt _ Hc')). by apply Hgone.
    + by apply (step_spec_chooses c D R hc D' R' hc' Hs HD Hc Hstep HR0 HR).
Qed.

Lemma walk_more_fold x suf : ∀ pre st st',
  sub_ok n (pre ++ suf) → walk_inv fn n pre st → walk_more x pre st →
  foldlM (push_step fn) suf st = Ok st' → walk_more x (pre ++ suf) st'.
Proof.
  induction suf as [|c suf IH]; intros pre st st' Hok Hinv Hmore Hf; simpl in Hf.
  - inv_result. by rewrite app_nil_r.
  - inv_result. rename x0 into st1.
    destruct (walk_inv_step fn n pre c suf st Hok Hinv) as (st1' & Hs1 & Hinv1).
    match goal with H : push_step _ _ _ = Ok st1 |- _ =>
      rewrite H in Hs1; simplify_eq;
      pose proof (walk_more_step x pre c suf st st1' Hok Hinv Hmore H) as Hmore1 end.
    rewrite (assoc_L _ pre [c] suf : pre ++ c :: suf = (pre ++ [c]) ++ suf) in Hok |- *.
    by eapply IH.
Qed.

Lemma classify_more {F O} (T : @Tape F O) c cl st :
  length (disabled T) = n → length (remap T) = n → sub_ok n (c :: cl) →
  classify fn T (c :: cl) = Ok st → walk_more (id c) (c :: cl) st.
Proof.
  intros HD HR Hok Hcl. unfold classify in Hcl. cbn [mbind result_bind] in Hcl.
  assert (clause_ok n c) as (Hid & _).
  { destruct Hok as [Hok _]. by apply Forall_cons in Hok as [? _]. }
  rewrite vset_lt in Hcl by (rewrite length_replicate; lia). cbn [mbind result_bind] in Hcl.
  refine (walk_more_fold (id c) (c :: cl) [] _ st Hok _ _ Hcl).
  - unfold walk_inv; simpl. rewrite length_insert, !length_replicate.
    split_and!; try done.
    + intros k r [-> _]%lookup_replicate. done.
    + intros ? ?%elem_of_nil. done.
  - split; simpl.
    + left. apply list_lookup_insert_eq. rewrite length_replicate. lia.
    + intros ? ?%elem_of_nil. done.
Qed.

End WalkMore.

Lemma emitted_ids_sublist D R cl cl' :
  emitted D R cl cl' → (id <$> cl') `sublist_of` (id <$> cl).
Proof.
  induction 1 as [|c cl cl' ? ? IH|c c1 cl cl' ? (_ & Hid & _) ? IH]; simpl.
  - constructor.
  - by apply sublist_cons.
  - rewrite Hid. by apply sublist_skip.
Qed.

Lemma follow_zero R x : R !! x = Some 0 → follow R (S (length R)) x = Ok x.
Proof. intros Hx. rewrite follow_S, (at_lookup _ _ _ Hx). done. Qed.

Lemma emitted_unchanged n D R cl cl' :
  length R = n → Forall (clause_ok n) cl → (∀ k, k < n → R !! k = Some 0) →
  emitted D R cl cl' → cl' `sublist_of` cl.
Proof.
  intros HR Hok Hz Hem. induction Hem as [|c cl cl' ? ? IH|c c1 cl cl' ? Hrw ? IH].
  - constructor.
  - apply sublist_cons, IH. by apply Forall_cons in Hok as [_ ?].
  - apply Forall_cons in Hok as [(Hid & Ha & Hb) Hok].
    assert (c1 = c) as ->.
    { destruct Hrw as (Hop & Hid' & Hrw). destruct c, c1; simpl in *. subst.
      case_decide; [by destruct Hrw as [-> ->]|].
      destruct Hrw as [H1 H2].
      rewrite follow_zero in H1 by (apply Hz; lia).
      rewrite follow_zero in H2 by (apply Hz; lia). by simplify_eq. }
    by apply sublist_skip, IH.
Qed.

Section PushMore.
Context {F O : Type} (fzero : F).
Context (hash_order : list (nat * (nat * nat)) → list (nat * (nat * nat))).
Implicit Types (T : @Tape F O) (s cur : @Subtape F).

(** A push that builds a subtape, with what the classifier walk and the
    second loop establish. *)
Lemma push_fresh_more (this : nat) fn ty (r : @Region3 F) T cur :
  Inv T → current T = Ok cur → dummy cur = 0 →
  ∃ D R hc new c0,
    head (t cur) = Some c0 ∧
    walk_inv fn (num_clauses T) (t cur) (D, R, hc) ∧
    walk_more fn (id c0) (t cur) (D, R, hc) ∧
    emitted D R (t cur) (t new) ∧
    dummy new = (if hc then 0 else 1) ∧ type new = ty ∧
    X new = mkInterval (vx (lower r)) (vx (upper r)) ∧
    Y new = mkInterval (vy (lower r)) (vy (upper r)) ∧
    Z new = mkInterval (vz (lower r)) (vz (upper r)) ∧
    push fzero this fn ty r T =
      Ok (set_scratch D R (set_cursor (S (tape T)) (set_tapes (pushed_tapes fzero T new) T)),
          Handle_push this).
Proof.
  intros HI Hcur Hd. pose proof HI as (Hc & HD & HR & _ & Hall).
  pose proof Hcur as Hcur'. apply at_Ok in Hcur'.
  destruct (Forall_lookup_1 _ _ _ _ Hall Hcur') as [Hok Hne].
  destruct (classify_ok fn _ T (t cur) HD HR (Hne Hd) Hok) as ([[D R] hc] & Hcl & Hinv).
  destruct (t cur) as [|c0 cl] eqn:Ht; [by destruct (Hne Hd)|].
  pose proof (classify_more fn _ T c0 cl _ HD HR Hok Hcl) as Hmore.
  pose proof (walk_inv_decreasing _ _ _ _ (proj1 Hok) Hinv) as Hdec.
  pose proof Hinv as (HD' & HR' & _). simpl in *.
  destruct (emit_total _ D R (c0 :: cl) HD' HR' Hdec (proj1 Hok)) as [cl' Hemit].
  pose proof (emit_emitted _ _ _ _ Hemit) as Hem.
  pose proof (emitted_length _ _ _ _ Hem) as Hlen.
  unfold push. rewrite Hcur. cbn [mbind result_bind]. rewrite decide_False by lia.
  rewrite Ht, Hcl. cbn [mbind result_bind].
  set (ts := if decide (S (tape T) = length (tapes T)) then _ else _).
  assert (is_Some (ts !! S (tape T))) as [new0 Hnew0].
  { apply lookup_lt_is_Some_2. unfold ts. case_decide.
    - rewrite length_app. simpl. lia.
    - rewrite length_alter. lia. }
  rewrite (at_lookup _ _ _ Hnew0). cbn [mbind result_bind].
  rewrite bool_decide_eq_true_2 by done. cbn [mbind result_bind assert_].
  rewrite Hemit. cbn [mbind result_bind]. rewrite bool_decide_eq_true_2 by done.
  cbn [mbind result_bind assert_].
  exists D, R, hc,
    {| t := cl'; X := mkInterval (vx (lower r)) (vx (upper r));
       Y := mkInterval (vy (lower r)) (vy (upper r));
       Z := mkInterval (vz (lower r)) (vz (upper r));
       type := ty; m := m new0; dummy := if hc then 0 else 1 |}, c0.
  split; [done|]. split; [done|]. split; [done|].
  split; [exact Hem|]. split_and!; done.
Qed.

End PushMore.

Section PushTheorems.
Context {F O : Type} (fzero : F).
Context (hash_order : list (nat * (nat * nat)) → list (nat * (nat * nat))).
Implicit Types (T : @Tape F O) (s cur : @Subtape F).

(** X9: a push on a tape that is not a dummy moves the cursor
    one up, to a subtape of the type given, and leaves the subtapes up to
    the old cursor as they were.  The new clause sequence is a selection
    from the old one: its ids are a subsequence of the old ids, every clause
    keeps its opcode, and no clause that picked one of its operands
    ([KEEP_A] or [KEEP_B] with an operand other than 0) is in it.  When no
    clause picked an operand, the clauses are copied unchanged. *)
Theorem push_selects T cur (this : nat) fn ty (r : @Region3 F) :
  reachable fzero hash_order T → current T = Ok cur → dummy cur = 0 →
  ∃ T' new,
    push fzero this fn ty r T = Ok (T', Handle_push this) ∧
    tape T' = S (tape T) ∧ current T' = Ok new ∧ type new = ty ∧
    (∀ i, i ≤ tape T → tapes T' !! i = tapes T !! i) ∧
    (id <$> t new) `sublist_of` (id <$> t cur) ∧
    (∀ c', c' ∈ t new →
       ∃ c, c ∈ t cur ∧ id c' = id c ∧ op c' = op c ∧ ¬ chooses fn c) ∧
    ((∀ c, c ∈ t cur → ¬ chooses fn c) → t new `sublist_of` t cur).
Proof.
  intros HI%reachable_Inv Hcur Hd.
  destruct (push_fresh_more fzero this fn ty r T cur HI Hcur Hd)
    as (D & R & hc & new & c0 & Hhd & Hinv & [_ Hgone] & Hem & Hdn & Hty & _ & _ & _ & Hp).
  pose proof HI as (Hc & _ & _ & _ & Hall).
  pose proof Hcur as Hlk. apply at_Ok in Hlk.
  destruct (Forall_lookup_1 _ _ _ _ Hall Hlk) as [[Hok Hsorted] _].
  eexists _, new. split; [exact Hp|]. simpl. split; [done|]. split.
  { unfold current. simpl. apply at_lookup. by apply pushed_tapes_new. }
  split; [done|]. split.
  { intros i Hi. apply pushed_tapes_old; lia. }
  split; [by apply (emitted_ids_sublist D R)|]. split.
  - intros c' Hc'.
    destruct (emitted_elem _ _ _ _ _ Hem Hc') as (c & Hcin & Hdc & Hop & Hid & _).
    exists c. split; [done|]. split; [done|]. split; [done|].
    intros Hch. simpl in Hgone. rewrite (Hgone c Hcin Hch) in Hdc. done.
  - intros Hno. pose proof Hinv as (_ & HR & I1 & _). simpl in HR, I1.
    apply (emitted_unchanged (num_clauses T) D R); [done|done| |done].
    intros k Hk. destruct (lookup_lt_is_Some_2 R k) as [rk Hrk]; [lia|].
    destruct (decide (rk = 0)) as [->|Hne]; [done|].
    destruct (I1 _ _ Hrk Hne) as (c & Hcin & _ & Hkeep & _).
    destruct (Hno c Hcin). unfold chooses.
    destruct Hkeep as [[? ->]|[? ->]]; [left|right]; done.
Qed.

(** The clause sequences get no longer from the base up to the cursor. *)
Definition InvL T : Prop :=
  ∀ i s s', i < tape T → tapes T !! i = Some s → tapes T !! S i = Some s' →
            length (t s') ≤ length (t s).

Lemma InvL_same_t T T' :
  tape T' ≤ tape T → t <$> tapes T' = t <$> tapes T → InvL T → InvL T'.
Proof.
  intros Hc Ht HL i s s' Hi Hs Hs'.
  assert (∀ j x, tapes T' !! j = Some x → ∃ y, tapes T !! j = Some y ∧ t y = t x) as Hsame.
  { intros j x Hx. apply (f_equal (λ l, l !! j)) in Ht.
    rewrite !list_lookup_fmap, Hx in Ht. simpl in Ht.
    destruct (tapes T !! j) as [y|]; [|done]. exists y. split; [done|]. by simplify_eq/=. }
  destruct (Hsame _ _ Hs) as (y & Hy & <-). destruct (Hsame _ _ Hs') as (y' & Hy' & <-).
  apply (HL i); [lia|done..].
Qed.

Lemma insert_set_dummy_t T cur d :
  tapes T !! tape T = Some cur →
  t <$> <[tape T := set_dummy d cur]> (tapes T) = t <$> tapes T.
Proof.
  intros Hcur. rewrite list_fmap_insert. simpl. apply list_insert_id.
  by rewrite list_lookup_fmap, Hcur.
Qed.

Lemma run_cmd_InvL this T c T' :
  Inv T → InvL T → run_cmd fzero this T c = Ok T' → InvL T'.
Proof.
  intros HI HL Hrun.
  destruct (Inv_current T HI) as (cur & Hcur & Hlk). pose proof HI as (Hc & _).
  destruct c as [fn ty r|]; simpl in Hrun.
  - destruct (decide (dummy cur = 0)) as [Hd|Hd].
    + destruct (push_fresh fzero this fn ty r T cur HI Hcur Hd)
        as (D & R & hc & new & _ & Hw & Hem & Hdn & _ & Hp).
      rewrite Hp in Hrun. simpl in Hrun. simplify_eq.
      intros i s s' Hi Hs Hs'. simpl in *.
      destruct (decide (i = tape T)) as [->|Hne].
      * rewrite pushed_tapes_old in Hs by lia. rewrite pushed_tapes_new in Hs' by done.
        simplify_eq. by eapply emitted_length, emit_emitted.
      * rewrite pushed_tapes_old in Hs by lia. rewrite pushed_tapes_old in Hs' by lia.
        apply (HL i); [lia|done..].
    + rewrite (push_dummy fzero this fn ty r T cur Hcur Hd) in Hrun.
      simpl in Hrun. simplify_eq. eapply (InvL_same_t T); [done| |done]. simpl.
      by apply insert_set_dummy_t.
  - unfold pop in Hrun. rewrite Hcur in Hrun. inv_result.
    case_decide; inv_result.
    + eapply (InvL_same_t T); [done| |done]. simpl. by apply insert_set_dummy_t.
    + eapply (InvL_same_t T); [simpl; lia|done|done].
Qed.

Lemma reachable_InvL T : reachable fzero hash_order T → InvL T.
Proof.
  intros (flat & T0 & this & cmds & Hord & Hctor & Hrun).
  destruct (Tape_ctor_Inv fzero hash_order flat T0 Hord Hctor) as (HI0 & Hc0 & _).
  assert (InvL T0) as HL0 by (intros i s s' Hi; lia).
  clear Hctor Hc0. revert T0 HI0 HL0 Hrun.
  induction cmds as [|c cmds IH]; intros T0 HI0 HL0 Hrun; unfold run in *; simpl in Hrun.
  - by inv_result.
  - inv_result. eapply IH; [| |done]; eauto using run_cmd_Inv, run_cmd_InvL.
Qed.

Lemma InvL_chain T : InvL T → ∀ i s s0,
  i ≤ tape T → tapes T !! i = Some s → tapes T !! 0 = Some s0 →
  length (t s) ≤ length (t s0).
Proof.
  intros HL. induction i as [|i IH]; intros s s0 Hi Hs Hs0.
  - by simplify_eq.
  - destruct (lookup_lt_is_Some_2 (tapes T) i) as [s1 Hs1].
    { apply lookup_lt_Some in Hs. lia. }
    etrans; [by apply (HL i s1 s); [lia|..]|]. apply IH; [lia|done..].
Qed.

Context (F_of_size : nat → F) (fdiv : F → F → F).

(** X6: on every tape built by the constructor and driven by
    pushes and pops, [utilization] returns the quotient of two sizes, that
    of the subtape under the cursor and that of the base, of which the
    first is at most the second and the second is not 0. *)
Theorem utilization_at_most_one T :
  reachable fzero hash_order T →
  ∃ cur base,
    current T = Ok cur ∧ tapes T !! 0 = Some base ∧
    utilization F_of_size fdiv T
      = Ok (fdiv (F_of_size (length (t cur))) (F_of_size (length (t base)))) ∧
    length (t cur) ≤ length (t base) ∧ 0 < length (t base).
Proof.
  intros Hreach. pose proof (reachable_Inv _ _ _ Hreach) as HI.
  pose proof (reachable_InvL _ Hreach) as HL.
  destruct (Inv_current T HI) as (cur & Hcur & Hlk).
  pose proof HI as (_ & _ & _ & (s0 & Hs0 & Hd0) & Hall).
  exists cur, s0. split; [done|]. split; [done|]. split.
  { unfold utilization. rewrite Hcur. simpl. by rewrite (at_lookup _ _ _ Hs0). }
  split; [by apply (InvL_chain T HL (tape T))|].
  destruct (Forall_lookup_1 _ _ _ _ Hall Hs0) as [_ Hne].
  destruct (t s0); [by destruct (Hne Hd0)|simpl; lia].
Qed.

End PushTheorems.

Lemma push_selects_witness :
  ∃ T' new,
    push 0 7 keep_b INTERVAL ex_region ex_tape = Ok (T', Handle_push 7) ∧
    tape T' = S (tape ex_tape) ∧ current T' = Ok new ∧ type new = INTERVAL ∧
    (∀ i, i ≤ tape ex_tape → tapes T' !! i = tapes ex_tape !! i) ∧
    (id <$> t new) `sublist_of` (id <$> t ex_base) ∧
    (∀ c', c' ∈ t new →
       ∃ c, c ∈ t ex_base ∧ id c' = id c ∧ op c' = op c ∧ ¬ chooses keep_b c) ∧
    ((∀ c, c ∈ t ex_base → ¬ chooses keep_b c) → t new `sublist_of` t ex_base).
Proof.
  apply (push_selects 0 ex_order ex_tape ex_base 7 keep_b INTERVAL ex_region).
  - exact ex_tape_reachable.
  - vm_compute. reflexivity.
  - reflexivity.
Defined.

Lemma ex_tape_pushed_reachable : reachable 0 ex_order ex_tape_pushed.
Proof.
  exists ex_flat, ex_tape, 7, ex_cmds. split_and!.
  - apply (bool_decide_unpack _). vm_compute. exact I.
  - vm_compute. reflexivity.
  - vm_compute. reflexivity.
Qed.

Lemma utilization_at_most_one_witness :
  ∃ cur base,
    current ex_tape_pushed = Ok cur ∧ tapes ex_tape_pushed !! 0 = Some base ∧
    utilization (λ n, n) Nat.div ex_tape_pushed
      = Ok (Nat.div (length (t cur)) (length (t base))) ∧
    length (t cur) ≤ length (t base) ∧ 0 < length (t base).
Proof.
  apply (utilization_at_most_one 0 ex_order (λ n, n) Nat.div ex_tape_pushed).
  exact ex_tape_pushed_reachable.
Defined.

(** One call of the callback, on the clause [c]. *)
Definition visit {St} (fn : Visitor St) (st : St * bool) (c : Clause) : St * bool :=
  fn (op c) (id c) (a c) (b c) st.

(** The callback was called on the first [k] clauses of [cl] and on no
    other: [abort] was unset before each of these calls, and it is set
    after the last one unless the clauses ran out. *)
Definition stops_at {St} (fn : Visitor St) (st : St * bool) (cl : list Clause)
    (k : nat) (res : St * bool) : Prop :=
  k ≤ length cl ∧ res = foldl (visit fn) st (take k cl) ∧
  (∀ j, j < k → (foldl (visit fn) st (take j cl)).2 = false) ∧
  (k < length cl → res.2 = true).

Lemma walk_loop_stops {St} (fn : Visitor St) cl : ∀ st,
  ∃ k, stops_at fn st cl k (walk_loop fn cl st).
Proof.
  induction cl as [|c cl IH]; intros st.
  - exists 0. split; [simpl; lia|]. split; [done|]. split; [lia|simpl; lia].
  - simpl. destruct (st.2) eqn:Hab.
    + exists 0. split; [simpl; lia|]. split; [done|]. split; [lia|done].
    + destruct (IH (fn (op c) (id c) (a c) (b c) st)) as (k & Hk & Hres & Hbefore & Hafter).
      exists (S k). split; [simpl; lia|]. split; [done|]. split.
      * intros [|j] Hj; [done|]. simpl. apply Hbefore. lia.
      * simpl. intros ?. apply Hafter. lia.
Qed.

Section WalkTheorems.
Context {F O : Type} (fzero : F).
Context (hash_order : list (nat * (nat * nat)) → list (nat * (nat * nat))).
Implicit Types (T : @Tape F O) (s cur : @Subtape F).

(** X7: [walk] calls the callback on the clauses of the subtape
    under the cursor from the first on, [rwalk] from the last on, each
    until the clauses run out or [abort] is found set before a call; the
    callback is called on no clause after that.  [rwalk] then returns the
    id of the first clause, whether it was stopped or not, and fails its
    assertion on an empty sequence, which [walk] accepts. *)
Theorem walks_stop_at_abort {St} (fn : Visitor St) (st : St * bool) T cur :
  current T = Ok cur →
  (∃ k res, stops_at fn st (t cur) k res ∧ walk fn st T = Ok res) ∧
  (∃ k res, stops_at fn st (reverse (t cur)) k res ∧
            rwalk fn st T = match t cur with
                            | [] => Err AssertFailed
                            | c0 :: _ => Ok (id c0, res)
                            end).
Proof.
  intros Hcur. split.
  - destruct (walk_loop_stops fn (t cur) st) as [k Hk].
    exists k, (walk_loop fn (t cur) st). split; [done|].
    unfold walk. by rewrite Hcur.
  - destruct (walk_loop_stops fn (reverse (t cur)) st) as [k Hk].
    exists k, (walk_loop fn (reverse (t cur)) st). split; [done|].
    unfold rwalk. rewrite Hcur. cbn [mbind result_bind].
    destruct (t cur) as [|c0 cl]; [done|]. done.
Qed.

(** Every subtape holds a clause. *)
Definition InvN T : Prop := Forall (λ s, t s ≠ []) (tapes T).

Lemma emitted_nonempty fn n cl c0 D R hc cl' :
  respects_leaves fn → sub_ok n cl → operands_present cl → head cl = Some c0 →
  walk_inv fn n cl (D, R, hc) → walk_more fn (id c0) cl (D, R, hc) →
  emitted D R cl cl' → cl' ≠ [].
Proof.
  intros Hsane [Hok Hsorted] Hpres Hhd Hinv [Hreach _] Hem. simpl in Hreach.
  assert (c0 ∈ cl) as Hc0 by (destruct cl; simplify_eq/=; by left).
  destruct (Forall_forall (clause_ok n) cl) as [Hall _].
  destruct (Hall Hok c0 Hc0) as (Hid & _).
  pose proof (walk_inv_decreasing _ _ _ _ Hok Hinv) as Hdec. simpl in Hdec.
  pose proof Hinv as (_ & HR & _). simpl in HR.
  destruct (follow_ok R Hdec (S (length R)) (id c0)) as (y & Hy & _); [lia..|].
  destruct (follow_chain fn n cl D R hc Hsane Hpres Hinv _ _ _ Hreach ltac:(lia)
              ltac:(by exists c0) Hy) as (_ & Hdy & c & Hc & Hcy).
  rewrite <- Hcy in Hdy.
  destruct (emitted_kept _ _ _ _ _ Hem Hc Hdy) as (c' & Hc' & _).
  intros ->. by apply elem_of_nil in Hc'.
Qed.

Lemma run_cmd_InvN this T c T' :
  Inv T → InvP T → InvN T → cmd_sane c → run_cmd fzero this T c = Ok T' → InvN T'.
Proof.
  intros HI HP HN Hsane Hrun.
  destruct (Inv_current T HI) as (cur & Hcur & Hlk).
  pose proof HI as (Hc & _ & _ & _ & Hall).
  destruct c as [fn ty r|]; simpl in Hrun.
  - destruct (decide (dummy cur = 0)) as [Hd|Hd].
    + destruct (push_fresh_more fzero this fn ty r T cur HI Hcur Hd)
        as (D & R & hc & new & c0 & Hhd & Hinv & Hmore & Hem & _ & _ & _ & _ & _ & Hp).
      rewrite Hp in Hrun. simpl in Hrun. simplify_eq.
      unfold InvN; simpl. apply pushed_tapes_Forall; [done|done|].
      destruct (Forall_lookup_1 _ _ _ _ Hall Hlk) as [Hok _].
      eapply (emitted_nonempty fn (num_clauses T) (t cur)); try done.
      by eapply Forall_lookup_1 in HP.
    + rewrite (push_dummy fzero this fn ty r T cur Hcur Hd) in Hrun.
      simpl in Hrun. simplify_eq. unfold InvN; simpl.
      apply Forall_insert; [done|]. simpl. by eapply Forall_lookup_1 in HN.
  - unfold pop in Hrun. rewrite Hcur in Hrun. inv_result.
    case_decide; inv_result; unfold InvN; simpl; [|done].
    apply Forall_insert; [done|]. simpl. by eapply Forall_lookup_1 in HN.
Qed.

Lemma reachable_sane_InvN T :
  reachable_sane fzero hash_order T → Inv T ∧ InvN T.
Proof.
  intros (flat & T0 & this & cmds & Hord & Hctor & Hsane & Hrun).
  destruct (Tape_ctor_Inv fzero hash_order flat T0 Hord Hctor) as (HI0 & Hc0 & Hlen & HP0).
  assert (InvN T0) as HN0.
  { pose proof HI0 as (_ & _ & _ & (s0 & Hs0 & Hd0) & Hall). unfold InvN.
    destruct (tapes T0) as [|s [|]] eqn:Hts; simplify_eq/=.
    apply Forall_singleton. apply Forall_singleton in Hall as [_ Hne]. by apply Hne. }
  clear Hctor Hc0 Hlen. revert T0 HI0 HP0 HN0 Hrun.
  induction Hsane as [|c cmds Hc Hsane IH]; intros T0 HI0 HP0 HN0 Hrun;
    unfold run in *; simpl in Hrun.
  - by inv_result.
  - inv_result. rename x into T1.
    match goal with H : run_cmd _ _ _ _ = Ok _ |- _ => rename H into H1 end.
    apply (IH T1); [| | |done].
    + by eapply run_cmd_Inv.
    + by apply (run_cmd_InvP fzero this T0 c T1).
    + by apply (run_cmd_InvN this T0 c T1).
Qed.

(** X8: on a tape built by the constructor and driven by
    pushes whose classifiers answer [KEEP_BOTH] or [KEEP_ALWAYS] for
    constants, free variables and oracles, the subtape under the cursor is
    never empty, so that the assertion of [rwalk] holds; the id [rwalk]
    returns is that of the first clause, which is greater than the id of
    every clause after it. *)
Theorem rwalk_returns_root T :
  reachable_sane fzero hash_order T →
  ∃ cur c0 rest,
    current T = Ok cur ∧ t cur = c0 :: rest ∧
    (∀ c, c ∈ rest → id c < id c0) ∧
    ∀ St (fn : Visitor St) (st : St * bool),
      rwalk fn st T = Ok (id c0, walk_loop fn (reverse (t cur)) st).
Proof.
  intros [HI HN]%reachable_sane_InvN.
  destruct (Inv_current T HI) as (cur & Hcur & Hlk).
  pose proof HI as (_ & _ & _ & _ & Hall).
  destruct (Forall_lookup_1 _ _ _ _ Hall Hlk) as [[_ Hsorted] _].
  pose proof (Forall_lookup_1 _ _ _ _ HN Hlk) as Hne. simpl in Hne.
  destruct (t cur) as [|c0 rest] eqn:Ht; [done|].
  exists cur, c0, rest. split; [done|]. split; [done|]. split.
  - apply StronglySorted_inv in Hsorted as [_ Hlt]. rewrite Forall_forall in Hlt.
    intros c Hc. by apply Hlt.
  - intros St fn st. unfold rwalk. rewrite Hcur. cbn [mbind result_bind].
    rewrite Ht. done.
Qed.

Context (F_of_size : nat → F) (fdiv : F → F → F).

(** X4: the constructor accepts the empty tree.  The tape it
    builds has an empty base and one clause id, the sentinel; [walk] calls
    nothing on it and returns, while [push], [pop] and [rwalk] fail their
    assertions, and [utilization] divides the size 0 by the size 0. *)
Theorem Tape_ctor_empty_tree :
  (∀ l, hash_order l ≡ₚ l) →
  ∃ T s0,
    Tape_ctor fzero hash_order (@nil (@Tree_ F O)) = Ok T ∧
    tapes T = [s0] ∧ tape T = 0 ∧ t s0 = [] ∧ num_clauses T = 1 ∧
    constants T = [] ∧ vars T = [] ∧ oracles T = [] ∧
    (∀ this fn ty (r : @Region3 F), push fzero this fn ty r T = Err AssertFailed) ∧
    pop T = Err AssertFailed ∧
    (∀ St (fn : Visitor St) (st : St * bool),
       walk fn st T = Ok st ∧ rwalk fn st T = Err AssertFailed) ∧
    utilization F_of_size fdiv T = Ok (fdiv (F_of_size 0) (F_of_size 0)).
Proof.
  intros Hperm.
  assert (hash_order [(0, (0, 0))] = [(0, (0, 0))]) as Hh.
  { by apply Permutation_singleton_r. }
  assert (Tape_ctor fzero hash_order (@nil (@Tree_ F O)) =
          Ok {| constants := []; vars := []; oracles := [];
                tapes := [set_m [0] (set_t [] (Subtape_new fzero))]; tape := 0;
                num_clauses := 1; disabled := [false]; remap := [0] |}) as Hctor.
  { unfold Tape_ctor. cbn [foldlM mbind result_bind mret result_ret].
    rewrite map_size_singleton.
    unfold assignSlots, current. cbn [tapes tape at_ lookup list_lookup mbind result_bind].
    unfold slots_of, live_ranges.
    cbn [t set_t reverse rev_append foldlM fmap result_fmap mbind result_bind fst].
    rewrite map_to_list_singleton, Hh. done. }
  eexists _, _. split; [exact Hctor|]. simpl. split_and!; done.
Qed.

End WalkTheorems.

(** A callback that counts its calls and sets [abort] at the second. *)
Definition ex_visitor : Visitor nat :=
  λ _ _ _ _ st, (S st.1, bool_decide (1 ≤ st.1)).

Lemma walks_stop_at_abort_witness :
  (∃ k res, stops_at ex_visitor (0, false) (t ex_base) k res ∧
            walk ex_visitor (0, false) ex_tape = Ok res) ∧
  (∃ k res, stops_at ex_visitor (0, false) (reverse (t ex_base)) k res ∧
            rwalk ex_visitor (0, false) ex_tape
            = match t ex_base with
              | [] => Err AssertFailed
              | c0 :: _ => Ok (id c0, res)
              end).
Proof.
  apply (walks_stop_at_abort ex_visitor (0, false) ex_tape ex_base).
  vm_compute. reflexivity.
Defined.

Lemma rwalk_returns_root_witness :
  ∃ cur c0 rest,
    current ex_tape_pushed = Ok cur ∧ t cur = c0 :: rest ∧
    (∀ c, c ∈ rest → id c < id c0) ∧
    ∀ St (fn : Visitor St) (st : St * bool),
      rwalk fn st ex_tape_pushed = Ok (id c0, walk_loop fn (reverse (t cur)) st).
Proof.
  apply (rwalk_returns_root 0 ex_order ex_tape_pushed).
  exact ex_tape_pushed_sane.
Defined.

Lemma Tape_ctor_empty_tree_witness :
  ∃ (T : @Tape nat unit) s0,
    Tape_ctor 0 ex_order (@nil (@Tree_ nat unit)) = Ok T ∧
    tapes T = [s0] ∧ tape T = 0 ∧ t s0 = [] ∧ num_clauses T = 1 ∧
    constants T = [] ∧ vars T = [] ∧ oracles T = [] ∧
    (∀ this fn ty (r : @Region3 nat), push 0 this fn ty r T = Err AssertFailed) ∧
    pop T = Err AssertFailed ∧
    (∀ St (fn : Visitor St) (st : St * bool),
       walk fn st T = Ok st ∧ rwalk fn st T = Err AssertFailed) ∧
    utilization (λ n, n) Nat.div T = Ok (Nat.div 0 0).
Proof.
  apply (Tape_ctor_empty_tree 0 ex_order (λ n, n) Nat.div).
  intros l. reflexivity.
Defined.

Section Balanced.
Context {F O : Type} (fzero : F).
Context (hash_order : list (nat * (nat * nat)) → list (nat * (nat * nat))).
Implicit Types (T : @Tape F O) (s cur : @Subtape F).

(** The same cursor, over the same subtapes up to it. *)
Definition same_below T1 T2 : Prop :=
  tape T1 = tape T2 ∧ ∀ i, i ≤ tape T1 → tapes T1 !! i = tapes T2 !! i.

(** [k] pops in a row. *)
Fixpoint popn (k : nat) T : result (@Tape F O) :=
  match k with
  | 0 => Ok T
  | S k => T' ← pop T; popn k T'
  end.

(** [k] pushes are open on [T] above the state [T0]: that many pops lead
    back to the cursor and the subtapes of [T0]. *)
Definition above T0 (k : nat) T : Prop := ∃ T', popn k T = Ok T' ∧ same_below T' T0.

(** The nesting depth after a sequence that starts at depth [d]. *)
Fixpoint final_depth (d : nat) (cmds : list (@Cmd F)) : nat :=
  match cmds with
  | [] => d
  | CPush _ _ _ :: cmds => final_depth (S d) cmds
  | CPop :: cmds => final_depth (pred d) cmds
  end.

Lemma same_below_refl T : same_below T T.
Proof. by split. Qed.

Lemma same_below_trans T1 T2 T3 : same_below T1 T2 → same_below T2 T3 → same_below T1 T3.
Proof.
  intros [Hc1 H1] [Hc2 H2]. split; [congruence|].
  intros i Hi. rewrite H1 by done. apply H2. lia.
Qed.

Lemma pop_congr T1 T2 T1' :
  same_below T1 T2 → pop T1 = Ok T1' → ∃ T2', pop T2 = Ok T2' ∧ same_below T1' T2'.
Proof.
  intros [Hc Hlow] Hpop. unfold pop, current in *. inv_result. rename x0 into cur.
  match goal with H : bool_decide _ = true |- _ => apply bool_decide_eq_true in H end.
  match goal with H : tapes T1 !! _ = Some cur |- _ => rename H into Hcur end.
  assert (tapes T2 !! tape T2 = Some cur) as Hcur2.
  { rewrite <- Hc, <- Hlow by lia. done. }
  rewrite bool_decide_eq_true_2 by congruence. cbn [mbind result_bind assert_].
  rewrite (at_lookup _ _ _ Hcur2). cbn [mbind result_bind].
  case_decide; inv_result; eexists; (split; [done|]); split; simpl; try congruence.
  - intros i Hi. destruct (decide (i = tape T1)) as [->|Hne].
    + rewrite list_lookup_insert_eq by (by eapply lookup_lt_Some).
      rewrite Hc. rewrite list_lookup_insert_eq by (by eapply lookup_lt_Some). done.
    + rewrite !list_lookup_insert_ne by congruence. by apply Hlow.
  - intros i Hi. apply Hlow. lia.
Qed.

Lemma popn_congr k : ∀ T1 T2 T1',
  same_below T1 T2 → popn k T1 = Ok T1' → ∃ T2', popn k T2 = Ok T2' ∧ same_below T1' T2'.
Proof.
  induction k as [|k IH]; intros T1 T2 T1' Hsame Hp; simpl in *.
  - inv_result. by exists T2.
  - inv_result. rename x into Tx.
    match goal with H : pop T1 = Ok Tx |- _ =>
      destruct (pop_congr _ _ _ Hsame H) as (Ty & -> & Hsame') end.
    simpl. by eapply IH.
Qed.

Lemma run_cmd_above (this : nat) T0 k T c T1 :
  Inv T → above T0 k T → run_cmd fzero this T c = Ok T1 →
  match c with
  | CPush _ _ _ => above T0 (S k) T1
  | CPop => 0 < k → above T0 (pred k) T1
  end.
Proof.
  intros HI (T' & Hpop & Hsame) Hrun. destruct c as [fn ty r|]; simpl in Hrun.
  - destruct (pop_after_push fzero this fn ty r T HI)
      as (Tp & h & T2 & Hpush & _ & Hpop2 & Hc2 & Hlow2).
    rewrite Hpush in Hrun. simpl in Hrun. simplify_eq.
    assert (same_below T T2) as Hs2.
    { split; [done|]. intros i Hi. symmetry. by apply Hlow2. }
    destruct (popn_congr k T T2 T' Hs2 Hpop) as (T2' & Hp2' & Hs2').
    exists T2'. split.
    + simpl. rewrite Hpop2. done.
    + eapply same_below_trans; [|done]. destruct Hs2' as [? Hl]. split; [done|].
      intros i Hi. symmetry. apply Hl. lia.
  - intros Hk. destruct k as [|k]; [lia|]. simpl in Hpop.
    rewrite Hrun in Hpop. simpl in Hpop. by exists T'.
Qed.

Lemma run_above (this : nat) T0 cmds : ∀ k T T1,
  Inv T → above T0 k T → well_nested k cmds → run fzero this cmds T = Ok T1 →
  above T0 (final_depth k cmds) T1.
Proof.
  induction cmds as [|c cmds IH]; intros k T T1 HI Hab Hwn Hrun;
    unfold run in *; simpl in Hrun.
  - by inv_result.
  - inv_result. rename x into Tx.
    match goal with H : run_cmd _ _ _ _ = Ok Tx |- _ =>
      pose proof (run_cmd_Inv _ _ _ _ _ HI H) as HIx;
      pose proof (run_cmd_above this T0 k T c Tx HI Hab H) as Habx end.
    destruct c as [fn ty r|]; simpl in *.
    + by eapply IH.
    + destruct Hwn as [Hk Hwn]. eapply IH; [done| |done|done]. by apply Habx.
Qed.

Lemma well_nested_mono (cmds : list (@Cmd F)) :
  ∀ d d', d ≤ d' → well_nested d cmds → well_nested d' cmds.
Proof.
  induction cmds as [|[fn ty r|] cmds IH]; intros d d' Hd Hwn; simpl in *; [done|..].
  - eapply IH; [|done]. lia.
  - destruct Hwn as [? Hwn]. split; [lia|]. eapply IH; [|done]. lia.
Qed.

Lemma push_num_clauses (this : nat) fn ty (r : @Region3 F) T T1 h :
  push fzero this fn ty r T = Ok (T1, h) → num_clauses T1 = num_clauses T.
Proof.
  unfold push. intros Hp. destruct (current T) as [cur|]; [|done].
  cbn [mbind result_bind] in Hp. case_decide; [by simplify_eq|].
  destruct (classify fn T (t cur)) as [[[D R] hc]|]; [|done].
  cbn [mbind result_bind] in Hp. inv_result. done.
Qed.

(** X10: from a tape built by the constructor and driven by
    pushes and pops, every sequence of pushes and pops in which no pop
    comes before its push and every push is popped runs through, and leads
    back to the cursor it started from, over the same subtapes up to the
    cursor (clauses, boxes, types and dummy counters).  No step of the
    sequence shortens the stack of subtapes, and a pop leaves it at its
    length. *)
Theorem balanced_run_restores T (this : nat) cmds :
  reachable fzero hash_order T → well_nested 0 cmds → final_depth 0 cmds = 0 →
  ∃ T', run fzero this cmds T = Ok T' ∧ tape T' = tape T ∧
        (∀ i, i ≤ tape T → tapes T' !! i = tapes T !! i) ∧
        num_clauses T' = num_clauses T ∧ length (tapes T) ≤ length (tapes T') ∧
        ∀ pre c suf, cmds = pre ++ c :: suf →
          ∃ Tp Tn, run fzero this pre T = Ok Tp ∧ run_cmd fzero this Tp c = Ok Tn ∧
                   length (tapes Tp) ≤ length (tapes Tn) ∧
                   (c = CPop → length (tapes Tn) = length (tapes Tp)).
Proof.
  intros Hreach Hwn Hfd.
  destruct (reachable_run_inv fzero hash_order T Hreach) as [d Hri].
  assert (well_nested d cmds) as Hwd by (eapply well_nested_mono; [|done]; lia).
  destruct (run_total fzero this cmds T d Hri Hwd) as [T' Hrun].
  exists T'. split; [done|].
  cut (tape T' = tape T ∧ (∀ i, i ≤ tape T → tapes T' !! i = tapes T !! i) ∧
       num_clauses T' = num_clauses T ∧ length (tapes T) ≤ length (tapes T')).
  { intros (? & ? & ? & ?). split_and!; try done.
    intros pre c suf Heq. by apply (run_steps fzero this pre cmds T d c suf Hri Hwd). }
  pose proof (run_above this T cmds 0 T T' (proj1 Hri)) as Hab.
  destruct Hab as (T'' & Hpop & Hc & Hlow); [by exists T|done|done|].
  rewrite Hfd in Hpop. simpl in Hpop. injection Hpop as Heq. subst T''.
  split; [done|]. split; [intros i Hi; apply Hlow; lia|].
  split; [|by apply (run_level fzero this cmds T T' d Hri Hrun)].
  clear -Hrun. revert T Hrun.
  induction cmds as [|c cmds IH]; intros T Hrun; unfold run in *; simpl in Hrun.
  - by inv_result.
  - inv_result. rewrite (IH _ Hrun).
    match goal with H : run_cmd _ _ _ _ = Ok _ |- _ => rename H into Hc end.
    destruct c as [fn ty r|]; simpl in Hc.
    + destruct (push fzero this fn ty r T) as [[T1 h]|] eqn:Hp; [|done].
      simpl in Hc. simplify_eq. by eapply push_num_clauses.
    + unfold pop in Hc. inv_result. case_decide; by inv_result.
Qed.

End Balanced.

Section GetBase.
Context {F O : Type} (fle : F → F → bool) (fzero : F).
Implicit Types (T : @Tape F O) (s cur : @Subtape F) (p : @Vec3 F).

(** An interval subtape whose box holds the point. *)
Definition holds p s : Prop := type s = INTERVAL ∧ in_box fle p s = true.

Lemma getBase_walk_spec p (ts : list (@Subtape F)) : ∀ c,
  c < length ts →
  ∃ c', getBase_walk fle p ts c = Ok c' ∧ c' ≤ c ∧
        (c' = 0 ∨ ∃ s, ts !! c' = Some s ∧ holds p s) ∧
        ∀ i s, c' < i ≤ c → ts !! i = Some s → ¬ holds p s.
Proof.
  induction c as [|c IH]; intros Hc.
  - exists 0. split; [done|]. split; [done|]. split; [by left|]. intros i s ?. lia.
  - simpl. destruct (lookup_lt_is_Some_2 ts (S c) Hc) as [s Hs].
    rewrite (at_lookup _ _ _ Hs). cbn [mbind result_bind].
    destruct (bool_decide (type s = INTERVAL) && in_box fle p s) eqn:Hb.
    + exists (S c). split; [done|]. split; [done|]. split.
      * right. exists s. split; [done|]. apply andb_true_iff in Hb as [Ht ?].
        apply bool_decide_eq_true in Ht. by split.
      * intros i s' ?. lia.
    + destruct IH as (c' & -> & Hle & Hat & Habove); [lia|].
      exists c'. split; [done|]. split; [lia|]. split; [done|].
      intros i s' Hi Hs'. destruct (decide (i = S c)) as [->|Hne].
      * simplify_eq. intros [Ht Hin]. rewrite Hin, bool_decide_eq_true_2 in Hb by done.
        done.
      * apply (Habove i); [lia|done].
Qed.

(** X11: [getBase] leaves the subtapes as they are and
    moves the cursor down to the topmost subtape, at or below the cursor
    and above the base, that is of type [INTERVAL] and whose box holds the
    point, or to the base when there is none; the base itself is not
    looked at, and dummy counters play no part. *)
Theorem getBase_topmost T (this : nat) p :
  tape T < length (tapes T) →
  ∃ c', getBase fle this p T = Ok (set_cursor c' T, Handle_base this (tape T)) ∧
        c' ≤ tape T ∧
        (c' = 0 ∨ ∃ s, tapes T !! c' = Some s ∧ holds p s) ∧
        ∀ i s, c' < i ≤ tape T → tapes T !! i = Some s → ¬ holds p s.
Proof.
  intros Hc. destruct (getBase_walk_spec p (tapes T) (tape T) Hc) as (c' & Hw & ? & ? & ?).
  exists c'. split; [|done]. unfold getBase. by rewrite Hw.
Qed.

(** X12: the handle [getBase] returns owes the
    restoration of the cursor: destroying it puts the cursor back where it
    was before [getBase], whatever happened to the tape in between, and
    right after [getBase] that gives back the tape as it was.  Moved to
    another handle, the disposal is done by that handle and no more by the
    one moved from. *)
Theorem getBase_handle_restores T (this : nat) p :
  tape T < length (tapes T) →
  ∃ T1 h,
    getBase fle this p T = Ok (T1, h) ∧ tapes T1 = tapes T ∧
    Handle_dtor h T1 = Ok T ∧
    (∀ T2 : @Tape F O, Handle_dtor h T2 = Ok (set_cursor (tape T) T2)) ∧
    (∀ d src, Handle_move h = (d, src) →
            Handle_dtor d T1 = Ok T ∧ Handle_dtor src T1 = Ok T1).
Proof.
  intros Hc. destruct (getBase_walk_spec p (tapes T) (tape T) Hc) as (c' & Hw & _).
  assert (getBase fle this p T = Ok (set_cursor c' T, Handle_base this (tape T))) as Hg
    by (unfold getBase; by rewrite Hw).
  eexists _, _. split; [exact Hg|]. split; [done|].
  split; [simpl; by destruct T|]. split; [done|].
  intros d src [= <- <-]. split; [simpl; by destruct T|done].
Qed.

End GetBase.

(** The classifier that keeps both operands everywhere. *)
Definition keep_both : Opcode → nat → nat → nat → Keep := λ _ _ _ _, KEEP_BOTH.

(** Three pushes on the tape of [min(x, -x)]: an interval push on the unit
    cube and two specialised pushes. *)
Definition ex_cmds3 : list (@Cmd nat) :=
  [CPush keep_both INTERVAL ex_region;
   CPush keep_both SPECIALIZED ex_region;
   CPush keep_both SPECIALIZED ex_region].

Definition ex_tape3 : @Tape nat unit :=
  Eval vm_compute in
    match run 0 7 ex_cmds3 ex_tape with Ok T => T | Err _ => empty_tape end.

Lemma balanced_run_restores_witness :
  ∃ T', run 0 7 (ex_cmds ++ [CPop]) ex_tape = Ok T' ∧ tape T' = tape ex_tape ∧
        (∀ i, i ≤ tape ex_tape → tapes T' !! i = tapes ex_tape !! i) ∧
        num_clauses T' = num_clauses ex_tape ∧
        length (tapes ex_tape) ≤ length (tapes T') ∧
        ∀ pre c suf, ex_cmds ++ [CPop] = pre ++ c :: suf →
          ∃ Tp Tn, run 0 7 pre ex_tape = Ok Tp ∧ run_cmd 0 7 Tp c = Ok Tn ∧
                   length (tapes Tp) ≤ length (tapes Tn) ∧
                   (c = CPop → length (tapes Tn) = length (tapes Tp)).
Proof.
  apply (balanced_run_restores 0 ex_order ex_tape 7 (ex_cmds ++ [CPop])).
  - exact ex_tape_reachable.
  - simpl. lia.
  - reflexivity.
Defined.

Lemma getBase_topmost_witness :
  ∃ c', getBase Nat.leb 7 (mkVec3 1 1 1) ex_tape3
        = Ok (set_cursor c' ex_tape3, Handle_base 7 (tape ex_tape3)) ∧
        c' ≤ tape ex_tape3 ∧
        (c' = 0 ∨ ∃ s, tapes ex_tape3 !! c' = Some s ∧ holds Nat.leb (mkVec3 1 1 1) s) ∧
        ∀ i s, c' < i ≤ tape ex_tape3 → tapes ex_tape3 !! i = Some s →
               ¬ holds Nat.leb (mkVec3 1 1 1) s.
Proof.
  apply (getBase_topmost Nat.leb ex_tape3 7 (mkVec3 1 1 1)).
  vm_compute. lia.
Defined.

Lemma getBase_handle_restores_witness :
  ∃ T1 h,
    getBase Nat.leb 7 (mkVec3 1 1 1) ex_tape3 = Ok (T1, h) ∧ tapes T1 = tapes ex_tape3 ∧
    Handle_dtor h T1 = Ok ex_tape3 ∧
    (∀ T2 : @Tape nat unit, Handle_dtor h T2 = Ok (set_cursor (tape ex_tape3) T2)) ∧
    (∀ d src, Handle_move h = (d, src) →
            Handle_dtor d T1 = Ok ex_tape3 ∧ Handle_dtor src T1 = Ok T1).
Proof.
  apply (getBase_handle_restores Nat.leb ex_tape3 7 (mkVec3 1 1 1)).
  vm_compute. lia.
Defined.

Lemma reverse_position {A} (l : list A) i x :
  l !! i = Some x → reverse l !! (length l - S i) = Some x.
Proof.
  intros Hi. pose proof (lookup_lt_Some _ _ _ Hi) as Hlt.
  rewrite reverse_lookup by lia. rewrite <- Hi. f_equal. lia.
Qed.

Section OperandSlots.
Context {F O : Type} (fzero : F).
Context (hash_order : list (nat * (nat * nat)) → list (nat * (nat * nat))).
Hypothesis hash_order_perm : ∀ l, hash_order l ≡ₚ l.

(** The ranges of a clause and of a clause it reads have a position in
    common, and so have those of the two operands of a clause. *)
Lemma operand_ranges n cl ranges c x :
  sub_ok n cl → operands_present cl → live_ranges cl = Ok ranges →
  c ∈ cl → hasDummyChildren (op c) = false → x = a c ∨ x = b c → x ≠ 0 →
  ∃ j e jx ex,
    ranges !! id c = Some (j, e) ∧ ranges !! x = Some (jx, ex) ∧
    jx < j ∧ j < e ∧ j < ex ∧ id c ≠ 0 ∧ x ≠ id c.
Proof.
  intros Hsub Hpres Hr Hc Hnd Hx Hx0.
  pose proof (sorted_ids_NoDup _ (proj2 Hsub)) as Hnodup.
  apply list_elem_of_lookup_1 in Hc as [i Hi].
  destruct (operands_later n cl i c x Hsub Hpres Hi Hnd Hx Hx0) as (ix & cx & Hlt & Hix & Hcx).
  pose proof (lookup_lt_Some _ _ _ Hix) as Hlen.
  destruct (live_ranges_spec _ _ Hnodup Hr _ _ (reverse_position _ _ _ Hi))
    as (Hid0 & e & He & Hje & _).
  destruct (live_ranges_spec _ _ Hnodup Hr _ _ (reverse_position _ _ _ Hix))
    as (_ & ex & Hex & _ & Huse).
  rewrite Hcx in Hex.
  exists (length cl - S i), e, (length cl - S ix), ex.
  split; [done|]. split; [done|]. split; [lia|]. split; [done|]. split.
  - apply (Huse _ c (reverse_position _ _ _ Hi)). split; [done|]. rewrite Hcx.
    destruct Hx as [->| ->]; auto.
  - split; [done|]. destruct Hsub as [Hok _].
    destruct (Forall_lookup_1 _ _ _ _ Hok Hi) as (_ & ? & ?).
    destruct Hx as [->| ->]; lia.
Qed.

(** X5: on the tape the constructor builds, every clause
    has a slot in [m]; the slot of a clause that reads other clauses differs
    from the slots of the clauses it reads, and the slots of its two
    operands differ when the operands do: the value of a clause can be
    written while both operands are still held. *)
Theorem Tape_ctor_operand_slots (flat : list (@Tree_ F O)) :
  ordered_ok flat →
  ∃ T s0,
    Tape_ctor fzero hash_order flat = Ok T ∧ current T = Ok s0 ∧
    (∀ c, c ∈ t s0 → is_Some (m s0 !! id c)) ∧
    (∀ c x, c ∈ t s0 → hasDummyChildren (op c) = false → x = a c ∨ x = b c → x ≠ 0 →
       ∃ sc sx, m s0 !! id c = Some sc ∧ m s0 !! x = Some sx ∧ sc ≠ sx) ∧
    (∀ c, c ∈ t s0 → hasDummyChildren (op c) = false →
       a c ≠ 0 → b c ≠ 0 → a c ≠ b c →
       ∃ sa sb, m s0 !! a c = Some sa ∧ m s0 !! b c = Some sb ∧ sa ≠ sb).
Proof.
  intros Hord.
  destruct (Tape_ctor_total fzero hash_order hash_order_perm flat Hord) as [T Hctor].
  destruct (Tape_ctor_Inv fzero hash_order flat T Hord Hctor) as (HI & Hc0 & Hlen & HP).
  destruct (Tape_ctor_spec _ _ _ _ Hctor)
    as (tape_ & ids & cs & vs & os & asg & mv & Hfold & Hslots & Hstore & ->).
  simpl in *. eexists _, _. split; [exact Hctor|]. split; [done|]. simpl.
  destruct HI as (_ & _ & _ & _ & Hall). simpl in Hall.
  apply Forall_inv in Hall as [Hsub _]. apply Forall_inv in HP.
  simpl in Hsub, HP.
  destruct (store_slots _ _ _ (NoDup_fst_map_to_list _) Hstore) as (_ & Hin & _).
  pose proof Hslots as Hs2. unfold slots_of in Hs2.
  destruct (live_ranges tape_) as [ranges|] eqn:Hr; [|done].
  cbn [mbind result_bind] in Hs2. inv_result. rename x into stf.
  match goal with H : foldlM reg_step _ _ = Ok _ |- _ => rename H into Hwalk end.
  pose proof (sorted_ids_NoDup _ (proj2 Hsub)) as Hnodup.
  assert (∀ k1 k2 r1 r2, k1 ≠ 0 → k2 ≠ 0 → k1 ≠ k2 →
            ranges !! k1 = Some r1 → ranges !! k2 = Some r2 → overlap r1 r2 →
            ∃ s1 s2, mv !! k1 = Some s1 ∧ mv !! k2 = Some s2 ∧ s1 ≠ s2) as Hdisj.
  { intros k1 k2 r1 r2 H1 H2 Hne Hk1 Hk2 Hov.
    destruct (slots_of_disjoint hash_order hash_order_perm _ _ _ Hr Hslots k1 k2 r1 r2)
      as (s1 & s2 & Hs1 & Hs2' & Hne'); try done.
    exists s1, s2. split_and!; [| |done]; apply Hin; by apply elem_of_map_to_list. }
  split_and!.
  - intros c Hc. apply list_elem_of_lookup_1 in Hc as [i Hi].
    destruct (live_ranges_spec _ _ Hnodup Hr _ _ (reverse_position _ _ _ Hi))
      as (Hid0 & e & He & _).
    destruct (reg_fold_assigned _ _ _ (id c) Hwalk Hid0) as [s Hs].
    { left. apply (proj2 (proj2 (proj2 (reg_ops_facts hash_order hash_order_perm ranges)))).
      by eexists. }
    exists s. apply Hin. by apply elem_of_map_to_list.
  - intros c x Hc Hnd Hx Hx0.
    destruct (operand_ranges _ _ _ c x Hsub HP Hr Hc Hnd Hx Hx0)
      as (j & e & jx & ex & Hrc & Hrx & ? & ? & ? & ? & ?).
    apply (Hdisj (id c) x (j, e) (jx, ex)); try done. unfold overlap. simpl. lia.
  - intros c Hc Hnd Ha Hb Hab.
    destruct (operand_ranges _ _ _ c (a c) Hsub HP Hr Hc Hnd ltac:(by left) Ha)
      as (j & e & ja & ea & Hrc & Hra & ? & ? & ? & ? & ?).
    destruct (operand_ranges _ _ _ c (b c) Hsub HP Hr Hc Hnd ltac:(by right) Hb)
      as (j' & e' & jb & eb & Hrc' & Hrb & ? & ? & ? & ? & ?).
    rewrite Hrc in Hrc'. simplify_eq.
    apply (Hdisj (a c) (b c) (ja, ea) (jb, eb)); try done. unfold overlap. simpl. lia.
Qed.

End OperandSlots.

Lemma Tape_ctor_operand_slots_witness :
  ∃ T s0,
    Tape_ctor 0 ex_order ex_flat_tables = Ok T ∧ current T = Ok s0 ∧
    (∀ c, c ∈ t s0 → is_Some (m s0 !! id c)) ∧
    (∀ c x, c ∈ t s0 → hasDummyChildren (op c) = false → x = a c ∨ x = b c → x ≠ 0 →
       ∃ sc sx, m s0 !! id c = Some sc ∧ m s0 !! x = Some sx ∧ sc ≠ sx) ∧
    (∀ c, c ∈ t s0 → hasDummyChildren (op c) = false →
       a c ≠ 0 → b c ≠ 0 → a c ≠ b c →
       ∃ sa sb, m s0 !! a c = Some sa ∧ m s0 !! b c = Some sb ∧ sa ≠ sb).
Proof.
  apply (Tape_ctor_operand_slots 0 ex_order (λ l, reflexivity l) ex_flat_tables).
  apply (bool_decide_unpack _). vm_compute. exact I.
Defined.

End TapeProofs.

(** * The simplex tree: invariants and theorems *)

Module SimplexProofs.
Import Simplex Simplex.Interval.

Section MonadFacts.
Context {Q V H : Type}.
Implicit Types (m : @Mem Q V H).

Lemma M_bind_Ok {A B} (c : @M Q V H A) (f : A → @M Q V H B) m r :
  (c ≫= f) m = Ok r ↔ ∃ x m1, c m = Ok (x, m1) ∧ f x m1 = Ok r.
Proof.
  unfold mbind, M_bind. destruct (c m) as [[x m1]|e]; [|naive_solver].
  split; [by eauto|]. by intros (? & ? & [= <- <-] & ?).
Qed.

Lemma M_ret_Ok {A} (x : A) m r : mret (M := @M Q V H) x m = Ok r ↔ r = (x, m).
Proof. unfold mret, M_ret. naive_solver. Qed.

Lemma massert_Ok (b : bool) m r :
  massert (Q:=Q) (V:=V) (H:=H) b m = Ok r ↔ b = true ∧ r = ((), m).
Proof. unfold massert. destruct b; [rewrite M_ret_Ok|unfold fail]; naive_solver. Qed.

Lemma deref_Ok p m r :
  deref p m = Ok r ↔ ∃ l s, p = Some l ∧ heap m !! l = Some s ∧ r = (s, m).
Proof.
  unfold deref. destruct p as [l|]; [|naive_solver].
  destruct (heap m !! l) as [s|] eqn:E; naive_solver.
Qed.

(** The memory after a store to the subspace at address [l]. *)
Definition write (l : nat) (s : @Subspace Q V) m : @Mem Q V H :=
  {| heap := <[l := s]> (heap m); next_loc := next_loc m; free_subs := free_subs m;
     free_leaves := free_leaves m; free_trees := free_trees m |}.

Lemma update_Ok p f m r :
  update p f m = Ok r ↔
  ∃ l s, p = Some l ∧ heap m !! l = Some s ∧ r = ((), write l (f s) m).
Proof.
  unfold update. destruct p as [l|]; [|naive_solver].
  destruct (heap m !! l) as [s|] eqn:E; naive_solver.
Qed.

Lemma foldlS_inv {A B} (P : B → @Mem Q V H → Prop) (f : B → A → @M Q V H B) l :
  (∀ s x m s' m', x ∈ l → P s m → f s x m = Ok (s', m') → P s' m') →
  ∀ s m s' m', P s m → foldlS f l s m = Ok (s', m') → P s' m'.
Proof.
  induction l as [|x l IH]; intros Hstep s m s' m' HP Hf; simpl in Hf.
  - apply M_ret_Ok in Hf. by simplify_eq.
  - apply M_bind_Ok in Hf as (s1 & m1 & Hx & Hf).
    eapply IH; [|by eapply Hstep; [left|..]|done].
    intros ? ? ? ? ? ?. apply Hstep. by right.
Qed.

Lemma foldlS_app {A B} (f : B → A → @M Q V H B) l1 l2 s m r :
  foldlS f (l1 ++ l2) s m = Ok r ↔
  ∃ s1 m1, foldlS f l1 s m = Ok (s1, m1) ∧ foldlS f l2 s1 m1 = Ok r.
Proof.
  revert s m. induction l1 as [|x l1 IH]; intros s m; simpl.
  - setoid_rewrite M_ret_Ok. naive_solver.
  - rewrite M_bind_Ok. setoid_rewrite IH. setoid_rewrite M_bind_Ok. naive_solver.
Qed.

End MonadFacts.

(** Inversion of a successful run of the memory monad. *)
Ltac inv_M :=
  repeat match goal with
  | H : (_ ≫= _) _ = Ok _ |- _ => apply M_bind_Ok in H as (? & ? & ? & H)
  | H : mret _ _ = Ok _ |- _ => apply M_ret_Ok in H; simplify_eq
  | H : massert _ _ = Ok _ |- _ => apply massert_Ok in H as [? ?]; simplify_eq
  | H : fail _ _ = Ok _ |- _ => discriminate H
  | u : () |- _ => destruct u
  end.

Section UnsafeInterval.
Context (Dim : nat).
Context {Q V D Fl Rg H I Nb : Type} `{!Collaborators Q V D Fl Rg H I Nb}.
Implicit Types (c : @SimplexTree H) (m : @Mem Q V H) (lf : @Leaf H).

(** C6: when the interval evaluation was not safe, [evalInterval] returns
    without failing; the cell has type [AMBIGUOUS] whatever the interval
    was, and is otherwise as it was (no leaf is taken from the pool); the
    handle returned is the one the caller passed in, not the pushed one;
    the cell is not marked done; and the shared memory is untouched.  The
    step of the build on such a cell, above level 0, then returns without
    failing as well and subdivides: the 2^Dim children are to be built with
    the caller's tape. *)
Theorem evalInterval_unsafe c (htape : H) (region : Rg) (nb : Nb) m :
  (interval_evalAndPush region htape).2 = false →
  evalInterval Dim c htape region m
  = Ok (mkOutcome htape (set_type AMBIGUOUS c) false, m) ∧
  (0 < region_level region →
   build_cell Dim c htape region nb m
   = Ok (mkOutcome (Subdivide (2 ^ Dim) htape) (set_type AMBIGUOUS c) false, m)).
Proof.
  intros Hsafe.
  assert (evalInterval Dim c htape region m
          = Ok (mkOutcome htape (set_type AMBIGUOUS c) false, m)) as He.
  { unfold evalInterval. rewrite Hsafe. simpl. done. }
  split; [exact He|]. intros Hlev. unfold build_cell.
  rewrite decide_True by done. unfold mbind, M_bind. rewrite He. simpl.
  first [done | by case_decide].
Qed.

End UnsafeInterval.

Section Signs.
Context {Q V H : Type}.
Implicit Types (m : @Mem Q V H) (c : @SimplexTree H) (lf : @Leaf H).

(** The [inside] flag of the subspace at an address. *)
Definition inside_at m (l : nat) : option bool := inside <$> heap m !! l.

(** The [inside] flag behind a pointer of a leaf. *)
Definition flag_at m (p : option nat) (f : bool) : Prop :=
  ∃ l, p = Some l ∧ inside_at m l = Some f.

Lemma inside_at_write l s m l' :
  inside_at (write (H:=H) l s m) l' = if decide (l = l') then Some (inside s) else inside_at m l'.
Proof.
  unfold inside_at, write. simpl. case_decide as E.
  - subst. by rewrite lookup_insert_eq.
  - by rewrite lookup_insert_ne.
Qed.

Lemma set_inside_keeps (b : bool) ps : ∀ m u m',
  foldlS (λ _ p, update p (set_inside b)) ps () m = Ok (u, m') →
  ∀ l, inside_at m l = Some b → inside_at m' l = Some b.
Proof.
  induction ps as [|p ps IH]; intros m u m' Hf l Hl; simpl in Hf; inv_M; [done|].
  match goal with H : update _ _ _ = Ok _ |- _ =>
    apply update_Ok in H as (l0 & s0 & ? & Hs0 & ?); simplify_eq end.
  eapply IH; [done|]. rewrite inside_at_write. by case_decide.
Qed.

Lemma set_inside_all (b : bool) ps : ∀ m u m',
  foldlS (λ _ p, update p (set_inside b)) ps () m = Ok (u, m') →
  ∀ p, p ∈ ps → flag_at m' p b.
Proof.
  induction ps as [|p0 ps IH]; intros m u m' Hf p Hp; simpl in Hf;
    [by apply elem_of_nil in Hp|]. inv_M.
  apply elem_of_cons in Hp as [->|Hp]; [|by eapply IH].
  match goal with H : update _ _ _ = Ok _ |- _ =>
    apply update_Ok in H as (l0 & s0 & ? & Hs0 & ?); simplify_eq end.
  exists l0. split; [done|]. eapply set_inside_keeps; [done|].
  rewrite inside_at_write. by rewrite decide_True.
Qed.

Lemma check_fold ps : ∀ (acc : bool * bool) m acc' m',
  foldlS (λ (acc : bool * bool) p,
            sp ← deref p;
            mret (acc.1 && inside sp, acc.2 && negb (inside sp))) ps acc m
  = Ok (acc', m') →
  m' = m ∧ ∃ flags, Forall2 (flag_at m) ps flags ∧
    acc' = (acc.1 && forallb id flags, acc.2 && forallb negb flags).
Proof.
  induction ps as [|p ps IH]; intros acc m acc' m' Hf; simpl in Hf; inv_M.
  - split; [done|]. exists []. split; [constructor|]. simpl.
    rewrite !andb_true_r. by destruct acc.
  - match goal with H : deref _ _ = Ok _ |- _ =>
      apply deref_Ok in H as (l & s & ? & Hs & ?); simplify_eq end.
    destruct (IH _ _ _ _ Hf) as (-> & flags & Hfl & ->). split; [done|].
    exists (inside s :: flags). split.
    + constructor; [|done]. exists l. split; [done|]. unfold inside_at. by rewrite Hs.
    + simpl. by rewrite !andb_assoc.
Qed.

(** The type [checkVertexSigns] gives a cell whose flags are [flags]. *)
Definition type_of_flags (flags : list bool) : State :=
  if forallb id flags then FILLED
  else if forallb negb flags then EMPTY else AMBIGUOUS.

Lemma checkVertexSigns_spec c m c' m' :
  checkVertexSigns c m = Ok (c', m') →
  m' = m ∧ ∃ lf flags, leaf c = Some lf ∧ Forall2 (flag_at m) (sub lf) flags ∧
    flags ≠ [] ∧ c' = set_type (type_of_flags flags) c.
Proof.
  unfold checkVertexSigns. intros Hc. destruct (leaf c) as [lf|] eqn:Hlf; [|done].
  inv_M. destruct x as [ai ao].
  match goal with H : foldlS _ _ _ _ = Ok _ |- _ =>
    apply check_fold in H as (-> & flags & Hfl & [= -> ->]) end.
  simpl in Hc. split.
  - destruct (forallb id flags), (forallb negb flags); inv_M; done.
  - exists lf, flags. split; [done|]. split; [done|]. unfold type_of_flags.
    destruct flags as [|f flags]; [simpl in Hc; inv_M; done|]. split; [done|].
    destruct (forallb id (f :: flags)), (forallb negb (f :: flags)); inv_M; done.
Qed.

Lemma type_of_flags_FILLED flags :
  type_of_flags flags = FILLED ↔ Forall (λ f, f = true) flags.
Proof.
  unfold type_of_flags. rewrite Forall_forall.
  destruct (forallb id flags) eqn:E1.
  - split; [|done]. intros _ f Hf. rewrite forallb_forall in E1.
    by apply (E1 f), list_elem_of_In.
  - split; [by destruct (forallb negb flags)|]. intros Hall.
    assert (forallb id flags = true); [|congruence].
    apply forallb_forall. intros f Hf%list_elem_of_In. by rewrite (Hall f Hf).
Qed.

Lemma type_of_flags_EMPTY flags :
  flags ≠ [] → type_of_flags flags = EMPTY ↔ Forall (λ f, f = false) flags.
Proof.
  intros Hne. unfold type_of_flags. rewrite Forall_forall.
  destruct (forallb id flags) eqn:E1.
  - split; [done|]. intros Hall. destruct flags as [|f flags]; [done|].
    simpl in E1. rewrite (Hall f) in E1 by left. done.
  - destruct (forallb negb flags) eqn:E2.
    + split; [|done]. intros _ f Hf. rewrite forallb_forall in E2.
      apply list_elem_of_In, E2 in Hf. by destruct f.
    + split; [done|]. intros Hall.
      assert (forallb negb flags = true); [|congruence].
      apply forallb_forall. intros f Hf%list_elem_of_In. by rewrite (Hall f Hf).
Qed.

End Signs.

Section Release.
Context {Q V H : Type}.
Implicit Types (m : @Mem Q V H) (c : @SimplexTree H) (lf : @Leaf H).

(** Two memories hold the same [inside] flags. *)
Definition same_flags m m' : Prop := ∀ l, inside_at m' l = inside_at m l.

Lemma same_flags_refl m : same_flags m m.
Proof. done. Qed.

Lemma same_flags_trans m1 m2 m3 : same_flags m1 m2 → same_flags m2 m3 → same_flags m1 m3.
Proof. intros H1 H2 l. by rewrite H2, H1. Qed.

Lemma same_flags_heap m m' : heap m' = heap m → same_flags m m'.
Proof. intros Hh l. unfold inside_at. by rewrite Hh. Qed.

Lemma release_sub_flags p m u m' : release_sub p m = Ok (u, m') → same_flags m m'.
Proof.
  unfold release_sub. intros Hr. inv_M.
  match goal with H : deref _ _ = Ok _ |- _ =>
    apply deref_Ok in H as (l & s & ? & Hs & ?); simplify_eq end.
  match goal with H : update _ _ _ = Ok _ |- _ =>
    apply update_Ok in H as (l0 & s0 & ? & Hs0 & ?); simplify_eq end.
  assert (same_flags m (write l0 (set_refcount (refcount s - 1) s) m)) as Hw.
  { intros l'. rewrite inside_at_write. destruct (decide (l0 = l')) as [<-|?]; [|done].
    unfold inside_at. by rewrite Hs. }
  case_decide; [|by inv_M]. unfold pool_put_sub in Hr. simplify_eq.
  eapply same_flags_trans; [exact Hw|]. by apply same_flags_heap.
Qed.

Lemma Leaf_releaseTo_flags lf m u m' : Leaf_releaseTo lf m = Ok (u, m') → same_flags m m'.
Proof.
  unfold Leaf_releaseTo. intros Hr. inv_M.
  match goal with H : foldlS _ _ _ _ = Ok _ |- _ => rename H into Hf end.
  unfold pool_put_leaf in Hr. simplify_eq.
  match type of Hf with _ = Ok (_, ?m1) => apply (same_flags_trans _ m1) end;
    [|by apply same_flags_heap].
  revert Hf. apply (foldlS_inv (λ _ m1, same_flags m m1)); [|done].
  intros [] p m1 [] m2 _ H1 H2. eapply same_flags_trans; [done|]. by eapply release_sub_flags.
Qed.

Lemma releaseTo_flags c m u m' : releaseTo c m = Ok (u, m') → same_flags m m'.
Proof.
  unfold releaseTo. intros Hr. inv_M. unfold pool_put_tree in Hr. simplify_eq.
  match goal with |- same_flags _ (mkMem (heap ?m1) _ _ _ _) =>
    apply (same_flags_trans _ m1) end; [|by apply same_flags_heap].
  destruct (leaf c); inv_M; [|done].
  match goal with H : Leaf_releaseTo _ _ = Ok _ |- _ => by apply Leaf_releaseTo_flags in H end.
Qed.

Lemma releaseChildren_spec c m c' m' :
  releaseChildren c m = Ok (c', m') →
  c' = set_children (replicate (length (children c)) None) c ∧ same_flags m m'.
Proof.
  unfold releaseChildren. intros Hr. inv_M. split; [done|].
  match goal with H : foldlS _ _ _ _ = Ok _ |- _ => revert H end.
  apply (foldlS_inv (λ _ m1, same_flags m m1)); [|done].
  intros [] ch m1 [] m2 _ H1 H2. eapply same_flags_trans; [done|].
  destruct ch; inv_M; [by eapply releaseTo_flags|done].
Qed.

End Release.

Section Leaves.
Context (Dim : nat).
Context {Q V D Fl Rg H I Nb : Type} `{!Collaborators Q V D Fl Rg H I Nb}.
Implicit Types (c : @SimplexTree H) (m : @Mem Q V H) (lf : @Leaf H).

Lemma borrow_fold_length (nb : Nb) idx st m st' m' :
  foldlS (borrow_step nb) idx st m = Ok (st', m') → length st'.1 = length st.1.
Proof.
  apply (foldlS_inv (λ st1 _, length st1.1 = length st.1)); [|done].
  intros st1 i m1 st2 m2 _ Hl Hs. unfold borrow_step in Hs. inv_M. simpl.
  by rewrite length_insert.
Qed.

Lemma findLeafVertices_shape c (htape : H) (region : Rg) (nb : Nb) m c' m' :
  findLeafVertices Dim c htape region nb m = Ok (c', m') →
  ∃ lf lf', leaf c = Some lf ∧ c' = set_leaf (Some lf') c ∧
            length (sub lf') = length (sub lf) ∧
            level lf' = level lf ∧ tape lf' = tape lf ∧
            (type c = EMPTY ∨ type c = FILLED →
             ∀ p, p ∈ sub lf' → flag_at m' p (bool_decide (type c = FILLED))).
Proof.
  unfold findLeafVertices. intros Hf. destruct (leaf c) as [lf|] eqn:Hlf; [|done].
  inv_M. rename x into st.
  match goal with H : foldlS (borrow_step _) _ _ _ = Ok _ |- _ =>
    apply borrow_fold_length in H; simpl in H; rename H into Hlen end.
  eexists lf, _. split; [done|]. split; [done|]. simpl. split_and!; try done.
  intros Hpure p Hp.
  match goal with H : (if decide _ then _ else _) _ = Ok _ |- _ => rename H into Hs end.
  simpl in Hs. rewrite decide_False in Hs by (destruct Hpure as [-> | ->]; done).
  inv_M. by eapply set_inside_all.
Qed.

End Leaves.

Section Merge.
Context (Dim : nat).
Context {Q V D Fl Rg H I Nb : Type} `{!Collaborators Q V D Fl Rg H I Nb}.
Implicit Types (c : @SimplexTree H) (m : @Mem Q V H) (lf : @Leaf H).

(** The flags of a cell agree with its type: a cell of type [EMPTY] or
    [FILLED] that has a leaf has 3^Dim subspaces, all outside for [EMPTY],
    all inside for [FILLED]. *)
Definition flags_agree c m : Prop :=
  type c = EMPTY ∨ type c = FILLED →
  ∀ lf, leaf c = Some lf →
    length (sub lf) = 3 ^ Dim ∧
    ∀ p, p ∈ sub lf → flag_at m p (bool_decide (type c = FILLED)).

(** Whether one of the children is a branch. *)
Definition has_branch (cs : list (option (@SimplexTree H))) : bool :=
  existsb (λ o, match o with Some t => isBranch t | None => false end) cs.

(** The type the children give their parent. *)
Definition merged_type (cs : list (option (@SimplexTree H))) : State :=
  if forallb (λ o, match o with
                   | Some ch => bool_decide (type ch = EMPTY)
                   | None => false end) cs then EMPTY
  else if forallb (λ o, match o with
                        | Some ch => bool_decide (type ch = FILLED)
                        | None => false end) cs then FILLED
  else AMBIGUOUS.

Lemma any_branch_spec cs : ∀ m (b : bool) m',
  any_branch cs m = Ok (b, m') → m' = m ∧ b = has_branch cs.
Proof.
  induction cs as [|[t|] cs IH]; intros m b m' Ha; simpl in Ha; inv_M; [done|].
  simpl. destruct (isBranch t); inv_M; [done|]. by apply IH.
Qed.

Lemma get_subs_length (ps : list (option nat)) : ∀ acc m subs m',
  foldlS (λ acc (_ : option nat), l ← pool_get_sub; mret (acc ++ [Some l])) ps acc m
  = Ok (subs, m') → length subs = length acc + length ps.
Proof.
  induction ps as [|p ps IH]; intros acc m subs m' Hf; simpl in Hf; inv_M.
  - simpl. lia.
  - apply IH in Hf. rewrite length_app in Hf. simpl in *. lia.
Qed.

Lemma flag_at_same m m' p f : same_flags m m' → flag_at m p f → flag_at m' p f.
Proof. intros Hs (l & -> & Hl). exists l. by rewrite Hs. Qed.

Lemma typed_flags m (ps : list (option nat)) flags :
  Forall2 (flag_at m) ps flags → flags ≠ [] →
  type_of_flags flags = EMPTY ∨ type_of_flags flags = FILLED →
  ∀ p, p ∈ ps → flag_at m p (bool_decide (type_of_flags flags = FILLED)).
Proof.
  intros Hfl Hne Hty p Hp.
  apply list_elem_of_lookup_1 in Hp as [i Hi].
  destruct (Forall2_lookup_l _ _ _ _ _ Hfl Hi) as (f & Hf & Hat).
  apply list_elem_of_lookup_2 in Hf.
  destruct Hty as [Hty|Hty]; rewrite Hty; simpl.
  - apply type_of_flags_EMPTY in Hty; [|done]. rewrite Forall_forall in Hty.
    by rewrite <- (Hty f Hf).
  - apply type_of_flags_FILLED in Hty. rewrite Forall_forall in Hty.
    by rewrite <- (Hty f Hf).
Qed.

(** The paths of [collectChildren]. *)
Lemma collectChildren_inv c (htape : H) (region : Rg) (max_err : D) m o m' :
  collectChildren Dim c htape region max_err m = Ok (o, m') →
  let c0 := set_pending (pending c - 1) c in
  if decide (pending c ≠ 0%Z) then o = mkOutcome false c0 false ∧ m' = m
  else if has_branch (children c) then o = mkOutcome true c0 true ∧ m' = m
  else
    value o = true ∧ done o = true ∧ leaf c = None ∧ flags_agree (cell o) m' ∧
    if decide (merged_type (children c) = AMBIGUOUS) then
      ∃ lf m1 m2 (err : D),
        length (sub lf) = 3 ^ Dim ∧
        foldlS (sum_step Dim lf (children c))
               (i ← seq 0 (2 ^ Dim); j ← seq 0 (3 ^ Dim); [(i, j)]) () m1 = Ok ((), m2) ∧
        ∃ m3, Unroller Dim lf (replicate (3 ^ Dim) false) region m2 = Ok (err, m3) ∧
        if dlt err max_err then
          ∃ ty, cell o = set_children (replicate (length (children c)) None)
                           (set_type ty (set_leaf (Some lf) c0))
        else
          cell o = set_leaf None (set_type AMBIGUOUS c0) ∧
          Leaf_releaseTo lf m3 = Ok ((), m')
    else
      ∃ lf, cell o = set_leaf (Some lf)
                       (set_children (replicate (length (children c)) None)
                          (set_type (merged_type (children c)) c0)).
Proof.
  unfold collectChildren. intros Hc. simpl.
  destruct (decide (pending c ≠ 0%Z)) as [Hp|Hp]; [by inv_M|].
  inv_M. simpl in *.
  match goal with H : any_branch _ _ = Ok _ |- _ =>
    apply any_branch_spec in H as [-> ->] end.
  destruct (has_branch (children c)); [by inv_M|]. inv_M.
  match goal with H : bool_decide _ = true |- _ =>
    apply bool_decide_eq_true in H; simpl in H; rename H into Hleaf end.
  match goal with H : pool_get_leaf _ _ = Ok _ |- _ =>
    unfold pool_get_leaf in H; simplify_eq end.
  fold (merged_type (children c)) in Hc. simpl in Hc.
  destruct (decide (merged_type (children c) = AMBIGUOUS)) as [Ham|Ham].
  - rewrite Ham in Hc. rewrite decide_False in Hc by (intros [?|?]; done).
    apply M_bind_Ok in Hc as (subs & m1 & Hsubs & Hc).
    apply M_bind_Ok in Hc as ([] & m2 & Hsum & Hc).
    apply M_bind_Ok in Hc as (err & m3 & Hun & Hc).
    apply get_subs_length in Hsubs. rewrite length_replicate in Hsubs. simpl in Hsubs.
    destruct (dlt err max_err) eqn:Herr.
    + apply M_bind_Ok in Hc as ([] & m4 & Hsave & Hc).
      apply M_bind_Ok in Hc as (c5 & m5 & Hcheck & Hc).
      apply M_bind_Ok in Hc as (c6 & m6 & Hrel & Hc).
      apply M_bind_Ok in Hc as ([] & m7 & Has & Hc). inv_M.
      apply checkVertexSigns_spec in Hcheck as (-> & lf & flags & Hlf & Hfl & Hne & ->).
      apply releaseChildren_spec in Hrel as (-> & Hsame).
      simpl in *. simplify_eq. split_and!; try done.
      * intros Hty lf' Hlf'. simpl in *. simplify_eq. split; [done|].
        intros p Hin. eapply flag_at_same; [done|]. by eapply typed_flags.
      * eexists _, m1, m2, err. split; [|split; [exact Hsum|]]; [done|].
        exists m3. split; [done|]. rewrite Herr. by eexists.
    + apply M_bind_Ok in Hc as ([] & m4 & Hrel & Hc). inv_M.
      simpl. split_and!; try done; [by intros [?|?]..|].
      eexists _, m1, m2, err. split; [|split; [exact Hsum|]]; [done|].
      exists m3. split; [done|]. rewrite Herr. done.
  - rewrite decide_True in Hc
      by (unfold merged_type in *; repeat case_match; simpl; auto; done).
    inv_M.
    match goal with H : releaseChildren _ _ = Ok _ |- _ =>
      apply releaseChildren_spec in H as (-> & Hsame) end.
    match goal with H : findLeafVertices _ _ _ _ _ _ = Ok _ |- _ =>
      apply findLeafVertices_shape in H as (lf & lf' & Hlf & -> & Hlen & _ & _ & Hfl) end.
    simpl in *. simplify_eq. simpl in *. rewrite length_replicate in Hlen.
    split_and!; try done; [|by eexists].
    intros Hty lf1 Hlf1. simpl in *. simplify_eq. split; [done|]. by apply Hfl.
Qed.

End Merge.

Section ReleaseCount.
Context {Q V H : Type}.
Implicit Types (m : @Mem Q V H) (c : @SimplexTree H) (lf : @Leaf H).
Implicit Types (p : option nat) (ps : list (option nat)).

Lemma sub_at_Ok lf i m (p : option nat) m' :
  sub_at lf i m = Ok (p, m') ↔ sub lf !! i = Some p ∧ m' = m.
Proof.
  unfold sub_at. destruct (sub lf !! i); [rewrite M_ret_Ok|unfold fail]; naive_solver.
Qed.

(** The number of pointers of [ps] that point to the subspace at [l]. *)
Definition refs ps (l : nat) : Z :=
  Z.of_nat (length (filter (λ p, p = Some l) ps)).

Lemma refs_nonneg ps l : (0 ≤ refs ps l)%Z.
Proof. unfold refs. lia. Qed.

Lemma refs_app ps1 ps2 l : refs (ps1 ++ ps2) l = (refs ps1 l + refs ps2 l)%Z.
Proof. unfold refs. rewrite filter_app, length_app. lia. Qed.

Lemma refs_one l0 l : refs [Some l0] l = if decide (l0 = l) then 1%Z else 0%Z.
Proof.
  unfold refs. rewrite filter_cons, filter_nil.
  destruct (decide (Some l0 = Some l)) as [[= ->]|Hne].
  - by rewrite decide_True.
  - rewrite decide_False; [done|]. by intros ->.
Qed.

(** The subspaces after the pointers [ps] were released, one after the
    other: each subspace has lost one reference for every pointer to it,
    those whose count came to 0 on the way are in the pool, and nothing was
    allocated. *)
Definition released_by ps m m' : Prop :=
  (∀ l, heap m' !! l = (λ s, set_refcount (refcount s - refs ps l) s) <$> heap m !! l) ∧
  (∃ put, free_subs m' = put ++ free_subs m ∧
          ∀ l, l ∈ put ↔ ∃ s, heap m !! l = Some s ∧ (1 ≤ refcount s ≤ refs ps l)%Z) ∧
  next_loc m' = next_loc m.

Lemma set_refcount_same (s : @Subspace Q V) : set_refcount (refcount s - 0) s = s.
Proof. destruct s. unfold set_refcount. simpl. f_equal. lia. Qed.

Lemma released_by_nil m m' :
  heap m' = heap m → free_subs m' = free_subs m → next_loc m' = next_loc m →
  released_by [] m m'.
Proof.
  intros Hh Hf Hn. split_and!; [|exists []|done].
  - intros l. rewrite Hh. destruct (heap m !! l) as [s|]; [|done]. simpl.
    by rewrite set_refcount_same.
  - split; [done|]. intros l. split; [by intros ?%elem_of_nil|].
    intros (s & _ & Hs). unfold refs in Hs. simpl in Hs. lia.
Qed.

Lemma released_by_app ps1 ps2 m m1 m2 :
  released_by ps1 m m1 → released_by ps2 m1 m2 → released_by (ps1 ++ ps2) m m2.
Proof.
  intros (Hh1 & (put1 & Hf1 & Hp1) & Hn1) (Hh2 & (put2 & Hf2 & Hp2) & Hn2).
  split_and!; [|exists (put2 ++ put1)|congruence].
  - intros l. rewrite Hh2, Hh1. destruct (heap m !! l) as [s|]; [|done]. simpl.
    rewrite refs_app. destruct s. unfold set_refcount. simpl. do 2 f_equal. lia.
  - split; [by rewrite Hf2, Hf1, app_assoc|]. intros l.
    rewrite elem_of_app, Hp2, Hp1. pose proof (refs_nonneg ps1 l). pose proof (refs_nonneg ps2 l).
    rewrite refs_app. specialize (Hh1 l). split.
    + intros [(s1 & Hs1 & Hr)|(s & Hs & Hr)].
      * rewrite Hs1 in Hh1. destruct (heap m !! l) as [s|]; [|done].
        simpl in Hh1. simplify_eq. exists s. split; [done|]. simpl in Hr. lia.
      * exists s. split; [done|]. lia.
    + intros (s & Hs & Hr). rewrite Hs in Hh1. simpl in Hh1.
      destruct (decide (refcount s ≤ refs ps1 l)%Z).
      * right. exists s. split; [done|]. lia.
      * left. eexists. split; [exact Hh1|]. simpl. lia.
Qed.

Lemma release_sub_released p m u m' :
  release_sub p m = Ok (u, m') →
  released_by [p] m m' ∧ free_leaves m' = free_leaves m ∧ free_trees m' = free_trees m.
Proof.
  unfold release_sub. intros Hr. inv_M.
  match goal with H : deref _ _ = Ok _ |- _ =>
    apply deref_Ok in H as (l0 & s0 & ? & Hs0 & ?); simplify_eq end.
  match goal with H : update _ _ _ = Ok _ |- _ =>
    apply update_Ok in H as (l1 & s1 & ? & Hs1 & ?); simplify_eq end.
  assert (∀ l, heap (write (H:=H) l1 (set_refcount (refcount s0 - 1) s0) m) !! l
               = (λ s, set_refcount (refcount s - refs [Some l1] l) s) <$> heap m !! l)
    as Hheap.
  { intros l. simpl. rewrite refs_one. destruct (decide (l1 = l)) as [<-|Hne].
    - by rewrite lookup_insert_eq, Hs0.
    - rewrite lookup_insert_ne by done. destruct (heap m !! l) as [s|]; [|done].
      simpl. by rewrite set_refcount_same. }
  case_decide as Hz.
  - unfold pool_put_sub in Hr. simplify_eq. simpl. split; [|done].
    split_and!; [done|exists [l1]|done]. split; [done|]. intros l.
    rewrite list_elem_of_singleton, refs_one. split.
    + intros ->. exists s0. rewrite decide_True by done. split; [done|]. lia.
    + intros (s & Hs & Hr). case_decide; [done|lia].
  - inv_M. simpl. split; [|done].
    split_and!; [done|exists []|done]. split; [done|]. intros l.
    rewrite refs_one. split; [by intros ?%elem_of_nil|].
    intros (s & Hs & Hr). case_decide; [|lia]. simplify_eq. lia.
Qed.

Lemma release_seq ps : ∀ m u m',
  foldlS (λ (_ : ()) p, release_sub p) ps () m = Ok (u, m') →
  released_by ps m m' ∧ free_leaves m' = free_leaves m ∧ free_trees m' = free_trees m.
Proof.
  induction ps as [|p ps IH]; intros m u m' Hf; simpl in Hf; inv_M.
  - split; [by apply released_by_nil|done].
  - match goal with H : release_sub _ _ = Ok _ |- _ =>
      apply release_sub_released in H as (H1 & Hl1 & Ht1) end.
    destruct (IH _ _ _ Hf) as (H2 & Hl2 & Ht2).
    split; [|split; congruence].
    by apply (released_by_app [p] ps _ _ _ H1 H2).
Qed.

(** A leaf as it lies in the pool: every slot null. *)
Definition released_leaf lf : @Leaf H :=
  {| level := level lf; tape := tape lf; sub := replicate (length (sub lf)) None |}.

Lemma Leaf_releaseTo_spec lf m u m' :
  Leaf_releaseTo lf m = Ok (u, m') →
  released_by (sub lf) m m' ∧
  free_leaves m' = released_leaf lf :: free_leaves m ∧ free_trees m' = free_trees m.
Proof.
  unfold Leaf_releaseTo. intros Hr. inv_M.
  match goal with H : foldlS _ _ _ _ = Ok _ |- _ =>
    apply release_seq in H as ((Hh & Hput & Hn) & Hl & Ht) end.
  unfold pool_put_leaf in Hr. simplify_eq. simpl.
  split; [by split_and!|]. split; [by rewrite Hl|done].
Qed.

(** The pointers and the leaf that a cell gives back when it is released. *)
Definition cell_slots c : list (option nat) :=
  match leaf c with Some lf => sub lf | None => [] end.
Definition cell_leaves c : list (@Leaf H) :=
  match leaf c with Some lf => [released_leaf lf] | None => [] end.

Lemma releaseTo_spec c m u m' :
  releaseTo c m = Ok (u, m') →
  released_by (cell_slots c) m m' ∧
  free_leaves m' = cell_leaves c ++ free_leaves m ∧
  free_trees m' = set_leaf None c :: free_trees m.
Proof.
  unfold releaseTo, cell_slots, cell_leaves. intros Hr. inv_M.
  unfold pool_put_tree in Hr. simplify_eq. simpl.
  destruct (leaf c) as [lf|]; inv_M.
  - match goal with H : Leaf_releaseTo _ _ = Ok _ |- _ =>
      apply Leaf_releaseTo_spec in H as ((Hh & Hput & Hn) & Hl & Ht) end.
    split; [by split_and!|]. split; [done|]. by rewrite Ht.
  - split; [by apply released_by_nil|done].
Qed.

(** The memory after the children [cs] were released, one after the
    other: their subspaces have lost the references the children held,
    those left without a reference are in the pool of subspaces, and the
    leaves and the cells are in theirs, the last released first. *)
Definition children_released (cs : list (option (@SimplexTree H))) m m' : Prop :=
  released_by (ch ← omap id cs; cell_slots ch) m m' ∧
  free_leaves m' = reverse (ch ← omap id cs; cell_leaves ch) ++ free_leaves m ∧
  free_trees m' = reverse (set_leaf None <$> omap id cs) ++ free_trees m.

Lemma release_children_fold cs : ∀ m u m',
  foldlS (λ (_ : ()) ch, match ch with Some t => releaseTo t | None => mret () end)
         cs () m = Ok (u, m') →
  children_released cs m m'.
Proof.
  induction cs as [|o cs IH]; intros m u m' Hf; simpl in Hf; inv_M.
  - split; [by apply released_by_nil|done].
  - destruct (IH _ _ _ Hf) as (H2 & Hl2 & Ht2). destruct o as [ch|]; inv_M.
    + match goal with H : releaseTo _ _ = Ok _ |- _ =>
        apply releaseTo_spec in H as (H1 & Hl1 & Ht1) end.
      split_and!.
      * simpl. by eapply released_by_app.
      * simpl. rewrite Hl2, Hl1, reverse_app, <- app_assoc.
        by assert (reverse (cell_leaves ch) = cell_leaves ch) as ->
          by (unfold cell_leaves; by destruct (leaf ch)).
      * simpl. rewrite Ht2, Ht1, reverse_cons, <- app_assoc. done.
    + by split_and!.
Qed.

Lemma releaseChildren_released c m c' m' :
  releaseChildren c m = Ok (c', m') →
  c' = set_children (replicate (length (children c)) None) c ∧
  children_released (children c) m m'.
Proof.
  unfold releaseChildren. intros Hr. inv_M. split; [done|].
  by eapply release_children_fold.
Qed.

End ReleaseCount.

Section SignsSaved.
Context (Dim : nat).
Context {Q V D Fl Rg H I Nb : Type} `{!Collaborators Q V D Fl Rg H I Nb}.
Implicit Types (c : @SimplexTree H) (m : @Mem Q V H) (lf : @Leaf H).

(** The sign [saveVertexSigns] finds for the vertex of a subspace: that of
    the value of the function there, and what the feature evaluator says
    when the value is 0. *)
Definition vertex_sign (s : @Subspace Q V) (region : Rg) (htape : H) : bool :=
  let out := array_value (vert s) region htape in
  if fl_eq0 out then feature_isInside (vert s) region htape else fl_lt0 out.

(** The memory after the signs of the vertices behind the pointers [ps]
    were saved: these subspaces carry the sign of their vertex, and nothing
    else has changed. *)
Definition signs_saved (ps : list (option nat)) (region : Rg) (htape : H) m m' : Prop :=
  (∀ l, heap m' !! l
        = (λ s, if bool_decide (Some l ∈ ps)
                then set_inside (vertex_sign s region htape) s else s) <$> heap m !! l) ∧
  next_loc m' = next_loc m ∧ free_subs m' = free_subs m ∧
  free_leaves m' = free_leaves m ∧ free_trees m' = free_trees m.

Lemma vertex_sign_set_inside b (s : @Subspace Q V) (region : Rg) (htape : H) :
  vertex_sign (set_inside b s) region htape = vertex_sign s region htape.
Proof. done. Qed.

Lemma sign_fold lf solved (htape : H) (region : Rg) idxs : ∀ m u m',
  (∀ i, i ∈ idxs → solved !! i = Some false) →
  foldlS (sign_step lf solved htape region) idxs () m = Ok (u, m') →
  signs_saved (omap (λ i, sub lf !! i) idxs) region htape m m'.
Proof.
  induction idxs as [|i idxs IH]; intros m u m' Hsol Hf; simpl in Hf.
  - inv_M. split_and!; try done. intros l.
    rewrite bool_decide_eq_false_2 by (simpl; apply not_elem_of_nil).
    by destruct (heap m !! l).
  - apply M_bind_Ok in Hf as ([] & m1 & Hstep & Hf).
    unfold sign_step in Hstep. rewrite (Hsol i) in Hstep by left.
    apply M_bind_Ok in Hstep as (p & m0 & [Hp ->]%sub_at_Ok & Hstep).
    apply M_bind_Ok in Hstep as (sp & m0 & Hd & Hstep).
    apply deref_Ok in Hd as (l0 & s0 & -> & Hs0 & [= -> ->]).
    apply update_Ok in Hstep as (l1 & s1 & [= <-] & Hs1 & [= ->]).
    rewrite Hs0 in Hs1. injection Hs1 as <-.
    fold (vertex_sign s0 region htape) in Hf.
    destruct (IH _ _ _ ltac:(intros j Hj; apply Hsol; by right) Hf)
      as (Hh & Hn & Hfs & Hfl & Hft).
    assert (omap (λ i, sub lf !! i) (i :: idxs)
            = Some l0 :: omap (λ i, sub lf !! i) idxs) as ->
      by (simpl; by rewrite Hp).
    split_and!; try done. intros l. rewrite Hh. simpl.
    destruct (decide (l0 = l)) as [<-|Hne].
    + rewrite lookup_insert_eq, Hs0. simpl. rewrite (bool_decide_eq_true_2 (_ ∈ _ :: _)) by left.
      f_equal. case_bool_decide; [|done]. by destruct s0.
    + rewrite lookup_insert_ne by done. destruct (heap m !! l) as [s|]; [|done]. simpl.
      f_equal. repeat case_bool_decide; try done.
      * exfalso. match goal with H : ¬ _ |- _ => apply H end. by right.
      * match goal with H : _ ∈ _ :: _ |- _ =>
          apply elem_of_cons in H as [[= ->]|?]; done end.
Qed.

Lemma omap_lookup_seq_from {A} (l : list A) : ∀ k,
  omap (λ i, (k ++ l) !! i) (seq (length k) (length l)) = l.
Proof.
  induction l as [|x l IH]; intros k; [done|].
  cbn [length seq]. simpl. rewrite list_lookup_middle by done. f_equal.
  specialize (IH (k ++ [x])). rewrite <- app_assoc, length_app in IH. simpl in IH.
  by rewrite Nat.add_1_r in IH.
Qed.

Lemma omap_lookup_seq {A} (l : list A) : omap (λ i, l !! i) (seq 0 (length l)) = l.
Proof. exact (omap_lookup_seq_from l []). Qed.

Lemma saveVertexSigns_spec c lf (htape : H) (region : Rg) m u m' :
  leaf c = Some lf → length (sub lf) = 3 ^ Dim →
  saveVertexSigns Dim c htape region (replicate (3 ^ Dim) false) m = Ok (u, m') →
  signs_saved (sub lf) region htape m m'.
Proof.
  intros Hlf Hlen Hs. unfold saveVertexSigns in Hs. rewrite Hlf in Hs. inv_M.
  match goal with H : foldlS _ _ _ _ = Ok _ |- _ => apply sign_fold in H end.
  - by rewrite <- Hlen, omap_lookup_seq in *.
  - intros i Hi%elem_of_seq. apply lookup_replicate_2. lia.
Qed.

End SignsSaved.

Section Builders.
Context (Dim : nat).
Context {Q V D Fl Rg H I Nb : Type} `{!Collaborators Q V D Fl Rg H I Nb}.
Implicit Types (c : @SimplexTree H) (m : @Mem Q V H) (lf : @Leaf H).

Lemma evalInterval_flags c (htape : H) (region : Rg) m o m' :
  evalInterval Dim c htape region m = Ok (o, m') → flags_agree Dim (cell o) m'.
Proof.
  unfold evalInterval. intros He.
  set (r := if (interval_evalAndPush region htape).2 then _ else _) in He.
  case_decide as Hty.
  - apply M_bind_Ok in He as (lf & m1 & Hget & He).
    apply M_bind_Ok in He as (c2 & m2 & Hfind & He). inv_M.
    unfold pool_get_leaf in Hget. simplify_eq.
    apply findLeafVertices_shape in Hfind as (lf & lf' & Hlf & -> & Hlen & _ & _ & Hfl).
    simpl in *. simplify_eq. simpl in *. rewrite length_replicate in Hlen.
    intros _ lf1 Hlf1. simpl in *. simplify_eq. split; [done|].
    apply Hfl. tauto.
  - inv_M. intros Hty'. simpl in *. tauto.
Qed.

Lemma evalLeaf_flags c (htape : H) (region : Rg) (nb : Nb) m o m' :
  evalLeaf Dim c htape region nb m = Ok (o, m') → flags_agree Dim (cell o) m'.
Proof.
  unfold evalLeaf. intros He.
  apply M_bind_Ok in He as (lf & m1 & Hget & He).
  apply M_bind_Ok in He as ([] & m2 & Has & He).
  apply M_bind_Ok in He as (c3 & m3 & Hfind & He).
  apply M_bind_Ok in He as (c4 & m4 & Hcheck & He). inv_M.
  unfold pool_get_leaf in Hget. simplify_eq.
  apply findLeafVertices_shape in Hfind as (lf & lf' & Hlf & -> & Hlen & _).
  apply checkVertexSigns_spec in Hcheck as (-> & lf2 & flags & Hlf2 & Hfl & Hne & ->).
  simpl in *. simplify_eq. simpl in *. rewrite length_replicate in Hlen.
  intros Hty lf1 Hlf1. simpl in *. simplify_eq. split; [done|].
  by apply typed_flags.
Qed.

(** The loop of [collectChildren] that takes the subspaces of the new leaf
    from the pool. *)
Definition take_subs : list (option nat) → list (option nat) → @M Q V H (list (option nat)) :=
  foldlS (λ acc (_ : option nat), l ← pool_get_sub; mret (acc ++ [Some l])).

(** C7, amended: [collectChildren] does nothing but count down unless it
    is the last call; it then leaves the cell a branch, allocating
    nothing, when a child is a branch.  Otherwise it takes a leaf from the
    pool.  When all children are [EMPTY], or all are [FILLED], it releases
    the children to the pools and builds the leaf of the parent from the
    corners of the region with [findLeafVertices], with no test of the
    error.  When the children are mixed, it takes the subspaces of the leaf
    from the pool, sums the QEFs of the children into them and solves the
    vertices; if the largest error is below [max_err] it commits: the sign
    of every vertex of the leaf is saved, the type is the one the signs
    give, and the children are released to the pools, which leaves the cell
    a leaf; if it is not, it rejects: the leaf goes back to the pool, the
    children are kept and the type is [AMBIGUOUS]. *)
Theorem collectChildren_outcomes c (htape : H) (region : Rg) (max_err : D) m o m' :
  collectChildren Dim c htape region max_err m = Ok (o, m') →
  let c0 := set_pending (pending c - 1) c in
  if decide (pending c ≠ 0%Z) then o = mkOutcome false c0 false ∧ m' = m
  else if has_branch (children c) then o = mkOutcome true c0 true ∧ m' = m
  else
    value o = true ∧ done o = true ∧ leaf c = None ∧ flags_agree Dim (cell o) m' ∧
    ∃ m0, pool_get_leaf Dim m = Ok (Leaf_new Dim, m0) ∧
    let none := replicate (length (children c)) None in
    if decide (merged_type (children c) = AMBIGUOUS) then
      ∃ subs m1 m2 (err : D) m3,
        take_subs (replicate (3 ^ Dim) None) [] m0 = Ok (subs, m1) ∧
        length subs = 3 ^ Dim ∧
        let lf := {| level := region_level region; tape := Some htape; sub := subs |} in
        foldlS (sum_step Dim lf (children c))
               (i ← seq 0 (2 ^ Dim); j ← seq 0 (3 ^ Dim); [(i, j)]) () m1 = Ok ((), m2) ∧
        Unroller Dim lf (replicate (3 ^ Dim) false) region m2 = Ok (err, m3) ∧
        if dlt err max_err then
          ∃ m4 flags,
            signs_saved subs region htape m3 m4 ∧
            Forall2 (flag_at m4) subs flags ∧
            cell o = set_children none
                       (set_type (type_of_flags flags) (set_leaf (Some lf) c0)) ∧
            isBranch (cell o) = false ∧
            children_released (children c) m4 m'
        else
          cell o = set_leaf None (set_type AMBIGUOUS c0) ∧
          released_by subs m3 m' ∧
          free_leaves m' = released_leaf lf :: free_leaves m3 ∧
          free_trees m' = free_trees m3
    else
      ∃ m1 lf',
        let lf0 := {| level := region_level region; tape := Some htape;
                      sub := replicate (3 ^ Dim) None |} in
        children_released (children c) m0 m1 ∧
        findLeafVertices Dim
          (set_children none (set_type (merged_type (children c)) (set_leaf (Some lf0) c0)))
          htape region nb_empty m1 = Ok (cell o, m') ∧
        cell o = set_leaf (Some lf')
                   (set_children none (set_type (merged_type (children c)) c0)) ∧
        length (sub lf') = 3 ^ Dim ∧ isBranch (cell o) = false.
Proof.
  intros Hc. pose proof (collectChildren_inv Dim _ _ _ _ _ _ _ Hc) as Hinv.
  cbn zeta in *.
  destruct (decide (pending c ≠ 0%Z)) as [Hp|Hp]; [done|].
  destruct (has_branch (children c)) eqn:Hbr; [done|].
  destruct Hinv as (Hv & Hd & Hleaf & Hfl & _).
  do 4 (split; [done|]).
  unfold collectChildren in Hc. cbn zeta in Hc. rewrite decide_False in Hc by done.
  apply M_bind_Ok in Hc as (br & mb & [-> ->]%any_branch_spec & Hc). simpl in Hc.
  rewrite Hbr in Hc.
  apply M_bind_Ok in Hc as ([] & ma & [_ [= <-]]%massert_Ok & Hc).
  apply M_bind_Ok in Hc as (lfp & m0 & Hget & Hc).
  assert (lfp = Leaf_new Dim) as -> by (unfold pool_get_leaf in Hget; by simplify_eq).
  exists m0. split; [done|].
  fold (merged_type (children c)) in Hc. simpl in Hc.
  assert (∀ cx : @SimplexTree H,
            isBranch (set_children (replicate (length (children c)) None) cx) = false)
    as Hnobr.
  { intros cx. unfold isBranch. simpl. by destruct (length (children c)). }
  destruct (decide (merged_type (children c) = AMBIGUOUS)) as [Ham|Ham].
  - rewrite Ham in Hc. rewrite decide_False in Hc by (intros [?|?]; done).
    apply M_bind_Ok in Hc as (subs & m1 & Hsubs & Hc).
    apply M_bind_Ok in Hc as ([] & m2 & Hsum & Hc).
    apply M_bind_Ok in Hc as (err & m3 & Hun & Hc).
    pose proof (get_subs_length _ _ _ _ _ Hsubs) as Hlen.
    rewrite length_replicate in Hlen. simpl in Hlen.
    exists subs, m1, m2, err, m3. do 4 (split; [done|]).
    destruct (dlt err max_err) eqn:Herr.
    + apply M_bind_Ok in Hc as ([] & m4 & Hsave & Hc).
      apply M_bind_Ok in Hc as (c5 & m5 & Hcheck & Hc).
      apply M_bind_Ok in Hc as (c6 & m6 & Hrel & Hc).
      apply M_bind_Ok in Hc as ([] & m7 & Has & Hc). inv_M.
      apply checkVertexSigns_spec in Hcheck as (-> & lf & flags & Hlf & Hflags & Hne & ->).
      apply releaseChildren_released in Hrel as (-> & Hrel).
      simpl in Hlf. injection Hlf as <-.
      eapply saveVertexSigns_spec in Hsave; [|reflexivity|done].
      exists m4, flags. simpl in *. split_and!; try done; try apply Hnobr.
    + apply M_bind_Ok in Hc as ([] & m4 & Hrel & Hc). inv_M.
      apply Leaf_releaseTo_spec in Hrel as (Hrb & Hl & Ht). simpl in *. done.
  - rewrite decide_True in Hc
      by (unfold merged_type in *; repeat case_match; simpl; auto; done).
    apply M_bind_Ok in Hc as (c1 & m1 & Hrel & Hc).
    apply M_bind_Ok in Hc as ([] & m2 & [_ [= <-]]%massert_Ok & Hc).
    apply M_bind_Ok in Hc as (c3 & m3 & Hfind & Hc). inv_M.
    apply releaseChildren_released in Hrel as (-> & Hrel). simpl in Hrel.
    pose proof Hfind as (lf & lf' & Hlf & -> & Hlen & _)%findLeafVertices_shape.
    simpl in Hlf. injection Hlf as <-. simpl in Hlen. rewrite length_replicate in Hlen.
    eexists _, lf'. simpl. split_and!; [exact Hrel|exact Hfind|done|done|apply Hnobr].
Qed.

(** C8: [findLeafVertices] on a cell of type [EMPTY] or [FILLED] keeps the
    type and sets the flag of every subspace of the leaf to the type;
    [checkVertexSigns] leaves the memory as it is and makes the cell
    [FILLED] exactly when every subspace of its leaf is inside, [EMPTY]
    exactly when every one is outside, and [AMBIGUOUS] otherwise; and the
    cell that [evalInterval], [evalLeaf] or [collectChildren] leaves behind,
    when its type is [EMPTY] or [FILLED] and it has a leaf, has 3^Dim
    subspaces whose flags all agree with the type. *)
Theorem pure_cells_have_uniform_flags :
  (∀ c (htape : H) (region : Rg) (nb : Nb) m c' m',
     findLeafVertices Dim c htape region nb m = Ok (c', m') →
     type c = EMPTY ∨ type c = FILLED →
     type c' = type c ∧
     ∃ lf, leaf c' = Some lf ∧
           ∀ p, p ∈ sub lf → flag_at m' p (bool_decide (type c' = FILLED))) ∧
  (∀ c m c' m',
     checkVertexSigns c m = Ok (c', m') →
     m' = m ∧ leaf c' = leaf c ∧
     ∃ lf flags, leaf c = Some lf ∧ Forall2 (flag_at m) (sub lf) flags ∧
       (type c' = FILLED ↔ Forall (λ f, f = true) flags) ∧
       (type c' = EMPTY ↔ Forall (λ f, f = false) flags) ∧
       (type c' = FILLED ∨ type c' = EMPTY ∨ type c' = AMBIGUOUS)) ∧
  (∀ c (htape : H) (region : Rg) m o m',
     evalInterval Dim c htape region m = Ok (o, m') → flags_agree Dim (cell o) m') ∧
  (∀ c (htape : H) (region : Rg) (nb : Nb) m o m',
     evalLeaf Dim c htape region nb m = Ok (o, m') → flags_agree Dim (cell o) m') ∧
  (∀ c (htape : H) (region : Rg) (max_err : D) m o m',
     collectChildren Dim c htape region max_err m = Ok (o, m') →
     leaf c = None → flags_agree Dim (cell o) m').
Proof.
  split_and!.
  - intros c htape region nb m c' m' Hf Hty.
    apply findLeafVertices_shape in Hf as (lf & lf' & Hlf & -> & _ & _ & _ & Hfl).
    split; [done|]. exists lf'. split; [done|]. simpl. by apply Hfl.
  - intros c m c' m' Hc.
    apply checkVertexSigns_spec in Hc as (-> & lf & flags & Hlf & Hfl & Hne & ->).
    split; [done|]. split; [done|]. exists lf, flags. simpl. split_and!; try done.
    + apply type_of_flags_FILLED.
    + by apply type_of_flags_EMPTY.
    + unfold type_of_flags. repeat case_match; auto.
  - intros c htape region m o m'. apply evalInterval_flags.
  - intros c htape region nb m o m'. apply evalLeaf_flags.
  - intros c htape region max_err m o m' Hc Hleaf.
    apply collectChildren_inv in Hc. simpl in Hc.
    case_decide; [destruct Hc as [-> ->]; intros _ lf Hlf; simpl in *; congruence|].
    destruct (has_branch (children c));
      [destruct Hc as [-> ->]; intros _ lf Hlf; simpl in *; congruence|].
    tauto.
Qed.

End Builders.

Section Indices.
Context (Dim : nat).
Context {Q V D Fl Rg H I Nb : Type} `{!Collaborators Q V D Fl Rg H I Nb}.
Implicit Types (c t : @SimplexTree H) (m : @Mem Q V H) (lf : @Leaf H).
Implicit Types (n k counter : N) (nb : Nb) (stack below : list Nb).

(** The index of the subspace at an address. *)
Definition index_at m (l : nat) : option N := index <$> heap m !! l.

(** [n] is the first index other than 0 among the subspaces at [ls], in
    their order. *)
Definition first_index (ls : list nat) m n : Prop :=
  n ≠ 0%N ∧
  ∃ (j : nat) l, ls !! j = Some l ∧ index_at m l = Some n ∧
         ∀ (j' : nat) l', j' < j → ls !! j' = Some l' → index_at m l' = Some 0%N.

(** None of the subspaces at [ls] has an index yet. *)
Definition no_index (ls : list nat) m : Prop :=
  ∀ l, l ∈ ls → index_at m l = Some 0%N.

(** What the table [nb] knows of subspace [i]: the first index other than
    0 among the subspaces in which [getIndex] looks, or that there is
    none. *)
Definition found_in nb (i : nat) m n : Prop := first_index (nb_candidates nb i) m n.
Definition none_in nb (i : nat) m : Prop := no_index (nb_candidates nb i) m.


Lemma getIndex_fold (ls : list nat) : ∀ (found : N) m n m',
  foldlS (λ (found : N) l,
            if decide (found ≠ 0%N) then mret found
            else s ← deref (Some l); mret (index s)) ls found m = Ok (n, m') →
  m' = m ∧
  if decide (found ≠ 0%N) then n = found
  else first_index ls m n ∨ n = 0%N ∧ no_index ls m.
Proof.
  induction ls as [|l ls IH]; intros found m n m' Hf; simpl in Hf; inv_M.
  - split; [done|]. case_decide as Hfound; [done|]. right.
    split; [lia|]. by intros l ?%elem_of_nil.
  - case_decide as Hfound.
    + inv_M. destruct (IH _ _ _ _ Hf) as (-> & Hn). by rewrite decide_True in Hn.
    + inv_M.
      match goal with H : deref _ _ = Ok _ |- _ =>
        apply deref_Ok in H as (l0 & s & ? & Hs & ?); simplify_eq end.
      assert (index_at m l0 = Some (index s)) as Hl0 by (unfold index_at; by rewrite Hs).
      destruct (IH _ _ _ _ Hf) as (-> & Hn). split; [done|].
      destruct (decide (index s ≠ 0%N)) as [Hidx|Hidx].
      * subst n. left. split; [done|]. exists 0, l0. split; [done|]. split; [done|].
        intros j' l' Hj'. lia.
      * assert (index s = 0%N) as Hz by lia.
        rewrite Hz in Hl0.
        destruct Hn as [(Hn & j & l & Hk & Hl & Hbefore)|[-> Hnone]].
        -- left. split; [done|]. exists (S j), l. split; [done|]. split; [done|].
           intros [|j'] l' Hj' Hl'; simpl in Hl'; [by simplify_eq|]. eapply Hbefore; [|done]. lia.
        -- right. split; [done|]. intros l [->|?]%elem_of_cons; [done|by apply Hnone].
Qed.

(** [getIndex] gives the first index other than 0 that the table knows, and
    0 only when it knows none. *)
Lemma getIndex_spec nb i m n m' :
  getIndex nb i m = Ok (n, m') →
  m' = m ∧ (found_in nb i m n ∨ n = 0%N ∧ none_in nb i m).
Proof.
  unfold getIndex. intros (-> & Hn)%getIndex_fold. split; [done|].
  by rewrite decide_False in Hn by (intros ?; done).
Qed.

(** The cell and its [d] nearest ancestors all sit at the corner [i] of
    their parents: the walk towards the root goes [d + 1] steps up. *)
Definition on_chain (i : nat) (targets : list (bool * nat)) (d : nat) : Prop :=
  ∀ j, j ≤ d → targets !! j = Some (true, ni_pos i).

(** The walk towards the root finds [n]: it is what the table of the
    nearest ancestor on the chain that knows an index holds for [i]. *)
Definition ancestor_found (i : nat) (targets : list (bool * nat)) below m n : Prop :=
  ∃ d nb, on_chain i targets d ∧ below !! d = Some nb ∧ found_in nb i m n ∧
          ∀ j nbj, j < d → below !! j = Some nbj → none_in nbj i m.

(** No table of an ancestor on the chain knows an index for [i]. *)
Definition ancestor_none (i : nat) (targets : list (bool * nat)) below m : Prop :=
  ∀ d nb, on_chain i targets d → below !! d = Some nb → none_in nb i m.


Lemma on_chain_cons i tg targets d :
  on_chain i (tg :: targets) (S d) ↔ tg = (true, ni_pos i) ∧ on_chain i targets d.
Proof.
  unfold on_chain. split.
  - intros Hch. split.
    + specialize (Hch 0 ltac:(lia)). simpl in Hch. by simplify_eq.
    + intros j Hj. apply (Hch (S j)). lia.
  - intros [-> Hch] [|j] Hj; simpl; [done|]. apply Hch. lia.
Qed.

(** [walk_up] gives the index of the nearest ancestor on the chain whose
    table knows one, and 0 only when none does. *)
Lemma walk_up_spec i targets : ∀ below m n m',
  walk_up i targets below m = Ok (n, m') →
  m' = m ∧ (n ≠ 0%N ∧ ancestor_found i targets below m n ∨
            n = 0%N ∧ ancestor_none i targets below m).
Proof.
  induction targets as [|tg targets IH]; intros below m n m' Hw; simpl in Hw.
  { inv_M. split; [done|]. right. split; [done|].
    intros d nb Hch. specialize (Hch 0 ltac:(lia)). done. }
  destruct (tg.1 && bool_decide (tg.2 = ni_pos i)) eqn:Htg.
  2:{ inv_M. split; [done|]. right. split; [done|].
      intros d nb Hch. specialize (Hch 0 ltac:(lia)). simpl in Hch. simplify_eq.
      simpl in Htg. by rewrite bool_decide_eq_true_2 in Htg. }
  apply andb_true_iff in Htg as [Ht1 Ht2%bool_decide_eq_true].
  assert (tg = (true, ni_pos i)) as -> by (destruct tg; simpl in *; congruence).
  destruct below as [|nb below]; [done|]. inv_M.
  match goal with H : getIndex _ _ _ = Ok _ |- _ =>
    apply getIndex_spec in H as (-> & Hg) end.
  case_decide as Hn0.
  - inv_M. split; [done|]. left. split; [done|].
    destruct Hg as [Hg|[? _]]; [|done].
    exists 0, nb. split_and!; [|done|done|intros j nbj Hj; lia].
    intros j Hj. by assert (j = 0) as -> by lia.
  - destruct Hg as [[? _]|[_ Hnone]]; [done|].
    destruct (IH _ _ _ _ Hw) as (-> & [(Hn & d & nb' & Hch & Hnb & Hf & Hnear)|[-> Hnone']]).
    + split; [done|]. left. split; [done|]. exists (S d), nb'.
      split_and!; [by apply on_chain_cons|done|done|].
      intros [|j] nbj Hj Hnbj; simpl in Hnbj; [by simplify_eq|].
      eapply Hnear; [|done]. lia.
    + split; [done|]. right. split; [done|].
      intros [|d] nb' Hch Hnb'; simpl in Hnb'; [by simplify_eq|].
      apply on_chain_cons in Hch as [_ Hch]. by eapply Hnone'.
Qed.

(** What one iteration of the loop over the subspaces of a leaf does.  The
    subspace takes the index its neighbour table knows for it; or, for a
    corner the table does not know, the index known to the nearest ancestor
    on the chain; or, for a corner no table knows, keeps the index it has
    already; or else takes the counter, which then moves on. *)
Inductive slot_outcome lf (targets : list (bool * nat)) stack counter (i : nat) m
    : N → @Mem Q V H → Prop :=
  | from_neighbor nb below l s n :
      stack = nb :: below → sub lf !! i = Some (Some l) → heap m !! l = Some s →
      found_in nb i m n →
      slot_outcome lf targets stack counter i m counter (write l (set_index n s) m)
  | from_ancestor nb below l s n :
      stack = nb :: below → sub lf !! i = Some (Some l) → heap m !! l = Some s →
      none_in nb i m → ni_isCorner i = true →
      ancestor_found i targets below m n →
      slot_outcome lf targets stack counter i m counter (write l (set_index n s) m)
  | already_set nb below l s :
      stack = nb :: below → sub lf !! i = Some (Some l) → heap m !! l = Some s →
      none_in nb i m → ni_isCorner i = true →
      ancestor_none i targets below m → index s ≠ 0%N →
      slot_outcome lf targets stack counter i m counter m
  | fresh nb below l s :
      stack = nb :: below → sub lf !! i = Some (Some l) → heap m !! l = Some s →
      none_in nb i m →
      (ni_isCorner i = true → ancestor_none i targets below m ∧ index s = 0%N) →
      slot_outcome lf targets stack counter i m (next_index counter)
                   (write l (set_index counter s) m).

Lemma assign_slot_spec lf targets stack counter i m counter' m' :
  assign_slot lf targets stack counter i m = Ok (counter', m') →
  slot_outcome lf targets stack counter i m counter' m'.
Proof.
  unfold assign_slot. intros Ha. destruct stack as [|nb below]; [done|].
  apply M_bind_Ok in Ha as (p & m1 & [Hp ->]%sub_at_Ok & Ha).
  apply M_bind_Ok in Ha as (n & m1 & Hget & Ha).
  pose proof Hget as (-> & Hg)%getIndex_spec.
  case_decide as Hn.
  - apply M_bind_Ok in Ha as ([] & m2 & Hu & Ha). inv_M.
    apply update_Ok in Hu as (l & s & -> & Hs & [= ->]).
    destruct Hg as [Hg|[? _]]; [|done]. by eapply from_neighbor.
  - destruct Hg as [[? _]|[-> Hnone]]; [done|].
    apply M_bind_Ok in Ha as (found & m2 & Hfound & Ha).
    destruct (ni_isCorner i) eqn:Hcorner.
    + apply M_bind_Ok in Hfound as (n2 & m3 & Hwalk & Hfound).
      pose proof Hwalk as (-> & Hw)%walk_up_spec.
      apply M_bind_Ok in Hfound as ([] & m4 & Hu & Hfound).
      apply M_bind_Ok in Hfound as (s' & m5 & Hd & Hfound). inv_M.
      apply deref_Ok in Hd as (l & s1 & -> & Hs1 & [= -> ->]).
      case_decide as Hn2.
      * apply update_Ok in Hu as (l' & s & [= <-] & Hs & [= ->]).
        destruct Hw as [[_ Hw]|[? _]]; [|done].
        unfold write in Hs1. simpl in Hs1. rewrite lookup_insert_eq in Hs1. simplify_eq.
        simpl in Ha. rewrite bool_decide_eq_true_2 in Ha by done. inv_M.
        by eapply from_ancestor.
      * destruct Hw as [[? _]|[-> Hw]]; [done|].
        inv_M. case_bool_decide as Hidx; inv_M.
        -- by eapply already_set.
        -- match goal with H : update _ _ _ = Ok _ |- _ =>
             apply update_Ok in H as (l' & s & [= <-] & Hs & [= ->]) end.
           eapply fresh; try done. intros _. split; [done|].
           congruence.
    + inv_M.
      match goal with H : update _ _ _ = Ok _ |- _ =>
        apply update_Ok in H as (l' & s & -> & Hs & [= ->]) end.
      eapply fresh; try done. intros ?. congruence.
Qed.




End Indices.

Section Trees.
Context {H : Type}.

Lemma SimplexTree_children_ind (P : @SimplexTree H → Prop) :
  (∀ t, Forall (λ o, ∀ ch, o = Some ch → P ch) (children t) → P t) → ∀ t, P t.
Proof.
  intros IH. fix rec 1. intros [ty lf cs par pi pend]. apply IH. simpl.
  induction cs as [|o cs IHcs]; [apply Forall_nil_2|].
  apply Forall_cons_2; [|exact IHcs].
  destruct o as [ch|]; intros ch' Heq; [|discriminate].
  injection Heq as <-. apply rec.
Qed.

End Trees.

Section Pass.
Context (Dim : nat).
Context {Q V D Fl Rg H I Nb : Type} `{!Collaborators Q V D Fl Rg H I Nb}.
Context (nb_push : Nb → nat → list (option (@SimplexTree H)) → Nb).
Implicit Types (c t : @SimplexTree H) (m : @Mem Q V H) (lf : @Leaf H).
Implicit Types (n k counter : N) (nb : Nb) (stack below : list Nb).











(** The loop over the children of a branch. *)
Definition children_pass (all : list (option (@SimplexTree H)))
    (targets : list (bool * nat)) stack
  : list (option (@SimplexTree H)) → nat → N → @M Q V H N :=
  fix go cs i counter :=
    match cs with
    | [] => mret counter
    | ch :: cs =>
        match stack, ch with
        | [], _ => fail OutOfRange
        | _, None => fail NullPointer
        | top :: _, Some ch =>
            counter ← assignIndices_rec Dim nb_push ch
                        ((parent ch, parent_index ch) :: targets)
                        (nb_push top i all :: stack) counter;
            go cs (S i) counter
        end
    end.



Lemma assignIndices_rec_eq t targets stack counter :
  assignIndices_rec Dim nb_push t targets stack counter =
  if isBranch t then
    _ ← massert (bool_decide (leaf t = None));
    children_pass (children t) targets stack (children t) 0 counter
  else match leaf t with
       | None => fail AssertFailed
       | Some lf => foldlS (assign_slot lf targets stack) (seq 0 (3 ^ Dim)) counter
       end.
Proof. by destruct t. Qed.







End Pass.

Section PassTotal.
Context (Dim : nat).
Context {Q V D Fl Rg H I Nb : Type} `{!Collaborators Q V D Fl Rg H I Nb}.
Context (nb_push : Nb → nat → list (option (@SimplexTree H)) → Nb).
Implicit Types (c t : @SimplexTree H) (m : @Mem Q V H) (lf : @Leaf H).
Implicit Types (n k counter : N) (nb : Nb) (stack below : list Nb).

























End PassTotal.

Section IndexAssignment.
Context (Dim : nat).
Context {Q V D Fl Rg H I Nb : Type} `{!Collaborators Q V D Fl Rg H I Nb}.
Context (nb_push : Nb → nat → list (option (@SimplexTree H)) → Nb).
Implicit Types (c t : @SimplexTree H) (m : @Mem Q V H) (lf : @Leaf H).
Implicit Types (n k counter : N) (nb : Nb) (stack below : list Nb).


End IndexAssignment.

Section HeapTotal.
Context {Q V H : Type}.
Implicit Types (m : @Mem Q V H) (lf : @Leaf H) (p : option nat).

(** The computation runs through from [m], with no failed assertion and no
    null pointer followed. *)
Definition returns {A} (x : @M Q V H A) m : Prop := ∃ a m', x m = Ok (a, m').

(** A pointer to a subspace of the memory. *)
Definition ptr_ok m p : Prop := ∃ l, p = Some l ∧ is_Some (heap m !! l).

(** The memory keeps its subspaces. *)
Definition grows m m' : Prop := ∀ l, is_Some (heap m !! l) → is_Some (heap m' !! l).

Lemma grows_refl m : grows m m.
Proof. by intros l ?. Qed.

Lemma grows_trans m1 m2 m3 : grows m1 m2 → grows m2 m3 → grows m1 m3.
Proof. intros H1 H2 l ?. by apply H2, H1. Qed.

Lemma ptr_ok_grows m m' p : ptr_ok m p → grows m m' → ptr_ok m' p.
Proof. intros (l & -> & ?) Hg. exists l. split; [done|]. by apply Hg. Qed.

Lemma grows_write l s m : grows m (write (H:=H) l s m).
Proof.
  intros l' Hl'. unfold write. simpl. rewrite lookup_insert_is_Some.
  destruct (decide (l = l')); auto.
Qed.

Lemma grows_heap m m' : heap m' = heap m → grows m m'.
Proof. intros Hh l. by rewrite Hh. Qed.

Lemma deref_total m p : ptr_ok m p → ∃ s, deref p m = Ok (s, m).
Proof. intros (l & -> & [s Hs]). unfold deref. rewrite Hs. by eexists. Qed.

Lemma update_total m p (f : @Subspace Q V → @Subspace Q V) :
  ptr_ok m p → ∃ m', update p f m = Ok ((), m') ∧ grows m m'.
Proof.
  intros (l & -> & [s Hs]). unfold update. rewrite Hs. eexists. split; [done|].
  apply (grows_write l (f s) m).
Qed.

Lemma bind_run {A B} (x : @M Q V H A) (f : A → @M Q V H B) m a m' :
  x m = Ok (a, m') → (x ≫= f) m = f a m'.
Proof. intros Hx. unfold mbind, M_bind. by rewrite Hx. Qed.

Lemma bind_err {A B} (x : @M Q V H A) (f : A → @M Q V H B) m e :
  x m = Err e → (x ≫= f) m = Err e.
Proof. intros Hx. unfold mbind, M_bind. by rewrite Hx. Qed.

Lemma foldlS_total {A B} (P : @Mem Q V H → Prop) (f : B → A → @M Q V H B) l :
  (∀ s x m, x ∈ l → P m → ∃ s' m', f s x m = Ok (s', m') ∧ P m') →
  ∀ s m, P m → ∃ s' m', foldlS f l s m = Ok (s', m') ∧ P m'.
Proof.
  induction l as [|x l IH]; intros Hstep s m HP.
  - by eexists _, _.
  - destruct (Hstep s x m) as (s1 & m1 & Hx & HP1); [by left|done|].
    destruct (IH (λ s x m Hin, Hstep s x m (ltac:(by right))) s1 m1 HP1)
      as (s' & m' & Hf & HP').
    exists s', m'. split; [|done]. simpl. unfold mbind, M_bind. by rewrite Hx.
Qed.

End HeapTotal.

Section LeafTotal.
Context (Dim : nat).
Context {Q V D Fl Rg H I Nb : Type} `{!Collaborators Q V D Fl Rg H I Nb}.
Implicit Types (c : @SimplexTree H) (m : @Mem Q V H) (lf : @Leaf H).

(** A leaf with its 3^Dim subspaces. *)
Definition leaf_ok m lf : Prop :=
  length (sub lf) = 3 ^ Dim ∧ Forall (ptr_ok m) (sub lf).

(** What [check] finds are subspaces of the memory. *)
Definition check_ok m (nb : Nb) : Prop :=
  ∀ i l, nb_check nb i = Some l → is_Some (heap m !! l).

(** The subspace of a corner is one of the 3^Dim subspaces. *)
Definition corners_ok : Prop := ∀ i, i < 2 ^ Dim → corner_neighbor i < 3 ^ Dim.

Lemma leaf_ok_grows m m' lf : leaf_ok m lf → grows m m' → leaf_ok m' lf.
Proof.
  intros [Hlen Hall] Hg. split; [done|]. eapply Forall_impl; [done|].
  intros p ?. by eapply ptr_ok_grows.
Qed.

Lemma leaf_ok_sub_at m lf i :
  leaf_ok m lf → i < 3 ^ Dim → ∃ p, sub_at lf i m = Ok (p, m) ∧ ptr_ok m p.
Proof.
  intros [Hlen Hall] Hi. destruct (lookup_lt_is_Some_2 (sub lf) i) as [p Hp]; [lia|].
  exists p. unfold sub_at. rewrite Hp. split; [done|].
  rewrite Forall_forall in Hall. apply Hall. by eapply list_elem_of_lookup_2.
Qed.

Lemma pool_get_sub_total m :
  ∃ l m', pool_get_sub m = Ok (l, m') ∧ grows m m' ∧ is_Some (heap m' !! l).
Proof.
  unfold pool_get_sub. destruct (free_subs m) as [|l rest].
  - eexists _, _. split; [done|]. split.
    + intros l' Hl'. simpl. rewrite lookup_insert_is_Some.
      destruct (decide (next_loc m = l')); auto.
    + simpl. by rewrite lookup_insert_eq.
  - eexists _, _. split; [done|]. split.
    + intros l' Hl'. simpl. rewrite lookup_insert_is_Some.
      destruct (decide (l = l')); auto.
    + simpl. by rewrite lookup_insert_eq.
Qed.

(** Whether a neighbour lends the subspace [i]. *)
Definition lent (nb : Nb) (i : nat) : bool := bool_decide (is_Some (nb_check nb i)).

(** What the first loop of [findLeafVertices] leaves at position [i]: a
    pointer to a subspace, the neighbour's when a neighbour lends one, and
    the mark that tells whether it was lent. *)
Definition borrowed_at (nb : Nb) m (st : list (option nat) * list bool) (i : nat) : Prop :=
  (∃ p, st.1 !! i = Some p ∧ ptr_ok m p ∧ ∀ l, nb_check nb i = Some l → p = Some l) ∧
  st.2 !! i = Some (lent nb i).

Lemma borrowed_at_grows nb m m' st i :
  borrowed_at nb m st i → grows m m' → borrowed_at nb m' st i.
Proof.
  intros [(p & Hp & Hok & Hl) Hs] Hg. split; [|done].
  exists p. split; [done|]. split; [by eapply ptr_ok_grows|done].
Qed.

Lemma borrow_step_total (nb : Nb) st i m m0 :
  check_ok m0 nb → grows m0 m → i < length st.1 → i < length st.2 →
  st.2 !! i = Some false ∨ st.2 !! i = Some (lent nb i) →
  ∃ st' m', borrow_step nb st i m = Ok (st', m') ∧ grows m m' ∧
            length st'.1 = length st.1 ∧ length st'.2 = length st.2 ∧
            borrowed_at nb m' st' i ∧
            ∀ j, j ≠ i → st'.1 !! j = st.1 !! j ∧ st'.2 !! j = st.2 !! j.
Proof.
  intros Hnb Hg Hi Hi2 Hmark. unfold borrow_step.
  unfold mbind, M_bind, massert. rewrite bool_decide_eq_true_2 by done.
  unfold mret, M_ret. simpl.
  destruct (nb_check nb i) as [l|] eqn:Hchk.
  - assert (ptr_ok m (Some l)) as Hp.
    { exists l. split; [done|]. apply Hg. by eapply Hnb. }
    cbn [fst snd].
    destruct (update_total m (Some l) (λ s, set_refcount (refcount s + 1) s) Hp)
      as (m' & -> & Hg').
    eexists _, m'. split; [done|]. simpl. rewrite !length_insert.
    split_and!; try done.
    + split.
      * exists (Some l). split; [by apply list_lookup_insert_eq|].
        split; [by eapply ptr_ok_grows|]. intros l' Hl'. by simplify_eq.
      * simpl. rewrite list_lookup_insert_eq by done. unfold lent.
        rewrite Hchk. by rewrite bool_decide_eq_true_2.
    + intros j Hj. by rewrite !list_lookup_insert_ne.
  - destruct (pool_get_sub_total m) as (l & m1 & -> & Hg1 & Hl).
    assert (ptr_ok m1 (Some l)) as Hp by (by exists l).
    cbn [fst snd].
    destruct (update_total m1 (Some l) (λ s, set_refcount (refcount s + 1) s) Hp)
      as (m' & -> & Hg').
    eexists _, m'. split; [done|]. simpl. rewrite !length_insert.
    split_and!; try done.
    + by eapply grows_trans.
    + split.
      * exists (Some l). split; [by apply list_lookup_insert_eq|].
        split; [by eapply ptr_ok_grows|]. intros l' Hl'. by rewrite Hchk in Hl'.
      * simpl. unfold lent in *. rewrite Hchk in *.
        rewrite bool_decide_eq_false_2 in * by (by intros [? ?]).
        by destruct Hmark.
    + intros j Hj. by rewrite list_lookup_insert_ne.
Qed.

Lemma borrow_fold_total (nb : Nb) m0 idxs : ∀ st m,
  check_ok m0 nb → grows m0 m → length st.2 = length st.1 →
  (∀ i, i ∈ idxs → i < length st.1) →
  (∀ i, i ∈ idxs → st.2 !! i = Some false ∨ st.2 !! i = Some (lent nb i)) →
  ∃ st' m', foldlS (borrow_step nb) idxs st m = Ok (st', m') ∧ grows m m' ∧
            length st'.1 = length st.1 ∧ length st'.2 = length st.2 ∧
            ∀ i, (i ∈ idxs ∨ borrowed_at nb m st i) → borrowed_at nb m' st' i.
Proof.
  induction idxs as [|i idxs IH]; intros st m Hnb Hg Hlen Hlt Hmark.
  - eexists _, _. split; [done|]. split_and!; try done; [apply grows_refl|].
    intros i [?%elem_of_nil|?]; done.
  - destruct (borrow_step_total nb st i m m0 Hnb Hg)
      as (st1 & m1 & H1 & Hg1 & Hl1 & Hl2 & Hb1 & Hoth).
    { apply Hlt. by left. }
    { rewrite Hlen. apply Hlt. by left. }
    { apply Hmark. by left. }
    destruct (IH st1 m1 Hnb) as (st' & m' & Hf & Hg' & Hl1' & Hl2' & Hall).
    { by eapply grows_trans. }
    { congruence. }
    { intros j Hj. rewrite Hl1. apply Hlt. by right. }
    { intros j Hj. destruct (decide (j = i)) as [->|Hne].
      - right. apply Hb1.
      - destruct (Hoth j Hne) as [_ ->]. apply Hmark. by right. }
    exists st', m'. split.
    { simpl. unfold mbind, M_bind. by rewrite H1. }
    split_and!; [by eapply grows_trans|congruence|congruence|].
    intros j Hj. apply Hall.
    destruct (decide (j = i)) as [->|Hne]; [by right|].
    destruct Hj as [[->|Hj]%elem_of_cons|Hb]; [done|by left|].
    right. destruct (Hoth j Hne) as [E1 E2].
    destruct Hb as [(p & Hp & Hok & Hl) Hs]. split; [|by rewrite E2].
    exists p. rewrite E1. split; [done|]. split; [by eapply ptr_ok_grows|done].
Qed.

Lemma all_qefs_total lf m :
  leaf_ok m lf →
  ∃ qefs, foldlS (λ qs p, sp ← deref p; mret (qs ++ [qef sp])) (sub lf) [] m = Ok (qefs, m).
Proof.
  intros [_ Hall].
  enough (∀ acc : list Q, ∃ qefs,
    foldlS (λ qs p, sp ← deref p; mret (qs ++ [qef sp])) (sub lf) acc m = Ok (qefs, m))
    as Hacc by apply Hacc.
  induction Hall as [|p ps Hp _ IH]; intros acc.
  - by eexists.
  - destruct (deref_total m p Hp) as [s Hs]. simpl.
    rewrite (bind_run _ _ _ _ _ (bind_run _ _ _ _ _ Hs)). apply IH.
Qed.

Lemma solve_one_total lf (solved : list bool) (region : Rg) s m :
  leaf_ok m lf → length solved = 3 ^ Dim → s < 3 ^ Dim →
  ∃ e m', solve_one lf solved region s m = Ok (e, m') ∧ grows m m'.
Proof.
  intros Hlf Hlen Hs. unfold solve_one.
  destruct (lookup_lt_is_Some_2 solved s) as [b Hb]; [lia|]. rewrite Hb.
  destruct b; [eexists _, _; split; [done|apply grows_refl]|].
  destruct (all_qefs_total lf m Hlf) as [qefs Hq].
  destruct (leaf_ok_sub_at m lf s Hlf Hs) as (p & Hp & Hpok).
  destruct (update_total m p (set_vert (solve_subspace s qefs region).1) Hpok) as (m' & Hu & Hg).
  rewrite (bind_run _ _ _ _ _ Hq), (bind_run _ _ _ _ _ Hp), (bind_run _ _ _ _ _ Hu).
  eexists _, _. split; [done|done].
Qed.

Lemma unroll_total lf (solved : list bool) (region : Rg) idx : ∀ m,
  leaf_ok m lf → length solved = 3 ^ Dim → (∀ s, s ∈ idx → s < 3 ^ Dim) →
  ∃ e m', unroll lf solved region idx m = Ok (e, m') ∧ grows m m'.
Proof.
  induction idx as [|s idx IH]; intros m Hlf Hlen Hlt.
  - eexists _, _. split; [done|apply grows_refl].
  - destruct (solve_one_total lf solved region s m Hlf Hlen) as (e & m1 & H1 & Hg1).
    { apply Hlt. by left. }
    destruct (IH m1) as (r & m' & H2 & Hg2); [by eapply leaf_ok_grows|done| |].
    { intros ? ?. apply Hlt. by right. }
    eexists _, m'. split; [|by eapply grows_trans].
    simpl. rewrite (bind_run _ _ _ _ _ H1), (bind_run _ _ _ _ _ H2). done.
Qed.

Lemma Unroller_total lf (solved : list bool) (region : Rg) m :
  leaf_ok m lf → length solved = 3 ^ Dim →
  ∃ e m', Unroller Dim lf solved region m = Ok (e, m') ∧ grows m m'.
Proof.
  intros Hlf Hlen. apply unroll_total; [done..|].
  intros s Hs. rewrite elem_of_reverse in Hs. apply elem_of_seq in Hs. lia.
Qed.

Lemma saveVertexSigns_total c lf (htape : H) (region : Rg) (solved : list bool) m :
  leaf c = Some lf → type c = AMBIGUOUS → leaf_ok m lf → length solved = 3 ^ Dim →
  ∃ m', saveVertexSigns Dim c htape region solved m = Ok ((), m') ∧ grows m m'.
Proof.
  intros Hc Hty Hlf Hlen. unfold saveVertexSigns. rewrite Hc.
  unfold mbind, M_bind, massert. rewrite bool_decide_eq_true_2 by done.
  unfold mret, M_ret.
  destruct (foldlS_total (λ m', leaf_ok m' lf ∧ grows m m')
              (sign_step lf solved htape region) (seq 0 (3 ^ Dim))) with (s := ()) (m := m)
    as ([] & m' & Hf & _ & Hg); [|split; [done|apply grows_refl]|by eexists].
  intros [] i m1 Hi%elem_of_seq [Hlf1 Hg1]. unfold sign_step.
  destruct (lookup_lt_is_Some_2 solved i) as [b Hb]; [lia|]. rewrite Hb.
  destruct b; [by eexists _, _|].
  destruct (leaf_ok_sub_at m1 lf i Hlf1) as (p & Hp & Hpok); [lia|].
  destruct (deref_total m1 p Hpok) as [sp Hsp].
  rewrite (bind_run _ _ _ _ _ Hp), (bind_run _ _ _ _ _ Hsp).
  match goal with |- context [update p ?f m1] =>
    destruct (update_total m1 p f Hpok) as (m2 & -> & Hg2) end.
  eexists _, _. split; [done|]. split; [by eapply leaf_ok_grows|by eapply grows_trans].
Qed.

(** [findLeafVertices] up to its last step: the leaf whose pointers the
    first loop filled in, in the memory after the corners were sampled and
    the vertices placed. *)
Lemma findLeafVertices_run c lf (htape : H) (region : Rg) (nb : Nb) m :
  corners_ok → leaf c = Some lf → length (sub lf) = 3 ^ Dim → check_ok m nb →
  ∃ subs (solved : list bool) m3 m',
    let lf1 := {| level := level lf; tape := tape lf; sub := subs |} in
    leaf_ok m3 lf1 ∧ grows m m3 ∧ grows m3 m' ∧ length solved = 3 ^ Dim ∧
    (∀ i, i < 3 ^ Dim → borrowed_at nb m3 (subs, solved) i) ∧
    findLeafVertices Dim c htape region nb m
    = if decide (type c = UNKNOWN) then Err AssertFailed
      else Ok (set_leaf (Some lf1) c, m').
Proof.
  intros Hcorner Hc Hlen Hnb. unfold findLeafVertices. rewrite Hc.
  destruct (borrow_fold_total nb m (seq 0 (3 ^ Dim)) (sub lf, replicate (3 ^ Dim) false) m)
    as (st & m1 & Hb & Hg1 & Hl1 & Hl2 & Hall); [done|apply grows_refl| | | |].
  { simpl. by rewrite length_replicate. }
  { intros i Hi%elem_of_seq. simpl. lia. }
  { intros i Hi%elem_of_seq. left. simpl. apply lookup_replicate_2. lia. }
  simpl in Hl1, Hl2. rewrite length_replicate in Hl2.
  rewrite (bind_run _ _ _ _ _ Hb). cbn zeta.
  set (lf1 := {| level := level lf; tape := tape lf; sub := st.1 |}).
  assert (leaf_ok m1 lf1) as Hlf1.
  { split; [simpl; lia|]. simpl. apply Forall_lookup. intros i p Hp.
    destruct (Hall i) as [(p' & Hp' & Hok & _) _].
    - left. apply elem_of_seq. apply lookup_lt_Some in Hp. lia.
    - by simplify_eq. }
  destruct (foldlS_total (λ m', leaf_ok m' lf1 ∧ grows m1 m')
              (corner_step lf1 st.2 htape region) (seq 0 (2 ^ Dim))) with (s := ()) (m := m1)
    as ([] & m2 & Hcf & Hlf2 & Hg2); [|split; [done|apply grows_refl]|].
  { intros [] i mx Hi%elem_of_seq [Hlfx Hgx]. unfold corner_step.
    assert (corner_neighbor i < 3 ^ Dim) as Hcn by (apply Hcorner; lia).
    destruct (lookup_lt_is_Some_2 st.2 (corner_neighbor i)) as [b Hb']; [lia|]. rewrite Hb'.
    destruct b; [by eexists _, _|].
    destruct (leaf_ok_sub_at mx lf1 _ Hlfx Hcn) as (p & Hp & Hpok).
    destruct (deref_total mx p Hpok) as [sp Hsp].
    rewrite (bind_run _ _ _ _ _ Hp), (bind_run _ _ _ _ _ Hsp).
    match goal with |- context [update p ?f mx] =>
      destruct (update_total mx p f Hpok) as (my & -> & Hgy) end.
    eexists _, _. split; [done|]. split; [by eapply leaf_ok_grows|by eapply grows_trans]. }
  rewrite (bind_run _ _ _ _ _ Hcf).
  destruct (Unroller_total lf1 st.2 region m2 Hlf2 Hl2) as (e & m3 & Hu & Hg3).
  rewrite (bind_run _ _ _ _ _ Hu).
  assert (leaf_ok m3 lf1) as Hlf3 by (by eapply leaf_ok_grows).
  assert (grows m1 m3) as Hg13 by (eauto using grows_trans).
  assert (grows m m3) as Hg03 by (eauto using grows_trans).
  assert (∀ i, i < 3 ^ Dim → borrowed_at nb m3 (st.1, st.2) i) as Hbor.
  { intros i Hi. eapply borrowed_at_grows; [|exact Hg13].
    destruct st. apply Hall. left. apply elem_of_seq. lia. }
  simpl. destruct (decide (type c = AMBIGUOUS)) as [Ha|Ha].
  - destruct (saveVertexSigns_total (set_leaf (Some lf1) c) lf1 htape region st.2 m3)
      as (m4 & Hs & Hg4); [done..|].
    rewrite (bind_run _ _ _ _ _ Hs). exists st.1, st.2, m3, m4.
    rewrite decide_False by (rewrite Ha; done). done.
  - destruct (decide (type c = UNKNOWN)) as [Hu'|Hu'].
    + exists st.1, st.2, m3, m3.
      split_and!; try done; [apply grows_refl|].
      assert (massert (Q:=Q) (V:=V) (H:=H) (bool_decide (type c = FILLED ∨ type c = EMPTY)) m3
              = Err AssertFailed) as Has.
      { unfold massert. rewrite bool_decide_eq_false_2; [done|]. rewrite Hu'.
        intros [?|?]; done. }
      by rewrite (bind_err _ _ _ _ (bind_err _ _ _ _ Has)).
    + assert (massert (Q:=Q) (V:=V) (H:=H) (bool_decide (type c = FILLED ∨ type c = EMPTY)) m3
              = Ok ((), m3)) as Has.
      { unfold massert. rewrite bool_decide_eq_true_2; [done|]. destruct (type c); auto; done. }
      destruct (foldlS_total (λ m', leaf_ok m' lf1 ∧ grows m3 m')
                  (λ (_ : ()) p, update p (set_inside (bool_decide (type c = FILLED))))
                  (sub lf1)) with (s := ()) (m := m3)
        as ([] & m4 & Hsf & Hlf4 & Hg4); [|split; [done|apply grows_refl]|].
      { intros [] p mx Hp [Hlfx Hgx].
        assert (ptr_ok mx p) as Hpok.
        { destruct Hlfx as [_ Hfa]. rewrite Forall_forall in Hfa. by apply Hfa. }
        destruct (update_total mx p (set_inside (bool_decide (type c = FILLED))) Hpok)
          as (my & -> & Hgy).
        eexists _, _. split; [done|]. split; [by eapply leaf_ok_grows|by eapply grows_trans]. }
      simpl in Hsf.
      match goal with |- context [(?x ≫= _) m3] =>
        assert (x m3 = Ok ((), m4)) as Hx by (rewrite (bind_run _ _ _ _ _ Has); exact Hsf)
      end.
      rewrite (bind_run _ _ _ _ _ Hx). exists st.1, st.2, m3, m4. done.
Qed.

Lemma findLeafVertices_total c lf (htape : H) (region : Rg) (nb : Nb) m :
  corners_ok → leaf c = Some lf → length (sub lf) = 3 ^ Dim → type c ≠ UNKNOWN →
  check_ok m nb →
  ∃ c' m', findLeafVertices Dim c htape region nb m = Ok (c', m') ∧ grows m m' ∧
           ∃ lf', leaf c' = Some lf' ∧ leaf_ok m' lf'.
Proof.
  intros Hcorner Hc Hlen Hty Hnb.
  destruct (findLeafVertices_run c lf htape region nb m Hcorner Hc Hlen Hnb)
    as (subs & solved & m3 & m' & Hlf & Hg & Hg' & _ & _ & Hf).
  rewrite decide_False in Hf by done.
  eexists _, _. split; [exact Hf|]. split; [by eapply grows_trans|].
  eexists. split; [done|]. by eapply leaf_ok_grows.
Qed.

End LeafTotal.

Section MergeTotal.
Context (Dim : nat).
Context {Q V D Fl Rg H I Nb : Type} `{!Collaborators Q V D Fl Rg H I Nb}.
Implicit Types (c : @SimplexTree H) (m : @Mem Q V H) (lf : @Leaf H).

(** A child that [collectChildren] can merge: it is there, and unless it is
    a branch it has a leaf with its subspaces. *)
Definition child_ok m (o : option (@SimplexTree H)) : Prop :=
  ∃ ch, o = Some ch ∧ (isBranch ch = false → ∃ lf, leaf ch = Some lf ∧ leaf_ok Dim m lf).

(** The subspace of the parent that a subspace of a child is summed into is
    one of the 3^Dim subspaces. *)
Definition targets_ok : Prop :=
  ∀ i j, i < 2 ^ Dim → j < 3 ^ Dim → contributes Dim i j = true →
         target_of Dim i j < 3 ^ Dim.

(** A cell whose children are all built, seen from the last of them. *)
Definition ready c m : Prop :=
  leaf c = None ∧ length (children c) = 2 ^ Dim ∧ Forall (child_ok m) (children c).

Lemma pow3_pos : 0 < 3 ^ Dim.
Proof. apply Nat.neq_0_lt_0, Nat.pow_nonzero. lia. Qed.

Lemma check_ok_grows m m' (nb : Nb) : check_ok m nb → grows m m' → check_ok m' nb.
Proof. intros Hc Hg i l Hl. apply Hg. by eapply Hc. Qed.

Lemma child_ok_grows m m' o : child_ok m o → grows m m' → child_ok m' o.
Proof.
  intros (ch & -> & Hch) Hg. exists ch. split; [done|]. intros Hb.
  destruct (Hch Hb) as (lf & Hlf & Hok). exists lf. split; [done|].
  by eapply leaf_ok_grows.
Qed.

Lemma check_fold_total m ps :
  Forall (ptr_ok m) ps → ∀ acc : bool * bool, ∃ flags,
    length flags = length ps ∧
    foldlS (λ (acc : bool * bool) p,
              sp ← deref p;
              mret (acc.1 && inside sp, acc.2 && negb (inside sp))) ps acc m
    = Ok ((acc.1 && forallb id flags, acc.2 && forallb negb flags), m).
Proof.
  induction 1 as [|p ps Hp _ IH]; intros acc.
  - exists []. split; [done|]. simpl. rewrite !andb_true_r. by destruct acc.
  - destruct (deref_total m p Hp) as [s Hs]. simpl.
    rewrite (bind_run _ _ _ _ _ (bind_run _ _ _ _ _ Hs)).
    destruct (IH (acc.1 && inside s, acc.2 && negb (inside s))) as (flags & Hlen & ->).
    exists (inside s :: flags). split; [simpl; lia|]. simpl. by rewrite !andb_assoc.
Qed.

Lemma checkVertexSigns_total c lf m :
  leaf c = Some lf → leaf_ok Dim m lf → ∃ c', checkVertexSigns c m = Ok (c', m).
Proof.
  intros Hc [Hlen Hall]. unfold checkVertexSigns. rewrite Hc.
  destruct (check_fold_total m (sub lf) Hall (true, true)) as (flags & Hfl & Hf).
  rewrite (bind_run _ _ _ _ _ Hf). simpl.
  destruct flags as [|f flags]; [pose proof pow3_pos; simpl in Hfl; lia|].
  simpl. destruct f; simpl.
  - destruct (forallb id flags); by eexists.
  - destruct (forallb negb flags); by eexists.
Qed.

Lemma release_sub_total m p :
  ptr_ok m p → ∃ m', release_sub p m = Ok ((), m') ∧ grows m m'.
Proof.
  intros Hp. unfold release_sub.
  destruct (deref_total m p Hp) as [s Hs].
  destruct (update_total m p (set_refcount (refcount s - 1)) Hp) as (m1 & Hu & Hg).
  rewrite (bind_run _ _ _ _ _ Hs), (bind_run _ _ _ _ _ Hu).
  destruct (decide _); [|by eexists].
  destruct Hp as (l & -> & _). eexists. split; [done|].
  intros l' Hl'. by apply Hg.
Qed.

Lemma Leaf_releaseTo_total m lf :
  Forall (ptr_ok m) (sub lf) → ∃ m', Leaf_releaseTo lf m = Ok ((), m') ∧ grows m m'.
Proof.
  intros Hall. unfold Leaf_releaseTo.
  destruct (foldlS_total (λ m', Forall (ptr_ok m') (sub lf) ∧ grows m m')
              (λ (_ : ()) p, release_sub p) (sub lf)) with (s := ()) (m := m)
    as ([] & m1 & Hf & _ & Hg); [|split; [done|apply grows_refl]|].
  { intros [] p mx Hp [Hallx Hgx].
    assert (ptr_ok mx p) as Hpok by (rewrite Forall_forall in Hallx; by apply Hallx).
    destruct (release_sub_total mx p Hpok) as (my & -> & Hgy).
    eexists _, _. split; [done|]. split; [|by eapply grows_trans].
    eapply Forall_impl; [done|]. intros q ?. by eapply ptr_ok_grows. }
  rewrite (bind_run _ _ _ _ _ Hf). eexists. split; [done|].
  intros l Hl. by apply Hg.
Qed.

Lemma releaseTo_total m c :
  (∀ lf, leaf c = Some lf → Forall (ptr_ok m) (sub lf)) →
  ∃ m', releaseTo c m = Ok ((), m') ∧ grows m m'.
Proof.
  intros Hlf. unfold releaseTo. destruct (leaf c) as [lf|].
  - destruct (Leaf_releaseTo_total m lf) as (m1 & Hr & Hg); [by apply Hlf|].
    rewrite (bind_run _ _ _ _ _ Hr). eexists. split; [done|].
    intros l Hl. by apply Hg.
  - eexists. split; [done|]. by intros l Hl.
Qed.

(** Children whose leaves, where they have one, hold subspaces of the
    memory. *)
Definition releasable m (o : option (@SimplexTree H)) : Prop :=
  ∀ ch lf, o = Some ch → leaf ch = Some lf → Forall (ptr_ok m) (sub lf).

Lemma releaseChildren_total m c :
  Forall (releasable m) (children c) →
  ∃ m', releaseChildren c m
        = Ok (set_children (replicate (length (children c)) None) c, m') ∧
        grows m m'.
Proof.
  intros Hall. unfold releaseChildren.
  destruct (foldlS_total (λ m', Forall (releasable m') (children c) ∧ grows m m')
              (λ (_ : ()) (ch : option (@SimplexTree H)),
                 match ch with Some t => releaseTo t | None => mret () end)
              (children c)) with (s := ()) (m := m)
    as ([] & m1 & Hf & _ & Hg); [|split; [done|apply grows_refl]|].
  { intros [] o mx Ho [Hallx Hgx]. destruct o as [t|]; [|by eexists _, _].
    destruct (releaseTo_total mx t) as (my & -> & Hgy).
    { intros lf Hlf. rewrite Forall_forall in Hallx. by eapply (Hallx _ Ho). }
    eexists _, _. split; [done|]. split; [|by eapply grows_trans].
    eapply Forall_impl; [done|]. intros o Hrel ch lf -> Hlf.
    eapply Forall_impl; [by eapply Hrel|]. intros q ?. by eapply ptr_ok_grows. }
  rewrite (bind_run _ _ _ _ _ Hf). by eexists.
Qed.

Lemma isBranch_released c :
  isBranch (set_children (replicate (length (children c)) None) c) = false.
Proof. unfold isBranch. simpl. by destruct (length (children c)). Qed.

Lemma any_branch_total m cs :
  Forall (child_ok m) cs → any_branch cs m = Ok (has_branch cs, m).
Proof.
  induction 1 as [|o cs (ch & -> & _) _ IH]; [done|].
  simpl. by destruct (isBranch ch).
Qed.

Lemma has_branch_false (cs : list (option (@SimplexTree H))) o :
  has_branch cs = false → o ∈ cs → ∀ ch, o = Some ch → isBranch ch = false.
Proof.
  unfold has_branch. intros Hb Ho ch ->.
  destruct (isBranch ch) eqn:Hch; [|done].
  apply not_true_iff_false in Hb. destruct Hb.
  apply existsb_exists. exists (Some ch). split; [|done]. by apply list_elem_of_In.
Qed.

Lemma get_subs_total (ps : list (option nat)) : ∀ acc m,
  Forall (ptr_ok m) acc →
  ∃ subs m',
    foldlS (λ acc (_ : option nat), l ← pool_get_sub; mret (acc ++ [Some l])) ps acc m
    = Ok (subs, m') ∧ grows m m' ∧ Forall (ptr_ok m') subs ∧
    length subs = length acc + length ps.
Proof.
  induction ps as [|p ps IH]; intros acc m Hacc.
  - eexists _, _. split; [done|]. split; [apply grows_refl|]. split; [done|]. simpl. lia.
  - destruct (pool_get_sub_total m) as (l & m1 & Hget & Hg1 & Hl).
    destruct (IH (acc ++ [Some l]) m1) as (subs & m' & Hf & Hg & Hall & Hlen).
    { apply Forall_app. split.
      - eapply Forall_impl; [done|]. intros q ?. by eapply ptr_ok_grows.
      - apply Forall_singleton. by exists l. }
    exists subs, m'. split.
    { simpl. by rewrite (bind_run _ _ _ _ _ (bind_run _ _ _ _ _ Hget)). }
    split; [by eapply grows_trans|]. split; [done|].
    rewrite length_app in Hlen. simpl in *. lia.
Qed.

Lemma sum_step_total lf cs i j m :
  targets_ok → leaf_ok Dim m lf → length cs = 2 ^ Dim → Forall (child_ok m) cs →
  has_branch cs = false → i < 2 ^ Dim → j < 3 ^ Dim →
  ∃ m', sum_step Dim lf cs () (i, j) m = Ok ((), m') ∧ grows m m'.
Proof.
  intros Htg Hlf Hlen Hcs Hnb Hi Hj. unfold sum_step. simpl.
  destruct (lookup_lt_is_Some_2 cs i) as [o Ho]; [lia|]. rewrite Ho.
  apply list_elem_of_lookup_2 in Ho.
  rewrite Forall_forall in Hcs. destruct (Hcs o Ho) as (ch & -> & Hch).
  destruct Hch as (clf & Hclf & Hcok); [by eapply has_branch_false|]. rewrite Hclf.
  destruct (leaf_ok_sub_at Dim m clf j Hcok Hj) as (cp & Hcp & Hcpok).
  rewrite (bind_run _ _ _ _ _ Hcp).
  assert (massert (Q:=Q) (V:=V) (H:=H) (bool_decide (is_Some cp)) m = Ok ((), m)) as Has.
  { unfold massert. rewrite bool_decide_eq_true_2; [done|].
    destruct Hcpok as (l & -> & _). by eexists. }
  rewrite (bind_run _ _ _ _ _ Has).
  destruct (contributes Dim i j) eqn:Hcon; [|eexists; split; [done|apply grows_refl]].
  destruct (leaf_ok_sub_at Dim m lf (target_of Dim i j) Hlf) as (tp & Htp & Htpok);
    [by apply Htg|].
  destruct (deref_total m cp Hcpok) as [src Hsrc].
  destruct (deref_total m tp Htpok) as [tgt Htgt].
  rewrite (bind_run _ _ _ _ _ Htp), (bind_run _ _ _ _ _ Hsrc), (bind_run _ _ _ _ _ Htgt).
  apply update_total. done.
Qed.

Lemma collectChildren_total c (htape : H) (region : Rg) (max_err : D) m :
  corners_ok Dim → targets_ok → check_ok m nb_empty →
  pending c ≠ 0%Z ∨ ready c m →
  returns (collectChildren Dim c htape region max_err) m.
Proof.
  intros Hcor Htg Hnb Hready. unfold returns, collectChildren. cbn zeta.
  destruct (decide (pending c ≠ 0%Z)) as [|Hz]; [by eexists _, _|].
  destruct Hready as [?|(Hleaf & Hlen & Hcs)]; [done|]. simpl.
  rewrite (bind_run _ _ _ _ _ (any_branch_total m _ Hcs)).
  destruct (has_branch (children c)) eqn:Hbr; [by eexists _, _|].
  assert (massert (Q:=Q) (V:=V) (H:=H) (bool_decide (leaf c = None)) m = Ok ((), m)) as Has.
  { unfold massert. by rewrite bool_decide_eq_true_2. }
  rewrite (bind_run _ _ _ _ _ Has).
  unfold pool_get_leaf at 1. unfold mbind at 1. unfold M_bind at 1. cbn iota beta.
  set (m0 := {| heap := heap m; next_loc := next_loc m; free_subs := free_subs m;
                free_leaves := tail (free_leaves m); free_trees := free_trees m |}).
  assert (grows m m0) as Hg0 by (by intros l Hl).
  assert (Forall (child_ok m0) (children c)) as Hcs0.
  { eapply Forall_impl; [done|]. intros o ?. by eapply child_ok_grows. }
  assert (Forall (releasable m0) (children c)) as Hrel0.
  { rewrite Forall_forall in Hcs0. apply Forall_forall. intros o Ho ch lf -> Hlf.
    destruct (Hcs0 _ Ho) as (ch' & [= <-] & Hch).
    destruct Hch as (lf' & Hlf' & Hok); [by eapply has_branch_false|].
    rewrite Hlf in Hlf'. injection Hlf' as <-. apply Hok. }
  destruct (decide _) as [Hpure|Hmixed].
  - match goal with |- context [releaseChildren ?c0] =>
      destruct (releaseChildren_total m0 c0 Hrel0) as (m1 & Hr & Hg1);
      rewrite (bind_run _ _ _ _ _ Hr) end.
    match goal with |- context [massert (negb (isBranch ?c1))] =>
      assert (massert (Q:=Q) (V:=V) (H:=H) (negb (isBranch c1)) m1 = Ok ((), m1)) as Has2
        by (unfold massert, isBranch; simpl; by destruct (length (children c)));
      rewrite (bind_run _ _ _ _ _ Has2) end.
    match goal with |- context [findLeafVertices Dim ?c1 htape region nb_empty] =>
      destruct (findLeafVertices_total Dim c1 _ htape region nb_empty m1 Hcor eq_refl)
        as (c2 & m2 & Hf & _) end.
    + simpl. by rewrite length_replicate.
    + simpl in Hpure |- *. destruct Hpure as [-> | ->]; done.
    + eapply check_ok_grows; [done|]. exact (grows_trans _ _ _ Hg0 Hg1).
    + rewrite (bind_run _ _ _ _ _ Hf). by eexists _, _.
  - cbn [sub Leaf_new level tape].
    destruct (get_subs_total (replicate (3 ^ Dim) None) [] m0 (Forall_nil_2 _))
      as (subs & m1 & Hget & Hg1 & Hsubs & Hslen).
    rewrite length_replicate in Hslen. simpl in Hslen.
    rewrite (bind_run _ _ _ _ _ Hget). cbn zeta.
    set (lf := {| level := region_level region; tape := Some htape; sub := subs |}).
    assert (leaf_ok Dim m1 lf) as Hlf1 by (by split).
    destruct (foldlS_total
                (λ m', leaf_ok Dim m' lf ∧ Forall (child_ok m') (children c) ∧ grows m1 m')
                (sum_step Dim lf (children c))
                (i ← seq 0 (2 ^ Dim); j ← seq 0 (3 ^ Dim); [(i, j)])) with (s := ()) (m := m1)
      as ([] & m2 & Hsum & (Hlf2 & Hcs2 & Hg2)).
    { intros [] [i j] mx Hij (Hlfx & Hcsx & Hgx).
      apply list_elem_of_bind in Hij as (i' & Hij & Hi%elem_of_seq).
      apply list_elem_of_bind in Hij as (j' & Hij & Hj%elem_of_seq).
      apply list_elem_of_singleton in Hij as [= <- <-].
      destruct (sum_step_total lf (children c) i j mx) as (my & -> & Hgy);
        [done..|lia|lia|].
      eexists _, _. split; [done|]. split; [by eapply leaf_ok_grows|]. split.
      - eapply Forall_impl; [done|]. intros o ?. by eapply child_ok_grows.
      - by eapply grows_trans. }
    { split; [done|]. split; [|apply grows_refl].
      eapply Forall_impl; [exact Hcs0|]. intros o ?. by eapply child_ok_grows. }
    rewrite (bind_run _ _ _ _ _ Hsum).
    destruct (Unroller_total Dim lf (replicate (3 ^ Dim) false) region m2 Hlf2)
      as (err & m3 & Hu & Hg3); [by rewrite length_replicate|].
    rewrite (bind_run _ _ _ _ _ Hu).
    assert (leaf_ok Dim m3 lf) as Hlf3 by (by eapply leaf_ok_grows).
    destruct (dlt err max_err).
    + match goal with |- context [saveVertexSigns Dim ?c1 htape region ?sv] =>
        destruct (saveVertexSigns_total Dim c1 lf htape region sv m3)
          as (m4 & Hs & Hg4); [done| |done|by rewrite length_replicate|];
        [|rewrite (bind_run _ _ _ _ _ Hs);
          destruct (checkVertexSigns_total c1 lf m4) as (c2 & Hck);
          [done|by eapply leaf_ok_grows|]; rewrite (bind_run _ _ _ _ _ Hck)] end.
      { simpl. simpl in Hmixed. repeat case_match; try done; tauto. }
      pose proof Hck as Hck'. apply checkVertexSigns_spec in Hck' as (_ & _ & fl & _ & _ & _ & ->).
      match goal with |- context [releaseChildren ?c3] =>
        destruct (releaseChildren_total m4 c3) as (m5 & Hr & Hg5) end.
      { simpl. eapply Forall_impl; [exact Hrel0|]. intros o Hrel ch lf' -> Hlf'.
        eapply Forall_impl; [by eapply Hrel|]. intros q ?.
        eapply ptr_ok_grows; [done|]. eauto using grows_trans. }
      rewrite (bind_run _ _ _ _ _ Hr).
      match goal with |- context [massert (negb (isBranch ?c1))] =>
        assert (massert (Q:=Q) (V:=V) (H:=H) (negb (isBranch c1)) m5 = Ok ((), m5)) as Has2
          by (unfold massert, isBranch; simpl; by destruct (length (children c)));
        rewrite (bind_run _ _ _ _ _ Has2) end.
      by eexists _, _.
    + destruct (Leaf_releaseTo_total m3 lf) as (m4 & Hr & Hg4); [apply Hlf3|].
      rewrite (bind_run _ _ _ _ _ Hr). by eexists _, _.
Qed.

Lemma evalInterval_total c (htape : H) (region : Rg) m :
  corners_ok Dim → check_ok m nb_empty →
  returns (evalInterval Dim c htape region) m.
Proof.
  intros Hcor Hnb. unfold returns, evalInterval. cbn zeta.
  destruct (decide _) as [Hpure|]; [|by eexists _, _].
  unfold pool_get_leaf at 1. unfold mbind at 1. unfold M_bind at 1. cbn iota beta.
  set (m0 := {| heap := heap m; next_loc := next_loc m; free_subs := free_subs m;
                free_leaves := tail (free_leaves m); free_trees := free_trees m |}).
  match goal with |- context [findLeafVertices Dim ?c1 htape region nb_empty] =>
    destruct (findLeafVertices_total Dim c1 _ htape region nb_empty m0 Hcor eq_refl)
      as (c2 & m2 & Hf & _) end.
  - simpl. by rewrite length_replicate.
  - simpl. destruct Hpure as [Hp|Hp]; simpl in Hp; rewrite Hp; done.
  - intros i l Hl. by apply (Hnb i l).
  - rewrite (bind_run _ _ _ _ _ Hf). by eexists _, _.
Qed.

Lemma evalLeaf_total c (htape : H) (region : Rg) (nb : Nb) m :
  corners_ok Dim → check_ok m nb → region_level region = 0 →
  returns (evalLeaf Dim c htape region nb) m.
Proof.
  intros Hcor Hnb Hlev. unfold returns, evalLeaf.
  unfold pool_get_leaf at 1. unfold mbind at 1. unfold M_bind at 1. cbn iota beta zeta.
  set (m0 := {| heap := heap m; next_loc := next_loc m; free_subs := free_subs m;
                free_leaves := tail (free_leaves m); free_trees := free_trees m |}).
  assert (massert (Q:=Q) (V:=V) (H:=H) (bool_decide (region_level region = 0)) m0
          = Ok ((), m0)) as Has
    by (unfold massert; by rewrite bool_decide_eq_true_2).
  rewrite (bind_run _ _ _ _ _ Has).
  match goal with |- context [findLeafVertices Dim ?c1 htape region nb] =>
    destruct (findLeafVertices_total Dim c1 _ htape region nb m0 Hcor eq_refl)
      as (c2 & m2 & Hf & _ & lf2 & Hlf2 & Hok2) end.
  - simpl. by rewrite length_replicate.
  - done.
  - intros i l Hl. by apply (Hnb i l).
  - rewrite (bind_run _ _ _ _ _ Hf).
    destruct (checkVertexSigns_total c2 lf2 m2 Hlf2 Hok2) as (c3 & Hck).
    rewrite (bind_run _ _ _ _ _ Hck). by eexists _, _.
Qed.

End MergeTotal.

Section BuilderTheorems.
Context (Dim : nat).
Context {Q V D Fl Rg H I Nb : Type} `{!Collaborators Q V D Fl Rg H I Nb}.
Implicit Types (c : @SimplexTree H) (m : @Mem Q V H) (lf : @Leaf H).

(** X15: on a cell whose leaf has its 3^Dim slots, [findLeafVertices]
    fails its last assertion when the type of the cell is [UNKNOWN], and
    otherwise returns: only the leaf of the cell changes, its level and
    tape stay, every one of its slots points to a subspace of the memory,
    the slot of a subspace that a neighbour lends points to the neighbour's
    subspace, and no subspace left the memory. *)
Theorem findLeafVertices_borrows c lf (htape : H) (region : Rg) (nb : Nb) m :
  corners_ok Dim → leaf c = Some lf → length (sub lf) = 3 ^ Dim → check_ok m nb →
  if decide (type c = UNKNOWN)
  then findLeafVertices Dim c htape region nb m = Err AssertFailed
  else ∃ lf' m',
    findLeafVertices Dim c htape region nb m = Ok (set_leaf (Some lf') c, m') ∧
    level lf' = level lf ∧ tape lf' = tape lf ∧
    leaf_ok Dim m' lf' ∧ grows m m' ∧
    ∀ i l, i < 3 ^ Dim → nb_check nb i = Some l → sub lf' !! i = Some (Some l).
Proof.
  intros Hcor Hlf Hlen Hnb.
  destruct (findLeafVertices_run Dim c lf htape region nb m Hcor Hlf Hlen Hnb)
    as (subs & solved & m3 & m' & Hok & Hg & Hg' & _ & Hbor & Hf).
  rewrite Hf. case_decide; [done|].
  eexists _, m'. split; [done|]. simpl. split; [done|]. split; [done|].
  split; [by eapply leaf_ok_grows|]. split; [by eapply grows_trans|].
  intros i l Hi Hl. destruct (Hbor i Hi) as [(p & Hp & _ & Hpl) _].
  simpl in Hp. by rewrite Hp, (Hpl l Hl).
Qed.

(** The type that [evalInterval] gives a cell. *)
Definition interval_type (htape : H) (region : Rg) : State :=
  let o := interval_evalAndPush region htape in
  if o.2 then Interval_state o.1.1 else AMBIGUOUS.

(** What a call of [evalInterval] gives. *)
Lemma evalInterval_run c (htape : H) (region : Rg) m :
  corners_ok Dim → check_ok m nb_empty →
  ∃ out m',
    evalInterval Dim c htape region m = Ok (out, m') ∧
    value out = (let o := interval_evalAndPush region htape in
                 if o.2 then o.1.2 else htape) ∧
    type (cell out) = interval_type htape region ∧
    children (cell out) = children c ∧ pending (cell out) = pending c ∧
    if decide (interval_type htape region = FILLED ∨ interval_type htape region = EMPTY)
    then done out = true ∧ grows m m' ∧
         ∃ lf, leaf (cell out) = Some lf ∧ level lf = region_level region ∧
               leaf_ok Dim m' lf
    else done out = false ∧ m' = m ∧ cell out = set_type (interval_type htape region) c.
Proof.
  intros Hcor Hnb. unfold evalInterval, interval_type. cbn zeta.
  destruct (interval_evalAndPush region htape) as [[iv h'] safe]. simpl.
  set (ty := if safe then Interval_state iv else AMBIGUOUS).
  assert (type (if safe then (set_type (Interval_state iv) c, h')
                else (set_type AMBIGUOUS (set_type (Interval_state iv) c), htape)).1 = ty)
    as Hty by (by destruct safe).
  destruct (decide _) as [Hpure|Hnot].
  - rewrite Hty in Hpure.
    unfold pool_get_leaf at 1. unfold mbind at 1. unfold M_bind at 1. cbn iota beta.
    set (m0 := {| heap := heap m; next_loc := next_loc m; free_subs := free_subs m;
                  free_leaves := tail (free_leaves m); free_trees := free_trees m |}).
    match goal with |- context [findLeafVertices Dim ?c1 htape region nb_empty] =>
      destruct (findLeafVertices_run Dim c1 _ htape region nb_empty m0 Hcor eq_refl)
        as (subs & solved & m3 & m' & Hok & Hg & Hg' & _ & _ & Hf) end.
    { simpl. by rewrite length_replicate. }
    { intros i l Hl. by apply (Hnb i l). }
    rewrite decide_False in Hf.
    2:{ simpl. rewrite Hty. destruct Hpure as [-> | ->]; done. }
    rewrite (bind_run _ _ _ _ _ Hf). eexists _, m'. split; [done|]. simpl.
    split; [by destruct safe|]. split; [done|].
    split; [by destruct safe|]. split; [by destruct safe|].
    rewrite decide_True by done.
    split; [done|]. split.
    { intros l Hl. apply Hg', Hg. exact Hl. }
    eexists. split; [done|]. split; [done|]. by eapply leaf_ok_grows.
  - rewrite Hty in Hnot.
    eexists _, m. split; [done|]. simpl.
    split; [by destruct safe|]. split; [done|].
    split; [by destruct safe|]. split; [by destruct safe|].
    rewrite decide_False by done.
    split; [done|]. split; [done|]. unfold ty. by destruct safe, c.
Qed.

(** X14: [evalInterval] returns on every cell.  The handle
    it returns is the pushed one, or the one it was given when the
    evaluation was not safe.  When the type it finds is [FILLED] or [EMPTY]
    the cell gets a leaf from the pool, at the level of the region and with
    3^Dim subspaces of the memory, and [done] is called; otherwise only the
    type of the cell changes, the memory stays as it is and [done] is not
    called. *)
Theorem evalInterval_outcome c (htape : H) (region : Rg) m :
  corners_ok Dim → check_ok m nb_empty →
  ∃ out m',
    evalInterval Dim c htape region m = Ok (out, m') ∧
    value out = (let o := interval_evalAndPush region htape in
                 if o.2 then o.1.2 else htape) ∧
    type (cell out) = interval_type htape region ∧
    children (cell out) = children c ∧ pending (cell out) = pending c ∧
    if decide (interval_type htape region = FILLED ∨ interval_type htape region = EMPTY)
    then done out = true ∧ grows m m' ∧
         ∃ lf, leaf (cell out) = Some lf ∧ level lf = region_level region ∧
               leaf_ok Dim m' lf
    else done out = false ∧ m' = m ∧ cell out = set_type (interval_type htape region) c.
Proof. exact (evalInterval_run c htape region m). Qed.

(** What a call of [evalLeaf] gives. *)
Lemma evalLeaf_run c (htape : H) (region : Rg) (nb : Nb) m :
  corners_ok Dim → check_ok m nb →
  if decide (region_level region = 0) then
    ∃ out m' lf,
      evalLeaf Dim c htape region nb m = Ok (out, m') ∧ done out = true ∧
      leaf (cell out) = Some lf ∧ level lf = 0 ∧ tape lf = Some htape ∧
      leaf_ok Dim m' lf ∧ grows m m' ∧
      (∀ i l, i < 3 ^ Dim → nb_check nb i = Some l → sub lf !! i = Some (Some l)) ∧
      type (cell out) ≠ UNKNOWN ∧ children (cell out) = children c
  else evalLeaf Dim c htape region nb m = Err AssertFailed.
Proof.
  intros Hcor Hnb.
  set (m0 := {| heap := heap m; next_loc := next_loc m; free_subs := free_subs m;
                free_leaves := tail (free_leaves m); free_trees := free_trees m |}).
  set (lf0 := {| level := region_level region; tape := Some htape;
                 sub := replicate (3 ^ Dim) None |}).
  set (c1 := set_type AMBIGUOUS (set_leaf (Some lf0) c)).
  assert (evalLeaf Dim c htape region nb m
          = (_ ← massert (bool_decide (region_level region = 0));
             c ← findLeafVertices Dim c1 htape region nb;
             c ← checkVertexSigns c;
             mret (mkOutcome () c true)) m0) as -> by done.
  case_decide as Hlev.
  - assert (massert (Q:=Q) (V:=V) (H:=H) (bool_decide (region_level region = 0)) m0
            = Ok ((), m0)) as Has
      by (unfold massert; by rewrite bool_decide_eq_true_2).
    destruct (findLeafVertices_run Dim c1 lf0 htape region nb m0 Hcor eq_refl)
      as (subs & solved & m3 & m' & Hok & Hg & Hg' & _ & Hbor & Hf).
    { simpl. by rewrite length_replicate. }
    { intros i l Hl. by apply (Hnb i l). }
    rewrite decide_False in Hf by done.
    match type of Hf with _ = Ok (?c2, _) =>
      destruct (checkVertexSigns_total Dim c2 _ m' eq_refl) as (c3 & Hck) end.
    { by eapply leaf_ok_grows. }
    pose proof Hck as (_ & lf2 & flags & Hlf2 & _ & _ & ->)%checkVertexSigns_spec.
    simpl in Hlf2. simplify_eq.
    eexists _, m', _. split.
    { rewrite (bind_run _ _ _ _ _ Has), (bind_run _ _ _ _ _ Hf), (bind_run _ _ _ _ _ Hck).
      done. }
    simpl. split; [done|]. split; [done|].
    simpl. split; [done|]. split; [done|]. split; [by eapply leaf_ok_grows|].
    split; [intros l Hl; apply Hg', Hg; exact Hl|]. split.
    { intros i l Hi Hl. destruct (Hbor i Hi) as [(p & Hp & _ & Hpl) _].
      simpl in Hp. by rewrite Hp, (Hpl l Hl). }
    split; [|done]. unfold type_of_flags. repeat case_match; done.
  - assert (massert (Q:=Q) (V:=V) (H:=H) (bool_decide (region_level region = 0)) m0
            = Err AssertFailed) as Has
      by (unfold massert; by rewrite bool_decide_eq_false_2).
    by rewrite (bind_err _ _ _ _ Has).
Qed.

(** X16: [evalLeaf] fails its assertion on a region that is
    not at level 0.  At level 0 it returns and calls [done]; the cell has a
    leaf at level 0 that keeps the tape, with 3^Dim subspaces of the memory,
    those that a neighbour lends being the neighbour's; its type is the one
    the signs of the vertices give, and the children of the cell are as they
    were. *)
Theorem evalLeaf_outcome c (htape : H) (region : Rg) (nb : Nb) m :
  corners_ok Dim → check_ok m nb →
  if decide (region_level region = 0) then
    ∃ out m' lf,
      evalLeaf Dim c htape region nb m = Ok (out, m') ∧ done out = true ∧
      leaf (cell out) = Some lf ∧ level lf = 0 ∧ tape lf = Some htape ∧
      leaf_ok Dim m' lf ∧ grows m m' ∧
      (∀ i l, i < 3 ^ Dim → nb_check nb i = Some l → sub lf !! i = Some (Some l)) ∧
      type (cell out) ≠ UNKNOWN ∧ children (cell out) = children c
  else evalLeaf Dim c htape region nb m = Err AssertFailed.
Proof. exact (evalLeaf_run c htape region nb m). Qed.

(** X17: [collectChildren] returns on every call but
    the last; the last call returns on a cell without a leaf whose 2^Dim
    children are there and, unless one is a branch, are leaves with their
    3^Dim subspaces.  On a cell that has a leaf already the last call fails
    its assertion, unless a child is a branch. *)
Theorem collectChildren_returns c (htape : H) (region : Rg) (max_err : D) m :
  corners_ok Dim → targets_ok Dim → check_ok m nb_empty →
  (pending c ≠ 0%Z ∨ ready Dim c m →
   returns (collectChildren Dim c htape region max_err) m) ∧
  (pending c = 0%Z → Forall (child_ok Dim m) (children c) →
   has_branch (children c) = false → leaf c ≠ None →
   collectChildren Dim c htape region max_err m = Err AssertFailed).
Proof.
  intros Hcor Htg Hnb. split; [by apply collectChildren_total|].
  intros Hp Hcs Hbr Hleaf. unfold collectChildren. cbn zeta.
  rewrite decide_False by (intros ?; done). simpl.
  rewrite (bind_run _ _ _ _ _ (any_branch_total Dim m _ Hcs)). rewrite Hbr.
  assert (massert (Q:=Q) (V:=V) (H:=H) (bool_decide (leaf c = None)) m = Err AssertFailed)
    as Has by (unfold massert; by rewrite bool_decide_eq_false_2).
  by rewrite (bind_err _ _ _ _ Has).
Qed.

(** [k] calls of [collectChildren] on a cell, one after the other: what
    each returned and whether it called [done], and the cell after the
    last. *)
Fixpoint collect_calls (k : nat) c (htape : H) (region : Rg) (max_err : D)
  : @M Q V H (list (bool * bool) * @SimplexTree H) :=
  match k with
  | 0 => mret ([], c)
  | S k =>
      o ← collectChildren Dim c htape region max_err;
      r ← collect_calls k (cell o) htape region max_err;
      mret ((value o, done o) :: r.1, r.2)
  end.

(** X18: on a cell that waits for n more children, the first n
    calls of [collectChildren] return false without calling [done], each
    taking one off [pending] and touching nothing else of the cell or of the
    memory, whatever the state of the children; the call after these finds
    [pending] at 0 and is the one that merges. *)
Theorem collectChildren_counts_down (n : nat) c (htape : H) (region : Rg)
    (max_err : D) m :
  pending c = Z.of_nat n →
  ∀ k, k ≤ n →
    collect_calls k c htape region max_err m
    = Ok ((replicate k (false, false), set_pending (Z.of_nat n - Z.of_nat k) c), m).
Proof.
  intros Hp k. revert c n Hp. induction k as [|k IH]; intros c n Hp Hk.
  - simpl. unfold mret, M_ret. do 3 f_equal. destruct c; simpl in *.
    unfold set_pending. simpl. f_equal. lia.
  - assert (collectChildren Dim c htape region max_err m
            = Ok (mkOutcome false (set_pending (pending c - 1) c) false, m)) as Hc.
    { unfold collectChildren. cbn zeta. rewrite decide_True by lia. done. }
    cbn [collect_calls]. rewrite (bind_run _ _ _ _ _ Hc). simpl.
    rewrite (bind_run _ _ _ _ _
               (IH (set_pending (pending c - 1) c) (n - 1) ltac:(simpl; lia) ltac:(lia))).
    unfold mret, M_ret. simpl. do 3 f_equal. unfold set_pending. simpl. f_equal. lia.
Qed.

(** X19: on a cell that the interval evaluation found
    [FILLED] or [EMPTY], the check of the vertex signs that follows
    [findLeafVertices] gives the same type and changes nothing. *)
Theorem checkVertexSigns_confirms c (htape : H) (region : Rg) (nb : Nb) m c' m' :
  type c = FILLED ∨ type c = EMPTY →
  findLeafVertices Dim c htape region nb m = Ok (c', m') →
  (∀ lf, leaf c = Some lf → length (sub lf) = 3 ^ Dim) →
  checkVertexSigns c' m' = Ok (c', m').
Proof.
  intros Hty Hf Hlen.
  pose proof Hf as (lf & lf' & Hlf & -> & Hl & _ & _ & Hfl)%findLeafVertices_shape.
  specialize (Hlen lf Hlf).
  specialize (Hfl ltac:(tauto)).
  unfold checkVertexSigns. simpl.
  assert (∀ (acc : bool * bool),
    foldlS (λ (acc : bool * bool) p,
              sp ← deref p; mret (acc.1 && inside sp, acc.2 && negb (inside sp)))
           (sub lf') acc m'
    = Ok ((acc.1 && forallb (λ _, bool_decide (type c = FILLED)) (sub lf'),
           acc.2 && forallb (λ _, negb (bool_decide (type c = FILLED))) (sub lf')), m'))
    as Hfold.
  { revert Hfl. generalize (sub lf'). intros ps Hps. induction ps as [|p ps IH]; intros acc.
    - simpl. rewrite !andb_true_r. by destruct acc.
    - destruct (Hps p ltac:(by left)) as (l & -> & Hin). unfold inside_at in Hin.
      destruct (heap m' !! l) as [s|] eqn:Hs; [|done]. simpl in Hin.
      assert (deref (Some l) m' = Ok (s, m')) as Hd by (unfold deref; by rewrite Hs).
      simpl. rewrite (bind_run _ _ _ _ _ (bind_run _ _ _ _ _ Hd)).
      rewrite IH by (intros q Hq; apply Hps; by right). simpl.
      injection Hin as ->. by rewrite !andb_assoc. }
  rewrite (bind_run _ _ _ _ _ (Hfold (true, true))). simpl.
  destruct (sub lf') as [|p ps] eqn:Hsub.
  { pose proof (pow3_pos Dim). simpl in *. lia. }
  simpl. destruct Hty as [Hty|Hty]; rewrite Hty; simpl.
  - replace (forallb (λ _ : option nat, true) ps) with true.
    2:{ clear. induction ps; simpl; auto. }
    simpl. unfold mret, M_ret. do 2 f_equal. destruct c; simpl in *. by subst.
  - replace (forallb (λ _ : option nat, true) ps) with true.
    2:{ clear. induction ps; simpl; auto. }
    simpl. unfold mret, M_ret. do 2 f_equal. destruct c; simpl in *. by subst.
Qed.

End BuilderTheorems.

Section LeafLevel.
Context (Dim : nat).
Context {Q V D Fl Rg H I Nb : Type} `{!Collaborators Q V D Fl Rg H I Nb}.
Implicit Types (c : @SimplexTree H) (m : @Mem Q V H) (lf : @Leaf H).

Lemma isBranch_children c c' : children c' = children c → isBranch c' = isBranch c.
Proof. unfold isBranch. by intros ->. Qed.

(** X20: on a cell without children, the cell that [evalLeaf]
    returns has the leaf level 0, and the cell that [evalInterval] returns
    has the level of the region when its type is [FILLED] or [EMPTY]; when
    its type is [AMBIGUOUS], [leafLevel] gives the level of the leaf the
    cell had before and fails its assertion when it had none; a type
    [UNKNOWN] gives [UINT32_MAX]. *)
Theorem leafLevel_of_built_cells c (htape : H) (region : Rg) (nb : Nb) m :
  corners_ok Dim → check_ok m nb → check_ok m nb_empty → isBranch c = false →
  (region_level region = 0 →
   ∃ out m', evalLeaf Dim c htape region nb m = Ok (out, m') ∧
             leafLevel (cell out) = Ok 0%N) ∧
  ∃ out m', evalInterval Dim c htape region m = Ok (out, m') ∧
    leafLevel (cell out) =
      match type (cell out) with
      | FILLED | EMPTY => Ok (N.of_nat (region_level region))
      | AMBIGUOUS => match leaf c with
                     | Some lf => Ok (N.of_nat (level lf))
                     | None => Err AssertFailed
                     end
      | UNKNOWN => Ok UINT32_MAX
      end.
Proof.
  intros Hcor Hnb Hnb0 Hbr. split.
  - intros Hlev. pose proof (evalLeaf_run Dim c htape region nb m Hcor Hnb) as Hrun.
    rewrite decide_True in Hrun by done.
    destruct Hrun as (out & m' & lf & He & _ & Hlf & Hl & _ & _ & _ & _ & Hty & Hch).
    exists out, m'. split; [done|]. unfold leafLevel.
    rewrite (isBranch_children _ _ Hch), Hbr, Hlf, Hl. simpl.
    by destruct (type (cell out)).
  - destruct (evalInterval_run Dim c htape region m Hcor Hnb0)
      as (out & m' & He & _ & Hty & Hch & _ & Hd).
    exists out, m'. split; [done|]. unfold leafLevel.
    rewrite (isBranch_children _ _ Hch), Hbr, Hty. simpl.
    case_decide as Hpure.
    + destruct Hd as (_ & _ & lf & -> & -> & _). by destruct Hpure as [-> | ->].
    + destruct Hd as (_ & _ & ->). simpl.
      destruct (interval_type htape region); try done; tauto.
Qed.

End LeafLevel.

Section ReleaseAccounting.
Context {Q V D Fl Rg H I Nb : Type} `{!Collaborators Q V D Fl Rg H I Nb}.
Implicit Types (c : @SimplexTree H) (m : @Mem Q V H) (lf : @Leaf H).
Implicit Types (p : option nat) (ps : list (option nat)).

(** The subspace behind [p] has one owner left. *)
Definition last_owner m p : bool :=
  match p with
  | Some l => match heap m !! l with
              | Some s => bool_decide (refcount s = 1%Z)
              | None => false
              end
  | None => false
  end.

(** One reference less on the subspaces of [ps]. *)
Definition dropped ps (l : nat) (s : @Subspace Q V) : @Subspace Q V :=
  if decide (Some l ∈ ps) then set_refcount (refcount s - 1) s else s.

(** The memory after the subspaces of [ps] were released, one after the
    other. *)
Definition released ps m m' : Prop :=
  (∀ l, heap m' !! l = dropped ps l <$> heap m !! l) ∧
  free_subs m' = reverse (omap id (filter (λ p, last_owner m p = true) ps)) ++ free_subs m ∧
  next_loc m' = next_loc m ∧ free_leaves m' = free_leaves m ∧
  free_trees m' = free_trees m.

Lemma filter_ext_Forall {A} (P1 P2 : A → Prop)
    `{!∀ x, Decision (P1 x)} `{!∀ x, Decision (P2 x)} (l : list A) :
  Forall (λ x, P1 x ↔ P2 x) l → filter P1 l = filter P2 l.
Proof.
  induction 1 as [|x l Hx _ IH]; [done|]. rewrite !filter_cons.
  destruct (decide (P1 x)), (decide (P2 x)); try tauto; by f_equal.
Qed.

Lemma release_sub_run m l s :
  heap m !! l = Some s →
  release_sub (Some l) m
  = Ok ((), {| heap := <[l := set_refcount (refcount s - 1) s]> (heap m);
               next_loc := next_loc m;
               free_subs := (if bool_decide (refcount s = 1%Z) then [l] else [])
                            ++ free_subs m;
               free_leaves := free_leaves m; free_trees := free_trees m |}).
Proof.
  intros Hs. unfold release_sub.
  assert (deref (Some l) m = Ok (s, m)) as Hd by (unfold deref; by rewrite Hs).
  rewrite (bind_run _ _ _ _ _ Hd).
  assert (update (Some l) (set_refcount (refcount s - 1)) m
          = Ok ((), {| heap := <[l := set_refcount (refcount s - 1) s]> (heap m);
                       next_loc := next_loc m; free_subs := free_subs m;
                       free_leaves := free_leaves m; free_trees := free_trees m |})) as Hu
    by (unfold update; by rewrite Hs).
  rewrite (bind_run _ _ _ _ _ Hu).
  destruct (decide (refcount s - 1 = 0)%Z) as [Hz|Hz].
  - rewrite bool_decide_eq_true_2 by lia. done.
  - rewrite bool_decide_eq_false_2 by lia. done.
Qed.

Lemma release_fold ps : ∀ m,
  NoDup ps → Forall (ptr_ok m) ps →
  ∃ m', foldlS (λ (_ : ()) p, release_sub p) ps () m = Ok ((), m') ∧ released ps m m'.
Proof.
  induction ps as [|p ps IH]; intros m Hnd Hall.
  - exists m. split; [done|]. split_and!; try done.
    intros l. destruct (heap m !! l) as [s|]; [|done]. simpl. unfold dropped.
    by rewrite decide_False by apply not_elem_of_nil.
  - apply NoDup_cons in Hnd as [Hp Hnd]. apply Forall_cons in Hall as [Hpok Hall].
    destruct Hpok as (l & -> & [s Hs]).
    pose proof (release_sub_run m l s Hs) as Hr.
    match type of Hr with _ = Ok (_, ?mx) => set (m1 := mx) in * end.
    assert (Forall (ptr_ok m1) ps) as Hall1.
    { eapply Forall_impl; [done|]. intros q (l' & -> & Hl'). exists l'. split; [done|].
      simpl. destruct (decide (l = l')) as [->|?].
      - rewrite lookup_insert_eq. by eexists.
      - by rewrite lookup_insert_ne. }
    destruct (IH m1 Hnd Hall1) as (m' & Hf & Hh & Hfs & Hnl & Hfl & Hft).
    exists m'. split.
    { cbn [foldlS]. by rewrite (bind_run _ _ _ _ _ Hr). }
    split_and!; try done.
    + intros l'. rewrite Hh. simpl.
      destruct (decide (l = l')) as [<-|Hne].
      * rewrite lookup_insert_eq, Hs. simpl. unfold dropped.
        rewrite decide_False by done. rewrite decide_True by left. done.
      * rewrite lookup_insert_ne by done.
        destruct (heap m !! l') as [s'|]; [|done]. simpl. f_equal. unfold dropped.
        destruct (decide (Some l' ∈ ps)) as [Hin|Hin].
        -- rewrite decide_True by (by right). done.
        -- rewrite decide_False; [done|]. intros [?|?]%elem_of_cons; by simplify_eq.
    + rewrite Hfs. simpl free_subs.
      assert (filter (λ p, last_owner m1 p = true) ps
              = filter (λ p, last_owner m p = true) ps) as ->.
      { apply filter_ext_Forall. apply Forall_forall. intros q Hq.
        unfold last_owner. destruct q as [l'|]; [|done]. simpl.
        rewrite lookup_insert_ne; [done|]. by intros ->. }
      assert (last_owner m (Some l) = bool_decide (refcount s = 1%Z)) as Hlo
        by (unfold last_owner; by rewrite Hs).
      rewrite filter_cons.
      destruct (bool_decide (refcount s = 1%Z)) eqn:Hb.
      * rewrite decide_True by done. simpl. rewrite reverse_cons, <- !app_assoc. done.
      * rewrite decide_False by (rewrite Hlo; done). done.
Qed.

(** X13: releasing a cell whose leaf holds distinct subspaces of
    the memory takes one reference off each of them and off no other; those
    that had one reference left go to the pool of subspaces, in the order of
    release, and those still referenced from elsewhere do not; the leaf goes
    to its pool with every slot null, and the cell to its pool without the
    leaf; nothing is allocated. *)
Theorem releaseTo_accounts c lf m :
  leaf c = Some lf → NoDup (sub lf) → Forall (ptr_ok m) (sub lf) →
  ∃ m', releaseTo c m = Ok ((), m') ∧
    (∀ l, heap m' !! l = dropped (sub lf) l <$> heap m !! l) ∧
    free_subs m'
    = reverse (omap id (filter (λ p, last_owner m p = true) (sub lf))) ++ free_subs m ∧
    free_leaves m'
    = {| level := level lf; tape := tape lf; sub := replicate (length (sub lf)) None |}
      :: free_leaves m ∧
    free_trees m' = set_leaf None c :: free_trees m ∧
    next_loc m' = next_loc m.
Proof.
  intros Hlf Hnd Hall.
  destruct (release_fold (sub lf) m Hnd Hall) as (m1 & Hf & Hh & Hfs & Hnl & Hfl & Hft).
  eexists. split.
  { unfold releaseTo. rewrite Hlf. unfold Leaf_releaseTo.
    rewrite (bind_run _ _ _ _ _ (bind_run _ _ _ _ _ Hf)). done. }
  simpl. split_and!; try done. by rewrite Hfl. by rewrite Hft.
Qed.

End ReleaseAccounting.

Section IndexFrame.
Context (Dim : nat).
Context {Q V D Fl Rg H I Nb : Type} `{!Collaborators Q V D Fl Rg H I Nb}.
Context (nb_push : Nb → nat → list (option (@SimplexTree H)) → Nb).
Implicit Types (c t : @SimplexTree H) (m : @Mem Q V H) (lf : @Leaf H).

(** Two memories that differ in the indices of their subspaces only. *)
Definition only_index m m' : Prop :=
  (∀ l, set_index 0 <$> heap m' !! l = set_index 0 <$> heap m !! l) ∧
  next_loc m' = next_loc m ∧ free_subs m' = free_subs m ∧
  free_leaves m' = free_leaves m ∧ free_trees m' = free_trees m.

Lemma only_index_refl m : only_index m m.
Proof. by split_and!. Qed.

Lemma only_index_trans m1 m2 m3 : only_index m1 m2 → only_index m2 m3 → only_index m1 m3.
Proof.
  intros (Hh1 & ? & ? & ? & ?) (Hh2 & ? & ? & ? & ?). split_and!; [|congruence..].
  intros l. by rewrite Hh2, Hh1.
Qed.

Lemma only_index_write m l s n :
  heap m !! l = Some s → only_index m (write l (set_index n s) m).
Proof.
  intros Hs. split_and!; try done. intros l'. simpl.
  destruct (decide (l = l')) as [<-|?].
  - rewrite lookup_insert_eq, Hs. by destruct s.
  - by rewrite lookup_insert_ne.
Qed.

Lemma slot_outcome_frame lf targets stack counter i m counter' m' :
  slot_outcome lf targets stack counter i m counter' m' → only_index m m'.
Proof.
  intros [nb below l s n _ _ Hs|nb below l s n _ _ Hs|nb below l s|nb below l s _ _ Hs].
  - by apply only_index_write.
  - by apply only_index_write.
  - intros. apply only_index_refl.
  - by apply only_index_write.
Qed.

Definition pass_frame t : Prop :=
  ∀ targets stack counter m k m',
    assignIndices_rec Dim nb_push t targets stack counter m = Ok (k, m') →
    only_index m m'.

Lemma children_pass_frame all targets stack cs :
  Forall (λ o, ∀ ch, o = Some ch → pass_frame ch) cs →
  ∀ i counter m k m',
    children_pass Dim nb_push all targets stack cs i counter m = Ok (k, m') →
    only_index m m'.
Proof.
  induction 1 as [|o cs Ho _ IH]; intros i counter m k m' Hp; simpl in Hp.
  - apply M_ret_Ok in Hp. injection Hp as _ <-. apply only_index_refl.
  - destruct stack as [|top stack']; [done|]. destruct o as [ch|]; [|done].
    apply M_bind_Ok in Hp as (c1 & m1 & Hch & Hp).
    eapply only_index_trans; [by eapply (Ho ch eq_refl)|by eapply IH].
Qed.

Lemma assignIndices_rec_frame t : pass_frame t.
Proof.
  induction t as [t IH] using SimplexTree_children_ind.
  intros targets stack counter m k m' Ha.
  rewrite assignIndices_rec_eq in Ha.
  destruct (isBranch t).
  - apply M_bind_Ok in Ha as ([] & m1 & [_ [= <-]]%massert_Ok & Ha).
    by eapply children_pass_frame.
  - destruct (leaf t) as [lf|] eqn:Hlf; [|done].
    eapply (foldlS_inv (λ _ mx, only_index m mx)); [|apply only_index_refl|exact Ha].
    intros s x mx s' mx' _ Hm Hstep%assign_slot_spec.
    eapply only_index_trans; [done|]. by eapply slot_outcome_frame.
Qed.

(** X21: [assignIndices] writes indices and nothing else:
    after it the memory holds the same subspaces at the same addresses, each
    with the QEF, the vertex, the inside flag and the reference count it
    had, and the pools and the allocation mark are as they were. *)
Theorem assignIndices_only_indexes t m k m' :
  assignIndices Dim nb_push t m = Ok (k, m') →
  (∀ l, heap m' !! l = None ↔ heap m !! l = None) ∧
  (∀ l s s', heap m !! l = Some s → heap m' !! l = Some s' →
     qef s' = qef s ∧ vert s' = vert s ∧ inside s' = inside s ∧
     refcount s' = refcount s) ∧
  next_loc m' = next_loc m ∧ free_subs m' = free_subs m ∧
  free_leaves m' = free_leaves m ∧ free_trees m' = free_trees m.
Proof.
  intros Ha. apply assignIndices_rec_frame in Ha as (Hh & ? & ? & ? & ?).
  split_and!; try done.
  - intros l. specialize (Hh l).
    destruct (heap m' !! l), (heap m !! l); simpl in Hh; naive_solver.
  - intros l s s' Hs Hs'. specialize (Hh l). rewrite Hs, Hs' in Hh.
    simpl in Hh. destruct s, s'. simpl in *. by simplify_eq.
Qed.

End IndexFrame.

(** A one-dimensional instance: a cell is a segment with the subspaces 0
    (low corner), 1 (high corner) and 2 (the interior); QEFs count their
    samples, a vertex is a subspace number, an error is a natural number,
    a region is its level, and a neighbour table lists, for each subspace,
    the address of the subspace a neighbour owns.  The interval evaluation
    is not safe on the regions 0 and 2. *)
#[local] Instance ex_collab
  : Collaborators nat nat nat Z nat nat (Z * Z) (list (option nat)) := {|
  qzero := 0;
  qadd := Nat.add;
  vzero := 0;
  dzero := 0;
  dlt := Nat.ltb;
  dmax := Nat.max;
  region_level := λ r, r;
  interval_evalAndPush := λ r h, ((Z.of_nat h - 2, Z.of_nat h - 1)%Z, S h,
                                 negb (Nat.eqb r 0 || Nat.eqb r 2));
  Interval_state := λ i, if decide (i.2 < 0)%Z then FILLED
                         else if decide (0 < i.1)%Z then EMPTY else AMBIGUOUS;
  sample_corner := λ _ _ _ q, S q;
  array_value := λ v _ _, (Z.of_nat v - 1)%Z;
  fl_eq0 := λ x, bool_decide (x = 0%Z);
  fl_lt0 := λ x, bool_decide (x < 0)%Z;
  feature_isInside := λ _ _ _, false;
  solve_subspace := λ s qefs _, (s, foldr Nat.add 0 qefs);
  ni_fixed := λ j, if decide (j = 2) then 0 else 1;
  ni_floating := λ j, if decide (j = 2) then 1 else 0;
  ni_pos := λ j, if decide (j = 1) then 1 else 0;
  ni_fromPosAndFloating := λ p f, if decide (f = 0) then p else 2;
  ni_isCorner := λ j, bool_decide (j < 2);
  corner_neighbor := λ i, i;
  nb_empty := [];
  nb_check := λ nb i, mjoin (nb !! i);
  nb_candidates := λ nb i, match mjoin (nb !! i) with Some l => [l] | None => [] end;
  fresh_vert := λ _, 0;
  fresh_refcount := λ _, 0%Z
|}.

(** The high child sees the high corner of the low child as its low corner. *)
Definition ex_nb_push (top : list (option nat)) (i : nat)
    (cs : list (option (@SimplexTree nat))) : list (option nat) :=
  match i, cs with
  | 1, Some c0 :: _ =>
      [match leaf c0 with Some lf => mjoin (sub lf !! 1) | None => None end]
  | _, _ => []
  end.

(** A subspace owned by one leaf, with no index yet. *)
Definition ex_subspace (q : nat) (ins : bool) : @Subspace nat nat :=
  {| qef := q; vert := 0; inside := ins; index := 0%N; refcount := 1%Z |}.

(** Two empty leaves side by side, sharing the corner at address 1. *)
Definition ex_mem : @Mem nat nat nat :=
  {| heap := list_to_map [(0, ex_subspace 1 false); (1, set_refcount 2 (ex_subspace 1 false));
                          (2, ex_subspace 0 false); (3, ex_subspace 1 false); (4, ex_subspace 0 false)];
     next_loc := 5; free_subs := []; free_leaves := []; free_trees := [] |}.

(** A leaf cell at level 0 with the given subspaces, child [pi] of its
    parent. *)
Definition ex_leaf_cell (ty : State) (subs : list (option nat)) (pi : nat)
  : @SimplexTree nat :=
  {| type := ty; leaf := Some {| level := 0; tape := Some 7; sub := subs |};
     children := [None; None]; parent := true; parent_index := pi; pending := (-1)%Z |}.

(** The low and the high child. *)
Definition ex_low : @SimplexTree nat := ex_leaf_cell EMPTY [Some 0; Some 1; Some 2] 0.
Definition ex_high : @SimplexTree nat := ex_leaf_cell EMPTY [Some 1; Some 3; Some 4] 1.

(** Their parent, when the last child reports. *)
Definition ex_parent : @SimplexTree nat :=
  {| type := AMBIGUOUS; leaf := None; children := [Some ex_low; Some ex_high];
     parent := false; parent_index := 0; pending := 0%Z |}.

(** A low child that is filled and a high child that is empty. *)
Definition ex_mixed : @SimplexTree nat :=
  {| type := AMBIGUOUS; leaf := None;
     children := [Some (ex_leaf_cell FILLED [Some 0; Some 1; Some 2] 0); Some ex_high];
     parent := false; parent_index := 0; pending := 0%Z |}.


Lemma evalInterval_unsafe_witness :
  evalInterval 1 ex_parent 7 2 ex_mem
  = Ok (mkOutcome 7 (set_type AMBIGUOUS ex_parent) false, ex_mem) ∧
  build_cell 1 ex_parent 7 2 [] ex_mem
  = Ok (mkOutcome (Subdivide (2 ^ 1) 7) (set_type AMBIGUOUS ex_parent) false, ex_mem).
Proof.
  assert ((interval_evalAndPush 2 7).2 = false) as Hunsafe by (vm_compute; reflexivity).
  destruct (evalInterval_unsafe 1 ex_parent 7 2 [] ex_mem Hunsafe) as [He Hb].
  split; [exact He|]. apply Hb. simpl. lia.
Defined.

(** C7 as stated fails: both children of [ex_parent] are [EMPTY] leaves and
    no error is below the bound 0, yet the merge commits: the children are
    released and the parent keeps a leaf. *)
Lemma collectChildren_commits_without_error_test :
  ∃ o m',
    collectChildren 1 ex_parent 7 1 0 ex_mem = Ok (o, m') ∧
    pending ex_parent = 0%Z ∧ has_branch (children ex_parent) = false ∧
    (∀ err : nat, dlt err 0 = false) ∧
    value o = true ∧ is_Some (leaf (cell o)) ∧ type (cell o) = EMPTY ∧
    children (cell o) = [None; None] ∧ children (cell o) ≠ children ex_parent.
Proof.
  eexists _, _. split; [vm_compute; reflexivity|]. simpl.
  split_and!; done.
Qed.

Lemma collectChildren_outcomes_witness :
  ∃ o m' m0 m1 m2 (err : nat) m3 m4 flags,
    collectChildren 1 ex_mixed 7 1 100 ex_mem = Ok (o, m') ∧
    pending ex_mixed = 0%Z ∧ has_branch (children ex_mixed) = false ∧
    merged_type (children ex_mixed) = AMBIGUOUS ∧
    value o = true ∧ done o = true ∧ flags_agree 1 (cell o) m' ∧
    pool_get_leaf 1 ex_mem = Ok (Leaf_new 1, m0) ∧
    take_subs (replicate (3 ^ 1) None) [] m0 = Ok ([Some 5; Some 6; Some 7], m1) ∧
    let lf := {| level := 1; tape := Some 7; sub := [Some 5; Some 6; Some 7] |} in
    foldlS (sum_step 1 lf (children ex_mixed))
           (i ← seq 0 (2 ^ 1); j ← seq 0 (3 ^ 1); [(i, j)]) () m1 = Ok ((), m2) ∧
    Unroller 1 lf (replicate (3 ^ 1) false) 1 m2 = Ok (err, m3) ∧
    dlt err 100 = true ∧
    signs_saved [Some 5; Some 6; Some 7] 1 7 m3 m4 ∧
    Forall2 (flag_at m4) [Some 5; Some 6; Some 7] flags ∧
    cell o = set_children [None; None]
               (set_type (type_of_flags flags)
                  (set_leaf (Some lf) (set_pending (-1) ex_mixed))) ∧
    isBranch (cell o) = false ∧
    children_released (children ex_mixed) m4 m'.
Proof.
  assert (∃ o m', collectChildren 1 ex_mixed 7 1 100 ex_mem = Ok (o, m'))
    as (o & m' & Hrun) by (eexists _, _; vm_compute; reflexivity).
  pose proof (collectChildren_outcomes 1 ex_mixed 7 1 100 ex_mem o m' Hrun) as Hw.
  cbn zeta in Hw.
  rewrite decide_False in Hw by (simpl; lia).
  change (has_branch (children ex_mixed)) with false in Hw.
  destruct Hw as (Hv & Hd & _ & Hfl & m0 & Hget & Hw).
  rewrite decide_True in Hw by reflexivity.
  destruct Hw as (subs & m1 & m2 & err & m3 & Hsubs & _ & Hsum & Hun & Hw).
  assert (subs = [Some 5; Some 6; Some 7]) as ->.
  { injection Hget as <-. vm_compute in Hsubs. by injection Hsubs as <- _. }
  assert (dlt err 100 = true) as Herr.
  { injection Hget as <-. vm_compute in Hsubs. injection Hsubs as <-.
    vm_compute in Hsum. injection Hsum as <-.
    vm_compute in Hun. by injection Hun as <- _. }
  rewrite Herr in Hw.
  destruct Hw as (m4 & flags & Hsave & Hflags & Hcell & Hbr & Hrel).
  exists o, m', m0, m1, m2, err, m3, m4, flags. cbn zeta.
  split; [exact Hrun|]. do 3 (split; [reflexivity|]).
  split; [exact Hv|]. split; [exact Hd|]. split; [exact Hfl|].
  split; [exact Hget|]. split; [exact Hsubs|]. split; [exact Hsum|].
  split; [exact Hun|]. split; [exact Herr|]. split; [exact Hsave|].
  split; [exact Hflags|]. split; [exact Hcell|]. split; [exact Hbr|exact Hrel].
Defined.

Lemma pure_cells_have_uniform_flags_witness :
  ∃ o m',
    evalInterval 1 ex_parent 0 1 ex_mem = Ok (o, m') ∧
    type (cell o) = FILLED ∧ flags_agree 1 (cell o) m'.
Proof.
  eexists _, _. split; [vm_compute; reflexivity|]. split; [reflexivity|].
  apply (proj1 (proj2 (proj2 (pure_cells_have_uniform_flags 1))) ex_parent 0 1 ex_mem).
  vm_compute. reflexivity.
Defined.






Lemma ex_corners : corners_ok 1.
Proof. intros i Hi. simpl in *. lia. Qed.

Lemma ex_targets : targets_ok 1.
Proof.
  intros i j Hi Hj _. simpl in Hi, Hj.
  destruct i as [|[|i]]; [..|lia]; (destruct j as [|[|[|j]]]; [..|lia]);
    vm_compute; lia.
Qed.

Lemma ex_check_empty (m : @Mem nat nat nat) : check_ok m nb_empty.
Proof. intros i l Hl. done. Qed.

(** A table whose only entry lends the subspace at address 1 as the low
    corner. *)
Lemma ex_check_lend : check_ok ex_mem [Some 1].
Proof.
  intros i l Hl. simpl in Hl. destruct i as [|i]; simpl in Hl; [|done].
  injection Hl as <-. by eexists.
Qed.

Lemma ex_heap l : l < 5 → ptr_ok ex_mem (Some l).
Proof.
  intros Hl. exists l. split; [done|].
  do 5 (destruct l as [|l]; [by eexists|]). lia.
Qed.

Lemma ex_leaf_ok l0 l1 l2 :
  l0 < 5 → l1 < 5 → l2 < 5 →
  leaf_ok 1 ex_mem {| level := 0; tape := Some 7; sub := [Some l0; Some l1; Some l2] |}.
Proof.
  intros H0 H1 H2. split; [done|]. simpl.
  repeat apply Forall_cons_2; try apply Forall_nil_2; by apply ex_heap.
Qed.

Lemma ex_child_ok ty l0 l1 l2 pi :
  l0 < 5 → l1 < 5 → l2 < 5 →
  child_ok 1 ex_mem (Some (ex_leaf_cell ty [Some l0; Some l1; Some l2] pi)).
Proof.
  intros H0 H1 H2. eexists. split; [done|]. intros _. eexists. split; [done|].
  by apply ex_leaf_ok.
Qed.

Lemma ex_mixed_ready : ready 1 ex_mixed ex_mem.
Proof.
  split; [done|]. split; [done|]. simpl.
  repeat apply Forall_cons_2; try apply Forall_nil_2; apply ex_child_ok; lia.
Qed.

(** A fresh cell that holds an empty leaf, as [evalLeaf] hands it to
    [findLeafVertices]. *)
Definition ex_fresh : @SimplexTree nat :=
  ex_leaf_cell AMBIGUOUS [None; None; None] 1.

Lemma findLeafVertices_borrows_witness :
  ∃ lf' m',
    findLeafVertices 1 ex_fresh 7 0 [Some 1] ex_mem = Ok (set_leaf (Some lf') ex_fresh, m') ∧
    level lf' = 0 ∧ tape lf' = Some 7 ∧
    leaf_ok 1 m' lf' ∧ grows ex_mem m' ∧
    ∀ i l, i < 3 ^ 1 → nb_check [Some 1] i = Some l → sub lf' !! i = Some (Some l).
Proof.
  apply (findLeafVertices_borrows 1 ex_fresh
           {| level := 0; tape := Some 7; sub := [None; None; None] |} 7 0 [Some 1] ex_mem).
  - exact ex_corners.
  - reflexivity.
  - reflexivity.
  - exact ex_check_lend.
Defined.

Lemma evalInterval_outcome_witness :
  ∃ out m',
    evalInterval 1 ex_parent 0 1 ex_mem = Ok (out, m') ∧
    value out = 1 ∧ type (cell out) = FILLED ∧
    children (cell out) = children ex_parent ∧ pending (cell out) = pending ex_parent ∧
    done out = true ∧ grows ex_mem m' ∧
    ∃ lf, leaf (cell out) = Some lf ∧ level lf = 1 ∧ leaf_ok 1 m' lf.
Proof.
  destruct (evalInterval_outcome 1 ex_parent 0 1 ex_mem ex_corners (ex_check_empty ex_mem))
    as (out & m' & He & Hv & Ht & Hc & Hp & Hd).
  rewrite decide_True in Hd by (left; vm_compute; reflexivity).
  exists out, m'. split; [exact He|]. split; [exact Hv|]. split; [exact Ht|].
  split; [exact Hc|]. split; [exact Hp|]. exact Hd.
Defined.

Lemma evalLeaf_outcome_witness :
  ∃ out m' lf,
    evalLeaf 1 ex_parent 7 0 [Some 1] ex_mem = Ok (out, m') ∧ done out = true ∧
    leaf (cell out) = Some lf ∧ level lf = 0 ∧ tape lf = Some 7 ∧
    leaf_ok 1 m' lf ∧ grows ex_mem m' ∧
    (∀ i l, i < 3 ^ 1 → nb_check [Some 1] i = Some l → sub lf !! i = Some (Some l)) ∧
    type (cell out) ≠ UNKNOWN ∧ children (cell out) = children ex_parent.
Proof.
  pose proof (evalLeaf_outcome 1 ex_parent 7 0 [Some 1] ex_mem ex_corners ex_check_lend)
    as Hw.
  rewrite decide_True in Hw by reflexivity. exact Hw.
Defined.

Lemma collectChildren_returns_witness :
  returns (collectChildren 1 ex_mixed 7 1 0) ex_mem.
Proof.
  apply (proj1 (collectChildren_returns 1 ex_mixed 7 1 0 ex_mem
                  ex_corners ex_targets (ex_check_empty ex_mem))).
  right. exact ex_mixed_ready.
Defined.

Lemma collectChildren_counts_down_witness :
  collect_calls 1 2 (set_pending 2 ex_parent) 7 1 0 ex_mem
  = Ok ((replicate 2 (false, false),
         set_pending (Z.of_nat 2 - Z.of_nat 2) (set_pending 2 ex_parent)), ex_mem).
Proof.
  apply (collectChildren_counts_down 1 2 (set_pending 2 ex_parent) 7 1 0 ex_mem).
  - reflexivity.
  - lia.
Defined.

Lemma checkVertexSigns_confirms_witness :
  ∃ c' m',
    findLeafVertices 1 ex_low 7 0 [] ex_mem = Ok (c', m') ∧
    checkVertexSigns c' m' = Ok (c', m').
Proof.
  eexists _, _. split; [vm_compute; reflexivity|].
  apply (checkVertexSigns_confirms 1 ex_low 7 0 [] ex_mem).
  - right. reflexivity.
  - vm_compute. reflexivity.
  - intros lf [= <-]. reflexivity.
Defined.

Lemma leafLevel_of_built_cells_witness :
  (∃ out m', evalLeaf 1 ex_low 7 0 [Some 1] ex_mem = Ok (out, m') ∧
             leafLevel (cell out) = Ok 0%N) ∧
  ∃ out m', evalInterval 1 ex_low 7 0 ex_mem = Ok (out, m') ∧
    leafLevel (cell out) =
      match type (cell out) with
      | FILLED | EMPTY => Ok (N.of_nat 0)
      | AMBIGUOUS => match leaf ex_low with
                     | Some lf => Ok (N.of_nat (level lf))
                     | None => Err AssertFailed
                     end
      | UNKNOWN => Ok UINT32_MAX
      end.
Proof.
  destruct (leafLevel_of_built_cells 1 ex_low 7 0 [Some 1] ex_mem
              ex_corners ex_check_lend (ex_check_empty ex_mem) eq_refl) as [Hl Hi].
  split; [exact (Hl eq_refl)|exact Hi].
Defined.

Lemma releaseTo_accounts_witness :
  ∃ m', releaseTo ex_low ex_mem = Ok ((), m') ∧
    (∀ l, heap m' !! l = dropped [Some 0; Some 1; Some 2] l <$> heap ex_mem !! l) ∧
    free_subs m'
    = reverse (omap id (filter (λ p, last_owner ex_mem p = true) [Some 0; Some 1; Some 2]))
      ++ free_subs ex_mem ∧
    free_leaves m'
    = {| level := 0; tape := Some 7; sub := replicate 3 None |} :: free_leaves ex_mem ∧
    free_trees m' = set_leaf None ex_low :: free_trees ex_mem ∧
    next_loc m' = next_loc ex_mem.
Proof.
  apply (releaseTo_accounts ex_low
           {| level := 0; tape := Some 7; sub := [Some 0; Some 1; Some 2] |} ex_mem).
  - reflexivity.
  - apply (bool_decide_unpack _). vm_compute. exact I.
  - repeat apply Forall_cons_2; try apply Forall_nil_2; apply ex_heap; lia.
Defined.

Lemma assignIndices_only_indexes_witness :
  ∃ k m',
    assignIndices 1 ex_nb_push ex_parent ex_mem = Ok (k, m') ∧
    (∀ l, heap m' !! l = None ↔ heap ex_mem !! l = None) ∧
    (∀ l s s', heap ex_mem !! l = Some s → heap m' !! l = Some s' →
       qef s' = qef s ∧ vert s' = vert s ∧ inside s' = inside s ∧
       refcount s' = refcount s) ∧
    next_loc m' = next_loc ex_mem ∧ free_subs m' = free_subs ex_mem ∧
    free_leaves m' = free_leaves ex_mem ∧ free_trees m' = free_trees ex_mem.
Proof.
  eexists _, _. split; [vm_compute; reflexivity|].
  eapply (assignIndices_only_indexes 1 ex_nb_push ex_parent ex_mem).
  vm_compute. reflexivity.
Defined.

End SimplexProofs.
